(** * A shallow embedding of the hand-written neural-network operators

    The development follows [nn/operators.py] (the class-based operators) and
    [nn/operations.py] (their free-function duplicates).

    - Section "Python values": exceptions, the error monad, float64 scalars.
    - Section "numpy": n-dimensional arrays (shape + row-major data) and the
      numpy primitives the operators call.
    - Modules [operations] and [operators]: the two source files.
    - Theorems about output sizes, gradients' shapes, pooling, dropout,
      the GRU cell and the loss.
    - Module [Store] and the modules [operations_in_store] and
      [operators_in_store]: the same functions on array objects that share
      buffers, with the theorem that no call writes to an array it received
      and the agreement of the two embeddings. *)

From Stdlib Require Import String.
From Stdlib Require Import List ZArith Lia Bool Arith PeanoNat.
From Stdlib Require Import Floats Uint63.
From Stdlib Require Import Reals Lra.
Import ListNotations.

Set Implicit Arguments.
Unset Strict Implicit.
Set Default Proof Using "Type".

(* ===================================================================== *)
(** * Python values *)
(* ===================================================================== *)

(** The exceptions the operators (and the numpy calls under them) raise.
    [Unmodelled] is not a Python exception: it marks a call outside what this
    development covers (numpy's matmul on arrays that are not 2-D, for
    instance), so that no theorem mistakes it for a value or for an error of
    the program. *)
Inductive exn : Type :=
| ValueError (msg : string)
| TypeError (msg : string)
| IndexError
| ZeroDivisionError
| AttributeError
| UnboundLocalError
| Unmodelled (what : string).

(** A call either returns a value or raises. *)
Inductive result (A : Type) : Type :=
| Ok (a : A)
| Raise (e : exn).
Arguments Ok {A} a.
Arguments Raise {A} e.

Definition bind {A B : Type} (c : result A) (k : A -> result B) : result B :=
  match c with
  | Ok a => k a
  | Raise e => Raise e
  end.

Declare Scope result_scope.
Delimit Scope result_scope with result.
Notation "x <- c ;; k" := (bind c (fun x => k))
  (at level 61, c at next level, right associativity) : result_scope.
Notation "' p <- c ;; k" := (bind c (fun x => let p := x in k))
  (at level 61, p pattern, c at next level, right associativity) : result_scope.
Local Open Scope result_scope.

Definition is_ok {A : Type} (c : result A) : bool :=
  match c with Ok _ => true | Raise _ => false end.

(** float64 scalars: the operations the operators use on array elements.
    The carrier is kept abstract so that the same model runs on the kernel's
    binary64 floats and on the real numbers that floats approximate. *)
Class Scalar : Type := {
  num : Type;
  s_zero : num;
  s_one : num;
  s_add : num -> num -> num;
  s_sub : num -> num -> num;
  s_mul : num -> num -> num;
  s_div : num -> num -> num;
  s_leb : num -> num -> bool;   (* x <= y *)
  s_eqb : num -> num -> bool;   (* x == y *)
  s_of_Z : Z -> num;            (* float(n) for a Python int n *)
  nan_to_num : num -> num;      (* np.nan_to_num on one element *)
}.

(** The transcendental functions of numpy, and [sigmoid] of [nn.functional]
    (a module of the repository the operators import). [s_eps] is the
    literal 1e-12. *)
Class Transcendental (S : Scalar) : Type := {
  s_exp : num -> num;
  s_log : num -> num;
  s_tanh : num -> num;
  sigmoid : num -> num;
  s_eps : num;
}.

(** numpy's global random generator. [np.random.seed(n)] sets the state from
    the integer [n] alone, and raises ValueError for an [n] outside
    [[0, 2**32)]; [np.random.seed(None)] draws a fresh seed from the
    operating system. [next_double] is one uniform draw of [[0, 1)]. *)
Class Random (S : Scalar) : Type := {
  rng_state : Type;
  entropy : Type;
  seed_state : Z -> rng_state;
  os_seed : entropy -> Z * entropy;
  next_double : rng_state -> num * rng_state;
}.

Fixpoint random_sample {S : Scalar} {G : Random S} (st : rng_state) (n : nat)
  : list num * rng_state :=
  match n with
  | 0 => ([], st)
  | S n' => let '(x, st') := next_double st in
            let '(xs, st'') := random_sample st' n' in
            (x :: xs, st'')
  end.

(** What the interpreter holds between calls: the generator's state and the
    operating system's entropy source. *)
Record world {S : Scalar} {G : Random S} : Type := mk_world {
  rng : rng_state;
  os : entropy;
}.

Definition np_random_seed {S : Scalar} {G : Random S} (seed : option Z) (w : world)
  : result world :=
  match seed with
  | Some n =>
      if ((0 <=? n) && (n <? 2 ^ 32))%Z
      then Ok (mk_world (seed_state n) (os w))
      else Raise (ValueError "Seed must be between 0 and 2**32 - 1")
  | None => let '(n, e) := os_seed (os w) in Ok (mk_world (seed_state n) e)
  end.

(** The seeds [np.random.seed] accepts: None, or an integer of [[0, 2**32)]. *)
Definition valid_seed (seed : option Z) : Prop :=
  match seed with
  | Some n => (0 <= n < 2 ^ 32)%Z
  | None => True
  end.

(** A default element, returned by a read outside a list. Reads of the model
    are guarded, so the default never reaches a result. *)
Class Dflt (A : Type) : Type := dflt : A.
#[export] Instance Dflt_num {S : Scalar} : Dflt num := s_zero.
#[export] Instance Dflt_Z : Dflt Z := 0%Z.
#[export] Instance Dflt_nat : Dflt nat := 0.
#[export] Instance Dflt_bool : Dflt bool := false.

(** binary64, computed by the kernel. *)
#[export] Instance float_scalar : Scalar := {|
  num := float;
  s_zero := 0%float;
  s_one := 1%float;
  s_add := PrimFloat.add;
  s_sub := PrimFloat.sub;
  s_mul := PrimFloat.mul;
  s_div := PrimFloat.div;
  s_leb := PrimFloat.leb;
  s_eqb := PrimFloat.eqb;
  s_of_Z := fun z => match z with
                     | Z0 => 0%float
                     | Zpos p => PrimFloat.of_uint63 (Uint63.of_Z (Zpos p))
                     | Zneg p => PrimFloat.opp (PrimFloat.of_uint63 (Uint63.of_Z (Zpos p)))
                     end;
  nan_to_num := fun x =>
    if PrimFloat.is_nan x then 0%float
    else if PrimFloat.is_infinity x
         then (if PrimFloat.ltb x 0 then PrimFloat.opp 0x1.fffffffffffffp+1023
               else 0x1.fffffffffffffp+1023)%float
         else x;
|}.

Example float_scalar_runs : s_div (s_of_Z 1) (s_sub (s_of_Z 1) 0.75%float) = 4%float.
Proof. reflexivity. Qed.

(* ===================================================================== *)
(** * numpy: n-dimensional arrays *)
(* ===================================================================== *)

(** An array is its shape and its elements in row-major (C) order. *)
Record ndarray (A : Type) : Type := mk_ndarray {
  shape : list nat;
  data : list A;
}.
Arguments mk_ndarray {A} shape data.

Definition size_of (sh : list nat) : nat := fold_right Nat.mul 1 sh.

(** [np.random.random_sample(shape)]. *)
Definition np_random_random_sample {S : Scalar} {G : Random S} (sh : list nat) (w : world)
  : ndarray num * world :=
  let '(xs, st) := random_sample (rng w) (size_of sh) in
  (mk_ndarray sh xs, mk_world st (os w)).

(** Row-major offset of a multi-index, and its inverse. *)
Fixpoint ravel (sh idx : list nat) : nat :=
  match sh, idx with
  | _ :: sh', i :: idx' => i * size_of sh' + ravel sh' idx'
  | _, _ => 0
  end.

Fixpoint unravel (sh : list nat) (n : nat) : list nat :=
  match sh with
  | [] => []
  | _ :: sh' => n / size_of sh' :: unravel sh' (n mod size_of sh')
  end.

Fixpoint in_bounds (sh idx : list nat) : bool :=
  match sh, idx with
  | [], [] => true
  | d :: sh', i :: idx' => (i <? d) && in_bounds sh' idx'
  | _, _ => false
  end.

Definition wf {A : Type} (a : ndarray A) : Prop :=
  length (data a) = size_of (shape a).

Definition get {A : Type} `{Dflt A} (a : ndarray A) (idx : list nat) : A :=
  nth (ravel (shape a) idx) (data a) dflt.

(** The array of shape [sh] whose element at [idx] is [f idx]. *)
Definition build {A : Type} (sh : list nat) (f : list nat -> A) : ndarray A :=
  mk_ndarray sh (map (fun n => f (unravel sh n)) (seq 0 (size_of sh))).

Definition map_nd {A B : Type} (f : A -> B) (a : ndarray A) : ndarray B :=
  mk_ndarray (shape a) (map f (data a)).

(** All multi-indices of a shape, in row-major order. *)
Definition indices (sh : list nat) : list (list nat) :=
  map (unravel sh) (seq 0 (size_of sh)).

Section IndexLemmas.

Lemma ravel_lt sh : forall idx,
  in_bounds sh idx = true -> ravel sh idx < size_of sh.
Proof.
  induction sh as [|d sh IH]; intros [|i idx] Hb; simpl in *; try discriminate; try lia.
  apply andb_true_iff in Hb as [Hi Hr]. apply Nat.ltb_lt in Hi.
  specialize (IH _ Hr). nia.
Qed.

Lemma unravel_in_bounds sh : forall n,
  n < size_of sh -> in_bounds sh (unravel sh n) = true.
Proof.
  induction sh as [|d sh IH]; intros n Hn; simpl in *; [reflexivity|].
  assert (Hpos : size_of sh <> 0) by (intro E; rewrite E in Hn; lia).
  apply andb_true_iff; split.
  - apply Nat.ltb_lt. apply Nat.Div0.div_lt_upper_bound. lia.
  - apply IH. apply Nat.mod_upper_bound. exact Hpos.
Qed.

Lemma ravel_unravel sh : forall n,
  n < size_of sh -> ravel sh (unravel sh n) = n.
Proof.
  induction sh as [|d sh IH]; intros n Hn; simpl in *; [lia|].
  assert (Hpos : size_of sh <> 0) by (intro E; rewrite E in Hn; lia).
  rewrite IH by (apply Nat.mod_upper_bound; exact Hpos).
  rewrite (Nat.div_mod_eq n (size_of sh)) at 3. lia.
Qed.

Lemma unravel_ravel sh : forall idx,
  in_bounds sh idx = true -> unravel sh (ravel sh idx) = idx.
Proof.
  induction sh as [|d sh IH]; intros [|i idx] Hb; simpl in *; try discriminate; [reflexivity|].
  apply andb_true_iff in Hb as [Hi Hr].
  pose proof (ravel_lt Hr) as Hlt.
  assert (Hpos : size_of sh <> 0) by lia.
  f_equal.
  - rewrite Nat.div_add_l by exact Hpos. rewrite Nat.div_small by exact Hlt. lia.
  - rewrite Nat.add_comm, Nat.Div0.mod_add. rewrite Nat.mod_small by exact Hlt.
    apply IH. exact Hr.
Qed.

Lemma in_bounds_length sh : forall idx,
  in_bounds sh idx = true -> length idx = length sh.
Proof.
  induction sh as [|d sh IH]; intros [|i idx] Hb; simpl in *; try discriminate; [reflexivity|].
  apply andb_true_iff in Hb as [_ Hr]. f_equal. apply IH. exact Hr.
Qed.

Lemma unravel_length sh n : length (unravel sh n) = length sh.
Proof. revert n. induction sh as [|d sh IH]; intro n; simpl; [reflexivity|]. f_equal. apply IH. Qed.

End IndexLemmas.

Section BuildLemmas.
Context {A : Type} `{Dflt A}.

Lemma build_shape sh (f : list nat -> A) : shape (build sh f) = sh.
Proof. reflexivity. Qed.

Lemma build_wf sh (f : list nat -> A) : wf (build sh f).
Proof. unfold wf, build; simpl. rewrite length_map, length_seq. reflexivity. Qed.

Lemma get_build sh (f : list nat -> A) idx :
  in_bounds sh idx = true -> get (build sh f) idx = f idx.
Proof.
  intro Hb. unfold get, build; simpl.
  pose proof (ravel_lt Hb) as Hlt.
  rewrite nth_indep with (d' := f (unravel sh 0))
    by (rewrite length_map, length_seq; exact Hlt).
  rewrite (map_nth (fun n => f (unravel sh n)) (seq 0 (size_of sh)) 0).
  rewrite seq_nth by exact Hlt. simpl. rewrite unravel_ravel by exact Hb. reflexivity.
Qed.

Lemma map_nd_shape {B : Type} (g : A -> B) (a : ndarray A) : shape (map_nd g a) = shape a.
Proof. reflexivity. Qed.

End BuildLemmas.

(* --------------------------------------------------------------------- *)
(** ** Shape-changing primitives *)

Fixpoint mapM {A B : Type} (f : A -> result B) (xs : list A) : result (list B) :=
  match xs with
  | [] => Ok []
  | x :: xs' => y <- f x ;; ys <- mapM f xs' ;; Ok (y :: ys)
  end.

(** [a.reshape(newshape)]: one entry may be [-1] and is then inferred. numpy
    refuses a negative entry other than [-1], two unknown entries, an
    unknown entry beside a zero one, and a size that does not fit. *)
Definition reshape {A : Type} (a : ndarray A) (newshape : list Z) : result (ndarray A) :=
  let size := length (data a) in
  if existsb (fun d => (d <? -1)%Z) newshape then
    Raise (ValueError "negative dimensions not allowed")
  else
    let known := fold_right Nat.mul 1
                   (map Z.to_nat (filter (fun d => negb (d =? -1)%Z) newshape)) in
    match length (filter (fun d => (d =? -1)%Z) newshape) with
    | 0 => if known =? size
           then Ok (mk_ndarray (map Z.to_nat newshape) (data a))
           else Raise (ValueError "cannot reshape array")
    | 1 => if (known =? 0) || negb (size mod known =? 0)
           then Raise (ValueError "cannot reshape array")
           else Ok (mk_ndarray
                      (map (fun d => if (d =? -1)%Z then size / known else Z.to_nat d) newshape)
                      (data a))
    | _ => Raise (ValueError "can only specify one unknown dimension")
    end.

(** Position of axis [ax] in the permutation [perm]. *)
Fixpoint find_index (ax : nat) (perm : list nat) : nat :=
  match perm with
  | [] => 0
  | p :: perm' => if p =? ax then 0 else S (find_index ax perm')
  end.

(** [a.transpose(perm)]: axis [k] of the result is axis [perm[k]] of [a]. *)
Definition transpose {A : Type} `{Dflt A} (a : ndarray A) (perm : list nat) : ndarray A :=
  build (map (fun p => nth p (shape a) 0) perm)
        (fun idx => get a (map (fun ax => nth (find_index ax perm) idx 0)
                               (seq 0 (length (shape a))))).

(** [a.T]: the axes reversed. *)
Definition T_ {A : Type} `{Dflt A} (a : ndarray A) : ndarray A :=
  transpose a (rev (seq 0 (length (shape a)))).

Fixpoint foldM {A B : Type} (f : B -> A -> result B) (xs : list A) (acc : B) : result B :=
  match xs with
  | [] => Ok acc
  | x :: xs' => acc' <- f acc x ;; foldM f xs' acc'
  end.

(** [np.pad(a, pad_width, mode='constant', constant_values=0)] with one
    (before, after) pair per axis. *)
Definition np_pad {A : Type} `{Dflt A} (zero : A) (a : ndarray A) (pad_width : list (nat * nat))
  : ndarray A :=
  build (map (fun '(d, (b, e)) => b + d + e) (combine (shape a) pad_width))
        (fun idx =>
           if forallb (fun '(i, (d, (b, _))) => (b <=? i) && (i <? b + d))
                      (combine idx (combine (shape a) pad_width))
           then get a (map (fun '(i, (b, _)) => i - b) (combine idx pad_width))
           else zero).

(** Python's reading of a slice bound against an axis of length [n]: a
    negative bound counts from the end, and the result is clipped. *)
Definition slice_bound (n : nat) (i : Z) : nat :=
  let i' := if (i <? 0)%Z then (i + Z.of_nat n)%Z else i in
  Z.to_nat (Z.max 0 (Z.min i' (Z.of_nat n))).

(** A basic slice [a[s0, s1, ...]]: [None] is [:], [Some (lo, hi)] is [lo:hi]. *)
Definition slice_range (n : nat) (s : option (Z * Z)) : nat * nat :=
  match s with
  | None => (0, n)
  | Some (lo, hi) => (slice_bound n lo, slice_bound n hi - slice_bound n lo)
  end.

Definition slice {A : Type} `{Dflt A} (a : ndarray A) (spec : list (option (Z * Z))) : ndarray A :=
  let ranges := map (fun '(d, s) => slice_range d s) (combine (shape a) spec) in
  build (map snd ranges)
        (fun idx => get a (map (fun '(i, (lo, _)) => lo + i) (combine idx ranges))).

Definition all_equal_shapes {A : Type} (arrs : list (ndarray A)) : bool :=
  match arrs with
  | [] => true
  | a :: rest => forallb (fun b => if list_eq_dec Nat.eq_dec (shape b) (shape a) then true else false) rest
  end.

(** [np.stack(arrs, axis=-1)]. *)
Definition stack_last {A : Type} `{Dflt A} (arrs : list (ndarray A)) : result (ndarray A) :=
  match arrs with
  | [] => Raise (ValueError "need at least one array to stack")
  | a :: _ =>
      if all_equal_shapes arrs
      then Ok (build (shape a ++ [length arrs])
                 (fun idx => get (nth (last idx 0) arrs a) (removelast idx)))
      else Raise (ValueError "all input arrays must have the same shape")
  end.

(** [np.stack(arrs, axis=0)]. *)
Definition stack_first {A : Type} `{Dflt A} (arrs : list (ndarray A)) : result (ndarray A) :=
  match arrs with
  | [] => Raise (ValueError "need at least one array to stack")
  | a :: _ =>
      if all_equal_shapes arrs
      then Ok (build (length arrs :: shape a)
                 (fun idx => get (nth (hd 0 idx) arrs a) (tl idx)))
      else Raise (ValueError "all input arrays must have the same shape")
  end.

(** The sub-arrays [a[0], a[1], ...] an iteration over [a] yields. *)
Definition rows_of {A : Type} `{Dflt A} (a : ndarray A) : list (ndarray A) :=
  match shape a with
  | [] => []
  | n :: sh => map (fun i => build sh (fun idx => get a (i :: idx))) (seq 0 n)
  end.

(* --------------------------------------------------------------------- *)
(** ** Broadcasting and element-wise operations *)

(** numpy's broadcasting rule, on reversed shapes (trailing axes first). *)
Fixpoint broadcast_rev (s1 s2 : list nat) : option (list nat) :=
  match s1, s2 with
  | [], s => Some s
  | s, [] => Some s
  | d1 :: r1, d2 :: r2 =>
      match broadcast_rev r1 r2 with
      | None => None
      | Some r =>
          if d1 =? d2 then Some (d1 :: r)
          else if d1 =? 1 then Some (d2 :: r)
          else if d2 =? 1 then Some (d1 :: r)
          else None
      end
  end.

Definition broadcast_shapes (s1 s2 : list nat) : option (list nat) :=
  option_map (@rev nat) (broadcast_rev (rev s1) (rev s2)).

(** The index an operand of shape [sh] is read at, for the index [idx] of the
    broadcast result: leading axes dropped, axes of length 1 read at 0. *)
Definition bcast_idx (sh idx : list nat) : list nat :=
  map (fun '(d, i) => if d =? 1 then 0 else i)
      (combine sh (skipn (length idx - length sh) idx)).

Definition broadcast2 {A B C : Type} `{Dflt A} `{Dflt B}
  (f : A -> B -> C) (a : ndarray A) (b : ndarray B) : result (ndarray C) :=
  match broadcast_shapes (shape a) (shape b) with
  | Some sh =>
      Ok (build sh (fun idx => f (get a (bcast_idx (shape a) idx))
                                 (get b (bcast_idx (shape b) idx))))
  | None => Raise (ValueError "operands could not be broadcast together")
  end.

(* --------------------------------------------------------------------- *)
(** ** Index arrays *)

(** [np.arange(n)]. *)
Definition np_arange (n : Z) : list Z := map Z.of_nat (seq 0 (Z.to_nat n)).

(** [np.repeat(xs, k)] of a 1-D array: each element [k] times. *)
Definition np_repeat {A : Type} (xs : list A) (k : Z) : result (list A) :=
  if (k <? 0)%Z then Raise (ValueError "repeats may not contain negative values")
  else Ok (flat_map (fun x => repeat x (Z.to_nat k)) xs).

(** [np.tile(xs, k)] of a 1-D array: the whole array [k] times. numpy repeats
    only a non-empty array, so a negative [k] passes on an empty one. *)
Definition np_tile {A : Type} (xs : list A) (k : Z) : result (list A) :=
  match xs with
  | [] => Ok []
  | _ => if (k <? 0)%Z then Raise (ValueError "repeats may not contain negative values")
         else Ok (concat (repeat xs (Z.to_nat k)))
  end.

Definition array1 {A : Type} (xs : list A) : ndarray A := mk_ndarray [length xs] xs.

(** An integer index against an axis of length [n]: negative indices count
    from the end. *)
Definition norm_index (n : nat) (i : Z) : option nat :=
  if ((0 <=? i) && (i <? Z.of_nat n))%Z then Some (Z.to_nat i)
  else if ((- Z.of_nat n <=? i) && (i <? 0))%Z then Some (Z.to_nat (i + Z.of_nat n))
  else None.

(** The index [a[:, ci, hi, wi]] of a 4-D array by three integer arrays: the
    arrays are broadcast together, and the result has the shape of the first
    axis followed by theirs. [fancy_target] is the cell of [a] that position
    [idx = n :: rest] of the result refers to. *)
Definition fancy_target {A : Type} (a : ndarray A) (ci hi wi : ndarray Z) (idx : list nat)
  : option (list nat) :=
  match shape a, idx with
  | [_; c; h; w], n :: rest =>
      match norm_index c (get ci (bcast_idx (shape ci) rest)),
            norm_index h (get hi (bcast_idx (shape hi) rest)),
            norm_index w (get wi (bcast_idx (shape wi) rest)) with
      | Some i, Some j, Some k => Some [n; i; j; k]
      | _, _, _ => None
      end
  | _, _ => None
  end.

Definition fancy_shape (ci hi wi : list nat) : option (list nat) :=
  match broadcast_shapes ci hi with
  | Some s => broadcast_shapes s wi
  | None => None
  end.

Definition fancy_checked {A : Type} (a : ndarray A) (ci hi wi : ndarray Z) (bsh : list nat) : bool :=
  forallb (fun rest => match fancy_target a ci hi wi (0 :: rest) with
                       | Some _ => true | None => false end)
          (indices bsh).

Definition take4 {A : Type} `{Dflt A} (a : ndarray A) (ci hi wi : ndarray Z) : result (ndarray A) :=
  match shape a with
  | [n; _; _; _] =>
      match fancy_shape (shape ci) (shape hi) (shape wi) with
      | None => Raise IndexError
      | Some bsh =>
          if fancy_checked a ci hi wi bsh
          then Ok (build (n :: bsh)
                     (fun idx => match fancy_target a ci hi wi idx with
                                 | Some t => get a t
                                 | None => dflt
                                 end))
          else Raise IndexError
      end
  | _ => Raise (Unmodelled "fancy index of an array that is not 4-D")
  end.

(** Writing one cell of the flat data. *)
Fixpoint update_nth {A : Type} (n : nat) (f : A -> A) (xs : list A) : list A :=
  match xs, n with
  | [], _ => []
  | x :: xs', 0 => f x :: xs'
  | x :: xs', S n' => x :: update_nth n' f xs'
  end.

Definition update_at {A : Type} (a : ndarray A) (idx : list nat) (f : A -> A) : ndarray A :=
  mk_ndarray (shape a) (update_nth (ravel (shape a) idx) f (data a)).

(* --------------------------------------------------------------------- *)
(** ** Reductions *)

(** The entries of [xs] at the positions listed in [axes] (resp. not listed),
    positions counted from [ax]. *)
Fixpoint pick_axes {A : Type} (ax : nat) (axes : list nat) (xs : list A) : list A :=
  match xs with
  | [] => []
  | x :: xs' => if existsb (Nat.eqb ax) axes
                then x :: pick_axes (S ax) axes xs'
                else pick_axes (S ax) axes xs'
  end.

Fixpoint drop_axes {A : Type} (ax : nat) (axes : list nat) (xs : list A) : list A :=
  match xs with
  | [] => []
  | x :: xs' => if existsb (Nat.eqb ax) axes
                then drop_axes (S ax) axes xs'
                else x :: drop_axes (S ax) axes xs'
  end.

(** With [keepdims], a reduced axis stays with length 1. *)
Fixpoint keep_axes (ax : nat) (axes : list nat) (sh : list nat) : list nat :=
  match sh with
  | [] => []
  | d :: sh' => (if existsb (Nat.eqb ax) axes then 1 else d) :: keep_axes (S ax) axes sh'
  end.

(** The full index made of [kept] on the surviving axes and [red] on the
    reduced ones. *)
Fixpoint merge_idx (ax : nat) (axes : list nat) (sh kept red : list nat) : list nat :=
  match sh with
  | [] => []
  | _ :: sh' =>
      if existsb (Nat.eqb ax) axes
      then hd 0 red :: merge_idx (S ax) axes sh' kept (tl red)
      else hd 0 kept :: merge_idx (S ax) axes sh' (tl kept) red
  end.

Definition reduce_axes {A B : Type} `{Dflt A}
  (f : list A -> B) (axes : list nat) (keepdims : bool) (a : ndarray A) : ndarray B :=
  let sh := shape a in
  build (if keepdims then keep_axes 0 axes sh else drop_axes 0 axes sh)
        (fun idx =>
           let kept := if keepdims then drop_axes 0 axes idx else idx in
           f (map (fun red => get a (merge_idx 0 axes sh kept red))
                  (indices (pick_axes 0 axes sh)))).

(* --------------------------------------------------------------------- *)
(** ** Arithmetic on float64 arrays *)

Section NumpyArith.
Context {S : Scalar}.

Definition tensor : Type := ndarray num.

(** Sums run left to right from 0. numpy may add in another order (pairwise,
    or inside BLAS); the orders agree wherever addition is associative. *)
Definition sum_list (xs : list num) : num := fold_left s_add xs s_zero.

Definition s_max (x y : num) : num := if s_leb x y then y else x.

Definition max_list (xs : list num) : num :=
  match xs with
  | [] => s_zero
  | x :: xs' => fold_left s_max xs' x
  end.

Definition mean_list (xs : list num) : num :=
  s_div (sum_list xs) (s_of_Z (Z.of_nat (length xs))).

Definition of_bool (b : bool) : num := if b then s_one else s_zero.

Definition np_zeros (sh : list nat) : tensor := build sh (fun _ => s_zero).

(** [np.matmul(a, b)] and [a.dot(b)] of 2-D arrays. *)
Definition matmul (a b : tensor) : result tensor :=
  match shape a, shape b with
  | [n; k], [k'; m] =>
      if k =? k'
      then Ok (build [n; m]
                 (fun idx => sum_list (map (fun l => s_mul (get a [nth 0 idx 0; l])
                                                           (get b [l; nth 1 idx 0]))
                                           (seq 0 k))))
      else Raise (ValueError "matmul: mismatch in the core dimension")
  | _, _ => Raise (Unmodelled "matmul of arrays that are not 2-D")
  end.

Definition axis_error : exn := ValueError "axis is out of bounds for array".

Definition axes_ok {A : Type} (axes : list nat) (a : ndarray A) : bool :=
  forallb (fun ax => ax <? length (shape a)) axes.

(** [np.sum(a, axis=..., keepdims=...)]. *)
Definition np_sum (axes : list nat) (keepdims : bool) (a : tensor) : result tensor :=
  if axes_ok axes a then Ok (reduce_axes sum_list axes keepdims a) else Raise axis_error.

(** [np.max(a, axis=..., keepdims=...)]: a reduction over an axis of length
    0 has no identity. *)
Definition np_max (axes : list nat) (keepdims : bool) (a : tensor) : result tensor :=
  if negb (axes_ok axes a) then Raise axis_error
  else if existsb (Nat.eqb 0) (pick_axes 0 axes (shape a))
  then Raise (ValueError "zero-size array to reduction operation maximum which has no identity")
  else Ok (reduce_axes max_list axes keepdims a).

(** [np.mean(a, axis=...)] and [np.average(a, axis=...)]. *)
Definition np_mean (axes : list nat) (a : tensor) : result tensor :=
  if axes_ok axes a then Ok (reduce_axes mean_list axes false a) else Raise axis_error.

(** [np.zeros(shape)] for a shape of Python ints. *)
Definition np_zeros_Z (sh : list Z) : result tensor :=
  if existsb (fun d => (d <? 0)%Z) sh
  then Raise (ValueError "negative dimensions are not allowed")
  else Ok (np_zeros (map Z.to_nat sh)).

(** [a[..., i, ...]] with an integer [i] on axis [ax] and [:] elsewhere. *)
Definition index_axis (ax : nat) (i : nat) (a : tensor) : result tensor :=
  if i <? nth ax (shape a) 0
  then Ok (build (drop_axes 0 [ax] (shape a))
             (fun idx => get a (firstn ax idx ++ i :: skipn ax idx)))
  else Raise IndexError.

(** [a[spec] += v]: [v] is broadcast to the shape of the slice, which is
    updated in place; the rest of [a] is untouched. *)
Definition add_slice (a : tensor) (spec : list (option (Z * Z))) (v : tensor) : result tensor :=
  let ranges := map (fun '(d, s) => slice_range d s) (combine (shape a) spec) in
  let sub := map snd ranges in
  match broadcast_shapes (shape v) sub with
  | Some sh' =>
      if list_eq_dec Nat.eq_dec sh' sub
      then Ok (build (shape a)
                 (fun idx =>
                    if forallb (fun '(i, (lo, len)) => (lo <=? i) && (i <? lo + len))
                               (combine idx ranges)
                    then s_add (get a idx)
                               (get v (bcast_idx (shape v)
                                         (map (fun '(i, (lo, _)) => i - lo) (combine idx ranges))))
                    else get a idx))
      else Raise (ValueError "non-broadcastable output operand")
  | None => Raise (ValueError "operands could not be broadcast together")
  end.

(** [np.add.at(a, (slice(None), ci, hi, wi), vals)]: the unbuffered
    [a[:, ci, hi, wi] += vals], every occurrence of a cell adding in turn. *)
Definition np_add_at (a : tensor) (ci hi wi : ndarray Z) (vals : tensor) : result tensor :=
  match shape a with
  | [n; _; _; _] =>
      match fancy_shape (shape ci) (shape hi) (shape wi) with
      | None => Raise IndexError
      | Some bsh =>
          if negb (fancy_checked a ci hi wi bsh) then Raise IndexError
          else match broadcast_shapes (shape vals) (n :: bsh) with
               | Some sh' =>
                   if list_eq_dec Nat.eq_dec sh' (n :: bsh)
                   then Ok (fold_left
                              (fun acc idx =>
                                 match fancy_target acc ci hi wi idx with
                                 | Some t =>
                                     update_at acc t
                                       (fun x => s_add x (get vals (bcast_idx (shape vals) idx)))
                                 | None => acc
                                 end)
                              (indices (n :: bsh)) a)
                   else Raise (ValueError "shape mismatch: value array cannot be broadcast")
               | None => Raise (ValueError "shape mismatch: value array cannot be broadcast")
               end
      end
  | _ => Raise (Unmodelled "fancy index of an array that is not 4-D")
  end.

(** [np.concatenate(arrs, axis=-1)] of 2-D arrays. *)
Definition concatenate_last (arrs : list tensor) : result tensor :=
  match arrs with
  | [] => Raise (ValueError "need at least one array to concatenate")
  | a :: _ =>
      match shape a with
      | [n; _] =>
          if forallb (fun b => match shape b with
                               | [n'; _] => n' =? n
                               | _ => false
                               end) arrs
          then Ok (mk_ndarray [n; fold_right Nat.add 0 (map (fun b => nth 1 (shape b) 0) arrs)]
                     (flat_map (fun i => flat_map (fun b => map (fun j => get b [i; j])
                                                                (seq 0 (nth 1 (shape b) 0)))
                                                  arrs)
                               (seq 0 n)))
          else Raise (ValueError "all the input array dimensions except for the concatenation axis must match exactly")
      | _ => Raise (Unmodelled "concatenate of arrays that are not 2-D")
      end
  end.

End NumpyArith.

(* ===================================================================== *)
(** * Python arithmetic and layer configurations *)
(* ===================================================================== *)

(** [a // b] on Python ints: floor division. *)
Definition py_floordiv (a b : Z) : result Z :=
  if (b =? 0)%Z then Raise ZeroDivisionError else Ok (a / b)%Z.

(** [x / y] on Python floats. *)
Definition py_div {S : Scalar} (x y : num) : result num :=
  if s_eqb y s_zero then Raise ZeroDivisionError else Ok (s_div x y).

(** [range(n)]. *)
Definition range (n : Z) : list nat := seq 0 (Z.to_nat n).

Definition unpack_error : exn := ValueError "not enough values to unpack (expected 4)".

(** The dictionaries [conv_params] and [pool_params]. Their entries count
    pixels and channels, and are natural numbers. *)
Module conv_params.
Record t : Type := mk {
  kernel_h : nat;
  kernel_w : nat;
  stride : nat;
  pad : nat;
  in_channel : nat;
  out_channel : nat;
}.
End conv_params.

Module pool_params.
Record t : Type := mk {
  pool_type : string;
  pool_height : nat;
  pool_width : nat;
  stride : nat;
  pad : nat;
}.
End pool_params.

(* ===================================================================== *)
(** * nn/operations.py: the free-function operators *)
(* ===================================================================== *)

Module operations.
Section Operations.
Context {S : Scalar}.
Import conv_params.

Definition relu_forward (input : tensor) : tensor :=
  map_nd (fun x => s_max s_zero x) input.

Definition relu_backward (out_grad input : tensor) : result tensor :=
  broadcast2 (fun (b : bool) g => s_mul (of_bool b) g)
             (map_nd (fun x => s_leb s_zero x) input) out_grad.

Definition flatten_forward (input : tensor) : result tensor :=
  match shape input with
  | batch :: _ => reshape input [Z.of_nat batch; -1]%Z
  | [] => Raise IndexError
  end.

Definition flatten_backward (out_grad input : tensor) : result tensor :=
  reshape out_grad (map Z.of_nat (shape input)).

Definition fc_forward (input weights bias : tensor) : result tensor :=
  m <- matmul input weights ;;
  b <- reshape bias [1; -1]%Z ;;
  broadcast2 s_add m b.

Definition fc_backward (out_grad input weights bias : tensor)
  : result (tensor * tensor * tensor) :=
  in_grad <- matmul out_grad (T_ weights) ;;
  w_grad <- matmul (T_ input) out_grad ;;
  b_grad <- np_sum [0] false out_grad ;;
  Ok (in_grad, w_grad, b_grad).

(** The patches of [data] whose top-left corners are the pairs of
    [h_indices] and [w_indices], each flattened per batch element and
    stacked on a new last axis. *)
Definition img2col (data : tensor) (h_indices w_indices : list nat) (k_h k_w : nat)
  : result tensor :=
  match shape data with
  | [batch; _; _; _] =>
      let indices := list_prod h_indices w_indices in
      patches <- mapM (fun x =>
                         reshape (slice data [None; None;
                                              Some (Z.of_nat (fst x), Z.of_nat (fst x + k_h));
                                              Some (Z.of_nat (snd x), Z.of_nat (snd x + k_w))])
                                 [Z.of_nat batch; -1]%Z)
                      indices ;;
      stack_last patches
  | _ => Raise (Unmodelled "img2col of an array that is not 4-D")
  end.

(** [1 + (size - kernel + 2*pad) // stride], as the four functions below
    compute it. *)
Definition out_size (size kernel pad stride : nat) : result Z :=
  q <- py_floordiv (Z.of_nat size - Z.of_nat kernel + 2 * Z.of_nat pad) (Z.of_nat stride) ;;
  Ok (1 + q)%Z.

Definition conv_forward (input weights bias : tensor) (cp : conv_params.t) : result tensor :=
  match shape input with
  | [batch; in_channel; in_height; in_width] =>
      out_height <- out_size in_height (kernel_h cp) (pad cp) (stride cp) ;;
      out_width <- out_size in_width (kernel_w cp) (pad cp) (stride cp) ;;
      _ <- np_zeros_Z [Z.of_nat batch; Z.of_nat (out_channel cp); out_height; out_width] ;;
      let input_pad := np_pad s_zero input (repeat (pad cp, pad cp) 4) in
      let recep_fields_h := map (fun i => stride cp * i) (range out_height) in
      let recep_fields_w := map (fun i => stride cp * i) (range out_width) in
      input_conv <- img2col input_pad recep_fields_h recep_fields_w (kernel_h cp) (kernel_w cp) ;;
      outs <- mapM (fun x =>
                      w <- reshape weights [Z.of_nat (out_channel cp); -1]%Z ;;
                      m <- matmul w x ;;
                      b <- reshape bias [-1; 1]%Z ;;
                      broadcast2 s_add m b)
                   (rows_of input_conv) ;;
      output <- stack_first outs ;;
      reshape output [Z.of_nat batch; Z.of_nat (out_channel cp); out_height; out_width]
  | _ => Raise unpack_error
  end.

(** The loop [for i in recep_fields_h: for j in recep_fields_w: ... idx += 1]
    that adds the gradient of patch [idx] into the padded gradient. *)
Definition scatter_patches (input_pad_grad patch_grads : tensor)
  (recep_fields_h recep_fields_w : list nat) (k_h k_w : nat) (patch_shape : list Z)
  : result tensor :=
  let corners := list_prod recep_fields_h recep_fields_w in
  foldM (fun acc '(idx, (i, j)) =>
           g <- index_axis (length (shape patch_grads) - 1) idx patch_grads ;;
           g' <- reshape g patch_shape ;;
           add_slice acc [None; None;
                          Some (Z.of_nat i, Z.of_nat (i + k_h));
                          Some (Z.of_nat j, Z.of_nat (j + k_w))] g')
        (combine (seq 0 (length corners)) corners)
        input_pad_grad.

(** Python's [sum(list)]: from the int 0, left to right. *)
Definition py_sum_arrays (xs : list tensor) : result tensor :=
  foldM (fun acc y => broadcast2 s_add acc y) xs (mk_ndarray [] [s_zero]).

Definition conv_backward (out_grad input weights bias : tensor) (cp : conv_params.t)
  : result (tensor * tensor * tensor) :=
  match shape input with
  | [batch; in_channel; in_height; in_width] =>
      out_height <- out_size in_height (kernel_h cp) (pad cp) (stride cp) ;;
      out_width <- out_size in_width (kernel_w cp) (pad cp) (stride cp) ;;
      let input_pad := np_pad s_zero input (repeat (pad cp, pad cp) 4) in
      let recep_fields_h := map (fun i => stride cp * i) (range out_height) in
      let recep_fields_w := map (fun i => stride cp * i) (range out_width) in
      input_conv <- img2col input_pad recep_fields_h recep_fields_w (kernel_h cp) (kernel_w cp) ;;
      og <- reshape out_grad [Z.of_nat batch; Z.of_nat (out_channel cp); -1]%Z ;;
      grads <- mapM (fun x =>
                       w <- reshape weights [Z.of_nat (out_channel cp); -1]%Z ;;
                       matmul (T_ w) x)
                    (rows_of og) ;;
      input_conv_grad <- stack_first grads ;;
      let input_pad_grad :=
        np_zeros [batch; in_channel; in_height + 2 * pad cp; in_width + 2 * pad cp] in
      input_pad_grad <- scatter_patches input_pad_grad input_conv_grad
                          recep_fields_h recep_fields_w (kernel_h cp) (kernel_w cp)
                          (map Z.of_nat [batch; in_channel; kernel_h cp; kernel_w cp]) ;;
      let in_grad := slice input_pad_grad
                       [None; None;
                        Some (Z.of_nat (pad cp), Z.of_nat (pad cp + in_height));
                        Some (Z.of_nat (pad cp), Z.of_nat (pad cp + in_width))] in
      og' <- reshape out_grad [Z.of_nat batch; Z.of_nat (out_channel cp); -1]%Z ;;
      prods <- mapM (fun '(x0, x1) => matmul x0 (T_ x1))
                    (combine (rows_of og') (rows_of input_conv)) ;;
      w_grad <- py_sum_arrays prods ;;
      (* the sum of an empty list is the int 0, which has no [reshape] *)
      w_grad <- match prods with
                | [] => Raise AttributeError
                | _ => reshape w_grad (map Z.of_nat (shape weights))
                end ;;
      b_grad <- np_sum [0; 2; 3] false out_grad ;;
      Ok (in_grad, w_grad, b_grad)
  | _ => Raise unpack_error
  end.


(** [a[:, :, np.newaxis, :, :]] of a 4-D array. *)
Definition newaxis2 (a : tensor) : result tensor :=
  match shape a with
  | [b; c; h; w] => Ok (mk_ndarray [b; c; 1; h; w] (data a))
  | _ => if length (shape a) <? 4 then Raise IndexError
         else Raise (Unmodelled "newaxis on an array of more than 4 axes")
  end.

(** [np.repeat(a, k, axis=2)] of an array whose axis 2 has length 1. *)
Definition repeat_axis2 (a : tensor) (k : nat) : result tensor :=
  match shape a with
  | [b; c; 1; h; w] =>
      Ok (build [b; c; k; h; w]
            (fun idx => get a [nth 0 idx 0; nth 1 idx 0; 0; nth 3 idx 0; nth 4 idx 0]))
  | _ => Raise (Unmodelled "repeat along an axis of length other than 1")
  end.

Import pool_params.

Definition pool_forward (input : tensor) (pp : pool_params.t) : result tensor :=
  match shape input with
  | [batch; in_channel; in_height; in_width] =>
      out_height <- out_size in_height (pool_height pp) (pad pp) (stride pp) ;;
      out_width <- out_size in_width (pool_width pp) (pad pp) (stride pp) ;;
      let input_pad := np_pad s_zero input (repeat (pad pp, pad pp) 4) in
      let recep_fields_h := map (fun i => stride pp * i) (range out_height) in
      let recep_fields_w := map (fun i => stride pp * i) (range out_width) in
      input_pool <- img2col input_pad recep_fields_h recep_fields_w
                      (pool_height pp) (pool_width pp) ;;
      input_pool <- reshape input_pool
                      [Z.of_nat batch; Z.of_nat in_channel; -1; out_height; out_width]%Z ;;
      if String.eqb (pool_type pp) "max" then np_max [2] false input_pool
      else if String.eqb (pool_type pp) "avg" then np_mean [2] input_pool
      else Raise (ValueError ("Doesn't support '" ++ pool_type pp ++ "' pooling."))
  | _ => Raise unpack_error
  end.

Definition pool_backward (out_grad input : tensor) (pp : pool_params.t) : result tensor :=
  match shape input with
  | [batch; in_channel; in_height; in_width] =>
      out_height <- out_size in_height (pool_height pp) (pad pp) (stride pp) ;;
      out_width <- out_size in_width (pool_width pp) (pad pp) (stride pp) ;;
      let input_pad := np_pad s_zero input (repeat (pad pp, pad pp) 4) in
      let recep_fields_h := map (fun i => stride pp * i) (range out_height) in
      let recep_fields_w := map (fun i => stride pp * i) (range out_width) in
      input_pool <- img2col input_pad recep_fields_h recep_fields_w
                      (pool_height pp) (pool_width pp) ;;
      input_pool <- reshape input_pool
                      [Z.of_nat batch; Z.of_nat in_channel; -1; out_height; out_width]%Z ;;
      input_pool_grad <-
        (if String.eqb (pool_type pp) "max" then
           m <- np_max [2] true input_pool ;;
           mask <- broadcast2 s_eqb input_pool m ;;
           og <- newaxis2 out_grad ;;
           broadcast2 (fun (b : bool) g => s_mul (of_bool b) g) mask og
         else if String.eqb (pool_type pp) "avg" then
           scale <- (if pool_height pp * pool_width pp =? 0 then Raise ZeroDivisionError
                     else Ok (s_div s_one (s_of_Z (Z.of_nat (pool_height pp * pool_width pp))))) ;;
           og <- newaxis2 out_grad ;;
           r <- repeat_axis2 og (pool_height pp * pool_width pp) ;;
           Ok (map_nd (s_mul scale) r)
         else Raise UnboundLocalError) ;;
      input_pool_grad <- reshape input_pool_grad
                           [Z.of_nat batch; Z.of_nat in_channel; -1; out_height * out_width]%Z ;;
      let input_pad_grad := np_zeros (shape input_pad) in
      input_pad_grad <- scatter_patches input_pad_grad input_pool_grad
                          recep_fields_h recep_fields_w (pool_height pp) (pool_width pp)
                          (map Z.of_nat [batch; in_channel; pool_height pp; pool_width pp]) ;;
      Ok (slice input_pad_grad
            [None; None;
             Some (Z.of_nat (pad pp), Z.of_nat (pad pp + in_height));
             Some (Z.of_nat (pad pp), Z.of_nat (pad pp + in_width))])
  | _ => Raise unpack_error
  end.

(** [dropout_forward(input, rate, training, seed)]: the result with the
    interpreter's state after the call. The mask is an int array. *)
Definition dropout_forward {G : Random S} (input : tensor) (rate : num) (training : bool)
  (seed : option Z) (w : world) : result (tensor * option (ndarray Z)) * world :=
  if training then
    match py_div s_one (s_sub s_one rate) with
    | Raise e => (Raise e, w)
    | Ok scale =>
        match np_random_seed seed w with
        | Raise e => (Raise e, w)
        | Ok w1 =>
            let '(p, w2) := np_random_random_sample (shape input) w1 in
            let mask := map_nd (fun x => if s_leb rate x then 1%Z else 0%Z) p in
            (output <- broadcast2 (fun x (m : Z) => s_mul x (s_of_Z m)) input mask ;;
             Ok (map_nd (fun x => s_mul x scale) output, Some mask),
             w2)
        end
    end
  else (Ok (input, None), w).

Definition dropout_backward (out_grad input : tensor) (rate : num) (mask : option (ndarray Z))
  (training : bool) : result tensor :=
  if training then
    scale <- py_div s_one (s_sub s_one rate) ;;
    match mask with
    | Some mask =>
        sm <- Ok (map_nd (fun m => s_mul scale (s_of_Z m)) mask) ;;
        broadcast2 s_mul sm out_grad
    | None => Raise (TypeError "unsupported operand type(s) for *: 'float' and 'NoneType'")
    end
  else Ok out_grad.

End Operations.

(** The cells [a[rows[i], cols[i]]] a pair of integer index arrays selects
    in a 2-D array. *)
Definition pair_targets {A : Type} (a : ndarray A) (rows cols : list Z) : result (list (list nat)) :=
  match shape a with
  | [n; c] =>
      if length rows =? length cols then
        mapM (fun '(i, j) => match norm_index n i, norm_index c j with
                             | Some i', Some j' => Ok [i'; j']
                             | _, _ => Raise IndexError
                             end)
             (combine rows cols)
      else Raise IndexError
  | _ => if length (shape a) <? 2 then Raise IndexError
         else Raise (Unmodelled "pair index of an array of more than 2 axes")
  end.

Section Loss.
Context {S : Scalar} {T : Transcendental S}.

(** [labels] is the 1-D int array of the true classes. *)
Definition softmax_cross_entropy_forward (input : tensor) (labels : list Z)
  : result (num * tensor) :=
  let eps := s_eps in
  let batch := length labels in
  m <- np_max [1] true input ;;
  input_shift <- broadcast2 s_sub input m ;;
  Z <- np_sum [1] true (map_nd s_exp input_shift) ;;
  log_probs <- broadcast2 s_sub input_shift (map_nd (fun z => s_log (s_add z eps)) Z) ;;
  let probs := map_nd s_exp log_probs in
  cells <- pair_targets log_probs (np_arange (Z.of_nat batch)) labels ;;
  let output := s_div (s_mul (s_of_Z (-1)) (sum_list (map (get log_probs) cells)))
                      (s_of_Z (Z.of_nat batch)) in
  Ok (output, probs).

Definition softmax_cross_entropy_backward (input : tensor) (labels : list Z) : result tensor :=
  let eps := s_eps in
  let batch := length labels in
  m <- np_max [1] true input ;;
  input_shift <- broadcast2 s_sub input m ;;
  Z <- np_sum [1] true (map_nd s_exp input_shift) ;;
  log_probs <- broadcast2 s_sub input_shift (map_nd (fun z => s_log (s_add z eps)) Z) ;;
  let probs := map_nd s_exp log_probs in
  let in_grad := probs in
  cells <- pair_targets in_grad (np_arange (Z.of_nat batch)) labels ;;
  let in_grad := fold_left (fun acc c => update_at acc c (fun x => s_sub x s_one)) cells in_grad in
  let in_grad := map_nd (fun x => s_div x (s_of_Z (Z.of_nat batch))) in_grad in
  Ok in_grad.

End Loss.
End operations.

(* ===================================================================== *)
(** * nn/operators.py: the class-based operators *)
(* ===================================================================== *)

Module operators.

(** [a.transpose(perm)] checks the number of axes. *)
Definition transpose_axes {A : Type} `{Dflt A} (a : ndarray A) (perm : list nat)
  : result (ndarray A) :=
  if length perm =? length (shape a) then Ok (transpose a perm)
  else Raise (ValueError "axes don't match array").

(** [int(np.floor((n + p - k) / s) + 1)]. The quotient is a float64; it is
    the exact quotient as long as the sizes stay below 2^53. *)
Definition get_output_size (n k p s : nat) : result Z :=
  q <- py_floordiv (Z.of_nat n + Z.of_nat p - Z.of_nat k) (Z.of_nat s) ;;
  Ok (q + 1)%Z.

Module relu.
Section Relu.
Context {S : Scalar}.

Definition forward (input : tensor) : tensor :=
  map_nd (fun x => s_max s_zero x) input.

Definition backward (out_grad input : tensor) : result tensor :=
  broadcast2 (fun (b : bool) g => s_mul (of_bool b) g)
             (map_nd (fun x => s_leb s_zero x) input) out_grad.

End Relu.
End relu.

Module flatten.
Section Flatten.
Context {S : Scalar}.

Definition forward (input : tensor) : result tensor :=
  match shape input with
  | batch :: _ => reshape input [Z.of_nat batch; -1]%Z
  | [] => Raise IndexError
  end.

Definition backward (out_grad input : tensor) : result tensor :=
  reshape out_grad (map Z.of_nat (shape input)).

End Flatten.
End flatten.

Module matmul.
Section Matmul.
Context {S : Scalar}.

Definition forward (input weights : tensor) : result tensor :=
  matmul input weights.

Definition backward (out_grad input weights : tensor) : result (tensor * tensor) :=
  in_grad <- matmul out_grad (T_ weights) ;;
  w_grad <- matmul (T_ input) out_grad ;;
  Ok (in_grad, w_grad).

End Matmul.
End matmul.

Module add_bias.
Section AddBias.
Context {S : Scalar}.

Definition forward (input bias : tensor) : result tensor :=
  b <- reshape bias [1; -1]%Z ;;
  broadcast2 s_add input b.

Definition backward (out_grad input bias : tensor) : result (tensor * tensor) :=
  let in_grad := out_grad in
  b_grad <- np_sum [0] false out_grad ;;
  Ok (in_grad, b_grad).

End AddBias.
End add_bias.

Module linear.
Section Linear.
Context {S : Scalar}.

Definition forward (input weights bias : tensor) : result tensor :=
  output <- matmul.forward input weights ;;
  add_bias.forward output bias.

Definition backward (out_grad input weights bias : tensor)
  : result (tensor * tensor * tensor) :=
  '(out_grad, b_grad) <- add_bias.backward out_grad input bias ;;
  '(in_grad, w_grad) <- matmul.backward out_grad input weights ;;
  Ok (in_grad, w_grad, b_grad).

End Linear.
End linear.


Module conv.
Section Conv.
Context {S : Scalar}.
Import conv_params.

(** The index arrays of the columns of the patch matrix: for each row (a
    channel and a position in the kernel) and each column (a receptive
    field), the channel, the row and the column of the padded input read. *)
Definition get_im2col_data_indexes (N c_i n_h n_w k_h k_w p s : nat) (o_h o_w : Z)
  : result (ndarray Z * ndarray Z * ndarray Z) :=
  channel_idxs <- np_repeat (np_arange (Z.of_nat c_i)) (Z.of_nat (k_h * k_w)) ;;
  channel_idxs <- reshape (array1 channel_idxs) [-1; 1]%Z ;;
  k_height_idxs <- np_repeat (np_arange (Z.of_nat k_h)) (Z.of_nat k_w) ;;
  k_height_idxs <- np_tile k_height_idxs (Z.of_nat c_i) ;;
  height_offsets <- np_repeat (np_arange o_h) o_w ;;
  let height_offsets := map (fun x => (x * Z.of_nat s)%Z) height_offsets in
  kh <- reshape (array1 k_height_idxs) [-1; 1]%Z ;;
  ho <- reshape (array1 height_offsets) [1; -1]%Z ;;
  height_idxs <- broadcast2 Z.add kh ho ;;
  k_width_idxs <- np_tile (np_arange (Z.of_nat k_w)) (Z.of_nat (k_h * c_i)) ;;
  width_offsets <- np_tile (np_arange o_w) o_h ;;
  let width_offsets := map (fun x => (x * Z.of_nat s)%Z) width_offsets in
  kw <- reshape (array1 k_width_idxs) [-1; 1]%Z ;;
  wo <- reshape (array1 width_offsets) [1; -1]%Z ;;
  width_ixds <- broadcast2 Z.add kw wo ;;
  Ok (channel_idxs, height_idxs, width_ixds).

Definition img2col (X : tensor) (N c_i n_h n_w k_h k_w p s : nat)
  : result (tensor * Z * Z) :=
  o_h <- get_output_size n_h k_h p s ;;
  o_w <- get_output_size n_w k_w p s ;;
  '(channel_idxs, height_idxs, width_ixds) <-
     get_im2col_data_indexes N c_i n_h n_w k_h k_w p s o_h o_w ;;
  X_hat_batch <- take4 X channel_idxs height_idxs width_ixds ;;
  X_hat <- transpose_axes X_hat_batch [1; 2; 0] ;;
  X_hat <- reshape X_hat [Z.of_nat (k_h * k_w * c_i); -1]%Z ;;
  Ok (X_hat, o_h, o_w).

Definition forward (cp : conv_params.t) (input weights bias : tensor) : result tensor :=
  match shape input with
  | [batch; in_channel; in_height; in_width] =>
      let p := pad cp / 2 in
      let X_pad := np_pad s_zero input [(0, 0); (0, 0); (p, p); (p, p)] in
      '(X_hat, out_height, out_width) <-
         img2col X_pad batch in_channel in_height in_width
                 (kernel_h cp) (kernel_w cp) (pad cp) (stride cp) ;;
      W <- reshape weights [Z.of_nat (out_channel cp);
                            Z.of_nat (in_channel * kernel_h cp * kernel_w cp)] ;;
      b <- np_repeat (data bias) (Z.of_nat batch * out_height * out_width) ;;
      b <- reshape (array1 b) [Z.of_nat (out_channel cp); -1]%Z ;;
      Y <- matmul W X_hat ;;
      Y <- broadcast2 s_add Y b ;;
      output <- reshape Y [Z.of_nat (out_channel cp); out_height; out_width; Z.of_nat batch] ;;
      transpose_axes output [3; 0; 1; 2]
  | _ => Raise unpack_error
  end.

Definition col2img (dX_hat : tensor) (N c_i n_h n_w k_h k_w p s : nat) : result tensor :=
  o_h <- get_output_size n_h k_h p s ;;
  o_w <- get_output_size n_w k_w p s ;;
  let dX_pad := np_zeros [N; c_i; n_h + p; n_w + p] in
  '(channel_idxs, height_idxs, width_ixds) <-
     get_im2col_data_indexes N c_i n_h n_w k_h k_w p s o_h o_w ;;
  dX_hat_batch <- reshape dX_hat [Z.of_nat (c_i * k_h * k_w); -1; Z.of_nat N]%Z ;;
  dX_hat_batch <- transpose_axes dX_hat_batch [2; 0; 1] ;;
  dX_pad <- np_add_at dX_pad channel_idxs height_idxs width_ixds dX_hat_batch ;;
  if negb (p =? 0)
  then Ok (slice dX_pad [None; None;
                         Some (Z.of_nat p, - Z.of_nat p);
                         Some (Z.of_nat p, - Z.of_nat p)]%Z)
  else Ok dX_pad.

Definition backward (cp : conv_params.t) (out_grad input weights bias : tensor)
  : result (tensor * tensor * tensor) :=
  match shape input with
  | [batch; in_channel; in_height; in_width] =>
      let p := pad cp / 2 in
      let X_pad := np_pad s_zero input [(0, 0); (0, 0); (p, p); (p, p)] in
      '(X_hat, out_height, out_width) <-
         img2col X_pad batch in_channel in_height in_width
                 (kernel_h cp) (kernel_w cp) (pad cp) (stride cp) ;;
      W <- reshape weights [Z.of_nat (out_channel cp);
                            Z.of_nat (in_channel * kernel_h cp * kernel_w cp)] ;;
      out_grad_col <- transpose_axes out_grad [1; 2; 3; 0] ;;
      out_grad_col <- reshape out_grad_col
                        [Z.of_nat (out_channel cp); Z.of_nat batch * out_height * out_width]%Z ;;
      dX_hat <- matmul (T_ W) out_grad_col ;;
      in_grad <- col2img dX_hat batch in_channel in_height in_width
                   (kernel_h cp) (kernel_w cp) (pad cp) (stride cp) ;;
      w_grad <- matmul out_grad_col (T_ X_hat) ;;
      w_grad <- reshape w_grad (map Z.of_nat [out_channel cp; in_channel;
                                              kernel_h cp; kernel_w cp]) ;;
      b_grad <- np_sum [0; 2; 3] false out_grad ;;
      Ok (in_grad, w_grad, b_grad)
  | _ => Raise unpack_error
  end.

End Conv.
End conv.


(** Modelled from the spec: [img2col] of [nn.functional], which [pool.backward]
    calls and which is not among the sources. The specification describes it
    as the extraction of the receptive fields at the Cartesian product of the
    height and width offsets, iterated width-fastest, each flattened across
    channels; [operations.img2col] has this name, signature and behaviour. *)
Definition functional_img2col {S : Scalar} (data : tensor) (h_indices w_indices : list nat)
  (k_h k_w : nat) : result tensor :=
  operations.img2col data h_indices w_indices k_h k_w.

Module pool.
Section Pool.
Context {S : Scalar}.
Import pool_params.

(** [output[i, j] = v] for a 4-D [output]. *)
Definition set_ij (output : tensor) (i j : nat) (v : tensor) : result tensor :=
  match broadcast_shapes (shape v) (skipn 2 (shape output)) with
  | Some sh' =>
      if list_eq_dec Nat.eq_dec sh' (skipn 2 (shape output))
      then Ok (build (shape output)
                 (fun idx => if (nth 0 idx 0 =? i) && (nth 1 idx 0 =? j)
                             then get v (bcast_idx (shape v) (skipn 2 idx))
                             else get output idx))
      else Raise (ValueError "could not broadcast input array")
  | None => Raise (ValueError "could not broadcast input array")
  end.

Definition forward (pp : pool_params.t) (input : tensor) : result tensor :=
  match shape input with
  | [batch; in_channel; in_height; in_width] =>
      out_height <- get_output_size in_height (pool_height pp) (pad pp) (stride pp) ;;
      out_width <- get_output_size in_width (pool_width pp) (pad pp) (stride pp) ;;
      let p := pad pp / 2 in
      let X_pad := np_pad s_zero input [(0, 0); (0, 0); (p, p); (p, p)] in
      output <- np_zeros_Z [out_height; out_width; Z.of_nat batch; Z.of_nat in_channel] ;;
      output <-
        foldM (fun output '(i, j) =>
                 let height_offset := i * stride pp in
                 let width_offset := j * stride pp in
                 let receptive_fields :=
                   slice X_pad [None; None;
                                Some (Z.of_nat height_offset,
                                      Z.of_nat (height_offset + pool_height pp));
                                Some (Z.of_nat width_offset,
                                      Z.of_nat (width_offset + pool_width pp))] in
                 if String.eqb (pool_type pp) "max" then
                   v <- np_max [2; 3] false receptive_fields ;; set_ij output i j v
                 else if String.eqb (pool_type pp) "avg" then
                   v <- np_mean [2; 3] receptive_fields ;; set_ij output i j v
                 else Raise (TypeError "Error: pool_type should be 'max' or 'avg'"))
              (list_prod (range out_height) (range out_width))
              output ;;
      transpose_axes output [2; 3; 0; 1]
  | _ => Raise unpack_error
  end.

Definition backward (pp : pool_params.t) (out_grad input : tensor) : result tensor :=
  match shape input with
  | [batch; in_channel; in_height; in_width] =>
      q_h <- py_floordiv (Z.of_nat in_height - Z.of_nat (pool_height pp) + Z.of_nat (pad pp))
                         (Z.of_nat (stride pp)) ;;
      let out_height := (1 + q_h)%Z in
      q_w <- py_floordiv (Z.of_nat in_width - Z.of_nat (pool_width pp) + Z.of_nat (pad pp))
                         (Z.of_nat (stride pp)) ;;
      let out_width := (1 + q_w)%Z in
      let pad_scheme := (pad pp / 2, pad pp - pad pp / 2) in
      let input_pad := np_pad s_zero input [(0, 0); (0, 0); pad_scheme; pad_scheme] in
      let recep_fields_h := map (fun i => stride pp * i) (range out_height) in
      let recep_fields_w := map (fun i => stride pp * i) (range out_width) in
      input_pool <- functional_img2col input_pad recep_fields_h recep_fields_w
                      (pool_height pp) (pool_width pp) ;;
      input_pool <- reshape input_pool
                      [Z.of_nat batch; Z.of_nat in_channel; -1; out_height; out_width]%Z ;;
      input_pool_grad <-
        (if String.eqb (pool_type pp) "max" then
           m <- np_max [2] true input_pool ;;
           mask <- broadcast2 s_eqb input_pool m ;;
           og <- operations.newaxis2 out_grad ;;
           broadcast2 (fun (b : bool) g => s_mul (of_bool b) g) mask og
         else if String.eqb (pool_type pp) "avg" then
           scale <- (if pool_height pp * pool_width pp =? 0 then Raise ZeroDivisionError
                     else Ok (s_div s_one (s_of_Z (Z.of_nat (pool_height pp * pool_width pp))))) ;;
           og <- operations.newaxis2 out_grad ;;
           r <- operations.repeat_axis2 og (pool_height pp * pool_width pp) ;;
           Ok (map_nd (s_mul scale) r)
         else Raise UnboundLocalError) ;;
      input_pool_grad <- reshape input_pool_grad
                           [Z.of_nat batch; Z.of_nat in_channel; -1; out_height * out_width]%Z ;;
      let input_pad_grad := np_zeros (shape input_pad) in
      input_pad_grad <- operations.scatter_patches input_pad_grad input_pool_grad
                          recep_fields_h recep_fields_w (pool_height pp) (pool_width pp)
                          (map Z.of_nat [batch; in_channel; pool_height pp; pool_width pp]) ;;
      Ok (slice input_pad_grad
            [None; None;
             Some (Z.of_nat (pad pp), Z.of_nat (pad pp + in_height));
             Some (Z.of_nat (pad pp), Z.of_nat (pad pp + in_width))])
  | _ => Raise unpack_error
  end.

End Pool.
End pool.


Module dropout.
Section Dropout.
Context {S : Scalar} {G : Random S}.

(** The fields of a [dropout] object. *)
Record object : Type := mk_self {
  rate : num;
  seed : option Z;
  training : bool;
  mask : option tensor;
}.

Definition init (rate : num) (training : bool) (seed : option Z) : object :=
  mk_self rate seed training None.

(** [forward] returns its output and leaves the object and the interpreter
    in a new state. *)
Definition forward (self : object) (input : tensor) (w : world)
  : result tensor * object * world :=
  if training self then
    match py_div s_one (s_sub s_one (rate self)) with
    | Raise e => (Raise e, self, w)
    | Ok scale =>
        match np_random_seed (seed self) w with
        | Raise e => (Raise e, self, w)
        | Ok w1 =>
            let '(p, w2) := np_random_random_sample (shape input) w1 in
            let mask0 := map_nd (fun x => if s_leb (rate self) x then 1%Z else 0%Z) p in
            let mask1 := map_nd (fun m => s_mul (s_of_Z m) scale) mask0 in
            let self' := mk_self (rate self) (seed self) (training self) (Some mask1) in
            (broadcast2 s_mul input mask1, self', w2)
        end
    end
  else (Ok input, self, w).

Definition backward (self : object) (out_grad input : tensor) : result tensor :=
  if training self then
    match mask self with
    | Some m => broadcast2 s_mul out_grad m
    | None => Raise (TypeError "unsupported operand type(s) for *: 'float' and 'NoneType'")
    end
  else Ok out_grad.

End Dropout.
End dropout.

Module vanilla_rnn.
Section VanillaRnn.
Context {S : Scalar} {T : Transcendental S}.

Definition forward (input : tensor * tensor) (kernel recurrent_kernel bias : tensor)
  : result tensor :=
  let '(x, prev_h) := input in
  a <- matmul x kernel ;;
  b <- matmul prev_h recurrent_kernel ;;
  ab <- broadcast2 s_add a b ;;
  abc <- broadcast2 s_add ab bias ;;
  Ok (map_nd s_tanh abc).

Definition backward (out_grad : tensor) (input : tensor * tensor)
  (kernel recurrent_kernel bias : tensor)
  : result ((tensor * tensor) * tensor * tensor * tensor) :=
  let '(x, prev_h) := input in
  h <- forward input kernel recurrent_kernel bias ;;
  let one_minus_sq := map_nd (fun v => s_sub s_one (s_mul v v)) h in
  tg <- broadcast2 s_mul out_grad one_minus_sq ;;
  let tanh_grad := map_nd nan_to_num tg in
  g_x <- matmul tanh_grad (T_ kernel) ;;
  g_h <- matmul tanh_grad (T_ recurrent_kernel) ;;
  kernel_grad <- matmul (map_nd nan_to_num (T_ x)) tanh_grad ;;
  r_kernel_grad <- matmul (map_nd nan_to_num (T_ prev_h)) tanh_grad ;;
  b_grad <- np_sum [0] false tanh_grad ;;
  Ok ((g_x, g_h), kernel_grad, r_kernel_grad, b_grad).

End VanillaRnn.
End vanilla_rnn.

Module gru.
Section Gru.
Context {S : Scalar} {T : Transcendental S}.

(** [a[:, lo:hi]]. *)
Definition cols (a : tensor) (lo hi : nat) : result tensor :=
  match shape a with
  | [_; _] => Ok (slice a [None; Some (Z.of_nat lo, Z.of_nat hi)])
  | _ => if length (shape a) <? 2 then Raise IndexError
         else Raise (Unmodelled "column slice of an array of more than 2 axes")
  end.

(** [_, all_units = kernel.shape]. *)
Definition unpack2 (a : tensor) : result nat :=
  match shape a with
  | [_; all_units] => Ok all_units
  | _ => Raise (ValueError "not enough values to unpack (expected 2)")
  end.

Definition forward (input : tensor * tensor) (kernel recurrent_kernel : tensor)
  : result tensor :=
  let '(x, prev_h) := input in
  all_units <- unpack2 kernel ;;
  let units := all_units / 3 in
  kernel_z <- cols kernel 0 units ;;
  kernel_r <- cols kernel units (2 * units) ;;
  kernel_h <- cols kernel (2 * units) all_units ;;
  recurrent_kernel_z <- cols recurrent_kernel 0 units ;;
  recurrent_kernel_r <- cols recurrent_kernel units (2 * units) ;;
  recurrent_kernel_h <- cols recurrent_kernel (2 * units) all_units ;;
  a <- matmul x kernel_z ;; b <- matmul prev_h recurrent_kernel_z ;;
  ab <- broadcast2 s_add a b ;;
  let x_z := map_nd sigmoid ab in
  a <- matmul x kernel_r ;; b <- matmul prev_h recurrent_kernel_r ;;
  ab <- broadcast2 s_add a b ;;
  let x_r := map_nd sigmoid ab in
  a <- matmul x kernel_h ;;
  rp <- broadcast2 s_mul x_r prev_h ;;
  b <- matmul rp recurrent_kernel_h ;;
  ab <- broadcast2 s_add a b ;;
  let x_h := map_nd s_tanh ab in
  l <- broadcast2 s_mul (map_nd (s_sub s_one) x_z) x_h ;;
  r <- broadcast2 s_mul x_z prev_h ;;
  broadcast2 s_add l r.

(** The local variables of [backward] that its last lines read. *)
Record locals : Type := mk_locals {
  units : nat;
  x_z_raw_grad : tensor;
  x_r_raw_grad : tensor;
  x_h_raw_grad : tensor;
  x_grad : tensor;
  prev_h_grad : tensor;
  kernel_z_grad : tensor;
  kernel_r_grad : tensor;
  kernel_h_grad : tensor;
  recurrent_kernel_z_grad : tensor;
  recurrent_kernel_r_grad : tensor;
  recurrent_kernel_h_grad : tensor;
}.

(** The body of [backward] up to the line [in_grad = [x_grad, prev_h_grad]]. *)
Definition backward_body (out_grad : tensor) (input : tensor * tensor)
  (kernel recurrent_kernel : tensor) : result locals :=
  let '(x, prev_h) := input in
  all_units <- unpack2 kernel ;;
  let units := all_units / 3 in
  kernel_z <- cols kernel 0 units ;;
  kernel_r <- cols kernel units (2 * units) ;;
  kernel_h <- cols kernel (2 * units) all_units ;;
  recurrent_kernel_z <- cols recurrent_kernel 0 units ;;
  recurrent_kernel_r <- cols recurrent_kernel units (2 * units) ;;
  recurrent_kernel_h <- cols recurrent_kernel (2 * units) all_units ;;
  a <- matmul x kernel_z ;; b <- matmul prev_h recurrent_kernel_z ;;
  ab <- broadcast2 s_add a b ;;
  let x_z := map_nd sigmoid ab in
  a <- matmul x kernel_r ;; b <- matmul prev_h recurrent_kernel_r ;;
  ab <- broadcast2 s_add a b ;;
  let x_r := map_nd sigmoid ab in
  a <- matmul x kernel_h ;;
  rp <- broadcast2 s_mul x_r prev_h ;;
  b <- matmul rp recurrent_kernel_h ;;
  ab <- broadcast2 s_add a b ;;
  let x_h := map_nd s_tanh ab in
  d <- broadcast2 s_sub prev_h x_h ;;
  x_z_grad <- broadcast2 s_mul out_grad d ;;
  t <- broadcast2 s_mul x_z_grad x_z ;;
  x_z_raw_grad <- broadcast2 s_mul t (map_nd (s_sub s_one) x_z) ;;
  x_h_grad <- broadcast2 s_mul out_grad (map_nd (s_sub s_one) x_z) ;;
  x_h_raw_grad <- broadcast2 s_mul x_h_grad
                    (map_nd (fun v => s_sub s_one (s_mul v v)) x_h) ;;
  t <- matmul x_h_raw_grad (T_ recurrent_kernel_h) ;;
  x_r_grad <- broadcast2 s_mul t prev_h ;;
  t <- broadcast2 s_mul x_r_grad x_r ;;
  x_r_raw_grad <- broadcast2 s_mul t (map_nd (s_sub s_one) x_r) ;;
  a <- matmul x_z_raw_grad (T_ kernel_z) ;;
  b <- matmul x_r_raw_grad (T_ kernel_r) ;;
  ab <- broadcast2 s_add a b ;;
  c <- matmul x_h_raw_grad (T_ kernel_h) ;;
  x_grad <- broadcast2 s_add ab c ;;
  a <- matmul x_z_raw_grad (T_ recurrent_kernel_z) ;;
  b <- matmul x_r_raw_grad (T_ recurrent_kernel_r) ;;
  ab <- broadcast2 s_add a b ;;
  c <- matmul x_h_raw_grad (T_ recurrent_kernel_h) ;;
  c <- broadcast2 s_mul c x_r ;;
  abc <- broadcast2 s_add ab c ;;
  d <- broadcast2 s_mul out_grad x_z ;;
  prev_h_grad <- broadcast2 s_add abc d ;;
  kernel_r_grad <- matmul (T_ x) x_r_raw_grad ;;
  kernel_z_grad <- matmul (T_ x) x_z_raw_grad ;;
  kernel_h_grad <- matmul (T_ x) x_h_raw_grad ;;
  recurrent_kernel_r_grad <- matmul (T_ prev_h) x_r_raw_grad ;;
  recurrent_kernel_z_grad <- matmul (T_ prev_h) x_z_raw_grad ;;
  ph <- broadcast2 s_mul prev_h x_r ;;
  recurrent_kernel_h_grad <- matmul (T_ ph) x_h_raw_grad ;;
  Ok (mk_locals units x_z_raw_grad x_r_raw_grad x_h_raw_grad x_grad prev_h_grad
        kernel_z_grad kernel_r_grad kernel_h_grad
        recurrent_kernel_z_grad recurrent_kernel_r_grad recurrent_kernel_h_grad).

Definition backward (out_grad : tensor) (input : tensor * tensor)
  (kernel recurrent_kernel : tensor) : result ((tensor * tensor) * tensor * tensor) :=
  l <- backward_body out_grad input kernel recurrent_kernel ;;
  let in_grad := (x_grad l, prev_h_grad l) in
  kernel_grad <- concatenate_last [kernel_z_grad l; kernel_r_grad l; kernel_h_grad l] ;;
  r_kernel_grad <- concatenate_last [recurrent_kernel_z_grad l; recurrent_kernel_r_grad l;
                                     recurrent_kernel_h_grad l] ;;
  Ok (in_grad, kernel_grad, r_kernel_grad).

End Gru.
End gru.


Module softmax_cross_entropy.
Section SoftmaxCrossEntropy.
Context {S : Scalar} {T : Transcendental S}.

Definition forward (input : tensor) (labels : list Z) : result (num * tensor) :=
  let eps := s_eps in
  let batch := length labels in
  m <- np_max [1] true input ;;
  input_shift <- broadcast2 s_sub input m ;;
  Z <- np_sum [1] true (map_nd s_exp input_shift) ;;
  log_probs <- broadcast2 s_sub input_shift (map_nd (fun z => s_log (s_add z eps)) Z) ;;
  let probs := map_nd s_exp log_probs in
  cells <- operations.pair_targets log_probs (np_arange (Z.of_nat batch)) labels ;;
  let output := s_div (s_mul (s_of_Z (-1)) (sum_list (map (get log_probs) cells)))
                      (s_of_Z (Z.of_nat batch)) in
  Ok (output, probs).

Definition backward (input : tensor) (labels : list Z) : result tensor :=
  let eps := s_eps in
  let batch := length labels in
  m <- np_max [1] true input ;;
  input_shift <- broadcast2 s_sub input m ;;
  Z <- np_sum [1] true (map_nd s_exp input_shift) ;;
  log_probs <- broadcast2 s_sub input_shift (map_nd (fun z => s_log (s_add z eps)) Z) ;;
  let probs := map_nd s_exp log_probs in
  let in_grad := probs in
  cells <- operations.pair_targets in_grad (np_arange (Z.of_nat batch)) labels ;;
  let in_grad := fold_left (fun acc c => update_at acc c (fun x => s_sub x s_one)) cells in_grad in
  let in_grad := map_nd (fun x => s_div x (s_of_Z (Z.of_nat batch))) in_grad in
  Ok in_grad.

End SoftmaxCrossEntropy.
End softmax_cross_entropy.

End operators.

(* ===================================================================== *)
(** * The real numbers as scalars *)
(* ===================================================================== *)

(** The arithmetic that float64 approximates. Theorems that depend on the
    laws of arithmetic (x - 0 = x, exp (ln x) = x) are stated on this
    instance; [nan_to_num] has nothing to replace. *)
#[export] Instance real_scalar : Scalar := {|
  num := R;
  s_zero := 0%R;
  s_one := 1%R;
  s_add := Rplus;
  s_sub := Rminus;
  s_mul := Rmult;
  s_div := Rdiv;
  s_leb := fun x y => if Rle_dec x y then true else false;
  s_eqb := fun x y => if Req_dec_T x y then true else false;
  s_of_Z := IZR;
  nan_to_num := fun x => x;
|}.

(** [np.exp], [np.tanh] and the logistic function on the real numbers, with
    the values binary64 gives them far from zero written out: [np.exp]
    returns 0.0 under -746 (exp(-746) is less than half the least positive
    double), [np.tanh] returns 1.0 or -1.0 once its argument passes 20 in
    size, and [1 / (1 + np.exp(-x))] is 0.0 under -746, where [np.exp(-x)]
    is inf. So [s_exp] reaches 0, [s_tanh] reaches 1 and -1 and [sigmoid]
    reaches 0 and 1, as they do in the program; inside these bounds the real
    function stands for its rounded value, and nothing below is stated that
    needs it to stay away from 0, 1 or -1. *)
Definition np_exp (x : R) : R :=
  if Rlt_dec x (-746) then 0%R else exp x.

Definition np_tanh (x : R) : R :=
  if Rle_dec 20 x then 1%R else if Rle_dec x (-20) then (-1)%R else tanh x.

Definition logistic (x : R) : R :=
  if Rlt_dec x (-746) then 0%R else (1 / (1 + np_exp (- x)))%R.

#[export] Instance real_transcendental : Transcendental real_scalar := {|
  s_exp := np_exp;
  s_log := ln;
  s_tanh := np_tanh;
  sigmoid := logistic;
  s_eps := (1 / 1000000000000)%R;
|}.

(* ===================================================================== *)
(** * The linear layer on the identity weights *)
(* ===================================================================== *)

Module LinearScenario.

Definition weights : @tensor float_scalar := mk_ndarray [2; 2] [1; 0; 0; 1]%float.
Definition bias : @tensor float_scalar := mk_ndarray [2] [0; 0]%float.
Definition input : @tensor float_scalar := mk_ndarray [1; 2] [1; 2]%float.
Definition grad_output : @tensor float_scalar := mk_ndarray [1; 2] [1; 1]%float.

(** C3 (as amended). On binary64, the linear operator and the free-function
    [fc] pair, with weights [[1,0],[0,1]], bias [0,0] and input [[1,2]]:
    forward returns [[1,2]]; backward with grad_output [[1,1]] returns
    grad_input [[1,1]], grad_weights [[1,1],[2,2]] (the product of the
    transposed input [[1],[2]] by grad_output) and grad_bias [1,1]. *)
Theorem linear_identity_scenario :
  operators.linear.forward input weights bias
    = Ok (mk_ndarray [1; 2] [1; 2]%float)
  /\ operators.linear.backward grad_output input weights bias
    = Ok (mk_ndarray [1; 2] [1; 1]%float,
          mk_ndarray [2; 2] [1; 1; 2; 2]%float,
          mk_ndarray [2] [1; 1]%float)
  /\ operations.fc_forward input weights bias
    = Ok (mk_ndarray [1; 2] [1; 2]%float)
  /\ operations.fc_backward grad_output input weights bias
    = Ok (mk_ndarray [1; 2] [1; 1]%float,
          mk_ndarray [2; 2] [1; 1; 2; 2]%float,
          mk_ndarray [2] [1; 1]%float).
Proof. repeat split; vm_compute; reflexivity. Qed.

(** C3, as the specification states it, fails: neither backward returns
    the weight gradient [[1,2],[1,2]]. *)
Lemma linear_identity_scenario_stated_fails :
  ~ (exists in_grad b_grad,
       operators.linear.backward grad_output input weights bias
       = Ok (in_grad, mk_ndarray [2; 2] [1; 2; 1; 2]%float, b_grad))
  /\ ~ (exists in_grad b_grad,
       operations.fc_backward grad_output input weights bias
       = Ok (in_grad, mk_ndarray [2; 2] [1; 2; 1; 2]%float, b_grad)).
Proof.
  split; intros (in_grad & b_grad & H);
    apply (f_equal (fun r => match r with
                             | Ok (_, w, _) =>
                                 match data w with
                                 | [_; a; _; _] => PrimFloat.eqb a 1
                                 | _ => true
                                 end
                             | Raise _ => true
                             end)) in H;
    vm_compute in H; discriminate H.
Qed.

End LinearScenario.

(* ===================================================================== *)
(** * Lemmas on the error monad and on shapes *)
(* ===================================================================== *)

Lemma bind_ok {A B : Type} (c : result A) (k : A -> result B) (b : B) :
  bind c k = Ok b -> exists a, c = Ok a /\ k a = Ok b.
Proof. destruct c as [a|e]; simpl; intro H; [exists a; split; auto | discriminate]. Qed.

Lemma bind_raise {A B : Type} (c : result A) (k : A -> result B) :
  (forall a, is_ok (k a) = false) -> is_ok (bind c k) = false.
Proof. intro H. destruct c as [a|e]; simpl; [apply H | reflexivity]. Qed.

(** Inverts the equations [x <- c ;; k = Ok v] among the hypotheses. *)
Ltac inv_bind :=
  repeat match goal with
         | H : bind ?c ?k = Ok ?v |- _ =>
             let a := fresh "a" in
             let Ha := fresh "Ha" in
             apply bind_ok in H; destruct H as (a & Ha & H); cbv beta in H
         | H : Ok _ = Ok _ |- _ => injection H as H; subst
         | H : Raise _ = Ok _ |- _ => discriminate H
         end.

Lemma broadcast_rev_refl s : broadcast_rev s s = Some s.
Proof.
  induction s as [|d s IH]; simpl; [reflexivity|].
  rewrite IH, Nat.eqb_refl. reflexivity.
Qed.

Lemma broadcast_shapes_refl s : broadcast_shapes s s = Some s.
Proof.
  unfold broadcast_shapes. rewrite broadcast_rev_refl. simpl.
  rewrite rev_involutive. reflexivity.
Qed.

Lemma broadcast2_shape {A B C : Type} `{Dflt A} `{Dflt B} (f : A -> B -> C) a b c :
  broadcast2 f a b = Ok c -> broadcast_shapes (shape a) (shape b) = Some (shape c).
Proof.
  unfold broadcast2. destruct (broadcast_shapes (shape a) (shape b)) as [sh|]; intro E;
    [injection E as <-; reflexivity | discriminate].
Qed.

Lemma broadcast2_same {A B C : Type} `{Dflt A} `{Dflt B} (f : A -> B -> C) a b :
  shape a = shape b ->
  exists c, broadcast2 f a b = Ok c /\ shape c = shape a.
Proof.
  intro E. unfold broadcast2. rewrite <- E, broadcast_shapes_refl.
  eexists; split; reflexivity.
Qed.

(* ===================================================================== *)
(** * Dropout *)
(* ===================================================================== *)

Section DropoutTheorems.
Context {S : Scalar} {G : Random S}.

Lemma sample_shape (sh : list nat) (w : world) :
  shape (fst (np_random_random_sample sh w)) = sh.
Proof.
  unfold np_random_random_sample.
  destruct (random_sample (rng w) (size_of sh)) as [xs st]. reflexivity.
Qed.

Lemma np_random_seed_some (z : Z) (w : world) :
  (0 <= z < 2 ^ 32)%Z ->
  np_random_seed (Some z) w = Ok (mk_world (seed_state z) (os w)).
Proof.
  intro Hz. unfold np_random_seed.
  destruct ((0 <=? z) && (z <? 2 ^ 32))%Z eqn:E; [reflexivity|].
  apply andb_false_iff in E. destruct E as [E|E]; [apply Z.leb_gt in E|apply Z.ltb_ge in E]; lia.
Qed.

Lemma np_random_seed_out_of_range (z : Z) (w : world) :
  ~ (0 <= z < 2 ^ 32)%Z ->
  np_random_seed (Some z) w = Raise (ValueError "Seed must be between 0 and 2**32 - 1").
Proof.
  intro Hz. unfold np_random_seed.
  destruct ((0 <=? z) && (z <? 2 ^ 32))%Z eqn:E; [|reflexivity].
  apply andb_true_iff in E. destruct E as [E1 E2].
  apply Z.leb_le in E1. apply Z.ltb_lt in E2. lia.
Qed.

Lemma np_random_seed_valid (seed : option Z) (w : world) :
  valid_seed seed -> exists w1, np_random_seed seed w = Ok w1.
Proof.
  destruct seed as [z|]; simpl; intro Hz.
  - eexists. apply np_random_seed_some. exact Hz.
  - destruct (os_seed (os w)) as [n e]. eexists. reflexivity.
Qed.

(** Seeding with an integer forgets the generator's previous state. *)
Lemma seeded_sample_independent (z : Z) (sh : list nat) (w w' w1 w1' : world) :
  np_random_seed (Some z) w = Ok w1 -> np_random_seed (Some z) w' = Ok w1' ->
  fst (np_random_random_sample sh w1) = fst (np_random_random_sample sh w1').
Proof.
  unfold np_random_seed.
  destruct ((0 <=? z) && (z <? 2 ^ 32))%Z; [|discriminate].
  intros E E'. injection E as <-. injection E' as <-.
  unfold np_random_random_sample; simpl.
  destruct (random_sample (seed_state z) (size_of sh)) as [xs st]. reflexivity.
Qed.

(** The two forward functions in training mode, once the scale is known and
    the generator seeded. *)
Lemma dropout_forward_training (input : tensor) (rate scale : num) (seed : option Z)
  (w w1 : world) :
  py_div s_one (s_sub s_one rate) = Ok scale ->
  np_random_seed seed w = Ok w1 ->
  operations.dropout_forward input rate true seed w
  = let s := np_random_random_sample (shape input) w1 in
    let mask := map_nd (fun x => if s_leb rate x then 1%Z else 0%Z) (fst s) in
    (output <- broadcast2 (fun x (m : Z) => s_mul x (s_of_Z m)) input mask ;;
     Ok (map_nd (fun x => s_mul x scale) output, Some mask),
     snd s).
Proof.
  intros E Es. unfold operations.dropout_forward. rewrite E, Es.
  destruct (np_random_random_sample (shape input) w1) as [p w2].
  reflexivity.
Qed.

Lemma dropout_class_forward_training (input : tensor) (rate scale : num) (seed : option Z)
  (m : option tensor) (w w1 : world) :
  py_div s_one (s_sub s_one rate) = Ok scale ->
  np_random_seed seed w = Ok w1 ->
  operators.dropout.forward (operators.dropout.mk_self rate seed true m) input w
  = let s := np_random_random_sample (shape input) w1 in
    let mask1 := map_nd (fun m => s_mul (s_of_Z m) scale)
                   (map_nd (fun x => if s_leb rate x then 1%Z else 0%Z) (fst s)) in
    (broadcast2 s_mul input mask1,
     operators.dropout.mk_self rate seed true (Some mask1),
     snd s).
Proof.
  intros E Es. unfold operators.dropout.forward. simpl. rewrite E, Es.
  destruct (np_random_random_sample (shape input) w1) as [p w2].
  reflexivity.
Qed.

Lemma dropout_forward_raises (input : tensor) (rate : num) (seed : option Z) (e : exn)
  (m : option tensor) (w : world) :
  py_div s_one (s_sub s_one rate) = Raise e ->
  operations.dropout_forward input rate true seed w = (Raise e, w)
  /\ operators.dropout.forward (operators.dropout.mk_self rate seed true m) input w
     = (Raise e, operators.dropout.mk_self rate seed true m, w).
Proof.
  intro E. unfold operations.dropout_forward, operators.dropout.forward. simpl.
  rewrite E. split; reflexivity.
Qed.

(** The seed is looked at after the scale: a refused seed raises from both
    functions, and leaves the generator and the object as they were. *)
Lemma dropout_forward_refused_seed (input : tensor) (rate scale : num) (seed : option Z)
  (e : exn) (m : option tensor) (w : world) :
  py_div s_one (s_sub s_one rate) = Ok scale ->
  np_random_seed seed w = Raise e ->
  operations.dropout_forward input rate true seed w = (Raise e, w)
  /\ operators.dropout.forward (operators.dropout.mk_self rate seed true m) input w
     = (Raise e, operators.dropout.mk_self rate seed true m, w).
Proof.
  intros E Es. unfold operations.dropout_forward, operators.dropout.forward. simpl.
  rewrite E, Es. split; reflexivity.
Qed.

Lemma np_random_seed_same_error (z : Z) (e : exn) (w w' : world) :
  np_random_seed (Some z) w = Raise e -> np_random_seed (Some z) w' = Raise e.
Proof.
  unfold np_random_seed. destruct ((0 <=? z) && (z <? 2 ^ 32))%Z; [discriminate|].
  intro E. exact E.
Qed.

Lemma np_random_seed_same_outcome (z : Z) (w w' w1 : world) :
  np_random_seed (Some z) w = Ok w1 -> exists w1', np_random_seed (Some z) w' = Ok w1'.
Proof.
  unfold np_random_seed. destruct ((0 <=? z) && (z <? 2 ^ 32))%Z; [|discriminate].
  intros _. eexists. reflexivity.
Qed.

Lemma dropout_forward_seeded (input : tensor) (rate : num) (z : Z) (w w' : world) :
  fst (operations.dropout_forward input rate true (Some z) w)
  = fst (operations.dropout_forward input rate true (Some z) w').
Proof.
  destruct (py_div s_one (s_sub s_one rate)) as [scale|e] eqn:E.
  - destruct (np_random_seed (Some z) w) as [w1|e] eqn:Es.
    + destruct (np_random_seed_same_outcome w' Es) as [w1' Es'].
      rewrite (dropout_forward_training _ E Es), (dropout_forward_training _ E Es').
      cbv zeta. cbn [fst snd].
      rewrite (seeded_sample_independent (shape input) Es Es'). reflexivity.
    + pose proof (np_random_seed_same_error w' Es) as Es'.
      destruct (dropout_forward_refused_seed input None E Es) as [-> _].
      destruct (dropout_forward_refused_seed input None E Es') as [-> _].
      reflexivity.
  - destruct (dropout_forward_raises input (Some z) None w E) as [-> _].
    destruct (dropout_forward_raises input (Some z) None w' E) as [-> _].
    reflexivity.
Qed.

(** C5. With a fixed integer seed and training on, a dropout forward call
    gives the same result (mask and output, or the same error) whatever the
    state of the random generator before it, so two calls on the same input
    and rate agree; with training off, the output is the input itself and no
    mask is produced (the free function returns None, the object's mask is
    left as it was, None on a new object). *)
Theorem dropout_determinism (input : tensor) (rate : num) (z : Z) (seed : option Z)
  (m : option tensor) (w w' : world) :
  (* the free function, from any two states, and twice in a row *)
  fst (operations.dropout_forward input rate true (Some z) w)
  = fst (operations.dropout_forward input rate true (Some z) w')
  /\ fst (operations.dropout_forward input rate true (Some z) w)
     = fst (operations.dropout_forward input rate true (Some z)
              (snd (operations.dropout_forward input rate true (Some z) w)))
  (* the object: a second call on the object and the state the first one left *)
  /\ (let r1 := operators.dropout.forward
                  (operators.dropout.mk_self rate (Some z) true m) input w in
      let r2 := operators.dropout.forward (snd (fst r1)) input (snd r1) in
      fst (fst r1) = fst (fst r2)
      /\ operators.dropout.mask (snd (fst r1)) = operators.dropout.mask (snd (fst r2)))
  (* training off *)
  /\ operations.dropout_forward input rate false seed w = (Ok (input, None), w)
  /\ operators.dropout.forward (operators.dropout.mk_self rate seed false m) input w
     = (Ok input, operators.dropout.mk_self rate seed false m, w)
  /\ operators.dropout.forward (operators.dropout.init rate false seed) input w
     = (Ok input, operators.dropout.mk_self rate seed false None, w).
Proof.
  split; [apply dropout_forward_seeded|].
  split; [apply dropout_forward_seeded|].
  split; [|repeat split; reflexivity].
  cbv zeta.
  destruct (py_div s_one (s_sub s_one rate)) as [scale|e] eqn:E.
  - destruct (np_random_seed (Some z) w) as [w1|e] eqn:Es.
    + rewrite (dropout_class_forward_training _ _ E Es). cbv zeta. cbn [fst snd].
      destruct (np_random_seed_same_outcome
                  (snd (np_random_random_sample (shape input) w1)) Es) as [w1' Es'].
      rewrite (dropout_class_forward_training _ _ E Es'). cbv zeta.
      cbn [fst snd operators.dropout.mask].
      rewrite (seeded_sample_independent (shape input) Es' Es).
      split; reflexivity.
    + destruct (dropout_forward_refused_seed input m E Es) as [_ ->]. simpl.
      destruct (dropout_forward_refused_seed input m E Es) as [_ ->]. simpl.
      split; reflexivity.
  - destruct (dropout_forward_raises input (Some z) m w E) as [_ ->]. simpl.
    destruct (dropout_forward_raises input (Some z) m w E) as [_ ->]. simpl.
    split; reflexivity.
Qed.

End DropoutTheorems.

Section DropoutScale.
Context {G : Random real_scalar}.

Lemma py_div_real (x y : R) :
  y <> 0%R -> py_div (S := real_scalar) x y = Ok (x / y)%R.
Proof.
  intro Hy. unfold py_div; simpl. destruct (Req_dec_T y 0) as [E|_]; [contradiction|reflexivity].
Qed.

Lemma py_div_real_zero (x : R) :
  py_div (S := real_scalar) x (1 - 1)%R = Raise ZeroDivisionError.
Proof.
  unfold py_div; simpl. destruct (Req_dec_T (1 - 1) 0) as [_|N]; [reflexivity|].
  exfalso. apply N. lra.
Qed.

(** C10. Training-mode forward computes [scale = 1/(1 - rate)] before
    anything else and without a guard. With rate = 1 the division raises
    ZeroDivisionError and no output is returned, whatever the seed (on the
    reals, and on binary64 for the float 1.0); for every rate in [0, 1) the
    division is safe, and what follows depends on the seed alone: with a
    seed [np.random.seed] accepts (None, or an integer of [[0, 2**32)]) both
    forward functions return an output shaped like the input, and with a
    seed it refuses both raise its ValueError and leave the generator and
    the object as they were. *)
Theorem dropout_scale_division (input : tensor) (seed : option Z) (m : option tensor)
  (w : world) (rate : R) :
  operations.dropout_forward input 1%R true seed w = (Raise ZeroDivisionError, w)
  /\ operators.dropout.forward (operators.dropout.mk_self 1%R seed true m) input w
     = (Raise ZeroDivisionError, operators.dropout.mk_self 1%R seed true m, w)
  /\ (forall (G' : Random float_scalar) (x : @tensor float_scalar) (w' : world),
        fst (operations.dropout_forward (S := float_scalar) (G := G') x 1%float true seed w')
        = Raise ZeroDivisionError
        /\ fst (fst (operators.dropout.forward (S := float_scalar) (G := G')
                       (operators.dropout.mk_self (S := float_scalar) 1%float seed true None)
                       x w'))
           = Raise ZeroDivisionError)
  /\ ((0 <= rate < 1)%R ->
      py_div (S := real_scalar) 1%R (1 - rate)%R = Ok (1 / (1 - rate))%R
      /\ (valid_seed seed ->
          exists w1, np_random_seed seed w = Ok w1
          /\ (exists out mask,
                operations.dropout_forward input rate true seed w
                = (Ok (out, Some mask), snd (np_random_random_sample (shape input) w1))
                /\ shape out = shape input /\ shape mask = shape input)
          /\ (exists out mask,
                operators.dropout.forward (operators.dropout.mk_self rate seed true m) input w
                = (Ok out, operators.dropout.mk_self rate seed true (Some mask),
                   snd (np_random_random_sample (shape input) w1))
                /\ shape out = shape input /\ shape mask = shape input))
      /\ (~ valid_seed seed ->
          operations.dropout_forward input rate true seed w
          = (Raise (ValueError "Seed must be between 0 and 2**32 - 1"), w)
          /\ operators.dropout.forward (operators.dropout.mk_self rate seed true m) input w
             = (Raise (ValueError "Seed must be between 0 and 2**32 - 1"),
                operators.dropout.mk_self rate seed true m, w))).
Proof.
  pose proof (dropout_forward_raises input seed m w (py_div_real_zero 1)) as [E1 E2].
  split; [exact E1|]. split; [exact E2|]. split.
  - intros G' x w'. split; reflexivity.
  - intros [H0 H1].
    assert (Hdiv : py_div (S := real_scalar) 1%R (1 - rate)%R = Ok (1 / (1 - rate))%R)
      by (apply py_div_real; lra).
    split; [exact Hdiv|]. split.
    + intro Hseed. destruct (np_random_seed_valid w Hseed) as [w1 Es].
      exists w1. split; [exact Es|]. split.
      * rewrite (dropout_forward_training _ Hdiv Es). cbv zeta. cbn [fst snd].
        set (mask := map_nd _ (fst _)).
        destruct (broadcast2_same (fun x (m : Z) => s_mul x (s_of_Z m)) (a := input) (b := mask))
          as (c & Ec & Hc).
        { unfold mask. rewrite map_nd_shape, sample_shape. reflexivity. }
        rewrite Ec. simpl. eexists _, _. split; [reflexivity|]. split.
        -- exact Hc.
        -- unfold mask. rewrite map_nd_shape, sample_shape. reflexivity.
      * rewrite (dropout_class_forward_training _ _ Hdiv Es). cbv zeta.
        set (mask1 := map_nd _ (map_nd _ (fst _))).
        destruct (broadcast2_same s_mul (a := input) (b := mask1)) as (c & Ec & Hc).
        { unfold mask1. rewrite !map_nd_shape, sample_shape. reflexivity. }
        rewrite Ec. eexists _, _. split; [reflexivity|]. split.
        -- exact Hc.
        -- unfold mask1. rewrite !map_nd_shape, sample_shape. reflexivity.
    + intro Hseed. destruct seed as [z|]; [|exfalso; apply Hseed; exact I].
      apply (dropout_forward_refused_seed input m Hdiv).
      apply np_random_seed_out_of_range. exact Hseed.
Qed.

End DropoutScale.

(** A generator to run the real-number model on: the n-th draw is 1/(n+2). *)
#[export] Instance harmonic_random : Random real_scalar := {|
  rng_state := nat;
  entropy := nat;
  seed_state := Z.to_nat;
  os_seed := fun e => (Z.of_nat e, S e);
  next_double := fun n => ((1 / INR (n + 2))%R, S n);
|}.

Lemma dropout_scale_division_witness :
  py_div (S := real_scalar) 1%R (1 - 1 / 2)%R = Ok (1 / (1 - 1 / 2))%R
  /\ exists out mask,
       fst (operations.dropout_forward (G := harmonic_random) (mk_ndarray [2] [1%R; 2%R])
              (1 / 2)%R true (Some 1234%Z) (mk_world (G := harmonic_random) 0 0))
       = Ok (out, Some mask).
Proof.
  destruct (dropout_scale_division (G := harmonic_random)
              (mk_ndarray [2] [1%R; 2%R]) (Some 1234%Z) None
              (mk_world (G := harmonic_random) 0 0) (1 / 2)%R) as (_ & _ & _ & H4).
  assert (Hrate : (0 <= 1 / 2 < 1)%R) by lra.
  destruct (H4 Hrate) as (Hd & Hv & _).
  split; [exact Hd|].
  assert (Hseed : valid_seed (Some 1234%Z)) by (simpl; lia).
  destruct (Hv Hseed) as (w1 & _ & (out & mask & E & _) & _).
  exists out, mask. rewrite E. reflexivity.
Defined.

(* ===================================================================== *)
(** * Pooling with an unknown pool type *)
(* ===================================================================== *)

Section PoolInvalidType.
Context {S : Scalar}.
Import pool_params.

Lemma np_zeros_Z_ok (sh : list Z) :
  Forall (fun d => (0 <= d)%Z) sh -> np_zeros_Z sh = Ok (np_zeros (map Z.to_nat sh)).
Proof.
  intro H. unfold np_zeros_Z.
  replace (existsb (fun d => (d <? 0)%Z) sh) with false; [reflexivity|].
  symmetry. induction H as [|d sh Hd _ IH]; simpl; [reflexivity|].
  rewrite IH, orb_false_r. apply Z.ltb_ge. exact Hd.
Qed.

Lemma range_pos (n : Z) : (1 <= n)%Z -> exists l, range n = 0 :: l.
Proof.
  intro H. unfold range. destruct (Z.to_nat n) as [|k] eqn:E; [lia|].
  simpl. eexists; reflexivity.
Qed.

(** The free function reaches its test of [pool_type] only after the patch
    extraction; whatever happens before, it ends in an error. *)
Lemma pool_forward_never_returns (pp : pool_params.t) (input : tensor) :
  pool_type pp <> "max"%string -> pool_type pp <> "avg"%string ->
  is_ok (operations.pool_forward input pp) = false.
Proof.
  intros Hmax Havg. unfold operations.pool_forward.
  destruct (shape input) as [|b [|c [|h [|w [|? ?]]]]]; try reflexivity.
  repeat (apply bind_raise; intro).
  apply String.eqb_neq in Hmax, Havg. rewrite Hmax, Havg. reflexivity.
Qed.

(** C6 (as amended). With a pool type that is neither 'max' nor 'avg':
    the class-based forward raises its TypeError at the first receptive
    field, that is whenever the output has at least one position
    (out_height >= 1 and out_width >= 1); the free function never returns a
    value, and raises its "Doesn't support" ValueError wherever the same
    call with 'max' returns an output. No reduction is applied in place of
    the unknown one. *)
Theorem pool_forward_invalid_type (pp : pool_params.t) (input : tensor)
  (b c h w : nat) (oh ow : Z) :
  pool_type pp <> "max"%string -> pool_type pp <> "avg"%string ->
  shape input = [b; c; h; w] ->
  operators.get_output_size h (pool_height pp) (pad pp) (stride pp) = Ok oh ->
  operators.get_output_size w (pool_width pp) (pad pp) (stride pp) = Ok ow ->
  (1 <= oh)%Z -> (1 <= ow)%Z ->
  operators.pool.forward pp input
  = Raise (TypeError "Error: pool_type should be 'max' or 'avg'")
  /\ is_ok (operations.pool_forward input pp) = false
  /\ (is_ok (operations.pool_forward input
               (pool_params.mk "max" (pool_height pp) (pool_width pp) (stride pp) (pad pp)))
      = true ->
      operations.pool_forward input pp
      = Raise (ValueError ("Doesn't support '" ++ pool_type pp ++ "' pooling."))).
Proof.
  intros Hmax Havg Hsh Hoh How Hh Hw.
  split; [|split; [apply pool_forward_never_returns; assumption|]].
  - unfold operators.pool.forward. rewrite Hsh, Hoh, How. cbn [bind].
    rewrite np_zeros_Z_ok by (repeat constructor; lia). cbn [bind].
    destruct (range_pos Hh) as (lh & ->). destruct (range_pos Hw) as (lw & ->).
    apply String.eqb_neq in Hmax, Havg.
    cbn [list_prod map app foldM]. rewrite Hmax, Havg. reflexivity.
  - unfold operations.pool_forward. rewrite Hsh. cbn [pool_type pool_height pool_width stride pad].
    apply String.eqb_neq in Hmax, Havg. rewrite Hmax, Havg.
    destruct (operations.out_size h (pool_height pp) (pad pp) (stride pp)) as [oh'|]; [|discriminate].
    destruct (operations.out_size w (pool_width pp) (pad pp) (stride pp)) as [ow'|]; [|discriminate].
    cbn [bind].
    destruct (operations.img2col _ _ _ _ _) as [ip|]; [|discriminate]. cbn [bind].
    destruct (reshape ip _) as [ip'|]; [|discriminate]. cbn [bind]. reflexivity.
Qed.

End PoolInvalidType.

Module PoolInvalidTypeExample.
Import pool_params.

Definition min_pool : pool_params.t := pool_params.mk "min" 2 2 2 0.
Definition one_pixel : @tensor float_scalar := mk_ndarray [1; 1; 1; 1] [5%float].
Definition four_pixels : @tensor float_scalar := mk_ndarray [1; 1; 2; 2] [1; 2; 3; 4]%float.

(** C6, as the specification states it, fails: on a 1x1 image the 2x2
    pooling has no receptive field (out_height = out_width = 0), the loop
    body with the test never runs, and the class-based forward returns an
    empty array for the unknown pool type 'min'. *)
Lemma pool_forward_invalid_type_returns :
  operators.pool.forward min_pool one_pixel = Ok (mk_ndarray [1; 1; 0; 0] []).
Proof. vm_compute. reflexivity. Qed.

Lemma pool_forward_invalid_type_witness :
  operators.pool.forward min_pool four_pixels
  = Raise (TypeError "Error: pool_type should be 'max' or 'avg'").
Proof.
  apply (pool_forward_invalid_type (S := float_scalar) (pp := min_pool) (input := four_pixels)
           (b := 1) (c := 1) (h := 2) (w := 2) (oh := 1%Z) (ow := 1%Z)).
  - discriminate.
  - discriminate.
  - reflexivity.
  - reflexivity.
  - reflexivity.
  - lia.
  - lia.
Defined.

End PoolInvalidTypeExample.

(* ===================================================================== *)
(** * Shapes of reshaped, transposed and sliced arrays *)
(* ===================================================================== *)

Section ShapeLemmas.

Lemma existsb_neg_false (sh : list Z) (f : Z -> bool) :
  Forall (fun d => f d = false) sh -> existsb f sh = false.
Proof.
  induction 1 as [|d sh Hd _ IH]; simpl; [reflexivity|]. rewrite Hd, IH. reflexivity.
Qed.

Lemma filter_none {A : Type} (f : A -> bool) (xs : list A) :
  Forall (fun d => f d = false) xs -> filter f xs = [].
Proof.
  induction 1 as [|d sh Hd _ IH]; simpl; [reflexivity|]. rewrite Hd. exact IH.
Qed.

(** A reshape without an unknown entry returns the requested shape. *)
Lemma reshape_plain {A : Type} (a b : ndarray A) (sh : list Z) :
  Forall (fun d => (0 <= d)%Z) sh ->
  reshape a sh = Ok b -> shape b = map Z.to_nat sh /\ data b = data a.
Proof.
  intros Hsh. unfold reshape.
  rewrite existsb_neg_false
    by (eapply Forall_impl; [|exact Hsh]; intros d Hd; apply Z.ltb_ge; cbv beta in Hd; lia).
  rewrite (filter_none (f := fun d => (d =? -1)%Z))
    by (eapply Forall_impl; [|exact Hsh]; intros d Hd; apply Z.eqb_neq; cbv beta in Hd; lia).
  cbn [length].
  destruct (_ =? length (data a)); intro E; [|discriminate].
  injection E as <-. split; reflexivity.
Qed.

Lemma reshape_data {A : Type} (a b : ndarray A) (sh : list Z) :
  reshape a sh = Ok b -> data b = data a.
Proof.
  unfold reshape. destruct (existsb _ sh); [discriminate|].
  destruct (length (filter _ sh)) as [|[|n]]; try discriminate.
  - destruct (_ =? _); [|discriminate]. intro E; injection E as <-; reflexivity.
  - destruct (_ || _); [discriminate|]. intro E; injection E as <-; reflexivity.
Qed.

Lemma transpose_axes_shape {A : Type} `{Dflt A} (a b : ndarray A) (perm : list nat) :
  operators.transpose_axes a perm = Ok b ->
  shape b = map (fun p => nth p (shape a) 0) perm.
Proof.
  unfold operators.transpose_axes. destruct (_ =? _); intro E; [|discriminate].
  injection E as <-. reflexivity.
Qed.

Lemma update_at_shape {A : Type} (a : ndarray A) idx f : shape (update_at a idx f) = shape a.
Proof. reflexivity. Qed.

Lemma fold_left_shape {A B : Type} (f : ndarray A -> B -> ndarray A) (xs : list B) :
  (forall acc x, shape (f acc x) = shape acc) ->
  forall acc, shape (fold_left f xs acc) = shape acc.
Proof.
  intro Hf. induction xs as [|x xs IH]; intro acc; simpl; [reflexivity|].
  rewrite IH. apply Hf.
Qed.

Lemma foldM_invariant {A B : Type} (P : B -> Prop) (f : B -> A -> result B) (xs : list A) :
  (forall acc x acc', P acc -> f acc x = Ok acc' -> P acc') ->
  forall acc r, P acc -> foldM f xs acc = Ok r -> P r.
Proof.
  intro Hf. induction xs as [|x xs IH]; intros acc r Hacc E; simpl in E.
  - injection E as <-. exact Hacc.
  - apply bind_ok in E as (acc' & E1 & E2). eapply IH; [|exact E2]. eapply Hf; eauto.
Qed.

Lemma slice_shape {A : Type} `{Dflt A} (a : ndarray A) spec :
  shape (slice a spec) = map snd (map (fun '(d, s) => slice_range d s) (combine (shape a) spec)).
Proof. reflexivity. Qed.

End ShapeLemmas.

Section NumpyShapeLemmas.
Context {S : Scalar}.

Lemma np_add_at_shape (a r : tensor) ci hi wi vals :
  np_add_at a ci hi wi vals = Ok r -> shape r = shape a.
Proof.
  unfold np_add_at. destruct (shape a) as [|n [|c [|h [|w [|? ?]]]]] eqn:Esh; try discriminate.
  destruct (fancy_shape _ _ _) as [bsh|]; [|discriminate].
  destruct (negb _); [discriminate|].
  destruct (broadcast_shapes _ _) as [sh'|]; [|discriminate].
  destruct (list_eq_dec _ _ _); [|discriminate].
  intro E. injection E as <-. rewrite fold_left_shape; [exact Esh|].
  intros acc x. destruct (fancy_target acc ci hi wi x); reflexivity.
Qed.

Lemma add_slice_shape (a r v : tensor) spec :
  add_slice a spec v = Ok r -> shape r = shape a.
Proof.
  unfold add_slice. destruct (broadcast_shapes _ _); [|discriminate].
  destruct (list_eq_dec _ _ _); [|discriminate].
  intro E. injection E as <-. reflexivity.
Qed.

End NumpyShapeLemmas.

(* ===================================================================== *)
(** * The shape of the input gradient of the convolution *)
(* ===================================================================== *)

Section ConvBackwardShape.
Context {S : Scalar}.
Import conv_params.

Lemma slice_bound_nat (n p : nat) : slice_bound n (Z.of_nat p) = Nat.min p n.
Proof. unfold slice_bound. destruct (Z.of_nat p <? 0)%Z eqn:E; lia. Qed.

Lemma slice_bound_neg (n p : nat) : p <> 0 -> slice_bound n (- Z.of_nat p) = n - p.
Proof. intro Hp. unfold slice_bound. destruct (- Z.of_nat p <? 0)%Z eqn:E; lia. Qed.

(** [col2img] allocates a buffer of [n_h + p] rows, [p] being the total
    padding, and removes [p] rows at each end. *)
Lemma col2img_shape (dX_hat dX : tensor) (N c_i n_h n_w k_h k_w p s : nat) :
  operators.conv.col2img dX_hat N c_i n_h n_w k_h k_w p s = Ok dX ->
  shape dX = if p =? 0 then [N; c_i; n_h; n_w] else [N; c_i; n_h - p; n_w - p].
Proof.
  unfold operators.conv.col2img. intro E. inv_bind.
  destruct a1 as [[channel_idxs height_idxs] width_ixds]. inv_bind.
  apply np_add_at_shape in Ha4. change (shape (np_zeros _)) with [N; c_i; n_h + p; n_w + p] in Ha4.
  destruct (p =? 0) eqn:Ep; cbn [negb] in E; injection E as <-.
  - apply Nat.eqb_eq in Ep. subst p. rewrite Ha4, !Nat.add_0_r. reflexivity.
  - apply Nat.eqb_neq in Ep. rewrite slice_shape, Ha4. cbn [combine map slice_range snd].
    rewrite !slice_bound_nat, !slice_bound_neg by exact Ep.
    repeat f_equal; lia.
Qed.

(** C2 (what the code does). With a non-zero padding, the input gradient
    that the class-based convolution returns has [pad] rows and [pad]
    columns fewer than the input: its shape is (batch, channels,
    height - pad, width - pad), not the shape of the input. *)
Theorem conv_backward_in_grad_shape (cp : conv_params.t)
  (out_grad input weights bias in_grad w_grad b_grad : tensor) (b c h w : nat) :
  shape input = [b; c; h; w] ->
  pad cp <> 0 ->
  operators.conv.backward cp out_grad input weights bias = Ok (in_grad, w_grad, b_grad) ->
  shape in_grad = [b; c; h - pad cp; w - pad cp].
Proof.
  intros Hsh Hp E. unfold operators.conv.backward in E. rewrite Hsh in E. inv_bind.
  destruct a as [[X_hat out_height] out_width]. inv_bind.
  apply col2img_shape in Ha4. apply Nat.eqb_neq in Hp. rewrite Hp in Ha4. exact Ha4.
Qed.

End ConvBackwardShape.

Module ConvBackwardExample.

Definition conv3x3_pad2 : conv_params.t := conv_params.mk 3 3 1 2 1 1.
Definition image : @tensor float_scalar :=
  mk_ndarray [1; 1; 4; 4] [0; 1; 2; 3; 4; 5; 6; 7; 8; 9; 10; 11; 12; 13; 14; 15]%float.
Definition kernel : @tensor float_scalar :=
  mk_ndarray [1; 1; 3; 3] [1; 1; 1; 1; 1; 1; 1; 1; 1]%float.
Definition bias : @tensor float_scalar := mk_ndarray [1] [1%float].
Definition out_grad : @tensor float_scalar :=
  mk_ndarray [1; 1; 4; 4] [1; 1; 1; 1; 1; 1; 1; 1; 1; 1; 1; 1; 1; 1; 1; 1]%float.

(** A 4x4 image, a 3x3 kernel, stride 1 and total padding 2: forward returns
    a 4x4 output, and backward returns a 2x2 input gradient for the 4x4
    input. The weight and bias gradients have the shapes of their
    parameters. *)
Lemma conv_backward_in_grad_shape_witness :
  (exists out, operators.conv.forward conv3x3_pad2 image kernel bias = Ok out
               /\ shape out = [1; 1; 4; 4])
  /\ exists in_grad w_grad b_grad,
       operators.conv.backward conv3x3_pad2 out_grad image kernel bias
       = Ok (in_grad, w_grad, b_grad)
       /\ shape in_grad = [1; 1; 2; 2]
       /\ shape image = [1; 1; 4; 4]
       /\ shape w_grad = shape kernel /\ shape b_grad = shape bias.
Proof.
  split.
  - eexists. split; [vm_compute; reflexivity | reflexivity].
  - assert (E : exists r, operators.conv.backward conv3x3_pad2 out_grad image kernel bias = Ok r)
      by (eexists; vm_compute; reflexivity).
    destruct E as ([[in_grad w_grad] b_grad] & E).
    exists in_grad, w_grad, b_grad. split; [exact E|]. split.
    + apply (conv_backward_in_grad_shape (cp := conv3x3_pad2) (input := image)
               (b := 1) (c := 1) (h := 4) (w := 4)
               eq_refl (fun H : 2 = 0 => O_S 1 (eq_sym H)) E).
    + split; [reflexivity|].
      pose (f := fun r : result (@tensor float_scalar * @tensor float_scalar
                                 * @tensor float_scalar) =>
                   match r with
                   | Ok (_, w, b) => (shape w, shape b)
                   | Raise _ => ([], [])
                   end).
      assert (Hs : f (Ok (in_grad, w_grad, b_grad)) = ([1; 1; 3; 3], [1]))
        by (rewrite <- E; vm_compute; reflexivity).
      cbv beta iota delta [f] in Hs. injection Hs as Hw Hb. split.
      * exact Hw.
      * exact Hb.
Defined.

End ConvBackwardExample.

(* ===================================================================== *)
(** * Max pooling backward with padding *)
(* ===================================================================== *)

Module MaxPoolPaddedExample.

Definition pool2x2_pad2 : pool_params.t := pool_params.mk "max" 2 2 2 2.
Definition image : @tensor float_scalar := mk_ndarray [1; 1; 2; 2] [-1; -1; -1; -1]%float.
Definition out_grad : @tensor float_scalar := mk_ndarray [1; 1; 2; 2] [1; 2; 3; 4]%float.

(** C7 (what the code does with padding). A 2x2 image of -1 is padded by
    one zero on every side; each of the four 2x2 patches holds one pixel of
    the image and three zeros, so no pixel attains a patch maximum, and
    forward returns zeros. The gradient belongs to the padding alone, but
    backward reads the padded gradient from row and column [pad] = 2 on
    instead of [pad // 2] = 1, and returns the gradient 4 of the last patch
    at three pixels of the image. The free function raises for the same
    call. *)
Theorem max_pool_backward_padded_misaligned :
  operators.pool.forward pool2x2_pad2 image = Ok (mk_ndarray [1; 1; 2; 2] [0; 0; 0; 0]%float)
  /\ operators.pool.backward pool2x2_pad2 out_grad image
     = Ok (mk_ndarray [1; 1; 2; 2] [0; 4; 4; 4]%float)
  /\ is_ok (operations.pool_backward out_grad image pool2x2_pad2) = false.
Proof. repeat split; vm_compute; reflexivity. Qed.

Definition pool2x2_stride1 : pool_params.t := pool_params.mk "max" 2 2 1 0.
Definition flat_image : @tensor float_scalar :=
  mk_ndarray [1; 1; 3; 3] [1; 1; 1; 1; 1; 1; 1; 1; 1]%float.
Definition patch_grads : @tensor float_scalar := mk_ndarray [1; 1; 2; 2] [0; 1; 2; 3]%float.

(** Without padding, on a constant image (every position ties at the
    maximum of every patch) and overlapping patches: each position
    receives the sum of the full gradients of the patches that cover it. *)
Example max_pool_backward_ties_accumulate :
  operators.pool.backward pool2x2_stride1 patch_grads flat_image
  = Ok (mk_ndarray [1; 1; 3; 3] [0; 1; 1; 2; 6; 4; 2; 5; 3]%float)
  /\ operations.pool_backward patch_grads flat_image pool2x2_stride1
     = Ok (mk_ndarray [1; 1; 3; 3] [0; 1; 1; 2; 6; 4; 2; 5; 3]%float).
Proof. split; vm_compute; reflexivity. Qed.

End MaxPoolPaddedExample.

(* ===================================================================== *)
(** * Output sizes of convolution and pooling *)
(* ===================================================================== *)

(** The formula of the specification: floor((in + pad - kernel)/stride) + 1,
    [pad] being the total padding. *)
Definition spec_out_size (size pad kernel stride : nat) : Z :=
  ((Z.of_nat size + Z.of_nat pad - Z.of_nat kernel) / Z.of_nat stride + 1)%Z.

Section OutputSizes.
Context {S : Scalar}.

Lemma py_floordiv_inv (a b q : Z) : py_floordiv a b = Ok q -> b <> 0%Z /\ q = (a / b)%Z.
Proof.
  unfold py_floordiv. destruct (b =? 0)%Z eqn:E; [discriminate|].
  intro H. injection H as <-. apply Z.eqb_neq in E. split; auto.
Qed.

Lemma get_output_size_inv (n k p s : nat) (o : Z) :
  operators.get_output_size n k p s = Ok o -> s <> 0 /\ o = spec_out_size n p k s.
Proof.
  unfold operators.get_output_size.
  destruct (py_floordiv _ _) as [q|] eqn:Eq; cbn [bind]; intro H; [|discriminate].
  apply py_floordiv_inv in Eq as [Hs ->].
  assert (Ho : o = ((Z.of_nat n + Z.of_nat p - Z.of_nat k) / Z.of_nat s + 1)%Z)
    by congruence.
  subst o. split; [lia | reflexivity].
Qed.

(** The free functions add the padding twice. *)
Lemma out_size_inv (n k p s : nat) (o : Z) :
  operations.out_size n k p s = Ok o -> s <> 0 /\ o = spec_out_size n (2 * p) k s.
Proof.
  unfold operations.out_size.
  destruct (py_floordiv _ _) as [q|] eqn:Eq; cbn [bind]; intro H; [|discriminate].
  apply py_floordiv_inv in Eq as [Hs ->].
  assert (Ho : o = (1 + (Z.of_nat n - Z.of_nat k + 2 * Z.of_nat p) / Z.of_nat s)%Z)
    by congruence.
  subst o. clear H. split; [lia|].
  unfold spec_out_size.
  replace (Z.of_nat n + Z.of_nat (2 * p) - Z.of_nat k)%Z
    with (Z.of_nat n - Z.of_nat k + 2 * Z.of_nat p)%Z by lia.
  apply Z.add_comm.
Qed.

Lemma np_zeros_Z_inv (sh : list Z) (a : tensor) :
  np_zeros_Z sh = Ok a -> Forall (fun d => (0 <= d)%Z) sh /\ shape a = map Z.to_nat sh.
Proof.
  unfold np_zeros_Z. destruct (existsb _ sh) eqn:E; [discriminate|].
  intro H. injection H as <-. split; [|reflexivity].
  apply Forall_forall. intros d Hd.
  destruct (Z.ltb_spec d 0) as [Hlt|Hge]; [|exact Hge].
  exfalso. assert (existsb (fun d => (d <? 0)%Z) sh = true); [|congruence].
  apply existsb_exists. exists d. split; [exact Hd | apply Z.ltb_lt; exact Hlt].
Qed.

Lemma set_ij_shape (output v r : tensor) (i j : nat) :
  operators.pool.set_ij output i j v = Ok r -> shape r = shape output.
Proof.
  unfold operators.pool.set_ij. destruct (broadcast_shapes _ _); [|discriminate].
  destruct (list_eq_dec _ _ _); [|discriminate]. intro E. injection E as <-. reflexivity.
Qed.

Lemma np_repeat_ok {A : Type} (xs r : list A) (k : Z) :
  np_repeat xs k = Ok r -> (0 <= k)%Z.
Proof. unfold np_repeat. destruct (Z.ltb_spec k 0); [discriminate | auto]. Qed.

Lemma np_tile_ok {A : Type} (xs r : list A) (k : Z) :
  np_tile xs k = Ok r -> xs = [] \/ (0 <= k)%Z.
Proof.
  unfold np_tile. destruct xs as [|x xs]; [auto|].
  destruct (Z.ltb_spec k 0); [discriminate | auto].
Qed.

Lemma np_arange_nil (n : Z) : np_arange n = [] -> (n <= 0)%Z.
Proof.
  unfold np_arange. destruct (Z.to_nat n) as [|k] eqn:E; simpl; [lia | discriminate].
Qed.

(** numpy refuses an unknown entry beside an entry 0. *)
Lemma reshape_unknown_beside_zero {A : Type} (a : ndarray A) (z0 z3 : Z) :
  (0 <= z0)%Z -> (0 <= z3)%Z ->
  reshape a [z0; -1; 0; z3]%Z = Raise (ValueError "cannot reshape array").
Proof.
  intros H0 H3. unfold reshape.
  assert (E1 : existsb (fun d => (d <? -1)%Z) [z0; -1; 0; z3]%Z = false).
  { cbn [existsb]. destruct (Z.ltb_spec z0 (-1)); [lia|].
    destruct (Z.ltb_spec z3 (-1)); [lia|]. reflexivity. }
  rewrite E1.
  assert (E2 : filter (fun d => (d =? -1)%Z) [z0; -1; 0; z3]%Z = [(-1)%Z]).
  { cbn [filter]. destruct (Z.eqb_spec z0 (-1)); [lia|].
    destruct (Z.eqb_spec z3 (-1)); [lia|]. reflexivity. }
  rewrite E2. cbn [length].
  assert (E3 : filter (fun d => negb (d =? -1)%Z) [z0; -1; 0; z3]%Z = [z0; 0; z3]%Z).
  { cbn [filter]. destruct (Z.eqb_spec z0 (-1)); [lia|].
    destruct (Z.eqb_spec z3 (-1)); [lia|]. reflexivity. }
  rewrite E3. cbn [map fold_right]. change (Z.to_nat 0) with 0.
  rewrite Nat.mul_0_l, Nat.mul_0_r. reflexivity.
Qed.

(** A reshape to four entries of which the middle two are signed. *)
Lemma reshape_4 {A : Type} (a r : ndarray A) (c0 c3 : nat) (d1 d2 : Z) :
  (0 <= d2)%Z -> (d2 = 0 \/ 0 <= d1)%Z ->
  reshape a [Z.of_nat c0; d1; d2; Z.of_nat c3] = Ok r ->
  (0 <= d1)%Z /\ shape r = [c0; Z.to_nat d1; Z.to_nat d2; c3].
Proof.
  intros H2 H1 E.
  destruct (Z.ltb_spec d1 0) as [Hneg|Hpos].
  - exfalso. destruct H1 as [-> | H1]; [|lia].
    destruct (Z.ltb_spec d1 (-1)) as [Hlt|Hge].
    + unfold reshape in E. cbn [existsb] in E.
      destruct (Z.ltb_spec d1 (-1)); [|lia].
      rewrite orb_true_r in E. discriminate E.
    + assert (d1 = -1)%Z by lia. subst d1.
      rewrite reshape_unknown_beside_zero in E by lia. discriminate E.
  - split; [exact Hpos|].
    apply reshape_plain in E; [|repeat constructor; lia].
    destruct E as [E _]. rewrite E. cbn [map]. rewrite !Nat2Z.id. reflexivity.
Qed.

End OutputSizes.

Section ForwardShapes.
Context {S : Scalar}.

(** The class-based pooling: the output buffer is allocated with the sizes
    [get_output_size] returns. *)
Lemma pool_forward_shape (pp : pool_params.t) (input out : tensor) (b c h w : nat) :
  shape input = [b; c; h; w] ->
  operators.pool.forward pp input = Ok out ->
  exists oh ow : nat,
    shape out = [b; c; oh; ow]
    /\ Z.of_nat oh = spec_out_size h (pool_params.pad pp) (pool_params.pool_height pp)
                       (pool_params.stride pp)
    /\ Z.of_nat ow = spec_out_size w (pool_params.pad pp) (pool_params.pool_width pp)
                       (pool_params.stride pp).
Proof.
  intros Hsh E. unfold operators.pool.forward in E. rewrite Hsh in E.
  apply bind_ok in E as (oh & Eoh & E). apply bind_ok in E as (ow & Eow & E).
  apply bind_ok in E as (buf & Ebuf & E). apply bind_ok in E as (buf' & Eloop & E).
  apply get_output_size_inv in Eoh as [_ ->]. apply get_output_size_inv in Eow as [_ ->].
  apply np_zeros_Z_inv in Ebuf as [Hpos Hbuf].
  assert (Hbuf' : shape buf' = shape buf).
  { eapply (foldM_invariant (P := fun t : tensor => shape t = shape buf));
      [|reflexivity|exact Eloop].
    intros acc [i j] acc' Hacc Hstep. cbv beta in *.
    destruct (String.eqb _ "max"); [|destruct (String.eqb _ "avg"); [|discriminate]];
      apply bind_ok in Hstep as (v & _ & Hstep); apply set_ij_shape in Hstep; congruence. }
  apply transpose_axes_shape in E. rewrite Hbuf', Hbuf in E. cbn [map nth] in E.
  rewrite !Nat2Z.id in E.
  inversion Hpos as [|? ? H1 Hpos1]; subst. inversion Hpos1 as [|? ? H2 _]; subst.
  eexists _, _. split; [exact E|]. split; apply Z2Nat.id; assumption.
Qed.

(** The class-based convolution. *)
Lemma conv_forward_shape (cp : conv_params.t) (input weights bias out : tensor)
  (b c h w : nat) :
  shape input = [b; c; h; w] ->
  operators.conv.forward cp input weights bias = Ok out ->
  exists oh ow : nat,
    shape out = [b; conv_params.out_channel cp; oh; ow]
    /\ Z.of_nat oh = spec_out_size h (conv_params.pad cp) (conv_params.kernel_h cp)
                       (conv_params.stride cp)
    /\ Z.of_nat ow = spec_out_size w (conv_params.pad cp) (conv_params.kernel_w cp)
                       (conv_params.stride cp).
Proof.
  intros Hsh E. unfold operators.conv.forward in E. rewrite Hsh in E.
  apply bind_ok in E as ([[X_hat oh] ow] & Eimg & E).
  apply bind_ok in E as (W & _ & E). apply bind_ok in E as (b1 & _ & E).
  apply bind_ok in E as (b2 & _ & E). apply bind_ok in E as (Y & _ & E).
  apply bind_ok in E as (Y' & _ & E). apply bind_ok in E as (output & Eout & E).
  unfold operators.conv.img2col in Eimg.
  apply bind_ok in Eimg as (oh' & Eoh & Eimg). apply bind_ok in Eimg as (ow' & Eow & Eimg).
  apply bind_ok in Eimg as ([[ci hi] wi] & Eidx & Eimg).
  apply bind_ok in Eimg as (Xb & _ & Eimg). apply bind_ok in Eimg as (Xt & _ & Eimg).
  apply bind_ok in Eimg as (Xr & _ & Eimg).
  assert (Etr : (Xr, oh', ow') = (X_hat, oh, ow)) by congruence.
  injection Etr as _ -> ->. clear Eimg.
  unfold operators.conv.get_im2col_data_indexes in Eidx.
  apply bind_ok in Eidx as (x1 & _ & Eidx). apply bind_ok in Eidx as (x2 & _ & Eidx).
  apply bind_ok in Eidx as (x3 & _ & Eidx). apply bind_ok in Eidx as (x4 & _ & Eidx).
  apply bind_ok in Eidx as (x5 & Erep & Eidx).
  apply bind_ok in Eidx as (x6 & _ & Eidx). apply bind_ok in Eidx as (x7 & _ & Eidx).
  apply bind_ok in Eidx as (x8 & _ & Eidx). apply bind_ok in Eidx as (x9 & _ & Eidx).
  apply bind_ok in Eidx as (x10 & Etile & _).
  apply np_repeat_ok in Erep. apply np_tile_ok in Etile.
  assert (Hor : (ow = 0 \/ 0 <= oh)%Z).
  { destruct Etile as [Enil|Hge]; [|right; exact Hge].
    apply np_arange_nil in Enil. left. lia. }
  apply reshape_4 in Eout as [Hoh Eout]; [|exact Erep|exact Hor].
  apply transpose_axes_shape in E. rewrite Eout in E. cbn [map nth] in E.
  apply get_output_size_inv in Eoh as [_ Eoh]. apply get_output_size_inv in Eow as [_ Eow].
  eexists _, _. split; [exact E|]. rewrite !Z2Nat.id by assumption. split; assumption.
Qed.

End ForwardShapes.

Section ReshapeInversion.

(** What a successful reshape says of the requested shape. *)
Lemma reshape_inv {A : Type} (a r : ndarray A) (sh : list Z) :
  reshape a sh = Ok r ->
  Forall (fun d => (-1 <= d)%Z) sh
  /\ length (filter (fun d => (d =? -1)%Z) sh) <= 1
  /\ length (shape r) = length sh
  /\ (forall i, nth i sh 0%Z <> (-1)%Z -> nth i (shape r) 0 = Z.to_nat (nth i sh 0%Z)).
Proof.
  unfold reshape. destruct (existsb _ sh) eqn:Eneg; [discriminate|].
  assert (Hge : Forall (fun d => (-1 <= d)%Z) sh).
  { apply Forall_forall. intros d Hd.
    destruct (Z.ltb_spec d (-1)) as [Hlt|Hge]; [|exact Hge].
    exfalso. assert (existsb (fun d => (d <? -1)%Z) sh = true); [|congruence].
    apply existsb_exists. exists d. split; [exact Hd | apply Z.ltb_lt; exact Hlt]. }
  destruct (length (filter _ sh)) as [|[|n]] eqn:Ecount; try discriminate.
  - destruct (_ =? _); [|discriminate]. intro E. injection E as <-. cbn [shape].
    repeat split; [exact Hge | lia | apply length_map |].
    intros i _. change 0 with (Z.to_nat 0) at 1. apply map_nth.
  - destruct (_ || _); [discriminate|]. intro E. injection E as <-. cbn [shape].
    repeat split; [exact Hge | lia | apply length_map |].
    intros i Hi.
    set (f := fun d : Z => if (d =? -1)%Z then _ else Z.to_nat d).
    change 0 with (f 0%Z) at 1. rewrite map_nth. unfold f.
    destruct (Z.eqb_spec (nth i sh 0%Z) (-1)); [contradiction | reflexivity].
Qed.

(** The reshape of the patches of pooling: batch, channel, an unknown
    entry, and the two output sizes. *)
Lemma reshape_5 {A : Type} (a r : ndarray A) (b c : nat) (oh ow : Z) :
  reshape a [Z.of_nat b; Z.of_nat c; -1; oh; ow]%Z = Ok r ->
  (0 <= oh)%Z /\ (0 <= ow)%Z
  /\ exists m, shape r = [b; c; m; Z.to_nat oh; Z.to_nat ow].
Proof.
  intro E. apply reshape_inv in E as (Hge & Hcount & Hlen & Hnth).
  inversion Hge as [|? ? _ Hge1]; subst. inversion Hge1 as [|? ? _ Hge2]; subst.
  inversion Hge2 as [|? ? _ Hge3]; subst. inversion Hge3 as [|? ? Hoh Hge4]; subst.
  inversion Hge4 as [|? ? How _]; subst.
  cbn [filter] in Hcount.
  destruct (Z.eqb_spec (Z.of_nat b) (-1)); [lia|].
  destruct (Z.eqb_spec (Z.of_nat c) (-1)); [lia|].
  change ((-1 =? -1)%Z) with true in Hcount. cbn iota in Hcount.
  destruct (Z.eqb_spec oh (-1)) as [|Hoh'];
    [destruct (Z.eqb_spec ow (-1)); cbn [length] in Hcount; lia|].
  destruct (Z.eqb_spec ow (-1)) as [|How']; [cbn [length] in Hcount; lia|].
  split; [lia|]. split; [lia|].
  destruct (shape r) as [|s0 [|s1 [|s2 [|s3 [|s4 [|? ?]]]]]]; try discriminate Hlen.
  exists s2.
  pose proof (Hnth 0) as H0. pose proof (Hnth 1) as H1.
  pose proof (Hnth 3) as H3. pose proof (Hnth 4) as H4.
  cbn [nth] in H0, H1, H3, H4.
  rewrite H0, H1, H3, H4 by assumption. rewrite !Nat2Z.id. reflexivity.
Qed.

End ReshapeInversion.

Section FreeForwardShapes.
Context {S : Scalar}.

Lemma reduce_axes_shape {A B : Type} `{Dflt A} (f : list A -> B) axes keepdims (a : ndarray A) :
  shape (reduce_axes f axes keepdims a)
  = if keepdims then keep_axes 0 axes (shape a) else drop_axes 0 axes (shape a).
Proof. reflexivity. Qed.

Lemma np_max_shape axes keepdims (a r : tensor) :
  np_max axes keepdims a = Ok r ->
  shape r = if keepdims then keep_axes 0 axes (shape a) else drop_axes 0 axes (shape a).
Proof.
  unfold np_max. destruct (negb _); [discriminate|]. destruct (existsb _ _); [discriminate|].
  intro E. injection E as <-. reflexivity.
Qed.

Lemma np_mean_shape axes (a r : tensor) :
  np_mean axes a = Ok r -> shape r = drop_axes 0 axes (shape a).
Proof.
  unfold np_mean. destruct (axes_ok _ _); [|discriminate].
  intro E. injection E as <-. reflexivity.
Qed.

Lemma np_sum_shape axes keepdims (a r : tensor) :
  np_sum axes keepdims a = Ok r ->
  shape r = if keepdims then keep_axes 0 axes (shape a) else drop_axes 0 axes (shape a).
Proof.
  unfold np_sum. destruct (axes_ok _ _); [|discriminate].
  intro E. injection E as <-. reflexivity.
Qed.

(** The free-function pooling: [pad] is added on both sides. *)
Lemma free_pool_forward_shape (pp : pool_params.t) (input out : tensor) (b c h w : nat) :
  shape input = [b; c; h; w] ->
  operations.pool_forward input pp = Ok out ->
  exists oh ow : nat,
    shape out = [b; c; oh; ow]
    /\ Z.of_nat oh = spec_out_size h (2 * pool_params.pad pp) (pool_params.pool_height pp)
                       (pool_params.stride pp)
    /\ Z.of_nat ow = spec_out_size w (2 * pool_params.pad pp) (pool_params.pool_width pp)
                       (pool_params.stride pp).
Proof.
  intros Hsh E. unfold operations.pool_forward in E. rewrite Hsh in E.
  apply bind_ok in E as (oh & Eoh & E). apply bind_ok in E as (ow & Eow & E).
  apply bind_ok in E as (ip & _ & E). apply bind_ok in E as (ip' & Ers & E).
  apply out_size_inv in Eoh as [_ Eoh]. apply out_size_inv in Eow as [_ Eow].
  apply reshape_5 in Ers as (Hoh & How & m & Hip).
  assert (Hout : shape out = [b; c; Z.to_nat oh; Z.to_nat ow]).
  { destruct (String.eqb _ "max").
    - apply np_max_shape in E. rewrite E, Hip. reflexivity.
    - destruct (String.eqb _ "avg"); [|discriminate].
      apply np_mean_shape in E. rewrite E, Hip. reflexivity. }
  eexists _, _. split; [exact Hout|]. rewrite !Z2Nat.id by assumption. split; assumption.
Qed.

(** The free-function convolution. *)
Lemma free_conv_forward_shape (cp : conv_params.t) (input weights bias out : tensor)
  (b c h w : nat) :
  shape input = [b; c; h; w] ->
  operations.conv_forward input weights bias cp = Ok out ->
  exists oh ow : nat,
    shape out = [b; conv_params.out_channel cp; oh; ow]
    /\ Z.of_nat oh = spec_out_size h (2 * conv_params.pad cp) (conv_params.kernel_h cp)
                       (conv_params.stride cp)
    /\ Z.of_nat ow = spec_out_size w (2 * conv_params.pad cp) (conv_params.kernel_w cp)
                       (conv_params.stride cp).
Proof.
  intros Hsh E. unfold operations.conv_forward in E. rewrite Hsh in E.
  apply bind_ok in E as (oh & Eoh & E). apply bind_ok in E as (ow & Eow & E).
  apply bind_ok in E as (z & Ez & E). apply bind_ok in E as (ic & _ & E).
  apply bind_ok in E as (outs & _ & E). apply bind_ok in E as (output & _ & E).
  apply out_size_inv in Eoh as [_ Eoh]. apply out_size_inv in Eow as [_ Eow].
  apply np_zeros_Z_inv in Ez as [Hpos _].
  apply reshape_plain in E as [E _]; [|exact Hpos].
  cbn [map] in E. rewrite !Nat2Z.id in E.
  pose proof (Forall_inv (Forall_inv_tail (Forall_inv_tail Hpos))) as Hoh.
  pose proof (Forall_inv (Forall_inv_tail (Forall_inv_tail (Forall_inv_tail Hpos)))) as How.
  cbv beta in Hoh, How.
  exists (Z.to_nat oh), (Z.to_nat ow). split; [exact E|].
  rewrite !Z2Nat.id by assumption. split; assumption.
Qed.

End FreeForwardShapes.

Section OutputSizeTheorem.
Context {S : Scalar}.

(** C1 (as amended). Whenever a forward pass returns an output for an input
    of shape (b, c, h, w), the output is (b, channels, oh, ow) with:
    - for the class-based [conv.forward] and [pool.forward],
      oh = floor((h + pad - kernel)/stride) + 1, [pad] being the configured
      (total) padding;
    - for the free functions [conv_forward] and [pool_forward], which pad
      by [pad] on each side, oh = floor((h + 2*pad - kernel)/stride) + 1;
    and likewise for ow. For in = 28, pad = 2, kernel = 3, stride = 1 the
    class-based size is 28 and the free-function size is 30. *)
Theorem output_size_formula (cp : conv_params.t) (pp : pool_params.t)
  (input weights bias : tensor) (b c h w : nat) :
  shape input = [b; c; h; w] ->
  (forall out, operators.conv.forward cp input weights bias = Ok out ->
     exists oh ow : nat,
       shape out = [b; conv_params.out_channel cp; oh; ow]
       /\ Z.of_nat oh = spec_out_size h (conv_params.pad cp) (conv_params.kernel_h cp)
                          (conv_params.stride cp)
       /\ Z.of_nat ow = spec_out_size w (conv_params.pad cp) (conv_params.kernel_w cp)
                          (conv_params.stride cp))
  /\ (forall out, operators.pool.forward pp input = Ok out ->
     exists oh ow : nat,
       shape out = [b; c; oh; ow]
       /\ Z.of_nat oh = spec_out_size h (pool_params.pad pp) (pool_params.pool_height pp)
                          (pool_params.stride pp)
       /\ Z.of_nat ow = spec_out_size w (pool_params.pad pp) (pool_params.pool_width pp)
                          (pool_params.stride pp))
  /\ (forall out, operations.conv_forward input weights bias cp = Ok out ->
     exists oh ow : nat,
       shape out = [b; conv_params.out_channel cp; oh; ow]
       /\ Z.of_nat oh = spec_out_size h (2 * conv_params.pad cp) (conv_params.kernel_h cp)
                          (conv_params.stride cp)
       /\ Z.of_nat ow = spec_out_size w (2 * conv_params.pad cp) (conv_params.kernel_w cp)
                          (conv_params.stride cp))
  /\ (forall out, operations.pool_forward input pp = Ok out ->
     exists oh ow : nat,
       shape out = [b; c; oh; ow]
       /\ Z.of_nat oh = spec_out_size h (2 * pool_params.pad pp) (pool_params.pool_height pp)
                          (pool_params.stride pp)
       /\ Z.of_nat ow = spec_out_size w (2 * pool_params.pad pp) (pool_params.pool_width pp)
                          (pool_params.stride pp))
  /\ operators.get_output_size 28 3 2 1 = Ok 28%Z
  /\ operations.out_size 28 3 2 1 = Ok 30%Z.
Proof.
  intro Hsh. repeat split.
  - intros out E. eapply conv_forward_shape; eauto.
  - intros out E. eapply pool_forward_shape; eauto.
  - intros out E. eapply free_conv_forward_shape; eauto.
  - intros out E. eapply free_pool_forward_shape; eauto.
Qed.

End OutputSizeTheorem.

Module OutputSizeExample.

Definition image : @tensor float_scalar := mk_ndarray [1; 1; 2; 2] [1; 2; 3; 4]%float.
Definition pool2x2_pad1 : pool_params.t := pool_params.mk "max" 2 2 1 1.
Definition pool2x2_pad2 : pool_params.t := pool_params.mk "max" 2 2 1 2.

(** C1, as the specification states it, fails on the free functions: with
    the configured pad = 1, a 2x2 image and a 2x2 pooling of stride 1,
    [pool_forward] returns a 3x3 output, where the formula gives
    floor((2 + 1 - 2)/1) + 1 = 2; and for in = 28, pad = 2, kernel = 3,
    stride = 1 the free functions compute the size 30, not 28. *)
Lemma free_pool_forward_size_differs :
  operations.pool_forward image pool2x2_pad1
  = Ok (mk_ndarray [1; 1; 3; 3] [1; 2; 2; 3; 4; 4; 3; 4; 4]%float)
  /\ spec_out_size 2 1 2 1 = 2%Z
  /\ operations.out_size 28 3 2 1 = Ok 30%Z
  /\ spec_out_size 28 2 3 1 = 28%Z.
Proof. repeat split; vm_compute; reflexivity. Qed.

Lemma output_size_formula_witness :
  (exists out oh ow,
     operators.pool.forward pool2x2_pad2 image = Ok out
     /\ shape out = [1; 1; oh; ow] /\ Z.of_nat oh = 3%Z /\ Z.of_nat ow = 3%Z)
  /\ (exists out oh ow,
     operations.pool_forward image pool2x2_pad1 = Ok out
     /\ shape out = [1; 1; oh; ow] /\ Z.of_nat oh = 3%Z /\ Z.of_nat ow = 3%Z).
Proof.
  pose proof (output_size_formula (S := float_scalar)
                (conv_params.mk 3 3 1 2 1 1) pool2x2_pad2 (input := image) image image
                (b := 1) (c := 1) (h := 2) (w := 2) eq_refl) as (_ & Hclass & _).
  pose proof (output_size_formula (S := float_scalar)
                (conv_params.mk 3 3 1 2 1 1) pool2x2_pad1 (input := image) image image
                (b := 1) (c := 1) (h := 2) (w := 2) eq_refl) as (_ & _ & _ & Hfree & _).
  split.
  - assert (E : exists out, operators.pool.forward pool2x2_pad2 image = Ok out)
      by (eexists; vm_compute; reflexivity).
    destruct E as (out & E). destruct (Hclass out E) as (oh & ow & H1 & H2 & H3).
    exists out, oh, ow. repeat split; assumption.
  - assert (E : exists out, operations.pool_forward image pool2x2_pad1 = Ok out)
      by (eexists; vm_compute; reflexivity).
    destruct E as (out & E). destruct (Hfree out E) as (oh & ow & H1 & H2 & H3).
    exists out, oh, ow. repeat split; assumption.
Defined.

End OutputSizeExample.

(* ===================================================================== *)
(** * The GRU cell: the packed kernel gradients *)
(* ===================================================================== *)

Section GruShapes.
Context {S : Scalar} {T : Transcendental S}.

Lemma matmul_ok (a b : tensor) (n k m : nat) :
  shape a = [n; k] -> shape b = [k; m] ->
  exists c, matmul a b = Ok c /\ shape c = [n; m].
Proof.
  intros Ha Hb. unfold matmul. rewrite Ha, Hb, Nat.eqb_refl.
  eexists. split; reflexivity.
Qed.

Lemma T_shape2 {A : Type} `{Dflt A} (a : ndarray A) (n m : nat) :
  shape a = [n; m] -> shape (T_ a) = [m; n].
Proof. intro Ha. unfold T_, transpose. rewrite Ha. reflexivity. Qed.

Lemma cols_ok (a : tensor) (n m lo hi : nat) :
  shape a = [n; m] -> lo <= hi -> hi <= m ->
  exists c, operators.gru.cols a lo hi = Ok c /\ shape c = [n; hi - lo].
Proof.
  intros Ha Hlo Hhi. unfold operators.gru.cols. rewrite Ha.
  eexists. split; [reflexivity|].
  rewrite slice_shape, Ha. cbn [combine map slice_range snd].
  rewrite !slice_bound_nat. f_equal. f_equal. lia.
Qed.

Lemma concatenate_last_3 (a b c : tensor) (n u : nat) :
  shape a = [n; u] -> shape b = [n; u] -> shape c = [n; u] ->
  exists r, concatenate_last [a; b; c] = Ok r /\ shape r = [n; 3 * u].
Proof.
  intros Ha Hb Hc. unfold concatenate_last. rewrite Ha. cbn [forallb].
  rewrite Ha, Hb, Hc, Nat.eqb_refl. cbn [andb].
  eexists. split; [reflexivity|]. cbn [shape map fold_right].
  rewrite Ha, Hb, Hc. reflexivity.
Qed.

(** [c] returns a value that satisfies [P]. *)
Definition returns {A : Type} (c : result A) (P : A -> Prop) : Prop :=
  exists a, c = Ok a /\ P a.

(** Solves [shape t = ?sh] from the shapes in the context. *)
Ltac shape_solver :=
  solve [ eassumption
        | rewrite !map_nd_shape; eassumption
        | apply T_shape2; shape_solver ].

(** One statement of the body: a product or an element-wise operation on
    arrays whose shapes are known succeeds, and the shape of its result is
    recorded. *)
Ltac gru_step :=
  lazymatch goal with
  | |- returns (bind (matmul ?a ?b) _) _ =>
      let c := fresh "m" in
      let E := fresh "E" in
      let H := fresh "H" in
      edestruct (@matmul_ok a b) as (c & E & H); [shape_solver | shape_solver |];
      rewrite E; cbn [bind]
  | |- returns (bind (broadcast2 ?f ?a ?b) _) _ =>
      let c := fresh "e" in
      let E := fresh "E" in
      let H := fresh "H" in
      let Ha := fresh "Ha" in
      destruct (broadcast2_same f (a := a) (b := b)) as (c & E & H);
      [etransitivity; [shape_solver | symmetry; shape_solver] |];
      eassert (Ha : shape a = _) by shape_solver;
      rewrite Ha in H; clear Ha;
      rewrite E; cbn [bind]
  end.

Lemma gru_backward_body_ok (out_grad x prev_h kernel recurrent_kernel : tensor)
  (batch in_features n_units : nat) :
  shape x = [batch; in_features] ->
  shape prev_h = [batch; n_units] ->
  shape kernel = [in_features; 3 * n_units] ->
  shape recurrent_kernel = [n_units; 3 * n_units] ->
  shape out_grad = [batch; n_units] ->
  exists l,
    operators.gru.backward_body out_grad (x, prev_h) kernel recurrent_kernel = Ok l
    /\ operators.gru.units l = n_units
    /\ shape (operators.gru.x_grad l) = [batch; in_features]
    /\ shape (operators.gru.prev_h_grad l) = [batch; n_units]
    /\ matmul (T_ x) (operators.gru.x_z_raw_grad l) = Ok (operators.gru.kernel_z_grad l)
    /\ matmul (T_ x) (operators.gru.x_r_raw_grad l) = Ok (operators.gru.kernel_r_grad l)
    /\ matmul (T_ x) (operators.gru.x_h_raw_grad l) = Ok (operators.gru.kernel_h_grad l)
    /\ shape (operators.gru.kernel_z_grad l) = [in_features; n_units]
    /\ shape (operators.gru.kernel_r_grad l) = [in_features; n_units]
    /\ shape (operators.gru.kernel_h_grad l) = [in_features; n_units]
    /\ shape (operators.gru.recurrent_kernel_z_grad l) = [n_units; n_units]
    /\ shape (operators.gru.recurrent_kernel_r_grad l) = [n_units; n_units]
    /\ shape (operators.gru.recurrent_kernel_h_grad l) = [n_units; n_units].
Proof.
  intros Hx Hh Hk Hrk Hog.
  unfold operators.gru.backward_body, operators.gru.unpack2. rewrite Hk. cbn [bind].
  replace (3 * n_units / 3) with n_units by (rewrite Nat.mul_comm, Nat.div_mul; lia).
  destruct (cols_ok (lo := 0) (hi := n_units) Hk) as (kz & -> & Hkz); [lia | lia |].
  destruct (cols_ok (lo := n_units) (hi := 2 * n_units) Hk) as (kr & -> & Hkr); [lia | lia |].
  destruct (cols_ok (lo := 2 * n_units) (hi := 3 * n_units) Hk) as (kh & -> & Hkh); [lia | lia |].
  destruct (cols_ok (lo := 0) (hi := n_units) Hrk) as (rz & -> & Hrz); [lia | lia |].
  destruct (cols_ok (lo := n_units) (hi := 2 * n_units) Hrk) as (rr & -> & Hrr); [lia | lia |].
  destruct (cols_ok (lo := 2 * n_units) (hi := 3 * n_units) Hrk) as (rh & -> & Hrh); [lia | lia |].
  cbn [bind].
  replace (n_units - 0) with n_units in * by lia.
  replace (2 * n_units - n_units) with n_units in * by lia.
  replace (3 * n_units - 2 * n_units) with n_units in * by lia.
  match goal with |- exists l, ?c = Ok l /\ @?P l => change (returns c P) end.
  repeat gru_step.
  eexists. split; [reflexivity|].
  cbn [operators.gru.units operators.gru.x_grad operators.gru.prev_h_grad
       operators.gru.x_z_raw_grad operators.gru.x_r_raw_grad operators.gru.x_h_raw_grad
       operators.gru.kernel_z_grad operators.gru.kernel_r_grad operators.gru.kernel_h_grad
       operators.gru.recurrent_kernel_z_grad operators.gru.recurrent_kernel_r_grad
       operators.gru.recurrent_kernel_h_grad].
  repeat split; assumption.
Qed.

(** Element [j] of row [i] of a list of rows of the same length. *)
Lemma nth_flat_map_rows {A : Type} (f : nat -> list A) (L : nat) (d : A) :
  (forall i, length (f i) = L) ->
  forall n s i j, i < n -> j < L ->
  nth (i * L + j) (flat_map f (seq s n)) d = nth j (f (s + i)) d.
Proof.
  intro Hlen. induction n as [|n IH]; intros s i j Hi Hj; [lia|].
  cbn [seq flat_map]. destruct i as [|i].
  - rewrite Nat.add_0_r. cbn [Nat.mul Nat.add]. rewrite app_nth1 by (rewrite Hlen; exact Hj).
    reflexivity.
  - rewrite app_nth2 by (rewrite Hlen; cbn [Nat.mul]; lia).
    rewrite Hlen. replace (Datatypes.S i * L + j - L) with (i * L + j) by (cbn [Nat.mul]; lia).
    rewrite IH by lia. f_equal. f_equal. lia.
Qed.

(** Row [i] of a 2-D array with [u] columns. *)
Definition row_of (t : tensor) (u i : nat) : list num :=
  map (fun j => get t [i; j]) (seq 0 u).

Lemma row_of_length (t : tensor) (u i : nat) : length (row_of t u i) = u.
Proof. unfold row_of. rewrite length_map, length_seq. reflexivity. Qed.

Lemma row_of_nth (t : tensor) (u i k : nat) (d : num) :
  k < u -> nth k (row_of t u i) d = get t [i; k].
Proof.
  intro Hk. rewrite nth_indep with (d' := get t [i; 0]) by (rewrite row_of_length; exact Hk).
  unfold row_of. rewrite (map_nth (fun j0 => get t [i; j0]) (seq 0 u) 0 k), seq_nth by exact Hk.
  reflexivity.
Qed.

Lemma concatenate_last_3_eq (a b c : tensor) (n u : nat) :
  shape a = [n; u] -> shape b = [n; u] -> shape c = [n; u] ->
  concatenate_last [a; b; c]
  = Ok (mk_ndarray [n; 3 * u]
          (flat_map (fun i => row_of a u i ++ row_of b u i ++ row_of c u i) (seq 0 n))).
Proof.
  intros Ha Hb Hc. unfold concatenate_last. rewrite Ha. cbn [forallb].
  rewrite Ha, Hb, Hc, Nat.eqb_refl. cbn [andb map fold_right flat_map].
  rewrite !Ha, !Hb, !Hc. cbn [nth].
  f_equal. f_equal. apply flat_map_ext. intro i. rewrite app_nil_r. reflexivity.
Qed.

(** The columns of a concatenation of three blocks of [u] columns. *)
Lemma concatenate_last_3_get (a b c r : tensor) (n u : nat) :
  shape a = [n; u] -> shape b = [n; u] -> shape c = [n; u] ->
  concatenate_last [a; b; c] = Ok r ->
  shape r = [n; 3 * u]
  /\ forall i j, i < n -> j < u ->
       get r [i; j] = get a [i; j]
       /\ get r [i; u + j] = get b [i; j]
       /\ get r [i; 2 * u + j] = get c [i; j].
Proof.
  intros Ha Hb Hc E. rewrite (concatenate_last_3_eq Ha Hb Hc) in E. injection E as <-.
  split; [reflexivity|]. intros i j Hi Hj.
  set (row := fun i => row_of a u i ++ row_of b u i ++ row_of c u i).
  assert (Hrow : forall i, length (row i) = 3 * u).
  { intro k. unfold row. rewrite !length_app, !row_of_length. lia. }
  assert (Hget : forall k, k < 3 * u ->
            get (mk_ndarray [n; 3 * u] (flat_map row (seq 0 n))) [i; k] = nth k (row i) s_zero).
  { intros k Hk. unfold get. cbn [shape data ravel size_of fold_right].
    rewrite !Nat.mul_1_r, !Nat.add_0_r.
    rewrite (nth_flat_map_rows (f := row) (L := 3 * u)) by (auto; lia). reflexivity. }
  rewrite !Hget by lia. unfold row. repeat split.
  - rewrite app_nth1 by (rewrite row_of_length; exact Hj). apply row_of_nth; exact Hj.
  - rewrite app_nth2 by (rewrite row_of_length; lia). rewrite row_of_length.
    rewrite app_nth1 by (rewrite row_of_length; lia).
    replace (u + j - u) with j by lia. apply row_of_nth; exact Hj.
  - rewrite app_nth2 by (rewrite row_of_length; lia). rewrite row_of_length.
    rewrite app_nth2 by (rewrite row_of_length; lia). rewrite row_of_length.
    replace (2 * u + j - u - u) with j by lia. apply row_of_nth; exact Hj.
Qed.

End GruShapes.

Module GruExample.

Definition x : @tensor real_scalar := mk_ndarray [1; 2] [1%R; 2%R].
Definition prev_h : @tensor real_scalar := mk_ndarray [1; 1] [0%R].
Definition kernel : @tensor real_scalar :=
  mk_ndarray [2; 3] [1%R; 0%R; 1%R; 0%R; 1%R; 0%R].
Definition recurrent_kernel : @tensor real_scalar := mk_ndarray [1; 3] [1%R; 1%R; 1%R].
Definition out_grad : @tensor real_scalar := mk_ndarray [1; 1] [1%R].

End GruExample.

(* ===================================================================== *)
(** * The softmax cross-entropy loss *)
(* ===================================================================== *)

Section CellLemmas.
Context {A : Type} `{Dflt A}.

Lemma nth_update_nth (f : A -> A) : forall (xs : list A) n m d,
  nth n (update_nth m f xs) d
  = if (n =? m) && (n <? length xs) then f (nth n xs d) else nth n xs d.
Proof.
  induction xs as [|x xs IH]; intros [|n] [|m] d; simpl; try reflexivity.
  - rewrite andb_false_r. reflexivity.
  - rewrite IH. reflexivity.
Qed.

Lemma update_nth_length (f : A -> A) : forall (xs : list A) m,
  length (update_nth m f xs) = length xs.
Proof. induction xs as [|x xs IH]; intros [|m]; simpl; auto. Qed.

Lemma update_at_wf (a : ndarray A) idx f : wf a -> wf (update_at a idx f).
Proof. unfold wf, update_at; simpl. rewrite update_nth_length. auto. Qed.

Lemma get_map_nd {B : Type} `{Dflt B} (g : A -> B) (a : ndarray A) idx :
  wf a -> in_bounds (shape a) idx = true -> get (map_nd g a) idx = g (get a idx).
Proof.
  intros Hwf Hb. unfold get, map_nd; simpl.
  pose proof (ravel_lt Hb) as Hlt. rewrite <- Hwf in Hlt.
  rewrite (nth_indep _ dflt (g dflt)) by (rewrite length_map; exact Hlt).
  apply map_nth.
Qed.

Lemma map_nd_wf {B : Type} (g : A -> B) (a : ndarray A) : wf a -> wf (map_nd g a).
Proof. unfold wf, map_nd; simpl. rewrite length_map. auto. Qed.

(** Writing the cell [(r, c)] of a matrix changes that cell only. *)
Lemma get_update_at2 (a : ndarray A) b C r c i j f :
  shape a = [b; C] -> wf a -> r < b -> c < C -> i < b -> j < C ->
  get (update_at a [r; c] f) [i; j]
  = if (i =? r) && (j =? c) then f (get a [i; j]) else get a [i; j].
Proof.
  intros Hs Hwf Hr Hc Hi Hj. unfold get, update_at; simpl. rewrite Hs. cbn [ravel size_of fold_right].
  rewrite nth_update_nth. unfold wf in Hwf. rewrite Hs in Hwf. cbn in Hwf. rewrite Hwf.
  rewrite !Nat.mul_1_r, !Nat.add_0_r.
  assert (Hlt : (i * C + j <? b * C) = true).
  { apply Nat.ltb_lt. pose proof (Nat.mul_le_mono_r (i + 1) b C ltac:(lia)). lia. }
  rewrite Hlt, andb_true_r.
  destruct (Nat.eqb_spec (i * C + j) (r * C + c)) as [E|E].
  - assert (i = r).
    { destruct (Nat.lt_trichotomy i r) as [L|[L|L]]; [|exact L|].
      - pose proof (Nat.mul_le_mono_r (i + 1) r C ltac:(lia)). lia.
      - pose proof (Nat.mul_le_mono_r (r + 1) i C ltac:(lia)). lia. }
    subst i. assert (j = c) by lia. subst j. rewrite !Nat.eqb_refl. reflexivity.
  - destruct (Nat.eqb_spec i r) as [->|]; [|reflexivity].
    destruct (Nat.eqb_spec j c) as [->|]; [congruence|reflexivity].
Qed.

End CellLemmas.

Section RowLemmas.
Context {A : Type} `{Dflt A}.

Definition row (a : ndarray A) (C i : nat) : list A := map (fun j => get a [i; j]) (seq 0 C).

(** A reduction over axis 1 with [keepdims] applies the function to each row. *)
Lemma get_reduce_rows {B : Type} `{Dflt B} (f : list A -> B) (a : ndarray A) b C i :
  shape a = [b; C] -> i < b ->
  get (reduce_axes f [1] true a) [i; 0] = f (row a C i).
Proof.
  intros Hs Hi. unfold reduce_axes. rewrite Hs. cbn [keep_axes pick_axes existsb Nat.eqb orb].
  rewrite get_build.
  2:{ cbn [in_bounds]. rewrite !(proj2 (Nat.ltb_lt _ _)) by lia. reflexivity. }
  cbn [drop_axes existsb Nat.eqb orb]. unfold indices, row. rewrite map_map.
  replace (size_of [C]) with C by (cbn; lia).
  f_equal. apply map_ext. intro n.
  cbn [unravel size_of fold_right merge_idx existsb Nat.eqb orb hd tl].
  rewrite Nat.div_1_r. reflexivity.
Qed.

Lemma broadcast_shapes_col b C : broadcast_shapes [b; C] [b; 1] = Some [b; C].
Proof.
  unfold broadcast_shapes. cbn. rewrite Nat.eqb_refl.
  destruct (C =? 1) eqn:E; [apply Nat.eqb_eq in E; subst|]; reflexivity.
Qed.

(** An operation of a matrix and a column, the column broadcast along the rows. *)
Lemma broadcast2_col {B D : Type} `{Dflt B} `{Dflt D} (f : A -> B -> D)
  (a : ndarray A) (m : ndarray B) b C :
  shape a = [b; C] -> shape m = [b; 1] ->
  exists c, broadcast2 f a m = Ok c /\ shape c = [b; C] /\ wf c
            /\ forall i j, i < b -> j < C -> get c [i; j] = f (get a [i; j]) (get m [i; 0]).
Proof.
  intros Ha Hm. unfold broadcast2. rewrite Ha, Hm, broadcast_shapes_col.
  eexists. split; [reflexivity|]. split; [reflexivity|]. split; [apply build_wf|].
  intros i j Hi Hj. rewrite get_build.
  2:{ cbn [in_bounds]. rewrite !(proj2 (Nat.ltb_lt _ _)) by lia. reflexivity. }
  unfold bcast_idx. cbn.
  destruct (Nat.eqb_spec b 1) as [->|_], (Nat.eqb_spec C 1) as [->|_];
    repeat match goal with
           | Hx : ?x < 1 |- _ => assert (x = 0) by lia; subst x; clear Hx
           end; reflexivity.
Qed.

End RowLemmas.

(** The cells [(i, labels[i])] of a matrix. *)
Definition label_cells (s : nat) (labels : list Z) : list (list nat) :=
  map (fun p => [fst p; Z.to_nat (snd p)]) (combine (seq s (length labels)) labels).

Definition valid_labels (C : nat) (labels : list Z) : Prop :=
  Forall (fun l => (0 <= l < Z.of_nat C)%Z) labels.

Section LabelLemmas.
Context {A : Type} `{Dflt A}.

Lemma norm_index_nat n i : i < n -> norm_index n (Z.of_nat i) = Some i.
Proof.
  intro Hi. unfold norm_index.
  replace ((0 <=? Z.of_nat i) && (Z.of_nat i <? Z.of_nat n))%Z with true
    by (symmetry; apply andb_true_iff; split; [apply Z.leb_le | apply Z.ltb_lt]; lia).
  rewrite Nat2Z.id. reflexivity.
Qed.

Lemma norm_index_label n l : (0 <= l < Z.of_nat n)%Z -> norm_index n l = Some (Z.to_nat l).
Proof.
  intro Hl. unfold norm_index.
  replace ((0 <=? l) && (l <? Z.of_nat n))%Z with true
    by (symmetry; apply andb_true_iff; split; [apply Z.leb_le | apply Z.ltb_lt]; lia).
  reflexivity.
Qed.

Lemma pair_targets_arange (a : ndarray A) b C labels :
  shape a = [b; C] -> length labels = b -> valid_labels C labels ->
  operations.pair_targets a (np_arange (Z.of_nat b)) labels = Ok (label_cells 0 labels).
Proof.
  intros Hs Hl Hv. unfold operations.pair_targets, np_arange, label_cells.
  rewrite Hs, Nat2Z.id, length_map, length_seq, Hl, Nat.eqb_refl. subst b.
  set (b := length labels) at 1 2.
  assert (G : forall ls s, s + length ls <= b -> valid_labels C ls ->
    mapM (fun '(i, j) => match norm_index b i, norm_index C j with
                         | Some i', Some j' => Ok [i'; j']
                         | _, _ => Raise IndexError
                         end) (combine (map Z.of_nat (seq s (length ls))) ls)
    = Ok (map (fun p => [fst p; Z.to_nat (snd p)]) (combine (seq s (length ls)) ls))).
  { induction ls as [|l ls IH]; intros s Hle Hvl; [reflexivity|].
    apply Forall_cons_iff in Hvl as [Hl0 Hvl']. cbn [length seq map combine mapM] in *.
    rewrite norm_index_nat by lia. rewrite (norm_index_label Hl0). cbn [bind].
    rewrite IH by (auto; lia). reflexivity. }
  apply G; [unfold b; lia | exact Hv].
Qed.

(** Updating the cells [(i, labels[i])] one after the other changes, in each
    row, the cell of the label and nothing else. *)
Lemma get_fold_update (f : A -> A) b C i j : i < b -> j < C ->
  forall labels s (a : ndarray A),
  shape a = [b; C] -> wf a -> s + length labels <= b -> valid_labels C labels ->
  get (fold_left (fun acc c => update_at acc c f) (label_cells s labels) a) [i; j]
  = if (s <=? i) && (i <? s + length labels) && (j =? Z.to_nat (nth (i - s) labels 0%Z))
    then f (get a [i; j]) else get a [i; j].
Proof.
  intros Hi Hj. unfold label_cells.
  induction labels as [|l ls IH]; intros s a Hs Hwf Hle Hv.
  - cbn [length seq combine map fold_left].
    destruct (Nat.leb_spec s i); [|reflexivity].
    replace (i <? s + 0) with false by (symmetry; apply Nat.ltb_ge; lia). reflexivity.
  - apply Forall_cons_iff in Hv as [Hl0 Hv'].
    cbn [length seq combine map fold_left fst snd] in *.
    rewrite IH; [|reflexivity || exact Hs|apply update_at_wf; exact Hwf|lia|exact Hv'].
    rewrite (get_update_at2 (b := b) (C := C)); [|exact Hs|exact Hwf|lia|lia|lia|lia].
    destruct (Nat.eqb_spec i s) as [->|Hne].
    + replace (s - s) with 0 by lia. cbn [nth].
      replace (S s <=? s) with false by (symmetry; apply Nat.leb_gt; lia).
      replace (s <=? s) with true by (symmetry; apply Nat.leb_le; lia).
      replace (s <? s + S (length ls)) with true by (symmetry; apply Nat.ltb_lt; lia).
      reflexivity.
    + cbn [andb].
      destruct (Nat.leb_spec (S s) i) as [L|L].
      * replace (s <=? i) with true by (symmetry; apply Nat.leb_le; lia).
        replace (i - s) with (S (i - S s)) by lia. cbn [nth].
        replace (s + S (length ls)) with (S s + length ls) by lia. reflexivity.
      * replace (s <=? i) with false by (symmetry; apply Nat.leb_gt; lia).
        reflexivity.
Qed.

End LabelLemmas.

Lemma combine_seq_nth {A : Type} (d : A) : forall (ls : list A) s,
  combine (seq s (length ls)) ls = map (fun i => (i, nth (i - s) ls d)) (seq s (length ls)).
Proof.
  induction ls as [|l ls IH]; intro s; [reflexivity|].
  cbn [length seq combine map]. replace (s - s) with 0 by lia. cbn [nth]. f_equal.
  rewrite IH. apply map_ext_in. intros i Hi. apply in_seq in Hi.
  replace (i - s) with (Datatypes.S (i - Datatypes.S s)) by lia. reflexivity.
Qed.

Lemma in_bounds2 b C i j : i < b -> j < C -> in_bounds [b; C] [i; j] = true.
Proof. intros Hi Hj. cbn [in_bounds]. rewrite !(proj2 (Nat.ltb_lt _ _)) by lia. reflexivity. Qed.

Section SoftmaxTheorems.
Context {S : Scalar} {T : Transcendental S}.

(** The quantities of the loss, element by element: the logit less the
    maximum of its row, the sum of the exponentials of a row, and the
    log-probability with [eps] inside the logarithm. *)
Definition shifted (input : tensor) (C i j : nat) : num :=
  s_sub (get input [i; j]) (max_list (row input C i)).

Definition row_Z (input : tensor) (C i : nat) : num :=
  sum_list (map (fun k => s_exp (shifted input C i k)) (seq 0 C)).

Definition log_prob (input : tensor) (C i j : nat) : num :=
  s_sub (shifted input C i j) (s_log (s_add (row_Z input C i) s_eps)).

Definition label_at (labels : list Z) (i : nat) : nat := Z.to_nat (nth i labels 0%Z).

Lemma np_max_rows (a : tensor) b C :
  shape a = [b; C] -> 1 <= C -> np_max [1] true a = Ok (reduce_axes max_list [1] true a).
Proof.
  intros Hs HC. unfold np_max, axes_ok. rewrite Hs. cbn.
  destruct C; [lia|reflexivity].
Qed.

Lemma np_sum_rows (a : tensor) b C :
  shape a = [b; C] -> np_sum [1] true a = Ok (reduce_axes sum_list [1] true a).
Proof. intros Hs. unfold np_sum, axes_ok. rewrite Hs. reflexivity. Qed.

Lemma reduce_rows_shape {B : Type} (f : list num -> B) (a : tensor) b C :
  shape a = [b; C] -> shape (reduce_axes f [1] true a) = [b; 1].
Proof. intro Hs. rewrite reduce_axes_shape, Hs. reflexivity. Qed.

(** The statements both passes start with compute the log-probabilities. *)
Lemma log_probs_ok (input : tensor) b C :
  shape input = [b; C] -> 1 <= C ->
  exists lp : tensor,
    shape lp = [b; C] /\ wf lp
    /\ (forall i j, i < b -> j < C -> get lp [i; j] = log_prob input C i j)
    /\ forall (X : Type) (k : tensor -> result X),
         (m <- np_max [1] true input ;;
          input_shift <- broadcast2 s_sub input m ;;
          Z <- np_sum [1] true (map_nd s_exp input_shift) ;;
          log_probs <- broadcast2 s_sub input_shift
                         (map_nd (fun z => s_log (s_add z s_eps)) Z) ;;
          k log_probs) = k lp.
Proof.
  intros Hs HC.
  pose proof (reduce_rows_shape max_list Hs) as Hm.
  destruct (broadcast2_col s_sub Hs Hm) as (sh & E1 & Hsh & Hwf & Hget).
  assert (Hsh' : shape (map_nd s_exp sh) = [b; C]) by (rewrite map_nd_shape; exact Hsh).
  pose proof (reduce_rows_shape sum_list Hsh') as HZ.
  assert (HZ' : shape (map_nd (fun z => s_log (s_add z s_eps))
                         (reduce_axes sum_list [1] true (map_nd s_exp sh))) = [b; 1])
    by (rewrite map_nd_shape; exact HZ).
  destruct (broadcast2_col s_sub Hsh HZ') as (lp & E2 & Hlp & Hwf2 & Hget2).
  exists lp. split; [exact Hlp|]. split; [exact Hwf2|]. split.
  - intros i j Hi Hj. rewrite Hget2, Hget by assumption.
    rewrite get_map_nd; [|apply build_wf|rewrite HZ; apply in_bounds2; lia].
    rewrite (get_reduce_rows _ Hs Hi), (get_reduce_rows _ Hsh' Hi).
    unfold log_prob, shifted, row_Z. do 4 f_equal.
    unfold row at 1. apply map_ext_in. intros k Hk. apply in_seq in Hk.
    rewrite get_map_nd; [|exact Hwf|rewrite Hsh; apply in_bounds2; lia].
    rewrite Hget by lia. rewrite (get_reduce_rows _ Hs Hi). reflexivity.
  - intros X k. rewrite (np_max_rows Hs HC). cbn [bind]. rewrite E1. cbn [bind].
    rewrite (np_sum_rows Hsh'). cbn [bind]. rewrite E2. reflexivity.
Qed.

Lemma valid_label_at C labels i :
  valid_labels C labels -> i < length labels -> label_at labels i < C.
Proof.
  intros Hv Hi. unfold label_at.
  pose proof (proj1 (Forall_nth _ labels) Hv i 0%Z Hi) as Hl. cbv beta in Hl. lia.
Qed.

Lemma label_cells_seq labels :
  label_cells 0 labels = map (fun i => [i; label_at labels i]) (seq 0 (length labels)).
Proof.
  unfold label_cells. rewrite (combine_seq_nth 0%Z), map_map.
  apply map_ext. intro i. cbn [fst snd]. rewrite Nat.sub_0_r. reflexivity.
Qed.

(** C4: on logits of shape (batch, C) with C >= 1 and labels that are class
    indices, the forward pass (the function of [operations] and the method
    of [operators]) returns the loss [-1 * sum_i log_prob[i, labels[i]] /
    batch] and [probs = exp(log_prob)], where [log_prob[i, j]] is the logit
    less the maximum of its row, less [log(Z_i + eps)], [Z_i] the sum of the
    exponentials of the shifted row; the backward pass returns, element by
    element, [(probs - one_hot(labels)) / batch] for that same [probs]. *)
Theorem softmax_cross_entropy_closed_form (input : tensor) (labels : list Z) (batch C : nat) :
  shape input = [batch; C] -> length labels = batch -> 1 <= C -> valid_labels C labels ->
  exists loss probs grad,
    operations.softmax_cross_entropy_forward input labels = Ok (loss, probs)
    /\ operators.softmax_cross_entropy.forward input labels = Ok (loss, probs)
    /\ operations.softmax_cross_entropy_backward input labels = Ok grad
    /\ operators.softmax_cross_entropy.backward input labels = Ok grad
    /\ shape probs = [batch; C] /\ shape grad = [batch; C]
    /\ (forall i j, i < batch -> j < C -> get probs [i; j] = s_exp (log_prob input C i j))
    /\ loss = s_div (s_mul (s_of_Z (-1))
                      (sum_list (map (fun i => log_prob input C i (label_at labels i))
                                     (seq 0 batch))))
                    (s_of_Z (Z.of_nat batch))
    /\ (forall i j, i < batch -> j < C ->
         get grad [i; j]
         = s_div (if j =? label_at labels i then s_sub (get probs [i; j]) s_one
                  else get probs [i; j])
                 (s_of_Z (Z.of_nat batch))).
Proof.
  intros Hs Hl HC Hv.
  destruct (log_probs_ok Hs HC) as (lp & Hlp & Hwf & Hget & Hrun).
  assert (Hp : shape (map_nd s_exp lp) = [batch; C]) by (rewrite map_nd_shape; exact Hlp).
  assert (Hfwd : operations.softmax_cross_entropy_forward input labels
                 = Ok (s_div (s_mul (s_of_Z (-1))
                                (sum_list (map (get lp) (label_cells 0 labels))))
                             (s_of_Z (Z.of_nat batch)), map_nd s_exp lp)).
  { unfold operations.softmax_cross_entropy_forward. cbv zeta. rewrite Hrun, Hl.
    rewrite (pair_targets_arange Hlp Hl Hv). reflexivity. }
  assert (Hbwd : operations.softmax_cross_entropy_backward input labels
                 = Ok (map_nd (fun x => s_div x (s_of_Z (Z.of_nat batch)))
                         (fold_left (fun acc c => update_at acc c (fun x => s_sub x s_one))
                                    (label_cells 0 labels) (map_nd s_exp lp)))).
  { unfold operations.softmax_cross_entropy_backward. cbv zeta. rewrite Hrun, Hl.
    rewrite (pair_targets_arange Hp Hl Hv). reflexivity. }
  assert (Hfold : forall cells (a : tensor),
            shape (fold_left (fun acc c => update_at acc c (fun x => s_sub x s_one)) cells a)
            = shape a
            /\ (wf a -> wf (fold_left (fun acc c => update_at acc c (fun x => s_sub x s_one))
                                      cells a))).
  { induction cells as [|c cells IH]; intro a; [split; auto|].
    cbn [fold_left]. destruct (IH (update_at a c (fun x => s_sub x s_one))) as [IH1 IH2].
    split; [rewrite IH1; reflexivity | intro Ha; apply IH2, update_at_wf, Ha]. }
  do 3 eexists.
  split; [exact Hfwd|]. split; [exact Hfwd|]. split; [exact Hbwd|]. split; [exact Hbwd|].
  split; [exact Hp|].
  split; [rewrite map_nd_shape, (proj1 (Hfold _ _)); exact Hp|].
  split; [|split].
  - intros i j Hi Hj.
    rewrite get_map_nd; [|exact Hwf|rewrite Hlp; apply in_bounds2; assumption].
    rewrite Hget by assumption. reflexivity.
  - do 3 f_equal. rewrite label_cells_seq, map_map, Hl.
    apply map_ext_in. intros i Hi. apply in_seq in Hi.
    apply Hget; [lia|]. apply valid_label_at; [exact Hv|lia].
  - intros i j Hi Hj.
    rewrite get_map_nd;
      [|apply (proj2 (Hfold _ _)), map_nd_wf, Hwf
       |rewrite (proj1 (Hfold _ _)), Hp; apply in_bounds2; assumption].
    f_equal.
    rewrite (get_fold_update (fun x => s_sub x s_one) Hi Hj (s := 0) Hp
               (map_nd_wf s_exp Hwf)); [|lia|exact Hv].
    cbn [Nat.leb andb]. rewrite Nat.sub_0_r.
    replace (i <? 0 + length labels) with true by (symmetry; apply Nat.ltb_lt; lia).
    reflexivity.
Qed.

End SoftmaxTheorems.

Module SoftmaxExample.

Definition logits : @tensor real_scalar := mk_ndarray [2; 3] [1; 2; 3; 0; 0; 0]%R.
Definition labels : list Z := [2; 0]%Z.

Lemma softmax_cross_entropy_closed_form_witness :
  exists loss probs grad,
    operators.softmax_cross_entropy.forward (T := real_transcendental) logits labels
    = Ok (loss, probs)
    /\ operators.softmax_cross_entropy.backward (T := real_transcendental) logits labels
       = Ok grad
    /\ shape grad = [2; 3]
    /\ get grad [0; 2] = Rdiv (Rminus (get probs [0; 2]) 1%R) 2%R
    /\ get grad [0; 1] = Rdiv (get probs [0; 1]) 2%R.
Proof.
  destruct (softmax_cross_entropy_closed_form (S := real_scalar) (T := real_transcendental)
              (input := logits) (labels := labels) (batch := 2) (C := 3)
              eq_refl eq_refl ltac:(lia) ltac:(repeat constructor; lia))
    as (loss & probs & grad & _ & Hf & _ & Hb & _ & Hg & _ & _ & Hgrad).
  exists loss, probs, grad. split; [exact Hf|]. split; [exact Hb|]. split; [exact Hg|].
  split; [apply (Hgrad 0 2); lia | apply (Hgrad 0 1); lia].
Defined.

End SoftmaxExample.

(* ===================================================================== *)
(** * Arrays as objects in a store *)
(* ===================================================================== *)

(** numpy arrays are mutable objects, and two names may share one buffer.
    Here the buffers live in a store; an array object is a buffer or a view
    of one. A call of numpy's functional interface reads its arguments and
    returns a new array; a subscript or a reshape of a contiguous array is a
    view; an augmented assignment, an assignment to a subscript and
    [np.add.at] write into the buffer of the array they name. *)
Module Store.
Section Store.
Context {S : Scalar}.

Inductive cell : Type :=
| FloatBuf (t : tensor)
| IntBuf (t : ndarray Z).

Definition heap : Type := list cell.

(** An array object: its buffer, and for a view the window the buffer is
    read through. *)
Record arr : Type := mk_arr {
  base : nat;
  window : option (tensor -> tensor);
}.

(** A statement runs from a store to a result and a store; the store
    survives an exception. *)
Definition M (A : Type) : Type := heap -> result A * heap.

Definition ret {A : Type} (a : A) : M A := fun h => (Ok a, h).

Definition bindM {A B : Type} (m : M A) (k : A -> M B) : M B :=
  fun h => match m h with
           | (Ok a, h') => k a h'
           | (Raise e, h') => (Raise e, h')
           end.

(** A computation on values, which touches no array object. *)
Definition lift {A : Type} (c : result A) : M A := fun h => (c, h).

(** A new array holding [t]: the result of [np.zeros], [a.copy()], and of
    every numpy function that returns a new array. *)
Definition new (t : tensor) : M arr :=
  fun h => (Ok (mk_arr (length h) None), h ++ [FloatBuf t]).

Definition new_int (t : ndarray Z) : M arr :=
  fun h => (Ok (mk_arr (length h) None), h ++ [IntBuf t]).

Definition through (a : arr) (t : tensor) : tensor :=
  match window a with
  | None => t
  | Some f => f t
  end.

(** The value an array object has in the store. *)
Definition val (a : arr) : M tensor :=
  fun h => match nth_error h (base a) with
           | Some (FloatBuf t) => (Ok (through a t), h)
           | Some (IntBuf _) => (Raise (Unmodelled "an int array where a float array is read"), h)
           | None => (Raise (Unmodelled "an array that is not in the store"), h)
           end.

Definition val_int (a : arr) : M (ndarray Z) :=
  fun h => match nth_error h (base a), window a with
           | Some (IntBuf t), None => (Ok t, h)
           | Some _, _ => (Raise (Unmodelled "a float array where an int array is read"), h)
           | None, _ => (Raise (Unmodelled "an array that is not in the store"), h)
           end.

(** A view of [a]: the same buffer, read through one more window. *)
Definition view (f : tensor -> tensor) (a : arr) : arr :=
  mk_arr (base a) (Some (fun t => f (through a t))).

Fixpoint set_nth {A : Type} (n : nat) (x : A) (xs : list A) : list A :=
  match xs, n with
  | [], _ => []
  | _ :: xs', 0 => x :: xs'
  | y :: xs', Datatypes.S n' => y :: set_nth n' x xs'
  end.

(** An in-place statement on the array [a]: its buffer is replaced by [f] of
    its contents. The operators write to whole arrays only, and a write
    through a view is left out of the model. *)
Definition assign (a : arr) (f : tensor -> result tensor) : M unit :=
  fun h => match window a, nth_error h (base a) with
           | None, Some (FloatBuf t) =>
               match f t with
               | Ok t' => (Ok tt, set_nth (base a) (FloatBuf t') h)
               | Raise e => (Raise e, h)
               end
           | Some _, _ => (Raise (Unmodelled "an in-place statement on a view"), h)
           | None, Some (IntBuf _) =>
               (Raise (Unmodelled "an in-place statement on an int array"), h)
           | None, None => (Raise (Unmodelled "an array that is not in the store"), h)
           end.

(** [a.reshape(newshape)] of a contiguous array: a view. *)
Definition reshape_view (a : arr) (newshape : list Z) : M arr :=
  bindM (val a) (fun t =>
  bindM (lift (reshape t newshape)) (fun _ =>
  ret (view (fun t => match reshape t newshape with Ok r => r | Raise _ => t end) a))).

(** [for x in xs: body]. *)
Fixpoint for_ {A : Type} (xs : list A) (body : A -> M unit) : M unit :=
  match xs with
  | [] => ret tt
  | x :: xs' => bindM (body x) (fun _ => for_ xs' body)
  end.

End Store.
End Store.

Declare Scope store_scope.
Delimit Scope store_scope with store.
Notation "x <- c ;; k" := (Store.bindM c (fun x => k))
  (at level 61, c at next level, right associativity) : store_scope.
Notation "' p <- c ;; k" := (Store.bindM c (fun x => let p := x in k))
  (at level 61, p pattern, c at next level, right associativity) : store_scope.

(* ===================================================================== *)
(** * The operators on arrays in the store *)
(* ===================================================================== *)

(** The functions of [nn/operations.py] on array objects. The values are
    those of [operations]; what is added is which arrays are read, which are
    new, which are written in place and which are returned. A body made of
    calls of numpy's functional interface reads its arguments and returns
    new arrays. Arguments are read on entry: no statement of these bodies
    writes to an argument before its last use. *)
Module operations_in_store.
Section Operations.
Context {S : Scalar}.
Import Store conv_params.
Local Open Scope store_scope.

Definition relu_forward (input : arr) : M arr :=
  input <- val input ;;
  new (operations.relu_forward input).

Definition relu_backward (out_grad input : arr) : M arr :=
  out_grad <- val out_grad ;; input <- val input ;;
  in_grad <- lift (operations.relu_backward out_grad input) ;;
  new in_grad.

(** [input.copy().reshape(batch, -1)]: a view of the copy. *)
Definition flatten_forward (input : arr) : M arr :=
  input <- val input ;;
  match shape input with
  | batch :: _ => copy <- new input ;; reshape_view copy [Z.of_nat batch; -1]%Z
  | [] => lift (Raise IndexError)
  end.

Definition flatten_backward (out_grad input : arr) : M arr :=
  out_grad <- val out_grad ;; input <- val input ;;
  copy <- new out_grad ;;
  reshape_view copy (map Z.of_nat (shape input)).

Definition fc_forward (input weights bias : arr) : M arr :=
  input <- val input ;; weights <- val weights ;; bias <- val bias ;;
  output <- lift (operations.fc_forward input weights bias) ;;
  new output.

Definition fc_backward (out_grad input weights bias : arr) : M (arr * arr * arr) :=
  out_grad <- val out_grad ;; input <- val input ;;
  weights <- val weights ;; bias <- val bias ;;
  ' (in_grad, w_grad, b_grad) <- lift (operations.fc_backward out_grad input weights bias) ;;
  in_grad <- new in_grad ;; w_grad <- new w_grad ;; b_grad <- new b_grad ;;
  ret (in_grad, w_grad, b_grad).

Definition conv_forward (input weights bias : arr) (cp : conv_params.t) : M arr :=
  input <- val input ;; weights <- val weights ;; bias <- val bias ;;
  output <- lift (operations.conv_forward input weights bias cp) ;;
  new output.

(** The loop [for i in recep_fields_h: for j in recep_fields_w: ... idx += 1]
    with its statement [input_pad_grad[:, :, i:i+k_h, j:j+k_w] += ...]. *)
Definition scatter_patches (input_pad_grad : arr) (patch_grads : tensor)
  (recep_fields_h recep_fields_w : list nat) (k_h k_w : nat) (patch_shape : list Z)
  : M unit :=
  let corners := list_prod recep_fields_h recep_fields_w in
  for_ (combine (seq 0 (length corners)) corners)
       (fun '(idx, (i, j)) =>
          g <- lift (index_axis (length (shape patch_grads) - 1) idx patch_grads) ;;
          g' <- lift (reshape g patch_shape) ;;
          assign input_pad_grad
                 (fun acc => add_slice acc [None; None;
                                            Some (Z.of_nat i, Z.of_nat (i + k_h));
                                            Some (Z.of_nat j, Z.of_nat (j + k_w))] g')).

Definition conv_backward (out_grad input weights bias : arr) (cp : conv_params.t)
  : M (arr * arr * arr) :=
  out_grad <- val out_grad ;; input <- val input ;;
  weights <- val weights ;; bias <- val bias ;;
  match shape input with
  | [batch; in_channel; in_height; in_width] =>
      out_height <- lift (operations.out_size in_height (kernel_h cp) (pad cp) (stride cp)) ;;
      out_width <- lift (operations.out_size in_width (kernel_w cp) (pad cp) (stride cp)) ;;
      let input_pad := np_pad s_zero input (repeat (pad cp, pad cp) 4) in
      let recep_fields_h := map (fun i => stride cp * i) (range out_height) in
      let recep_fields_w := map (fun i => stride cp * i) (range out_width) in
      input_conv <- lift (operations.img2col input_pad recep_fields_h recep_fields_w
                            (kernel_h cp) (kernel_w cp)) ;;
      og <- lift (reshape out_grad [Z.of_nat batch; Z.of_nat (out_channel cp); -1]%Z) ;;
      grads <- lift (mapM (fun x =>
                             (w <- reshape weights [Z.of_nat (out_channel cp); -1]%Z ;;
                              matmul (T_ w) x)%result)
                          (rows_of og)) ;;
      input_conv_grad <- lift (stack_first grads) ;;
      input_pad_grad <-
        new (np_zeros [batch; in_channel; in_height + 2 * pad cp; in_width + 2 * pad cp]) ;;
      _ <- scatter_patches input_pad_grad input_conv_grad
             recep_fields_h recep_fields_w (kernel_h cp) (kernel_w cp)
             (map Z.of_nat [batch; in_channel; kernel_h cp; kernel_w cp]) ;;
      let in_grad :=
        view (fun t => slice t [None; None;
                                Some (Z.of_nat (pad cp), Z.of_nat (pad cp + in_height));
                                Some (Z.of_nat (pad cp), Z.of_nat (pad cp + in_width))])
             input_pad_grad in
      og' <- lift (reshape out_grad [Z.of_nat batch; Z.of_nat (out_channel cp); -1]%Z) ;;
      prods <- lift (mapM (fun '(x0, x1) => matmul x0 (T_ x1))
                          (combine (rows_of og') (rows_of input_conv))) ;;
      w_grad <- lift (operations.py_sum_arrays prods) ;;
      w_grad <- lift (match prods with
                      | [] => Raise AttributeError
                      | _ => reshape w_grad (map Z.of_nat (shape weights))
                      end) ;;
      w_grad <- new w_grad ;;
      b_grad <- lift (np_sum [0; 2; 3] false out_grad) ;;
      b_grad <- new b_grad ;;
      ret (in_grad, w_grad, b_grad)
  | _ => lift (Raise unpack_error)
  end.

Import pool_params.

Definition pool_forward (input : arr) (pp : pool_params.t) : M arr :=
  input <- val input ;;
  output <- lift (operations.pool_forward input pp) ;;
  new output.

Definition pool_backward (out_grad input : arr) (pp : pool_params.t) : M arr :=
  out_grad <- val out_grad ;; input <- val input ;;
  match shape input with
  | [batch; in_channel; in_height; in_width] =>
      out_height <- lift (operations.out_size in_height (pool_height pp) (pad pp) (stride pp)) ;;
      out_width <- lift (operations.out_size in_width (pool_width pp) (pad pp) (stride pp)) ;;
      let input_pad := np_pad s_zero input (repeat (pad pp, pad pp) 4) in
      let recep_fields_h := map (fun i => stride pp * i) (range out_height) in
      let recep_fields_w := map (fun i => stride pp * i) (range out_width) in
      input_pool <- lift (operations.img2col input_pad recep_fields_h recep_fields_w
                            (pool_height pp) (pool_width pp)) ;;
      input_pool <- lift (reshape input_pool
                            [Z.of_nat batch; Z.of_nat in_channel; -1;
                             out_height; out_width]%Z) ;;
      input_pool_grad <- lift
        (if String.eqb (pool_type pp) "max" then
           (m <- np_max [2] true input_pool ;;
            mask <- broadcast2 s_eqb input_pool m ;;
            og <- operations.newaxis2 out_grad ;;
            broadcast2 (fun (b : bool) g => s_mul (of_bool b) g) mask og)%result
         else if String.eqb (pool_type pp) "avg" then
           (scale <- (if pool_height pp * pool_width pp =? 0 then Raise ZeroDivisionError
                      else Ok (s_div s_one
                                 (s_of_Z (Z.of_nat (pool_height pp * pool_width pp))))) ;;
            og <- operations.newaxis2 out_grad ;;
            r <- operations.repeat_axis2 og (pool_height pp * pool_width pp) ;;
            Ok (map_nd (s_mul scale) r))%result
         else Raise UnboundLocalError) ;;
      input_pool_grad <- lift (reshape input_pool_grad
                                 [Z.of_nat batch; Z.of_nat in_channel; -1;
                                  out_height * out_width]%Z) ;;
      input_pad_grad <- new (np_zeros (shape input_pad)) ;;
      _ <- scatter_patches input_pad_grad input_pool_grad
             recep_fields_h recep_fields_w (pool_height pp) (pool_width pp)
             (map Z.of_nat [batch; in_channel; pool_height pp; pool_width pp]) ;;
      ret (view (fun t => slice t [None; None;
                                   Some (Z.of_nat (pad pp), Z.of_nat (pad pp + in_height));
                                   Some (Z.of_nat (pad pp), Z.of_nat (pad pp + in_width))])
                input_pad_grad)
  | _ => lift (Raise unpack_error)
  end.

(** [mask] is a new int array; without training the output is the input
    itself. *)
Definition dropout_forward {G : Random S} (input : arr) (rate : num) (training : bool)
  (seed : option Z) (w : world) : M (arr * option arr * world) :=
  if training then
    scale <- lift (py_div s_one (s_sub s_one rate)) ;;
    w1 <- lift (np_random_seed seed w) ;;
    input_v <- val input ;;
    let '(p, w2) := np_random_random_sample (shape input_v) w1 in
    mask <- new_int (map_nd (fun x => if s_leb rate x then 1%Z else 0%Z) p) ;;
    mask_v <- val_int mask ;;
    output <- lift (broadcast2 (fun x (m : Z) => s_mul x (s_of_Z m)) input_v mask_v) ;;
    output <- new (map_nd (fun x => s_mul x scale) output) ;;
    ret (output, Some mask, w2)
  else ret (input, None, w).

Definition dropout_backward (out_grad input : arr) (rate : num) (mask : option arr)
  (training : bool) : M arr :=
  if training then
    out_grad_v <- val out_grad ;; input_v <- val input ;;
    mask_v <- match mask with
              | Some m => m <- val_int m ;; ret (Some m)
              | None => ret None
              end ;;
    in_grad <- lift (operations.dropout_backward out_grad_v input_v rate mask_v true) ;;
    new in_grad
  else ret out_grad.

End Operations.

Section Loss.
Context {S : Scalar} {T : Transcendental S}.
Import Store.
Local Open Scope store_scope.

(** [len(labels)] and the entries of a 1-D int array. *)
Definition labels_list (labels : ndarray Z) : result (list Z) :=
  match shape labels with
  | [_] => Ok (data labels)
  | _ => Raise (Unmodelled "labels that are not a 1-D array")
  end.

Definition softmax_cross_entropy_forward (input labels : arr) : M (num * arr) :=
  input <- val input ;; labels <- val_int labels ;;
  labels <- lift (labels_list labels) ;;
  ' (output, probs) <- lift (operations.softmax_cross_entropy_forward input labels) ;;
  probs <- new probs ;;
  ret (output, probs).

Definition softmax_cross_entropy_backward (input labels : arr) : M arr :=
  input <- val input ;; labels <- val_int labels ;;
  labels <- lift (labels_list labels) ;;
  let eps := s_eps in
  let batch := length labels in
  m <- lift (np_max [1] true input) ;;
  input_shift <- lift (broadcast2 s_sub input m) ;;
  Z <- lift (np_sum [1] true (map_nd s_exp input_shift)) ;;
  log_probs <- lift (broadcast2 s_sub input_shift
                       (map_nd (fun z => s_log (s_add z eps)) Z)) ;;
  probs <- new (map_nd s_exp log_probs) ;;
  probs_v <- val probs ;;
  in_grad <- new probs_v ;;
  _ <- assign in_grad
         (fun t => (cells <- operations.pair_targets t (np_arange (Z.of_nat batch)) labels ;;
                    Ok (fold_left (fun acc c => update_at acc c (fun x => s_sub x s_one))
                                  cells t))%result) ;;
  _ <- assign in_grad
         (fun t => Ok (map_nd (fun x => s_div x (s_of_Z (Z.of_nat batch))) t)) ;;
  ret in_grad.

End Loss.
End operations_in_store.

(** The classes of [nn/operators.py] on array objects. *)
Module operators_in_store.
Import Store.
Local Open Scope store_scope.

Module relu.
Section Relu.
Context {S : Scalar}.

Definition forward (input : arr) : M arr :=
  input <- val input ;;
  new (operators.relu.forward input).

Definition backward (out_grad input : arr) : M arr :=
  out_grad <- val out_grad ;; input <- val input ;;
  in_grad <- lift (operators.relu.backward out_grad input) ;;
  new in_grad.

End Relu.
End relu.

Module flatten.
Section Flatten.
Context {S : Scalar}.

Definition forward (input : arr) : M arr :=
  input <- val input ;;
  match shape input with
  | batch :: _ => copy <- new input ;; reshape_view copy [Z.of_nat batch; -1]%Z
  | [] => lift (Raise IndexError)
  end.

Definition backward (out_grad input : arr) : M arr :=
  out_grad <- val out_grad ;; input <- val input ;;
  copy <- new out_grad ;;
  reshape_view copy (map Z.of_nat (shape input)).

End Flatten.
End flatten.

Module matmul.
Section Matmul.
Context {S : Scalar}.

Definition forward (input weights : arr) : M arr :=
  input <- val input ;; weights <- val weights ;;
  output <- lift (operators.matmul.forward input weights) ;;
  new output.

Definition backward (out_grad input weights : arr) : M (arr * arr) :=
  out_grad <- val out_grad ;; input <- val input ;; weights <- val weights ;;
  ' (in_grad, w_grad) <- lift (operators.matmul.backward out_grad input weights) ;;
  in_grad <- new in_grad ;; w_grad <- new w_grad ;;
  ret (in_grad, w_grad).

End Matmul.
End matmul.

Module add_bias.
Section AddBias.
Context {S : Scalar}.

Definition forward (input bias : arr) : M arr :=
  input <- val input ;; bias <- val bias ;;
  output <- lift (operators.add_bias.forward input bias) ;;
  new output.

(** [in_grad = out_grad]: the gradient returned is the array received. *)
Definition backward (out_grad input bias : arr) : M (arr * arr) :=
  let in_grad := out_grad in
  out_grad <- val out_grad ;;
  b_grad <- lift (np_sum [0] false out_grad) ;;
  b_grad <- new b_grad ;;
  ret (in_grad, b_grad).

End AddBias.
End add_bias.

Module linear.
Section Linear.
Context {S : Scalar}.

Definition forward (input weights bias : arr) : M arr :=
  output <- matmul.forward input weights ;;
  output <- add_bias.forward output bias ;;
  ret output.

Definition backward (out_grad input weights bias : arr) : M (arr * arr * arr) :=
  ' (out_grad, b_grad) <- add_bias.backward out_grad input bias ;;
  ' (in_grad, w_grad) <- matmul.backward out_grad input weights ;;
  ret (in_grad, w_grad, b_grad).

End Linear.
End linear.

Module conv.
Section Conv.
Context {S : Scalar}.
Import conv_params.

Definition forward (cp : conv_params.t) (input weights bias : arr) : M arr :=
  input <- val input ;; weights <- val weights ;; bias <- val bias ;;
  output <- lift (operators.conv.forward cp input weights bias) ;;
  new output.

(** [dX_pad] is a new array, written by [np.add.at]; the result is a view of
    it when there is padding. *)
Definition col2img (dX_hat : tensor) (N c_i n_h n_w k_h k_w p s : nat) : M arr :=
  o_h <- lift (operators.get_output_size n_h k_h p s) ;;
  o_w <- lift (operators.get_output_size n_w k_w p s) ;;
  dX_pad <- new (np_zeros [N; c_i; n_h + p; n_w + p]) ;;
  ' (channel_idxs, height_idxs, width_ixds) <-
     lift (operators.conv.get_im2col_data_indexes N c_i n_h n_w k_h k_w p s o_h o_w) ;;
  dX_hat_batch <- lift (reshape dX_hat [Z.of_nat (c_i * k_h * k_w); -1; Z.of_nat N]%Z) ;;
  dX_hat_batch <- lift (operators.transpose_axes dX_hat_batch [2; 0; 1]) ;;
  _ <- assign dX_pad
         (fun t => np_add_at t channel_idxs height_idxs width_ixds dX_hat_batch) ;;
  if negb (p =? 0)
  then ret (view (fun t => slice t [None; None;
                                    Some (Z.of_nat p, - Z.of_nat p);
                                    Some (Z.of_nat p, - Z.of_nat p)]%Z) dX_pad)
  else ret dX_pad.

Definition backward (cp : conv_params.t) (out_grad input weights bias : arr)
  : M (arr * arr * arr) :=
  out_grad <- val out_grad ;; input <- val input ;;
  weights <- val weights ;; bias <- val bias ;;
  match shape input with
  | [batch; in_channel; in_height; in_width] =>
      let p := pad cp / 2 in
      let X_pad := np_pad s_zero input [(0, 0); (0, 0); (p, p); (p, p)] in
      ' (X_hat, out_height, out_width) <-
         lift (operators.conv.img2col X_pad batch in_channel in_height in_width
                 (kernel_h cp) (kernel_w cp) (pad cp) (stride cp)) ;;
      W <- lift (reshape weights [Z.of_nat (out_channel cp);
                                  Z.of_nat (in_channel * kernel_h cp * kernel_w cp)]) ;;
      out_grad_col <- lift (operators.transpose_axes out_grad [1; 2; 3; 0]) ;;
      out_grad_col <- lift (reshape out_grad_col
                              [Z.of_nat (out_channel cp);
                               Z.of_nat batch * out_height * out_width]%Z) ;;
      dX_hat <- lift (matmul (T_ W) out_grad_col) ;;
      in_grad <- col2img dX_hat batch in_channel in_height in_width
                   (kernel_h cp) (kernel_w cp) (pad cp) (stride cp) ;;
      w_grad <- lift (matmul out_grad_col (T_ X_hat)) ;;
      w_grad <- lift (reshape w_grad (map Z.of_nat [out_channel cp; in_channel;
                                                    kernel_h cp; kernel_w cp])) ;;
      w_grad <- new w_grad ;;
      b_grad <- lift (np_sum [0; 2; 3] false out_grad) ;;
      b_grad <- new b_grad ;;
      ret (in_grad, w_grad, b_grad)
  | _ => lift (Raise unpack_error)
  end.

End Conv.
End conv.

Module pool.
Section Pool.
Context {S : Scalar}.
Import pool_params.

(** [output] is a new array, written cell by cell; the result is a
    transposed view of it. *)
Definition forward (pp : pool_params.t) (input : arr) : M arr :=
  input <- val input ;;
  match shape input with
  | [batch; in_channel; in_height; in_width] =>
      out_height <- lift (operators.get_output_size in_height (pool_height pp)
                            (pad pp) (stride pp)) ;;
      out_width <- lift (operators.get_output_size in_width (pool_width pp)
                           (pad pp) (stride pp)) ;;
      let p := pad pp / 2 in
      let X_pad := np_pad s_zero input [(0, 0); (0, 0); (p, p); (p, p)] in
      output <- lift (np_zeros_Z [out_height; out_width;
                                  Z.of_nat batch; Z.of_nat in_channel]) ;;
      output <- new output ;;
      _ <- for_ (list_prod (range out_height) (range out_width))
             (fun '(i, j) =>
                let height_offset := i * stride pp in
                let width_offset := j * stride pp in
                let receptive_fields :=
                  slice X_pad [None; None;
                               Some (Z.of_nat height_offset,
                                     Z.of_nat (height_offset + pool_height pp));
                               Some (Z.of_nat width_offset,
                                     Z.of_nat (width_offset + pool_width pp))] in
                if String.eqb (pool_type pp) "max" then
                  v <- lift (np_max [2; 3] false receptive_fields) ;;
                  assign output (fun t => operators.pool.set_ij t i j v)
                else if String.eqb (pool_type pp) "avg" then
                  v <- lift (np_mean [2; 3] receptive_fields) ;;
                  assign output (fun t => operators.pool.set_ij t i j v)
                else lift (Raise (TypeError "Error: pool_type should be 'max' or 'avg'"))) ;;
      output_v <- val output ;;
      _ <- lift (operators.transpose_axes output_v [2; 3; 0; 1]) ;;
      ret (view (fun t => match operators.transpose_axes t [2; 3; 0; 1] with
                          | Ok r => r
                          | Raise _ => t
                          end) output)
  | _ => lift (Raise unpack_error)
  end.

Definition backward (pp : pool_params.t) (out_grad input : arr) : M arr :=
  out_grad <- val out_grad ;; input <- val input ;;
  match shape input with
  | [batch; in_channel; in_height; in_width] =>
      q_h <- lift (py_floordiv (Z.of_nat in_height - Z.of_nat (pool_height pp)
                                + Z.of_nat (pad pp)) (Z.of_nat (stride pp))) ;;
      let out_height := (1 + q_h)%Z in
      q_w <- lift (py_floordiv (Z.of_nat in_width - Z.of_nat (pool_width pp)
                                + Z.of_nat (pad pp)) (Z.of_nat (stride pp))) ;;
      let out_width := (1 + q_w)%Z in
      let pad_scheme := (pad pp / 2, pad pp - pad pp / 2) in
      let input_pad := np_pad s_zero input [(0, 0); (0, 0); pad_scheme; pad_scheme] in
      let recep_fields_h := map (fun i => stride pp * i) (range out_height) in
      let recep_fields_w := map (fun i => stride pp * i) (range out_width) in
      input_pool <- lift (operators.functional_img2col input_pad recep_fields_h
                            recep_fields_w (pool_height pp) (pool_width pp)) ;;
      input_pool <- lift (reshape input_pool
                            [Z.of_nat batch; Z.of_nat in_channel; -1;
                             out_height; out_width]%Z) ;;
      input_pool_grad <- lift
        (if String.eqb (pool_type pp) "max" then
           (m <- np_max [2] true input_pool ;;
            mask <- broadcast2 s_eqb input_pool m ;;
            og <- operations.newaxis2 out_grad ;;
            broadcast2 (fun (b : bool) g => s_mul (of_bool b) g) mask og)%result
         else if String.eqb (pool_type pp) "avg" then
           (scale <- (if pool_height pp * pool_width pp =? 0 then Raise ZeroDivisionError
                      else Ok (s_div s_one
                                 (s_of_Z (Z.of_nat (pool_height pp * pool_width pp))))) ;;
            og <- operations.newaxis2 out_grad ;;
            r <- operations.repeat_axis2 og (pool_height pp * pool_width pp) ;;
            Ok (map_nd (s_mul scale) r))%result
         else Raise UnboundLocalError) ;;
      input_pool_grad <- lift (reshape input_pool_grad
                                 [Z.of_nat batch; Z.of_nat in_channel; -1;
                                  out_height * out_width]%Z) ;;
      input_pad_grad <- new (np_zeros (shape input_pad)) ;;
      _ <- operations_in_store.scatter_patches input_pad_grad input_pool_grad
             recep_fields_h recep_fields_w (pool_height pp) (pool_width pp)
             (map Z.of_nat [batch; in_channel; pool_height pp; pool_width pp]) ;;
      ret (view (fun t => slice t [None; None;
                                   Some (Z.of_nat (pad pp), Z.of_nat (pad pp + in_height));
                                   Some (Z.of_nat (pad pp), Z.of_nat (pad pp + in_width))])
                input_pad_grad)
  | _ => lift (Raise unpack_error)
  end.

End Pool.
End pool.

Module dropout.
Section Dropout.
Context {S : Scalar} {G : Random S}.

(** The fields of a [dropout] object; [mask] names an array. *)
Record object : Type := mk_self {
  rate : num;
  seed : option Z;
  training : bool;
  mask : option arr;
}.

(** The two assignments to [self.mask] bind the attribute to new arrays;
    without training the output is the input itself. *)
Definition forward (self : object) (input : arr) (w : world)
  : M (arr * object * world) :=
  if training self then
    scale <- lift (py_div s_one (s_sub s_one (rate self))) ;;
    w1 <- lift (np_random_seed (seed self) w) ;;
    input_v <- val input ;;
    let '(p, w2) := np_random_random_sample (shape input_v) w1 in
    mask0 <- new_int (map_nd (fun x => if s_leb (rate self) x then 1%Z else 0%Z) p) ;;
    mask0_v <- val_int mask0 ;;
    mask1 <- new (map_nd (fun m => s_mul (s_of_Z m) scale) mask0_v) ;;
    let self := mk_self (rate self) (seed self) (training self) (Some mask1) in
    mask1_v <- val mask1 ;;
    output <- lift (broadcast2 s_mul input_v mask1_v) ;;
    output <- new output ;;
    ret (output, self, w2)
  else ret (input, self, w).

Definition backward (self : object) (out_grad input : arr) : M arr :=
  if training self then
    out_grad <- val out_grad ;;
    match mask self with
    | Some m =>
        m <- val m ;;
        in_grad <- lift (broadcast2 s_mul out_grad m) ;;
        new in_grad
    | None =>
        lift (Raise (TypeError "unsupported operand type(s) for *: 'float' and 'NoneType'"))
    end
  else ret out_grad.

End Dropout.
End dropout.

Module vanilla_rnn.
Section VanillaRnn.
Context {S : Scalar} {T : Transcendental S}.

Definition forward (input : arr * arr) (kernel recurrent_kernel bias : arr) : M arr :=
  let '(x, prev_h) := input in
  x <- val x ;; prev_h <- val prev_h ;;
  kernel <- val kernel ;; recurrent_kernel <- val recurrent_kernel ;; bias <- val bias ;;
  output <- lift (operators.vanilla_rnn.forward (x, prev_h) kernel recurrent_kernel bias) ;;
  new output.

Definition backward (out_grad : arr) (input : arr * arr)
  (kernel recurrent_kernel bias : arr) : M ((arr * arr) * arr * arr * arr) :=
  let '(x, prev_h) := input in
  out_grad <- val out_grad ;; x <- val x ;; prev_h <- val prev_h ;;
  kernel <- val kernel ;; recurrent_kernel <- val recurrent_kernel ;; bias <- val bias ;;
  ' (g_x, g_h, kernel_grad, r_kernel_grad, b_grad) <-
     lift (operators.vanilla_rnn.backward out_grad (x, prev_h)
             kernel recurrent_kernel bias) ;;
  g_x <- new g_x ;; g_h <- new g_h ;;
  kernel_grad <- new kernel_grad ;; r_kernel_grad <- new r_kernel_grad ;;
  b_grad <- new b_grad ;;
  ret ((g_x, g_h), kernel_grad, r_kernel_grad, b_grad).

End VanillaRnn.
End vanilla_rnn.

Module gru.
Section Gru.
Context {S : Scalar} {T : Transcendental S}.

Definition forward (input : arr * arr) (kernel recurrent_kernel : arr) : M arr :=
  let '(x, prev_h) := input in
  x <- val x ;; prev_h <- val prev_h ;;
  kernel <- val kernel ;; recurrent_kernel <- val recurrent_kernel ;;
  output <- lift (operators.gru.forward (x, prev_h) kernel recurrent_kernel) ;;
  new output.

Definition backward (out_grad : arr) (input : arr * arr) (kernel recurrent_kernel : arr)
  : M ((arr * arr) * arr * arr) :=
  let '(x, prev_h) := input in
  out_grad <- val out_grad ;; x <- val x ;; prev_h <- val prev_h ;;
  kernel <- val kernel ;; recurrent_kernel <- val recurrent_kernel ;;
  ' (x_grad, prev_h_grad, kernel_grad, r_kernel_grad) <-
     lift (operators.gru.backward out_grad (x, prev_h) kernel recurrent_kernel) ;;
  x_grad <- new x_grad ;; prev_h_grad <- new prev_h_grad ;;
  kernel_grad <- new kernel_grad ;; r_kernel_grad <- new r_kernel_grad ;;
  ret ((x_grad, prev_h_grad), kernel_grad, r_kernel_grad).

End Gru.
End gru.

Module softmax_cross_entropy.
Section SoftmaxCrossEntropy.
Context {S : Scalar} {T : Transcendental S}.

Definition forward (input labels : arr) : M (num * arr) :=
  input <- val input ;; labels <- val_int labels ;;
  labels <- lift (operations_in_store.labels_list labels) ;;
  ' (output, probs) <- lift (operators.softmax_cross_entropy.forward input labels) ;;
  probs <- new probs ;;
  ret (output, probs).

(** [in_grad = probs.copy()] is a new array; the two statements after it
    write into it. *)
Definition backward (input labels : arr) : M arr :=
  input <- val input ;; labels <- val_int labels ;;
  labels <- lift (operations_in_store.labels_list labels) ;;
  let eps := s_eps in
  let batch := length labels in
  m <- lift (np_max [1] true input) ;;
  input_shift <- lift (broadcast2 s_sub input m) ;;
  Z <- lift (np_sum [1] true (map_nd s_exp input_shift)) ;;
  log_probs <- lift (broadcast2 s_sub input_shift
                       (map_nd (fun z => s_log (s_add z eps)) Z)) ;;
  probs <- new (map_nd s_exp log_probs) ;;
  probs_v <- val probs ;;
  in_grad <- new probs_v ;;
  _ <- assign in_grad
         (fun t => (cells <- operations.pair_targets t (np_arange (Z.of_nat batch)) labels ;;
                    Ok (fold_left (fun acc c => update_at acc c (fun x => s_sub x s_one))
                                  cells t))%result) ;;
  _ <- assign in_grad
         (fun t => Ok (map_nd (fun x => s_div x (s_of_Z (Z.of_nat batch))) t)) ;;
  ret in_grad.

End SoftmaxCrossEntropy.
End softmax_cross_entropy.

End operators_in_store.

(* ===================================================================== *)
(** * Which buffers a call leaves alone *)
(* ===================================================================== *)

Section Frame.
Context {S : Scalar}.
Import Store.

(** The store [h'] extends [h], and its buffers below [n] are those of [h]. *)
Definition unchanged (n : nat) (h h' : heap) : Prop :=
  length h <= length h' /\ forall l, l < n -> nth_error h' l = nth_error h l.

(** From any store of at least [n] buffers, [m] leaves the first [n] as they
    are, whether it returns or raises, and what it returns satisfies [Q]. *)
Definition keeps {A : Type} (n : nat) (m : M A) (Q : A -> Prop) : Prop :=
  forall h, n <= length h ->
    unchanged n h (snd (m h))
    /\ match fst (m h) with Ok a => Q a | Raise _ => True end.

(** An array allocated after the first [n] buffers. *)
Definition fresh (n : nat) (a : arr) : Prop := n <= base a.

Lemma unchanged_refl n h : unchanged n h h.
Proof. split; auto. Qed.

Lemma unchanged_trans n h1 h2 h3 :
  unchanged n h1 h2 -> unchanged n h2 h3 -> unchanged n h1 h3.
Proof.
  intros [L1 E1] [L2 E2]. split; [lia|].
  intros l Hl. rewrite E2, E1 by exact Hl. reflexivity.
Qed.

Lemma set_nth_length {A : Type} (x : A) : forall xs n, length (set_nth n x xs) = length xs.
Proof. induction xs as [|y xs IH]; intros [|n]; simpl; auto. Qed.

Lemma nth_error_set_nth {A : Type} (x : A) : forall xs n l,
  l <> n -> nth_error (set_nth n x xs) l = nth_error xs l.
Proof.
  induction xs as [|y xs IH]; intros [|n] [|l] Hne; simpl; auto; try congruence.
Qed.

Lemma unchanged_alloc n h c : n <= length h -> unchanged n h (h ++ [c]).
Proof.
  intro Hn. split; [rewrite length_app; simpl; lia|].
  intros l Hl. apply nth_error_app1. lia.
Qed.

Lemma keeps_ret {A : Type} n (a : A) (Q : A -> Prop) : Q a -> keeps n (ret a) Q.
Proof. intros Ha h Hn. split; [apply unchanged_refl | exact Ha]. Qed.

Lemma keeps_bind {A B : Type} n (m : M A) (k : A -> M B) (Q : A -> Prop) (R : B -> Prop) :
  keeps n m Q -> (forall a, Q a -> keeps n (k a) R) -> keeps n (bindM m k) R.
Proof.
  intros Hm Hk h Hn. unfold bindM.
  destruct (Hm h Hn) as [Hu Hq]. destruct (m h) as [[a|e] h']; simpl in *.
  - assert (Hn' : n <= length h') by (destruct Hu; lia).
    destruct (Hk a Hq h' Hn') as [Hu' Hr].
    split; [exact (unchanged_trans Hu Hu') | exact Hr].
  - split; [exact Hu | exact I].
Qed.

Lemma keeps_weaken {A : Type} n (m : M A) (Q Q' : A -> Prop) :
  keeps n m Q -> (forall a, Q a -> Q' a) -> keeps n m Q'.
Proof.
  intros Hm HQ h Hn. destruct (Hm h Hn) as [Hu Hq]. split; [exact Hu|].
  destruct (fst (m h)); auto.
Qed.

Lemma keeps_lift {A : Type} n (c : result A) : keeps n (lift c) (fun _ => True).
Proof. intros h Hn. split; [apply unchanged_refl|]. simpl. destruct c; exact I. Qed.

Lemma keeps_new n t : keeps n (new t) (fresh n).
Proof. intros h Hn. split; [apply unchanged_alloc; exact Hn | exact Hn]. Qed.

Lemma keeps_new_int n t : keeps n (new_int t) (fresh n).
Proof. intros h Hn. split; [apply unchanged_alloc; exact Hn | exact Hn]. Qed.

Lemma keeps_val n a : keeps n (val a) (fun _ => True).
Proof.
  intros h Hn. unfold val. destruct (nth_error h (base a)) as [[t|t]|]; simpl;
    (split; [apply unchanged_refl | exact I]).
Qed.

Lemma keeps_val_int n a : keeps n (val_int a) (fun _ => True).
Proof.
  intros h Hn. unfold val_int.
  destruct (nth_error h (base a)) as [[t|t]|], (window a); simpl;
    (split; [apply unchanged_refl | exact I]).
Qed.

(** The rule of the in-place statements: the array written is one the call
    has allocated. *)
Lemma keeps_assign n a f : fresh n a -> keeps n (assign a f) (fun _ => True).
Proof.
  intros Ha h Hn. unfold assign.
  destruct (window a); [split; [apply unchanged_refl | exact I]|].
  destruct (nth_error h (base a)) as [[t|t]|]; try (split; [apply unchanged_refl | exact I]).
  destruct (f t) as [t'|e]; simpl; (split; [|exact I]); [|apply unchanged_refl].
  split; [rewrite set_nth_length; lia|].
  intros l Hl. apply nth_error_set_nth. unfold fresh in Ha. lia.
Qed.

Lemma fresh_view n f a : fresh n a -> fresh n (view f a).
Proof. exact (fun H => H). Qed.

Lemma keeps_reshape_view n a newshape :
  fresh n a -> keeps n (reshape_view a newshape) (fresh n).
Proof.
  intro Ha. unfold reshape_view.
  eapply keeps_bind; [apply keeps_val|]. intros t _.
  eapply keeps_bind; [apply keeps_lift|]. intros r _.
  apply keeps_ret, fresh_view, Ha.
Qed.

Lemma keeps_for {A : Type} n (xs : list A) (body : A -> M unit) :
  (forall x, keeps n (body x) (fun _ => True)) -> keeps n (for_ xs body) (fun _ => True).
Proof.
  intro Hb. induction xs as [|x xs IH]; simpl.
  - apply keeps_ret. exact I.
  - eapply keeps_bind; [apply Hb|]. intros _ _. exact IH.
Qed.

End Frame.

Create HintDb frame.
#[export] Hint Resolve keeps_lift keeps_new keeps_new_int keeps_val keeps_val_int
  keeps_assign keeps_reshape_view fresh_view : frame.

(** One statement of a body: the rule of its kind, new arrays being known as
    such to the statements after them. *)
Ltac settle_post :=
  lazymatch goal with
  | |- @keeps _ ?A _ _ ?Q => tryif is_evar Q then unify Q (fun _ : A => True) else idtac
  end.

Ltac frame_step :=
  cbv beta zeta;
  lazymatch goal with
  | |- keeps _ (Store.bindM _ _) _ =>
      eapply keeps_bind; [ | intros ? ? ]
  | |- keeps _ (Store.for_ _ _) _ => apply keeps_for; intros ?
  | |- keeps _ (Store.ret _) _ =>
      settle_post; apply keeps_ret; solve [exact I | eauto with frame]
  | |- keeps _ (match ?x with _ => _ end) _ => settle_post; destruct x
  | |- keeps _ _ _ =>
      first [ solve [eauto with frame]
            | eapply keeps_weaken; [solve [eauto with frame] | intros; exact I] ]
  end.

Ltac frame := repeat frame_step.

Section FreeFunctionsFrame.
Context {S : Scalar}.
Import Store operations_in_store.

Lemma scatter_patches_keeps n a patch_grads hs ws k_h k_w patch_shape :
  fresh n a ->
  keeps n (scatter_patches a patch_grads hs ws k_h k_w patch_shape) (fun _ => True).
Proof. intro Ha. unfold scatter_patches. frame. Qed.

Lemma relu_forward_keeps n input : keeps n (relu_forward input) (fun _ => True).
Proof. unfold relu_forward. frame. Qed.

Lemma relu_backward_keeps n out_grad input :
  keeps n (relu_backward out_grad input) (fun _ => True).
Proof. unfold relu_backward. frame. Qed.

Lemma flatten_forward_keeps n input : keeps n (flatten_forward input) (fun _ => True).
Proof. unfold flatten_forward. frame. Qed.

Lemma flatten_backward_keeps n out_grad input :
  keeps n (flatten_backward out_grad input) (fun _ => True).
Proof. unfold flatten_backward. frame. Qed.

Lemma fc_forward_keeps n input weights bias :
  keeps n (fc_forward input weights bias) (fun _ => True).
Proof. unfold fc_forward. frame. Qed.

Lemma fc_backward_keeps n out_grad input weights bias :
  keeps n (fc_backward out_grad input weights bias) (fun _ => True).
Proof. unfold fc_backward. frame. Qed.

Lemma conv_forward_keeps n input weights bias cp :
  keeps n (conv_forward input weights bias cp) (fun _ => True).
Proof. unfold conv_forward. frame. Qed.

Lemma conv_backward_keeps n out_grad input weights bias cp :
  keeps n (conv_backward out_grad input weights bias cp) (fun _ => True).
Proof.
  pose proof scatter_patches_keeps as Hs.
  unfold conv_backward. frame.
Qed.

Lemma pool_forward_keeps n input pp : keeps n (pool_forward input pp) (fun _ => True).
Proof. unfold pool_forward. frame. Qed.

Lemma pool_backward_keeps n out_grad input pp :
  keeps n (pool_backward out_grad input pp) (fun _ => True).
Proof.
  pose proof scatter_patches_keeps as Hs.
  unfold pool_backward. frame.
Qed.

Lemma dropout_forward_keeps {G : Random S} n input rate training seed w :
  keeps n (dropout_forward input rate training seed w) (fun _ => True).
Proof. unfold dropout_forward. frame. Qed.

Lemma dropout_backward_keeps n out_grad input rate mask training :
  keeps n (dropout_backward out_grad input rate mask training) (fun _ => True).
Proof. unfold dropout_backward. frame. Qed.

Lemma softmax_cross_entropy_forward_keeps {T : Transcendental S} n input labels :
  keeps n (softmax_cross_entropy_forward input labels) (fun _ => True).
Proof. unfold softmax_cross_entropy_forward. frame. Qed.

Lemma softmax_cross_entropy_backward_keeps {T : Transcendental S} n input labels :
  keeps n (softmax_cross_entropy_backward input labels) (fun _ => True).
Proof. unfold softmax_cross_entropy_backward. frame. Qed.

End FreeFunctionsFrame.

Section ClassesFrame.
Context {S : Scalar}.
Import Store operators_in_store.

Lemma relu_class_forward_keeps n input : keeps n (relu.forward input) (fun _ => True).
Proof. unfold relu.forward. frame. Qed.

Lemma relu_class_backward_keeps n out_grad input :
  keeps n (relu.backward out_grad input) (fun _ => True).
Proof. unfold relu.backward. frame. Qed.

Lemma flatten_class_forward_keeps n input : keeps n (flatten.forward input) (fun _ => True).
Proof. unfold flatten.forward. frame. Qed.

Lemma flatten_class_backward_keeps n out_grad input :
  keeps n (flatten.backward out_grad input) (fun _ => True).
Proof. unfold flatten.backward. frame. Qed.

Lemma matmul_forward_keeps n input weights :
  keeps n (matmul.forward input weights) (fun _ => True).
Proof. unfold matmul.forward. frame. Qed.

Lemma matmul_backward_keeps n out_grad input weights :
  keeps n (matmul.backward out_grad input weights) (fun _ => True).
Proof. unfold matmul.backward. frame. Qed.

Lemma add_bias_forward_keeps n input bias :
  keeps n (add_bias.forward input bias) (fun _ => True).
Proof. unfold add_bias.forward. frame. Qed.

Lemma add_bias_backward_keeps n out_grad input bias :
  keeps n (add_bias.backward out_grad input bias) (fun _ => True).
Proof. unfold add_bias.backward. frame. Qed.

Lemma linear_forward_keeps n input weights bias :
  keeps n (linear.forward input weights bias) (fun _ => True).
Proof.
  pose proof matmul_forward_keeps. pose proof add_bias_forward_keeps.
  unfold linear.forward. frame.
Qed.

Lemma linear_backward_keeps n out_grad input weights bias :
  keeps n (linear.backward out_grad input weights bias) (fun _ => True).
Proof.
  pose proof matmul_backward_keeps. pose proof add_bias_backward_keeps.
  unfold linear.backward. frame.
Qed.

Lemma conv_class_forward_keeps n cp input weights bias :
  keeps n (conv.forward cp input weights bias) (fun _ => True).
Proof. unfold conv.forward. frame. Qed.

Lemma col2img_keeps n dX_hat N c_i n_h n_w k_h k_w p s :
  keeps n (conv.col2img dX_hat N c_i n_h n_w k_h k_w p s) (fun _ => True).
Proof. unfold conv.col2img. frame. Qed.

Lemma conv_class_backward_keeps n cp out_grad input weights bias :
  keeps n (conv.backward cp out_grad input weights bias) (fun _ => True).
Proof. pose proof col2img_keeps. unfold conv.backward. frame. Qed.

Lemma pool_class_forward_keeps n pp input : keeps n (pool.forward pp input) (fun _ => True).
Proof. unfold pool.forward. frame. Qed.

Lemma pool_class_backward_keeps n pp out_grad input :
  keeps n (pool.backward pp out_grad input) (fun _ => True).
Proof. pose proof scatter_patches_keeps. unfold pool.backward. frame. Qed.

Lemma dropout_class_forward_keeps {G : Random S} n self input w :
  keeps n (dropout.forward self input w) (fun _ => True).
Proof. unfold dropout.forward. frame. Qed.

Lemma dropout_class_backward_keeps n self out_grad input :
  keeps n (dropout.backward self out_grad input) (fun _ => True).
Proof. unfold dropout.backward. frame. Qed.

Context {T : Transcendental S}.

Lemma vanilla_rnn_forward_keeps n input kernel recurrent_kernel bias :
  keeps n (vanilla_rnn.forward input kernel recurrent_kernel bias) (fun _ => True).
Proof. unfold vanilla_rnn.forward. frame. Qed.

Lemma vanilla_rnn_backward_keeps n out_grad input kernel recurrent_kernel bias :
  keeps n (vanilla_rnn.backward out_grad input kernel recurrent_kernel bias) (fun _ => True).
Proof. unfold vanilla_rnn.backward. frame. Qed.

Lemma gru_forward_keeps n input kernel recurrent_kernel :
  keeps n (gru.forward input kernel recurrent_kernel) (fun _ => True).
Proof. unfold gru.forward. frame. Qed.

Lemma gru_backward_keeps n out_grad input kernel recurrent_kernel :
  keeps n (gru.backward out_grad input kernel recurrent_kernel) (fun _ => True).
Proof. unfold gru.backward. frame. Qed.

Lemma softmax_class_forward_keeps n input labels :
  keeps n (softmax_cross_entropy.forward input labels) (fun _ => True).
Proof. unfold softmax_cross_entropy.forward. frame. Qed.

Lemma softmax_class_backward_keeps n input labels :
  keeps n (softmax_cross_entropy.backward input labels) (fun _ => True).
Proof. unfold softmax_cross_entropy.backward. frame. Qed.

End ClassesFrame.

(* ===================================================================== *)
(** * No call writes to an array it did not allocate *)
(* ===================================================================== *)

Section Calls.
Context {S : Scalar} {T : Transcendental S} {G : Random S}.
Import Store.

(** The calls of a forward or a backward pass: every free function of
    [nn/operations.py] and every method of the classes of [nn/operators.py],
    with its arguments. *)
Inductive call : Type :=
| Relu_forward (input : arr)
| Relu_backward (out_grad input : arr)
| Flatten_forward (input : arr)
| Flatten_backward (out_grad input : arr)
| Fc_forward (input weights bias : arr)
| Fc_backward (out_grad input weights bias : arr)
| Conv_forward (input weights bias : arr) (cp : conv_params.t)
| Conv_backward (out_grad input weights bias : arr) (cp : conv_params.t)
| Pool_forward (input : arr) (pp : pool_params.t)
| Pool_backward (out_grad input : arr) (pp : pool_params.t)
| Dropout_forward (input : arr) (rate : num) (training : bool) (seed : option Z) (w : world)
| Dropout_backward (out_grad input : arr) (rate : num) (mask : option arr) (training : bool)
| Softmax_cross_entropy_forward (input labels : arr)
| Softmax_cross_entropy_backward (input labels : arr)
| Relu_method_forward (input : arr)
| Relu_method_backward (out_grad input : arr)
| Flatten_method_forward (input : arr)
| Flatten_method_backward (out_grad input : arr)
| Matmul_method_forward (input weights : arr)
| Matmul_method_backward (out_grad input weights : arr)
| Add_bias_method_forward (input bias : arr)
| Add_bias_method_backward (out_grad input bias : arr)
| Linear_method_forward (input weights bias : arr)
| Linear_method_backward (out_grad input weights bias : arr)
| Conv_method_forward (cp : conv_params.t) (input weights bias : arr)
| Conv_method_backward (cp : conv_params.t) (out_grad input weights bias : arr)
| Pool_method_forward (pp : pool_params.t) (input : arr)
| Pool_method_backward (pp : pool_params.t) (out_grad input : arr)
| Dropout_method_forward (self : operators_in_store.dropout.object) (input : arr) (w : world)
| Dropout_method_backward (self : operators_in_store.dropout.object) (out_grad input : arr)
| Vanilla_rnn_method_forward (input : arr * arr) (kernel recurrent_kernel bias : arr)
| Vanilla_rnn_method_backward (out_grad : arr) (input : arr * arr)
    (kernel recurrent_kernel bias : arr)
| Gru_method_forward (input : arr * arr) (kernel recurrent_kernel : arr)
| Gru_method_backward (out_grad : arr) (input : arr * arr) (kernel recurrent_kernel : arr)
| Softmax_cross_entropy_method_forward (input labels : arr)
| Softmax_cross_entropy_method_backward (input labels : arr).

Definition discard {A : Type} (m : M A) : M unit := bindM m (fun _ => ret tt).

(** Running a call, for its effect on the store. *)
Definition run (c : call) : M unit :=
  match c with
  | Relu_forward input => discard (operations_in_store.relu_forward input)
  | Relu_backward out_grad input => discard (operations_in_store.relu_backward out_grad input)
  | Flatten_forward input => discard (operations_in_store.flatten_forward input)
  | Flatten_backward out_grad input =>
      discard (operations_in_store.flatten_backward out_grad input)
  | Fc_forward input weights bias =>
      discard (operations_in_store.fc_forward input weights bias)
  | Fc_backward out_grad input weights bias =>
      discard (operations_in_store.fc_backward out_grad input weights bias)
  | Conv_forward input weights bias cp =>
      discard (operations_in_store.conv_forward input weights bias cp)
  | Conv_backward out_grad input weights bias cp =>
      discard (operations_in_store.conv_backward out_grad input weights bias cp)
  | Pool_forward input pp => discard (operations_in_store.pool_forward input pp)
  | Pool_backward out_grad input pp =>
      discard (operations_in_store.pool_backward out_grad input pp)
  | Dropout_forward input rate training seed w =>
      discard (operations_in_store.dropout_forward input rate training seed w)
  | Dropout_backward out_grad input rate mask training =>
      discard (operations_in_store.dropout_backward out_grad input rate mask training)
  | Softmax_cross_entropy_forward input labels =>
      discard (operations_in_store.softmax_cross_entropy_forward input labels)
  | Softmax_cross_entropy_backward input labels =>
      discard (operations_in_store.softmax_cross_entropy_backward input labels)
  | Relu_method_forward input => discard (operators_in_store.relu.forward input)
  | Relu_method_backward out_grad input =>
      discard (operators_in_store.relu.backward out_grad input)
  | Flatten_method_forward input => discard (operators_in_store.flatten.forward input)
  | Flatten_method_backward out_grad input =>
      discard (operators_in_store.flatten.backward out_grad input)
  | Matmul_method_forward input weights =>
      discard (operators_in_store.matmul.forward input weights)
  | Matmul_method_backward out_grad input weights =>
      discard (operators_in_store.matmul.backward out_grad input weights)
  | Add_bias_method_forward input bias =>
      discard (operators_in_store.add_bias.forward input bias)
  | Add_bias_method_backward out_grad input bias =>
      discard (operators_in_store.add_bias.backward out_grad input bias)
  | Linear_method_forward input weights bias =>
      discard (operators_in_store.linear.forward input weights bias)
  | Linear_method_backward out_grad input weights bias =>
      discard (operators_in_store.linear.backward out_grad input weights bias)
  | Conv_method_forward cp input weights bias =>
      discard (operators_in_store.conv.forward cp input weights bias)
  | Conv_method_backward cp out_grad input weights bias =>
      discard (operators_in_store.conv.backward cp out_grad input weights bias)
  | Pool_method_forward pp input => discard (operators_in_store.pool.forward pp input)
  | Pool_method_backward pp out_grad input =>
      discard (operators_in_store.pool.backward pp out_grad input)
  | Dropout_method_forward self input w =>
      discard (operators_in_store.dropout.forward self input w)
  | Dropout_method_backward self out_grad input =>
      discard (operators_in_store.dropout.backward self out_grad input)
  | Vanilla_rnn_method_forward input kernel recurrent_kernel bias =>
      discard (operators_in_store.vanilla_rnn.forward input kernel recurrent_kernel bias)
  | Vanilla_rnn_method_backward out_grad input kernel recurrent_kernel bias =>
      discard (operators_in_store.vanilla_rnn.backward out_grad input
                 kernel recurrent_kernel bias)
  | Gru_method_forward input kernel recurrent_kernel =>
      discard (operators_in_store.gru.forward input kernel recurrent_kernel)
  | Gru_method_backward out_grad input kernel recurrent_kernel =>
      discard (operators_in_store.gru.backward out_grad input kernel recurrent_kernel)
  | Softmax_cross_entropy_method_forward input labels =>
      discard (operators_in_store.softmax_cross_entropy.forward input labels)
  | Softmax_cross_entropy_method_backward input labels =>
      discard (operators_in_store.softmax_cross_entropy.backward input labels)
  end.

Lemma discard_keeps {A : Type} n (m : M A) :
  keeps n m (fun _ => True) -> keeps n (discard m) (fun _ => True).
Proof.
  intro Hm. unfold discard. eapply keeps_bind; [exact Hm|].
  intros _ _. apply keeps_ret. exact I.
Qed.

Lemma run_keeps n (c : call) : keeps n (run c) (fun _ => True).
Proof.
  destruct c; cbn [run]; apply discard_keeps;
    auto using relu_forward_keeps, relu_backward_keeps, flatten_forward_keeps,
      flatten_backward_keeps, fc_forward_keeps, fc_backward_keeps, conv_forward_keeps,
      conv_backward_keeps, pool_forward_keeps, pool_backward_keeps, dropout_forward_keeps,
      dropout_backward_keeps, softmax_cross_entropy_forward_keeps,
      softmax_cross_entropy_backward_keeps, relu_class_forward_keeps,
      relu_class_backward_keeps, flatten_class_forward_keeps, flatten_class_backward_keeps,
      matmul_forward_keeps, matmul_backward_keeps, add_bias_forward_keeps,
      add_bias_backward_keeps, linear_forward_keeps, linear_backward_keeps,
      conv_class_forward_keeps, conv_class_backward_keeps, pool_class_forward_keeps,
      pool_class_backward_keeps, dropout_class_forward_keeps, dropout_class_backward_keeps,
      vanilla_rnn_forward_keeps, vanilla_rnn_backward_keeps, gru_forward_keeps,
      gru_backward_keeps, softmax_class_forward_keeps, softmax_class_backward_keeps.
Qed.

(** C9: whatever the call and the store it starts from, and whether it
    returns or raises, every buffer of the store is afterwards what it was,
    so that every array that existed before the call (an input, the weights,
    a bias, a gradient received, the labels, or a view of one of them) reads
    the same values after it. The arrays a call writes to in place are
    arrays it has itself allocated. *)
Theorem forward_backward_leave_arguments (c : call) (h : heap) :
  let h' := snd (run c h) in
  length h <= length h'
  /\ (forall l, l < length h -> nth_error h' l = nth_error h l)
  /\ (forall a, base a < length h ->
        fst (val a h') = fst (val a h) /\ fst (val_int a h') = fst (val_int a h)).
Proof.
  destruct (@run_keeps (length h) c h (le_n _)) as [[Hlen Hsame] _].
  cbv zeta. split; [exact Hlen|]. split; [exact Hsame|].
  intros a Ha. unfold val, val_int. rewrite (Hsame _ Ha).
  split; destruct (nth_error h (base a)) as [[t|t]|]; try reflexivity;
    destruct (window a); reflexivity.
Qed.

End Calls.

(** The rule of the in-place statements is what the theorem rests on: a
    [relu] that clipped its input in place would change the caller's array. *)
Module InPlaceExample.
Import Store.
Local Open Scope store_scope.

Definition relu_in_place {S : Scalar} (input : arr) : M arr :=
  _ <- assign input (fun t => Ok (operations.relu_forward t)) ;;
  ret input.

Definition store0 : @heap real_scalar := [FloatBuf (mk_ndarray [1] [(-1)%R])].

Example relu_in_place_changes_its_argument :
  nth_error (snd (relu_in_place (mk_arr 0 None) store0)) 0 <> nth_error store0 0.
Proof.
  cbn. intro E. injection E as E. unfold s_max in E. cbn in E.
  destruct (Rle_dec 0 (-1)) as [H|H]; lra.
Qed.

End InPlaceExample.

(* ===================================================================== *)
(** * The operators in the store compute the values of the operators *)
(* ===================================================================== *)

Section Refinement.
Context {S : Scalar}.
Import Store.

(** The value of an array object in a store. *)
Definition read (h : heap) (a : arr) : result tensor := fst (val a h).
Definition read_int (h : heap) (a : arr) : result (ndarray Z) := fst (val_int a h).

(** [m], run from [h], returns what the computation on values [c] returns,
    up to [R], and raises what it raises. *)
Definition refines {A B : Type} (m : M A) (h : heap) (c : result B)
  (R : heap -> A -> B -> Prop) : Prop :=
  match c with
  | Ok b => exists a h', m h = (Ok a, h') /\ R h' a b
  | Raise e => fst (m h) = Raise e
  end.

Definition reads (h : heap) (a : arr) (t : tensor) : Prop := read h a = Ok t.

Definition reads3 (h : heap) (a : arr * arr * arr) (t : tensor * tensor * tensor) : Prop :=
  let '(a1, a2, a3) := a in
  let '(t1, t2, t3) := t in
  read h a1 = Ok t1 /\ read h a2 = Ok t2 /\ read h a3 = Ok t3.

Lemma run_val a h : val a h = (read h a, h).
Proof.
  unfold read, val. destruct (nth_error h (base a)) as [[t|t]|]; reflexivity.
Qed.

Lemma run_val_int a h : val_int a h = (read_int h a, h).
Proof.
  unfold read_int, val_int. destruct (nth_error h (base a)) as [[t|t]|], (window a);
    reflexivity.
Qed.

Lemma run_bind_val {B : Type} a (k : tensor -> M B) h :
  bindM (val a) k h = match read h a with Ok x => k x h | Raise e => (Raise e, h) end.
Proof. unfold bindM. rewrite run_val. reflexivity. Qed.

Lemma run_bind_val_int {B : Type} a (k : ndarray Z -> M B) h :
  bindM (val_int a) k h = match read_int h a with Ok x => k x h | Raise e => (Raise e, h) end.
Proof. unfold bindM. rewrite run_val_int. reflexivity. Qed.

Lemma run_bind_lift {A B : Type} (c : result A) (k : A -> M B) h :
  bindM (lift c) k h = match c with Ok x => k x h | Raise e => (Raise e, h) end.
Proof. reflexivity. Qed.

Lemma run_bind_new {B : Type} t (k : arr -> M B) h :
  bindM (new t) k h = k (mk_arr (length h) None) (h ++ [FloatBuf t]).
Proof. reflexivity. Qed.

Lemma run_bind_ret {A B : Type} (a : A) (k : A -> M B) h : bindM (ret a) k h = k a h.
Proof. reflexivity. Qed.

Lemma run_bind_assoc {A B C : Type} (m : M A) (k1 : A -> M B) (k2 : B -> M C) h :
  bindM (bindM m k1) k2 h = bindM m (fun x => bindM (k1 x) k2) h.
Proof. unfold bindM. destruct (m h) as [[a|e] h']; reflexivity. Qed.

Lemma nth_error_last (h : heap) c rest : nth_error ((h ++ [c]) ++ rest) (length h) = Some c.
Proof.
  rewrite <- app_assoc. rewrite nth_error_app2 by lia. rewrite Nat.sub_diag. reflexivity.
Qed.

Lemma nth_error_snoc_here (h : heap) c : nth_error (h ++ [c]) (length h) = Some c.
Proof. rewrite nth_error_app2 by lia. rewrite Nat.sub_diag. reflexivity. Qed.

Lemma nth_error_snoc_before (h : heap) c n :
  n < length h -> nth_error (h ++ [c]) n = nth_error h n.
Proof. intro Hn. apply nth_error_app1. exact Hn. Qed.

Lemma set_nth_last (h : heap) c c' : set_nth (length h) c' (h ++ [c]) = h ++ [c'].
Proof. induction h as [|x h IH]; simpl; [reflexivity|]. rewrite IH. reflexivity. Qed.

Lemma read_new h t w rest :
  read ((h ++ [FloatBuf t]) ++ rest) (mk_arr (length h) w)
  = Ok (through (mk_arr (length h) w) t).
Proof. unfold read, val. cbn [base]. rewrite nth_error_last. reflexivity. Qed.

Lemma read_new0 h t w :
  read (h ++ [FloatBuf t]) (mk_arr (length h) w) = Ok (through (mk_arr (length h) w) t).
Proof. rewrite <- (app_nil_r (h ++ [FloatBuf t])). apply read_new. Qed.

Lemma run_bind_assign {B : Type} f (k : unit -> M B) h t :
  bindM (assign (mk_arr (length h) None) f) k (h ++ [FloatBuf t])
  = match f t with
    | Ok t' => k tt (h ++ [FloatBuf t'])
    | Raise e => (Raise e, h ++ [FloatBuf t])
    end.
Proof.
  unfold bindM, assign. cbn [window base].
  rewrite <- (app_nil_r (h ++ [FloatBuf t])) at 1. rewrite nth_error_last.
  destruct (f t) as [t'|e]; [|reflexivity]. rewrite set_nth_last. reflexivity.
Qed.

(** A loop whose body updates the newest array computes the fold of the
    updates. *)
Lemma run_bind_for {A B : Type} (step : A -> tensor -> result tensor) (body : A -> M unit) h :
  (forall x t (B' : Type) (k : unit -> M B'),
     bindM (body x) k (h ++ [FloatBuf t])
     = match step x t with
       | Ok t' => k tt (h ++ [FloatBuf t'])
       | Raise e => (Raise e, h ++ [FloatBuf t])
       end) ->
  forall xs t (k : unit -> M B),
    match foldM (fun acc x => step x acc) xs t with
    | Ok t' => bindM (for_ xs body) k (h ++ [FloatBuf t]) = k tt (h ++ [FloatBuf t'])
    | Raise e => fst (bindM (for_ xs body) k (h ++ [FloatBuf t])) = Raise e
    end.
Proof.
  intros Hbody. induction xs as [|x xs IH]; intros t k; cbn [foldM for_].
  - reflexivity.
  - assert (E : bindM (bindM (body x) (fun _ => for_ xs body)) k (h ++ [FloatBuf t])
                = bindM (body x) (fun _ => bindM (for_ xs body) k) (h ++ [FloatBuf t])).
    { apply run_bind_assoc. }
    rewrite E, Hbody. destruct (step x t) as [t'|e]; cbn [bind]; [|reflexivity].
    apply IH.
Qed.

End Refinement.

(** One statement of a body in the store, run next to the same statement on
    values. *)
Ltac run_step :=
  lazymatch goal with
  | |- context [match ?x with (_, _) => _ end] => is_var x; destruct x
  | |- context [Store.bindM (Store.bindM ?m ?k1) ?k2 ?h] =>
      rewrite (@run_bind_assoc _ _ _ _ m k1 k2 h)
  | |- context [Store.bindM (Store.val ?a) ?k ?h] =>
      rewrite (@run_bind_val _ _ a k h);
      first [ rewrite read_new0 | rewrite read_new | destruct (read h a) eqn:? ];
      cbn [bind fst Store.through Store.window]
  | |- context [Store.bindM (Store.val_int ?a) ?k ?h] =>
      rewrite (@run_bind_val_int _ _ a k h); destruct (read_int h a) eqn:?; cbn [bind fst]
  | |- context [Store.bindM (Store.lift ?c) ?k ?h] =>
      rewrite (@run_bind_lift _ _ _ c k h); destruct c eqn:?; cbn [bind fst]
  | |- context [Store.bindM (Store.new ?t) ?k ?h] =>
      rewrite (@run_bind_new _ _ t k h)
  | |- context [Store.bindM (Store.ret ?a) ?k ?h] =>
      rewrite (@run_bind_ret _ _ _ a k h)
  | |- context [Store.bindM (Store.assign _ ?f) _ (_ ++ [Store.FloatBuf ?t])] =>
      let c := eval cbv beta in (f t) in
      rewrite run_bind_assign; cbv beta;
      lazymatch c with
      | Ok _ => idtac
      | bind ?c1 _ => destruct c1 eqn:?
      | _ => destruct c eqn:?
      end;
      cbn [bind fst]
  end;
  cbv beta;
  try reflexivity.

Ltac run := repeat run_step.

Section LossRefinement.
Context {S : Scalar} {T : Transcendental S}.
Import Store.

Lemma softmax_backward_refines (input labels : arr) (h : heap) :
  refines (operations_in_store.softmax_cross_entropy_backward input labels) h
    (x <- read h input ;;
     l <- read_int h labels ;;
     ls <- operations_in_store.labels_list l ;;
     operations.softmax_cross_entropy_backward x ls)
    reads.
Proof.
  unfold refines, operations_in_store.softmax_cross_entropy_backward,
    operations.softmax_cross_entropy_backward.
  cbv zeta. run.
  eexists _, _. split; [reflexivity|]. apply read_new0.
Qed.

End LossRefinement.

Section OperatorRefinement.
Context {S : Scalar}.
Import Store.

Lemma run_bind_scatter {B : Type} patch_grads hs ws k_h k_w patch_shape h t
  (k : unit -> M B) :
  match operations.scatter_patches t patch_grads hs ws k_h k_w patch_shape with
  | Ok t' =>
      bindM (operations_in_store.scatter_patches (mk_arr (length h) None) patch_grads
               hs ws k_h k_w patch_shape) k (h ++ [FloatBuf t])
      = k tt (h ++ [FloatBuf t'])
  | Raise e =>
      fst (bindM (operations_in_store.scatter_patches (mk_arr (length h) None) patch_grads
                    hs ws k_h k_w patch_shape) k (h ++ [FloatBuf t])) = Raise e
  end.
Proof.
  unfold operations.scatter_patches, operations_in_store.scatter_patches. cbv zeta.
  apply (run_bind_for
           (step := fun (x : nat * (nat * nat)) acc =>
              let '(idx, (i, j)) := x in
              g <- index_axis (length (shape patch_grads) - 1) idx patch_grads ;;
              g' <- reshape g patch_shape ;;
              add_slice acc [None; None;
                             Some (Z.of_nat i, Z.of_nat (i + k_h));
                             Some (Z.of_nat j, Z.of_nat (j + k_w))] g')).
  intros [idx [i j]] t0 B' k'. run.
Qed.

End OperatorRefinement.

(** The value of an array the body has allocated, in the final store. *)
Ltac read_new :=
  unfold read, Store.val; cbn [Store.base Store.view];
  repeat first [ rewrite nth_error_snoc_here
               | rewrite nth_error_snoc_before by (rewrite ?length_app; cbn [length]; lia) ];
  cbn [fst Store.through Store.window Store.view];
  repeat match goal with
         | H : ?c = Ok _ |- context [?c] => rewrite H
         end;
  try reflexivity.

Ltac run_done :=
  eexists _, _; split; [reflexivity|];
  unfold reads3, reads; repeat split; read_new.

(** The loop, met while running a body. *)
Ltac run_scatter :=
  lazymatch goal with
  | |- context [Store.bindM (operations_in_store.scatter_patches _ ?pg ?hs ?ws ?kh ?kw ?ps) ?k
                  (?h ++ [Store.FloatBuf ?t])] =>
      let H := fresh "Hloop" in
      pose proof (@run_bind_scatter _ _ pg hs ws kh kw ps h t k) as H;
      destruct (operations.scatter_patches t pg hs ws kh kw ps) eqn:?;
      cbn [bind fst]; [rewrite H; clear H | exact H]
  end.

Section FunctionRefinement.
Context {S : Scalar}.
Import Store.

Lemma conv_backward_refines (out_grad input weights bias : arr) cp (h : heap) :
  refines (operations_in_store.conv_backward out_grad input weights bias cp) h
    (og <- read h out_grad ;; x <- read h input ;;
     w <- read h weights ;; b <- read h bias ;;
     operations.conv_backward og x w b cp)
    reads3.
Proof.
  unfold refines, operations_in_store.conv_backward, operations.conv_backward.
  cbv zeta. run.
  destruct (shape a0) as [|? [|? [|? [|? [|? ?]]]]]; try reflexivity.
  run. run_scatter. run; run_done.
Qed.

Lemma pool_backward_refines (out_grad input : arr) pp (h : heap) :
  refines (operations_in_store.pool_backward out_grad input pp) h
    (og <- read h out_grad ;; x <- read h input ;; operations.pool_backward og x pp)
    reads.
Proof.
  unfold refines, operations_in_store.pool_backward, operations.pool_backward.
  cbv zeta. run.
  destruct (shape a0) as [|? [|? [|? [|? [|? ?]]]]]; try reflexivity.
  run. run_scatter. run_done.
Qed.

Lemma flatten_forward_refines (input : arr) (h : heap) :
  refines (operations_in_store.flatten_forward input) h
    (x <- read h input ;; operations.flatten_forward x) reads.
Proof.
  unfold refines, operations_in_store.flatten_forward, operations.flatten_forward,
    reshape_view.
  run. destruct (shape a) as [|batch ?]; [reflexivity|]. run. run_done.
Qed.

Lemma flatten_backward_refines (out_grad input : arr) (h : heap) :
  refines (operations_in_store.flatten_backward out_grad input) h
    (og <- read h out_grad ;; x <- read h input ;; operations.flatten_backward og x) reads.
Proof.
  unfold refines, operations_in_store.flatten_backward, operations.flatten_backward,
    reshape_view.
  run. run_done.
Qed.


Lemma conv_class_backward_refines cp (out_grad input weights bias : arr) (h : heap) :
  refines (operators_in_store.conv.backward cp out_grad input weights bias) h
    (og <- read h out_grad ;; x <- read h input ;;
     w <- read h weights ;; b <- read h bias ;;
     operators.conv.backward cp og x w b)
    reads3.
Proof.
  unfold refines, operators_in_store.conv.backward, operators.conv.backward,
    operators_in_store.conv.col2img, operators.conv.col2img.
  cbv zeta. run.
  destruct (shape a0) as [|? [|? [|? [|? [|? ?]]]]]; try reflexivity.
  run.
  destruct (negb (conv_params.pad cp =? 0)); run; run_done.
Qed.

Lemma pool_class_backward_refines pp (out_grad input : arr) (h : heap) :
  refines (operators_in_store.pool.backward pp out_grad input) h
    (og <- read h out_grad ;; x <- read h input ;; operators.pool.backward pp og x)
    reads.
Proof.
  unfold refines, operators_in_store.pool.backward, operators.pool.backward.
  cbv zeta. run.
  destruct (shape a0) as [|? [|? [|? [|? [|? ?]]]]]; try reflexivity.
  run. run_scatter. run_done.
Qed.

Lemma pool_class_forward_refines pp (input : arr) (h : heap) :
  refines (operators_in_store.pool.forward pp input) h
    (x <- read h input ;; operators.pool.forward pp x)
    reads.
Proof.
  unfold refines, operators_in_store.pool.forward, operators.pool.forward.
  cbv zeta. run.
  destruct (shape a) as [|? [|? [|? [|? [|? ?]]]]]; try reflexivity.
  run.
  match goal with
  | |- context [bindM (for_ ?xs ?body) ?k (?h ++ [FloatBuf ?t])] =>
      pose proof (fun Hbody => @run_bind_for _ _ _
        (fun (x : nat * nat) output =>
           let '(i, j) := x in
           let height_offset := i * pool_params.stride pp in
           let width_offset := j * pool_params.stride pp in
           let receptive_fields :=
             slice (np_pad s_zero a [(0, 0); (0, 0);
                                     (pool_params.pad pp / 2, pool_params.pad pp / 2);
                                     (pool_params.pad pp / 2, pool_params.pad pp / 2)])
                   [None; None;
                    Some (Z.of_nat height_offset,
                          Z.of_nat (height_offset + pool_params.pool_height pp));
                    Some (Z.of_nat width_offset,
                          Z.of_nat (width_offset + pool_params.pool_width pp))] in
           if String.eqb (pool_params.pool_type pp) "max" then
             v <- np_max [2; 3] false receptive_fields ;;
             operators.pool.set_ij output i j v
           else if String.eqb (pool_params.pool_type pp) "avg" then
             v <- np_mean [2; 3] receptive_fields ;; operators.pool.set_ij output i j v
           else Raise (TypeError "Error: pool_type should be 'max' or 'avg'"))
        body h Hbody xs t k) as Hloop
  end.
  cbv beta zeta in Hloop.
  match type of Hloop with
  | ?P -> _ => assert (Hbody : P); [|specialize (Hloop Hbody); clear Hbody]
  end.
  { intros [i j] t B' k'. cbv zeta.
    destruct (String.eqb (pool_params.pool_type pp) "max"); [run|].
    destruct (String.eqb (pool_params.pool_type pp) "avg"); run. }
  match type of Hloop with
  | match ?c with _ => _ end => destruct c eqn:?
  end; cbn [bind fst]; [rewrite Hloop; clear Hloop | exact Hloop].
  run. run_done.
Qed.

Context {T : Transcendental S}.

Lemma softmax_class_backward_refines (input labels : arr) (h : heap) :
  refines (operators_in_store.softmax_cross_entropy.backward input labels) h
    (x <- read h input ;;
     l <- read_int h labels ;;
     ls <- operations_in_store.labels_list l ;;
     operators.softmax_cross_entropy.backward x ls)
    reads.
Proof. exact (softmax_backward_refines input labels h). Qed.


(** X1: the bodies with in-place statements, run on arrays in a store, return
    arrays that hold the values the same bodies compute on values, and raise
    what they raise: the gradient of the loss (function and method), the
    backward passes of the convolution and of the pooling (functions and
    methods), the forward pass of the pooling method, and the two [flatten]
    functions, which return a view of a copy. *)
Theorem in_place_bodies_return_the_values (h : heap) :
  (forall input labels,
     refines (operations_in_store.softmax_cross_entropy_backward input labels) h
       (x <- read h input ;; l <- read_int h labels ;;
        ls <- operations_in_store.labels_list l ;;
        operations.softmax_cross_entropy_backward x ls) reads)
  /\ (forall input labels,
        refines (operators_in_store.softmax_cross_entropy.backward input labels) h
          (x <- read h input ;; l <- read_int h labels ;;
           ls <- operations_in_store.labels_list l ;;
           operators.softmax_cross_entropy.backward x ls) reads)
  /\ (forall out_grad input weights bias cp,
        refines (operations_in_store.conv_backward out_grad input weights bias cp) h
          (og <- read h out_grad ;; x <- read h input ;;
           w <- read h weights ;; b <- read h bias ;;
           operations.conv_backward og x w b cp) reads3)
  /\ (forall cp out_grad input weights bias,
        refines (operators_in_store.conv.backward cp out_grad input weights bias) h
          (og <- read h out_grad ;; x <- read h input ;;
           w <- read h weights ;; b <- read h bias ;;
           operators.conv.backward cp og x w b) reads3)
  /\ (forall out_grad input pp,
        refines (operations_in_store.pool_backward out_grad input pp) h
          (og <- read h out_grad ;; x <- read h input ;;
           operations.pool_backward og x pp) reads)
  /\ (forall pp out_grad input,
        refines (operators_in_store.pool.backward pp out_grad input) h
          (og <- read h out_grad ;; x <- read h input ;;
           operators.pool.backward pp og x) reads)
  /\ (forall pp input,
        refines (operators_in_store.pool.forward pp input) h
          (x <- read h input ;; operators.pool.forward pp x) reads)
  /\ (forall input,
        refines (operations_in_store.flatten_forward input) h
          (x <- read h input ;; operations.flatten_forward x) reads)
  /\ (forall out_grad input,
        refines (operations_in_store.flatten_backward out_grad input) h
          (og <- read h out_grad ;; x <- read h input ;;
           operations.flatten_backward og x) reads).
Proof.
  repeat split; intros.
  - apply softmax_backward_refines.
  - apply softmax_class_backward_refines.
  - apply conv_backward_refines.
  - apply conv_class_backward_refines.
  - apply pool_backward_refines.
  - apply pool_class_backward_refines.
  - apply pool_class_forward_refines.
  - apply flatten_forward_refines.
  - apply flatten_backward_refines.
Qed.

End FunctionRefinement.

(* ===================================================================== *)
(** * The loss on the real numbers *)
(* ===================================================================== *)

Section SoftmaxReal.
Local Open Scope R_scope.

Lemma fold_s_max_upper : forall (xs : list R) (x : R),
  x <= fold_left (s_max (S := real_scalar)) xs x
  /\ forall y, In y xs -> y <= fold_left (s_max (S := real_scalar)) xs x.
Proof.
  induction xs as [|z xs IH]; intro x; cbn [fold_left].
  - split; [lra | intros y []].
  - destruct (IH (s_max (S := real_scalar) x z)) as [H1 H2].
    assert (Hm : x <= s_max (S := real_scalar) x z /\ z <= s_max (S := real_scalar) x z).
    { unfold s_max. cbn. destruct (Rle_dec x z); lra. }
    split; [lra|]. intros y [<-|Hy]; [lra | apply H2, Hy].
Qed.

(** [np.max] of a row bounds its entries. *)
Lemma max_list_upper (xs : list R) (y : R) :
  In y xs -> y <= max_list (S := real_scalar) xs.
Proof.
  destruct xs as [|x xs]; [intros []|]. cbn [max_list].
  destruct (fold_s_max_upper xs x) as [H1 H2].
  intros [<-|Hy]; [exact H1 | apply H2, Hy].
Qed.

Lemma fold_Rplus_lower : forall (xs : list R) (a : R),
  (forall y, In y xs -> 0 <= y) ->
  a <= fold_left Rplus xs a /\ forall y, In y xs -> a + y <= fold_left Rplus xs a.
Proof.
  induction xs as [|z xs IH]; intros a Hpos; cbn [fold_left].
  - split; [lra | intros y []].
  - assert (Hz : 0 <= z) by (apply Hpos; left; reflexivity).
    destruct (IH (a + z)) as [H1 H2]; [intros y Hy; apply Hpos; right; exact Hy|].
    split; [lra|]. intros y [<-|Hy]; [exact H1|].
    specialize (H2 y Hy). lra.
Qed.

(** A sum of non-negative numbers bounds each of them. *)
Lemma sum_list_lower (xs : list R) (y : R) :
  (forall z, In z xs -> 0 <= z) -> In y xs -> y <= sum_list (S := real_scalar) xs.
Proof.
  intros Hpos Hy. unfold sum_list. cbn.
  destruct (fold_Rplus_lower (xs := xs) 0 Hpos) as [_ H]. specialize (H y Hy). lra.
Qed.

Lemma exp_minus_ln (a b : R) : 0 < b -> exp (a - ln b) = exp a / b.
Proof.
  intro Hb. unfold Rminus, Rdiv. rewrite exp_plus, exp_Ropp, exp_ln by exact Hb.
  reflexivity.
Qed.

Lemma np_exp_nonneg (x : R) : 0 <= np_exp x.
Proof.
  unfold np_exp. destruct (Rlt_dec x (-746)); [lra|]. left. apply exp_pos.
Qed.

Lemma np_exp_zero : np_exp 0 = 1.
Proof.
  unfold np_exp. destruct (Rlt_dec 0 (-746)); [lra|]. apply exp_0.
Qed.

Lemma np_exp_at_most_one (x : R) : x <= 0 -> np_exp x <= 1.
Proof.
  intro Hx. unfold np_exp. destruct (Rlt_dec x (-746)); [lra|].
  destruct Hx as [Hx|Hx]; [|rewrite Hx, exp_0; lra].
  left. rewrite <- exp_0. apply exp_increasing. exact Hx.
Qed.

Lemma np_exp_exact (x : R) : -746 <= x -> np_exp x = exp x.
Proof.
  intro Hx. unfold np_exp. destruct (Rlt_dec x (-746)); [lra|reflexivity].
Qed.

Lemma np_exp_underflow (x : R) : x < -746 -> np_exp x = 0.
Proof.
  intro Hx. unfold np_exp. destruct (Rlt_dec x (-746)); [reflexivity|lra].
Qed.

(** Each term of the row's sum is at most the sum. *)
Lemma row_Z_bounds (input : @tensor real_scalar) (C i j : nat) :
  (j < C)%nat ->
  np_exp (shifted (S := real_scalar) input C i j)
  <= row_Z (T := real_transcendental) input C i.
Proof.
  intro Hj. unfold row_Z. apply sum_list_lower.
  - intros z Hz. apply in_map_iff in Hz as (k & <- & _). apply np_exp_nonneg.
  - apply in_map_iff. exists j. split; [reflexivity|]. apply in_seq. lia.
Qed.

(** The maximum of the row bounds its logits. *)
Lemma shifted_nonpos (input : @tensor real_scalar) (C i j : nat) :
  (j < C)%nat -> shifted (S := real_scalar) input C i j <= 0.
Proof.
  intro Hj. unfold shifted. cbn [s_sub real_scalar].
  assert (get input [i; j] <= max_list (S := real_scalar) (row input C i)); [|lra].
  apply max_list_upper. unfold row. apply in_map_iff. exists j.
  split; [reflexivity | apply in_seq; lia].
Qed.

End SoftmaxReal.

(* ===================================================================== *)
(** * Flattening and its inverse *)
(* ===================================================================== *)

Section FlattenRoundTrip.
Context {S : Scalar}.

Lemma reshape_rows {A : Type} (a : ndarray A) (batch : nat) :
  batch <> 0 -> length (data a) mod batch = 0 ->
  reshape a [Z.of_nat batch; -1]%Z = Ok (mk_ndarray [batch; length (data a) / batch] (data a)).
Proof.
  intros Hb Hm. unfold reshape.
  assert (E1 : (Z.of_nat batch <? -1)%Z = false) by (apply Z.ltb_ge; lia).
  assert (E2 : (Z.of_nat batch =? -1)%Z = false) by (apply Z.eqb_neq; lia).
  cbn [existsb filter]. rewrite E1, E2.
  change ((-1 <? -1)%Z) with false. change ((-1 =? -1)%Z) with true.
  cbn [orb negb filter length map fold_right]. rewrite E2.
  rewrite Nat2Z.id, Nat.mul_1_r.
  destruct (Nat.eqb_spec batch 0); [contradiction|].
  rewrite Hm. cbn [Nat.eqb negb orb]. reflexivity.
Qed.

Lemma reshape_zero_rows {A : Type} (a : ndarray A) :
  reshape a [0; -1]%Z = Raise (ValueError "cannot reshape array").
Proof. reflexivity. Qed.

Lemma reshape_back {A : Type} (sh : list nat) (xs : list A) (sh' : list nat) :
  length xs = size_of sh ->
  reshape (mk_ndarray sh' xs) (map Z.of_nat sh) = Ok (mk_ndarray sh xs).
Proof.
  intro Hlen. unfold reshape. cbn [data].
  assert (Hnn : Forall (fun d => (0 <= d)%Z) (map Z.of_nat sh)).
  { apply Forall_forall. intros d Hd. apply in_map_iff in Hd as (n & <- & _). lia. }
  rewrite existsb_neg_false
    by (eapply Forall_impl; [|exact Hnn]; intros d Hd; apply Z.ltb_ge; cbv beta in Hd; lia).
  rewrite (filter_none (f := fun d => (d =? -1)%Z))
    by (eapply Forall_impl; [|exact Hnn]; intros d Hd; apply Z.eqb_neq; cbv beta in Hd; lia).
  cbn [length].
  assert (Hall : filter (fun d => negb (d =? -1)%Z) (map Z.of_nat sh) = map Z.of_nat sh).
  { apply forallb_filter_id. apply forallb_forall. intros d Hd.
    apply in_map_iff in Hd as (n & <- & _). apply negb_true_iff, Z.eqb_neq. lia. }
  rewrite Hall, map_map.
  rewrite (map_ext (fun x => Z.to_nat (Z.of_nat x)) (fun x => x)) by apply Nat2Z.id.
  rewrite map_id. fold (size_of sh). rewrite Hlen, Nat.eqb_refl. reflexivity.
Qed.

(** X3: [flatten_forward] returns exactly for an input with a first axis of
    non-zero length: a 0-d input raises IndexError and an empty batch
    raises ValueError (the [-1] cannot be inferred). Where it returns, the
    output has shape (batch, product of the other axes) and the data of the
    input, and [flatten_backward] of the output restores the input, shape
    and data; the class [flatten] does the same. *)
Theorem flatten_round_trip (x : tensor) :
  wf x ->
  match shape x with
  | [] =>
      operations.flatten_forward x = Raise IndexError
      /\ operators.flatten.forward x = Raise IndexError
  | 0 :: _ =>
      operations.flatten_forward x = Raise (ValueError "cannot reshape array")
      /\ operators.flatten.forward x = Raise (ValueError "cannot reshape array")
  | batch :: rest =>
      exists y,
        operations.flatten_forward x = Ok y
        /\ operators.flatten.forward x = Ok y
        /\ shape y = [batch; size_of rest] /\ data y = data x
        /\ operations.flatten_backward y x = Ok x
        /\ operators.flatten.backward y x = Ok x
  end.
Proof.
  intro Hwf. destruct x as [sh xs]. unfold wf in Hwf. cbn [shape data] in *.
  unfold operations.flatten_forward, operators.flatten.forward,
    operations.flatten_backward, operators.flatten.backward. cbn [shape].
  destruct sh as [|batch rest]; [split; reflexivity|].
  destruct batch as [|b]; [split; reflexivity|].
  assert (Hsize : length xs = Datatypes.S b * size_of rest) by exact Hwf.
  assert (Hmod : length (data (mk_ndarray (Datatypes.S b :: rest) xs)) mod Datatypes.S b = 0).
  { cbn [data]. rewrite Hsize, Nat.mul_comm. apply Nat.Div0.mod_mul. }
  rewrite (reshape_rows (a := mk_ndarray (Datatypes.S b :: rest) xs) (batch := Datatypes.S b))
    by (auto; lia).
  cbn [data]. eexists. split; [reflexivity|]. split; [reflexivity|].
  cbn [shape data].
  assert (Hdiv : length xs / Datatypes.S b = size_of rest).
  { rewrite Hsize, Nat.mul_comm. apply Nat.div_mul. lia. }
  split; [rewrite Hdiv; reflexivity|]. split; [reflexivity|].
  split; apply reshape_back; exact Hwf.
Qed.

End FlattenRoundTrip.

Module FlattenExample.

Definition image : @tensor float_scalar :=
  mk_ndarray [2; 1; 2; 2] [1; 2; 3; 4; 5; 6; 7; 8]%float.

Lemma flatten_round_trip_witness :
  exists y, operations.flatten_forward image = Ok y
            /\ shape y = [2; 4]
            /\ operations.flatten_backward y image = Ok image.
Proof.
  destruct (flatten_round_trip (x := image) eq_refl) as (y & E & _ & Hs & _ & Hb & _).
  exists y. split; [exact E|]. split; [exact Hs | exact Hb].
Defined.

End FlattenExample.

(* ===================================================================== *)
(** * The linear layer *)
(* ===================================================================== *)

Section MatrixLemmas.
Context {S : Scalar}.

Lemma get_matmul (a b c : tensor) (n k m i j : nat) :
  shape a = [n; k] -> shape b = [k; m] -> matmul a b = Ok c -> i < n -> j < m ->
  get c [i; j] = sum_list (map (fun l => s_mul (get a [i; l]) (get b [l; j])) (seq 0 k)).
Proof.
  intros Ha Hb E Hi Hj. unfold matmul in E. rewrite Ha, Hb, Nat.eqb_refl in E.
  injection E as <-. rewrite get_build by (apply in_bounds2; assumption). reflexivity.
Qed.

Lemma get_T2 {A : Type} `{Dflt A} (a : ndarray A) (n m i j : nat) :
  shape a = [n; m] -> i < n -> j < m -> get (T_ a) [j; i] = get a [i; j].
Proof.
  intros Ha Hi Hj. unfold T_, transpose. rewrite Ha. cbn [length rev seq map nth].
  rewrite get_build by (apply in_bounds2; assumption). reflexivity.
Qed.

(** A reduction over axis 0 applies the function to each column. *)
Lemma get_reduce_cols {A B : Type} `{Dflt A} `{Dflt B} (f : list A -> B) (a : ndarray A)
  (n m j : nat) :
  shape a = [n; m] -> j < m ->
  shape (reduce_axes f [0] false a) = [m]
  /\ get (reduce_axes f [0] false a) [j] = f (map (fun i => get a [i; j]) (seq 0 n)).
Proof.
  intros Hs Hj. unfold reduce_axes. rewrite Hs.
  cbn [drop_axes pick_axes existsb Nat.eqb orb]. split; [reflexivity|].
  rewrite get_build
    by (cbn [in_bounds]; rewrite (proj2 (Nat.ltb_lt _ _)) by lia; reflexivity).
  unfold indices. rewrite map_map. replace (size_of [n]) with n by (cbn; lia).
  f_equal. apply map_ext. intro i.
  cbn [unravel size_of fold_right merge_idx existsb Nat.eqb orb hd tl].
  rewrite Nat.div_1_r. reflexivity.
Qed.

End MatrixLemmas.

Section LinearLayer.
Context {S : Scalar}.

Lemma broadcast_shapes_row n m : broadcast_shapes [n; m] [1; m] = Some [n; m].
Proof.
  unfold broadcast_shapes. cbn. rewrite Nat.eqb_refl.
  destruct (n =? 1) eqn:E; [apply Nat.eqb_eq in E; subst|]; reflexivity.
Qed.

(** An operation of a matrix and a row, the row broadcast along the columns. *)
Lemma broadcast2_row {A B D : Type} `{Dflt A} `{Dflt B} `{Dflt D} (f : A -> B -> D)
  (a : ndarray A) (r : ndarray B) n m :
  shape a = [n; m] -> shape r = [1; m] ->
  exists c, broadcast2 f a r = Ok c /\ shape c = [n; m]
            /\ forall i j, i < n -> j < m -> get c [i; j] = f (get a [i; j]) (get r [0; j]).
Proof.
  intros Ha Hr. unfold broadcast2. rewrite Ha, Hr, broadcast_shapes_row.
  eexists. split; [reflexivity|]. split; [reflexivity|].
  intros i j Hi Hj. rewrite get_build by (apply in_bounds2; assumption).
  unfold bcast_idx. cbn.
  destruct (Nat.eqb_spec n 1) as [->|_], (Nat.eqb_spec m 1) as [->|_];
    repeat match goal with
           | Hx : ?x < 1 |- _ => assert (x = 0) by lia; subst x; clear Hx
           end; reflexivity.
Qed.

Lemma reshape_row (bias : tensor) (m : nat) :
  shape bias = [m] -> wf bias ->
  exists r, reshape bias [1; -1]%Z = Ok r /\ shape r = [1; m]
            /\ forall j, get r [0; j] = get bias [j].
Proof.
  intros Hs Hwf. unfold wf in Hwf. rewrite Hs in Hwf. cbn in Hwf. rewrite Nat.mul_1_r in Hwf.
  unfold reshape. cbn [existsb filter Z.ltb Z.eqb Z.compare Pos.compare Pos.compare_cont
                         orb negb length map fold_right Pos.eqb].
  change (Z.to_nat 1) with 1. cbn [Nat.mul Nat.add Nat.eqb orb].
  rewrite Nat.mod_1_r. cbn [Nat.eqb negb]. rewrite Nat.div_1_r, Hwf.
  eexists. split; [reflexivity|]. split; [reflexivity|].
  intro j. unfold get. cbn [shape data ravel size_of fold_right]. rewrite Hs.
  cbn [ravel size_of fold_right]. f_equal; lia.
Qed.

(** X4: the layer the classes compose from [matmul] and [add_bias] is the
    free function: [linear.forward] and [fc_forward] are the same function,
    raising included; the backward passes compute the bias gradient at
    different points, so they may raise differently, but one returns exactly
    when the other does, and then the same three gradients. *)
Theorem linear_is_fc (out_grad input weights bias : tensor) :
  operators.linear.forward input weights bias = operations.fc_forward input weights bias
  /\ forall r, operators.linear.backward out_grad input weights bias = Ok r
               <-> operations.fc_backward out_grad input weights bias = Ok r.
Proof.
  split; [reflexivity|]. intro r.
  unfold operators.linear.backward, operators.add_bias.backward, operators.matmul.backward,
    operations.fc_backward. cbv zeta.
  destruct (np_sum [0] false out_grad) as [b_grad|e1]; cbn [bind];
    destruct (matmul out_grad (T_ weights)) as [in_grad|e2]; cbn [bind];
    destruct (matmul (T_ input) out_grad) as [w_grad|e3]; cbn [bind];
    split; intro E; try discriminate; exact E.
Qed.

Lemma np_sum_cols (a : tensor) (n m : nat) :
  shape a = [n; m] ->
  np_sum [0] false a = Ok (reduce_axes sum_list [0] false a).
Proof. intro Hs. unfold np_sum, axes_ok. rewrite Hs. reflexivity. Qed.

(** X5: on an input of shape (batch, n), weights (n, m), a bias (m,) and a
    gradient (batch, m), the layer returns: the output is
    [sum_l x[i,l] * w[l,j] + bias[j]]; the three gradients have the shapes
    of the input, the weights and the bias, and are
    [sum_j g[i,j] * w[l,j]], [sum_i x[i,l] * g[i,j]] and [sum_i g[i,j]],
    each sum taken in index order. *)
Theorem linear_forward_backward (out_grad input weights bias : tensor) (batch n m : nat) :
  shape input = [batch; n] -> shape weights = [n; m] ->
  shape bias = [m] -> wf bias -> shape out_grad = [batch; m] ->
  exists output in_grad w_grad b_grad,
    operators.linear.forward input weights bias = Ok output
    /\ operators.linear.backward out_grad input weights bias = Ok (in_grad, w_grad, b_grad)
    /\ operations.fc_backward out_grad input weights bias = Ok (in_grad, w_grad, b_grad)
    /\ shape output = [batch; m]
    /\ shape in_grad = shape input /\ shape w_grad = shape weights
    /\ shape b_grad = shape bias
    /\ (forall i j, i < batch -> j < m ->
         get output [i; j]
         = s_add (sum_list (map (fun l => s_mul (get input [i; l]) (get weights [l; j]))
                                (seq 0 n)))
                 (get bias [j]))
    /\ (forall i l, i < batch -> l < n ->
         get in_grad [i; l]
         = sum_list (map (fun j => s_mul (get out_grad [i; j]) (get weights [l; j]))
                         (seq 0 m)))
    /\ (forall l j, l < n -> j < m ->
         get w_grad [l; j]
         = sum_list (map (fun i => s_mul (get input [i; l]) (get out_grad [i; j]))
                         (seq 0 batch)))
    /\ (forall j, j < m ->
         get b_grad [j] = sum_list (map (fun i => get out_grad [i; j]) (seq 0 batch))).
Proof.
  intros Hx Hw Hb Hwf Hg.
  destruct (matmul_ok Hx Hw) as (xw & Exw & Hxw).
  destruct (reshape_row Hb Hwf) as (row & Erow & Hrow & Hrowget).
  destruct (broadcast2_row s_add Hxw Hrow) as (output & Eout & Hout & Houtget).
  pose proof (T_shape2 Hw) as HwT. pose proof (T_shape2 Hx) as HxT.
  destruct (matmul_ok Hg HwT) as (in_grad & Ein & Hin).
  destruct (matmul_ok HxT Hg) as (w_grad & Ewg & Hwg).
  pose proof (np_sum_cols Hg) as Ebg.
  exists output, in_grad, w_grad, (reduce_axes sum_list [0] false out_grad).
  assert (Hfc : operations.fc_backward out_grad input weights bias
                = Ok (in_grad, w_grad, reduce_axes sum_list [0] false out_grad)).
  { unfold operations.fc_backward. rewrite Ein, Ewg, Ebg. reflexivity. }
  split.
  { unfold operators.linear.forward, operators.matmul.forward, operators.add_bias.forward.
    rewrite Exw. cbn [bind]. rewrite Erow. cbn [bind]. exact Eout. }
  split.
  { unfold operators.linear.backward, operators.add_bias.backward,
      operators.matmul.backward. cbv zeta.
    rewrite Ebg. cbn [bind]. rewrite Ein. cbn [bind]. rewrite Ewg. reflexivity. }
  split; [exact Hfc|].
  split; [exact Hout|]. split; [congruence|]. split; [congruence|].
  split.
  { rewrite Hb. destruct m as [|m'].
    - unfold reduce_axes. rewrite Hg. reflexivity.
    - apply (get_reduce_cols sum_list Hg (j := 0)). lia. }
  split.
  { intros i j Hi Hj. rewrite Houtget, Hrowget by assumption.
    rewrite (get_matmul Hx Hw Exw Hi Hj). reflexivity. }
  split.
  { intros i l Hi Hl. rewrite (get_matmul Hg HwT Ein Hi Hl).
    f_equal. apply map_ext_in. intros j Hj. apply in_seq in Hj.
    rewrite (get_T2 Hw) by lia. reflexivity. }
  split.
  { intros l j Hl Hj. rewrite (get_matmul HxT Hg Ewg Hl Hj).
    f_equal. apply map_ext_in. intros i Hi. apply in_seq in Hi.
    rewrite (get_T2 Hx) by lia. reflexivity. }
  intros j Hj. apply (get_reduce_cols sum_list Hg Hj).
Qed.

End LinearLayer.

Module LinearExample.

Definition input : @tensor float_scalar := mk_ndarray [2; 3] [1; 2; 3; 4; 5; 6]%float.
Definition weights : @tensor float_scalar := mk_ndarray [3; 2] [1; 0; 0; 1; 1; 1]%float.
Definition bias : @tensor float_scalar := mk_ndarray [2] [10; 20]%float.
Definition out_grad : @tensor float_scalar := mk_ndarray [2; 2] [1; 1; 1; 1]%float.

Lemma linear_forward_backward_witness :
  exists output in_grad w_grad b_grad,
    operators.linear.forward input weights bias = Ok output
    /\ operators.linear.backward out_grad input weights bias = Ok (in_grad, w_grad, b_grad)
    /\ shape output = [2; 2] /\ shape in_grad = [2; 3]
    /\ shape w_grad = [3; 2] /\ shape b_grad = [2].
Proof.
  destruct (linear_forward_backward (out_grad := out_grad) (input := input)
              (weights := weights) (bias := bias) (batch := 2) (n := 3) (m := 2)
              eq_refl eq_refl eq_refl eq_refl eq_refl)
    as (o & ig & wg & bg & Ef & Eb & _ & Ho & Hi & Hw & Hb & _).
  exists o, ig, wg, bg. repeat split; assumption.
Defined.

End LinearExample.

(* ===================================================================== *)
(** * The recurrent cells *)
(* ===================================================================== *)

Section ElementwiseLemmas.

Lemma bcast_idx_in_bounds : forall sh idx, in_bounds sh idx = true -> bcast_idx sh idx = idx.
Proof.
  intros sh idx Hb. unfold bcast_idx.
  rewrite (in_bounds_length Hb), Nat.sub_diag. cbn [skipn].
  revert idx Hb. induction sh as [|d sh IH]; intros [|i idx] Hb; simpl in *;
    try discriminate; [reflexivity|].
  apply andb_true_iff in Hb as [Hi Hr]. apply Nat.ltb_lt in Hi.
  rewrite (IH idx Hr). destruct (Nat.eqb_spec d 1) as [->|_]; [|reflexivity].
  f_equal. lia.
Qed.

(** An element-wise operation of two arrays of one shape. *)
Lemma broadcast2_same_get {A B D : Type} `{Dflt A} `{Dflt B} `{Dflt D} (f : A -> B -> D)
  (a : ndarray A) (b : ndarray B) :
  shape a = shape b ->
  exists c, broadcast2 f a b = Ok c /\ shape c = shape a /\ wf c
            /\ forall idx, in_bounds (shape a) idx = true ->
                           get c idx = f (get a idx) (get b idx).
Proof.
  intro E. unfold broadcast2. rewrite <- E, broadcast_shapes_refl.
  eexists. split; [reflexivity|]. split; [reflexivity|]. split; [apply build_wf|].
  intros idx Hb. rewrite get_build by exact Hb. rewrite bcast_idx_in_bounds by exact Hb.
  reflexivity.
Qed.

Lemma broadcast2_wf {A B D : Type} `{Dflt A} `{Dflt B} (f : A -> B -> D)
  (a : ndarray A) (b : ndarray B) (c : ndarray D) :
  broadcast2 f a b = Ok c -> wf c.
Proof.
  unfold broadcast2. destruct (broadcast_shapes _ _); intro E; [|discriminate].
  injection E as <-. unfold wf, build; simpl. rewrite length_map, length_seq. reflexivity.
Qed.

Lemma broadcast_shapes_vec n m : broadcast_shapes [n; m] [m] = Some [n; m].
Proof. unfold broadcast_shapes. cbn. rewrite Nat.eqb_refl. reflexivity. Qed.

(** An operation of a matrix and a vector, the vector broadcast along the
    rows. *)
Lemma broadcast2_vec {A B D : Type} `{Dflt A} `{Dflt B} `{Dflt D} (f : A -> B -> D)
  (a : ndarray A) (v : ndarray B) n m :
  shape a = [n; m] -> shape v = [m] ->
  exists c, broadcast2 f a v = Ok c /\ shape c = [n; m] /\ wf c
            /\ forall i j, i < n -> j < m -> get c [i; j] = f (get a [i; j]) (get v [j]).
Proof.
  intros Ha Hv. unfold broadcast2. rewrite Ha, Hv, broadcast_shapes_vec.
  eexists. split; [reflexivity|]. split; [reflexivity|]. split; [apply build_wf|].
  intros i j Hi Hj. rewrite get_build by (apply in_bounds2; assumption).
  unfold bcast_idx. cbn.
  destruct (Nat.eqb_spec n 1) as [->|_], (Nat.eqb_spec m 1) as [->|_];
    repeat match goal with
           | Hx : ?x < 1 |- _ => assert (x = 0) by lia; subst x; clear Hx
           end; reflexivity.
Qed.

End ElementwiseLemmas.

Section VanillaRnn.
Context {S : Scalar} {T : Transcendental S}.

Lemma matmul_wf (a b c : tensor) : matmul a b = Ok c -> wf c.
Proof.
  unfold matmul. destruct (shape a) as [|n [|k [|? ?]]]; try discriminate.
  destruct (shape b) as [|k' [|m [|? ?]]]; try discriminate.
  destruct (k =? k'); [|discriminate]. intro E. injection E as <-. apply build_wf.
Qed.

(** X6: for x of shape (batch, n), prev_h (batch, u), a kernel (n, u), a
    recurrent kernel (u, u), a bias (u,) and a gradient (batch, u), the
    vanilla RNN cell returns
    [tanh(sum_l x[i,l]*kernel[l,j] + sum_l prev_h[i,l]*recurrent[l,j] + bias[j])]
    of shape (batch, u), and its backward pass returns five gradients with
    the shapes of x, prev_h, the kernel, the recurrent kernel and the
    bias. *)
Theorem vanilla_rnn_forward_backward
  (out_grad x prev_h kernel recurrent_kernel bias : tensor) (batch n u : nat) :
  shape x = [batch; n] -> shape prev_h = [batch; u] ->
  shape kernel = [n; u] -> shape recurrent_kernel = [u; u] ->
  shape bias = [u] -> shape out_grad = [batch; u] ->
  exists output g_x g_h kernel_grad r_kernel_grad b_grad,
    operators.vanilla_rnn.forward (x, prev_h) kernel recurrent_kernel bias = Ok output
    /\ shape output = [batch; u]
    /\ (forall i j, i < batch -> j < u ->
        get output [i; j]
        = s_tanh (s_add (s_add (sum_list (map (fun l => s_mul (get x [i; l])
                                                              (get kernel [l; j]))
                                              (seq 0 n)))
                               (sum_list (map (fun l => s_mul (get prev_h [i; l])
                                                              (get recurrent_kernel [l; j]))
                                              (seq 0 u))))
                        (get bias [j])))
    /\ operators.vanilla_rnn.backward out_grad (x, prev_h) kernel recurrent_kernel bias
       = Ok ((g_x, g_h), kernel_grad, r_kernel_grad, b_grad)
    /\ shape g_x = shape x /\ shape g_h = shape prev_h
    /\ shape kernel_grad = shape kernel
    /\ shape r_kernel_grad = shape recurrent_kernel
    /\ shape b_grad = shape bias.
Proof.
  intros Hx Hh Hk Hr Hb Hg.
  destruct (matmul_ok Hx Hk) as (a & Ea & Ha).
  destruct (matmul_ok Hh Hr) as (b & Eb & Hbs).
  destruct (broadcast2_same_get s_add (a := a) (b := b)) as (ab & Eab & Hab & _ & Gab);
    [congruence|].
  rewrite Ha in Hab.
  destruct (broadcast2_vec s_add Hab Hb) as (abc & Eabc & Habc & Wabc & Gabc).
  assert (Efwd : operators.vanilla_rnn.forward (x, prev_h) kernel recurrent_kernel bias
                 = Ok (map_nd s_tanh abc)).
  { unfold operators.vanilla_rnn.forward. rewrite Ea. cbn [bind]. rewrite Eb. cbn [bind].
    rewrite Eab. cbn [bind]. rewrite Eabc. reflexivity. }
  set (h := map_nd s_tanh abc) in *.
  assert (Hhs : shape h = [batch; u]) by exact Habc.
  set (oms := map_nd (fun v => s_sub s_one (s_mul v v)) h).
  destruct (broadcast2_same_get s_mul (a := out_grad) (b := oms)) as (tg & Etg & Htg & _ & _);
    [unfold oms; rewrite map_nd_shape; congruence|].
  rewrite Hg in Htg.
  set (tanh_grad := map_nd nan_to_num tg).
  assert (Htgs : shape tanh_grad = [batch; u]) by exact Htg.
  destruct (matmul_ok Htgs (T_shape2 Hk)) as (g_x & Egx & Hgx).
  destruct (matmul_ok Htgs (T_shape2 Hr)) as (g_h & Egh & Hgh).
  assert (HxT : shape (map_nd nan_to_num (T_ x)) = [n; batch])
    by (rewrite map_nd_shape; apply T_shape2, Hx).
  assert (HhT : shape (map_nd nan_to_num (T_ prev_h)) = [u; batch])
    by (rewrite map_nd_shape; apply T_shape2, Hh).
  destruct (matmul_ok HxT Htgs) as (kg & Ekg & Hkg).
  destruct (matmul_ok HhT Htgs) as (rkg & Erkg & Hrkg).
  exists h, g_x, g_h, kg, rkg, (reduce_axes sum_list [0] false tanh_grad).
  split; [exact Efwd|]. split; [exact Hhs|]. split.
  { intros i j Hi Hj. unfold h.
    rewrite get_map_nd; [|exact Wabc|rewrite Habc; apply in_bounds2; assumption].
    rewrite Gabc by assumption.
    rewrite Gab by (rewrite Ha; apply in_bounds2; assumption).
    rewrite (get_matmul Hx Hk Ea Hi Hj), (get_matmul Hh Hr Eb Hi Hj). reflexivity. }
  split.
  { unfold operators.vanilla_rnn.backward. rewrite Efwd. cbn [bind]. fold h. fold oms.
    rewrite Etg. cbn [bind]. fold tanh_grad.
    rewrite Egx. cbn [bind]. rewrite Egh. cbn [bind]. rewrite Ekg. cbn [bind].
    rewrite Erkg. cbn [bind]. rewrite (np_sum_cols Htgs). reflexivity. }
  split; [congruence|]. split; [congruence|]. split; [congruence|]. split; [congruence|].
  rewrite Hb. unfold reduce_axes. rewrite Htgs. reflexivity.
Qed.

End VanillaRnn.

Module VanillaRnnExample.

Definition x : @tensor real_scalar := mk_ndarray [1; 2] [1%R; 2%R].
Definition prev_h : @tensor real_scalar := mk_ndarray [1; 1] [0%R].
Definition kernel : @tensor real_scalar := mk_ndarray [2; 1] [1%R; 1%R].
Definition recurrent_kernel : @tensor real_scalar := mk_ndarray [1; 1] [1%R].
Definition bias : @tensor real_scalar := mk_ndarray [1] [0%R].
Definition out_grad : @tensor real_scalar := mk_ndarray [1; 1] [1%R].

Lemma vanilla_rnn_forward_backward_witness :
  exists output g_x g_h kernel_grad r_kernel_grad b_grad,
    operators.vanilla_rnn.forward (T := real_transcendental) (x, prev_h)
      kernel recurrent_kernel bias = Ok output
    /\ operators.vanilla_rnn.backward (T := real_transcendental) out_grad (x, prev_h)
         kernel recurrent_kernel bias
       = Ok ((g_x, g_h), kernel_grad, r_kernel_grad, b_grad)
    /\ shape g_x = [1; 2] /\ shape kernel_grad = [2; 1].
Proof.
  destruct (vanilla_rnn_forward_backward (T := real_transcendental)
              (out_grad := out_grad) (x := x) (prev_h := prev_h) (kernel := kernel)
              (recurrent_kernel := recurrent_kernel) (bias := bias)
              (batch := 1) (n := 2) (u := 1)
              eq_refl eq_refl eq_refl eq_refl eq_refl eq_refl)
    as (o & gx & gh & kg & rkg & bg & Ef & _ & _ & Eb & Hgx & _ & Hkg & _).
  exists o, gx, gh, kg, rkg, bg. repeat split; assumption.
Defined.

End VanillaRnnExample.

(** [c] returns a value that satisfies [P]. *)
Definition returns_with {A : Type} (c : result A) (P : A -> Prop) : Prop :=
  exists a, c = Ok a /\ P a.

Ltac cell_shape :=
  solve [ eassumption
        | rewrite !map_nd_shape; eassumption
        | apply T_shape2; cell_shape ].

(** One statement of a cell: a product or an element-wise operation on
    arrays whose shapes are known returns, and the shape of its result is
    recorded. *)
Ltac cell_step :=
  lazymatch goal with
  | |- returns_with (bind (matmul ?a ?b) _) _ =>
      let c := fresh "m" in
      let E := fresh "E" in
      let H := fresh "H" in
      edestruct (@matmul_ok _ a b) as (c & E & H); [cell_shape | cell_shape |];
      rewrite E; cbn [bind]
  | |- returns_with (bind (broadcast2 ?f ?a ?b) _) _ =>
      let c := fresh "e" in
      let E := fresh "E" in
      let H := fresh "H" in
      let Ha := fresh "Ha" in
      destruct (broadcast2_same f (a := a) (b := b)) as (c & E & H);
      [etransitivity; [cell_shape | symmetry; cell_shape] |];
      eassert (Ha : shape a = _) by cell_shape;
      rewrite Ha in H; clear Ha;
      rewrite E; cbn [bind]
  end.

Section GruForward.
Context {S : Scalar} {T : Transcendental S}.

(** The update of the GRU cell, element by element: a gate [z] blends the
    candidate state with the previous one. *)
Lemma gru_forward_blend (x prev_h kernel recurrent_kernel : tensor) (batch n u : nat) :
  shape x = [batch; n] -> shape prev_h = [batch; u] ->
  shape kernel = [n; 3 * u] -> shape recurrent_kernel = [u; 3 * u] ->
  exists output pre_z pre_h : tensor,
    operators.gru.forward (x, prev_h) kernel recurrent_kernel = Ok output
    /\ shape output = [batch; u]
    /\ forall i j, i < batch -> j < u ->
         get output [i; j]
         = s_add (s_mul (s_sub s_one (sigmoid (get pre_z [i; j])))
                        (s_tanh (get pre_h [i; j])))
                 (s_mul (sigmoid (get pre_z [i; j])) (get prev_h [i; j])).
Proof.
  intros Hx Hh Hk Hrk.
  unfold operators.gru.forward, operators.gru.unpack2. rewrite Hk. cbn [bind].
  replace (3 * u / 3) with u by (rewrite Nat.mul_comm, Nat.div_mul; lia).
  destruct (cols_ok (lo := 0) (hi := u) Hk) as (kz & -> & Hkz); [lia | lia |].
  destruct (cols_ok (lo := u) (hi := 2 * u) Hk) as (kr & -> & Hkr); [lia | lia |].
  destruct (cols_ok (lo := 2 * u) (hi := 3 * u) Hk) as (kh & -> & Hkh); [lia | lia |].
  destruct (cols_ok (lo := 0) (hi := u) Hrk) as (rz & -> & Hrz); [lia | lia |].
  destruct (cols_ok (lo := u) (hi := 2 * u) Hrk) as (rr & -> & Hrr); [lia | lia |].
  destruct (cols_ok (lo := 2 * u) (hi := 3 * u) Hrk) as (rh & -> & Hrh); [lia | lia |].
  cbn [bind].
  replace (u - 0) with u in * by lia.
  replace (2 * u - u) with u in * by lia.
  replace (3 * u - 2 * u) with u in * by lia.
  match goal with
  | |- exists o pz ph, ?c = Ok o /\ @?P o pz ph =>
      enough (Hr : returns_with c (fun o => exists pz ph, P o pz ph))
        by (destruct Hr as (o & E & pz & ph & HP); exists o, pz, ph; split; [exact E|exact HP])
  end.
  do 10 cell_step.
  (* the last three statements, element by element *)
  match goal with
  | |- returns_with (bind (broadcast2 s_mul (map_nd _ (map_nd sigmoid ?pz)) (map_nd s_tanh ?ph)) _) _ =>
      rename pz into pre_z; rename ph into pre_h
  end.
  assert (Hpz : shape pre_z = [batch; u]) by cell_shape.
  assert (Hph : shape pre_h = [batch; u]) by cell_shape.
  assert (Wpz : wf pre_z)
    by (match goal with E : broadcast2 _ _ _ = Ok pre_z |- _ => exact (broadcast2_wf E) end).
  assert (Wph : wf pre_h)
    by (match goal with E : broadcast2 _ _ _ = Ok pre_h |- _ => exact (broadcast2_wf E) end).
  set (x_z := map_nd sigmoid pre_z). set (x_h := map_nd s_tanh pre_h).
  destruct (broadcast2_same_get s_mul (a := map_nd (s_sub s_one) x_z) (b := x_h))
    as (l & El & Hl & _ & Gl); [unfold x_z, x_h; rewrite !map_nd_shape; congruence|].
  destruct (broadcast2_same_get s_mul (a := x_z) (b := prev_h))
    as (r & Er & Hrs & _ & Gr); [unfold x_z; rewrite !map_nd_shape; congruence|].
  destruct (broadcast2_same_get s_add (a := l) (b := r))
    as (o & Eo & Ho & _ & Go);
    [rewrite Hl, Hrs; unfold x_z; rewrite !map_nd_shape; reflexivity|].
  rewrite El. cbn [bind]. rewrite Er. cbn [bind].
  exists o. split; [exact Eo|]. exists pre_z, pre_h.
  assert (Hls : shape l = [batch; u])
    by (rewrite Hl; unfold x_z; rewrite !map_nd_shape; exact Hpz).
  split; [rewrite Ho; exact Hls|].
  intros i j Hi Hj.
  assert (Hb : in_bounds [batch; u] [i; j] = true) by (apply in_bounds2; assumption).
  rewrite Go by (rewrite Hls; exact Hb).
  rewrite Gl by (unfold x_z; rewrite !map_nd_shape, Hpz; exact Hb).
  rewrite Gr by (unfold x_z; rewrite !map_nd_shape, Hpz; exact Hb).
  unfold x_z, x_h.
  rewrite (get_map_nd (s_sub s_one));
    [|apply map_nd_wf; exact Wpz|rewrite map_nd_shape, Hpz; exact Hb].
  rewrite !(get_map_nd sigmoid) by (try exact Wpz; rewrite Hpz; exact Hb).
  rewrite (get_map_nd s_tanh) by (try exact Wph; rewrite Hph; exact Hb).
  reflexivity.
Qed.

End GruForward.

Section CellsOnReals.
Local Open Scope R_scope.

Lemma np_tanh_range (a : R) : -1 <= np_tanh a <= 1.
Proof.
  unfold np_tanh. destruct (Rle_dec 20 a); [lra|]. destruct (Rle_dec a (-20)); [lra|].
  unfold tanh, sinh, cosh.
  pose proof (exp_pos a) as H1. pose proof (exp_pos (- a)) as H2.
  set (b := (exp a + exp (- a)) / 2).
  assert (Hb : 0 < b) by (unfold b; lra).
  assert (Hi : 0 < / b) by (apply Rinv_0_lt_compat; exact Hb).
  assert (Hu : b * / b = 1) by (apply Rinv_r; lra).
  assert (Ha : - b < (exp a - exp (- a)) / 2 < b) by (unfold b; lra).
  unfold Rdiv at 1 3. split; nra.
Qed.

Lemma logistic_range (a : R) : 0 <= logistic a <= 1.
Proof.
  unfold logistic. destruct (Rlt_dec a (-746)); [lra|].
  pose proof (np_exp_nonneg (- a)) as He.
  assert (Hi : 0 < / (1 + np_exp (- a))) by (apply Rinv_0_lt_compat; lra).
  assert (Hu : (1 + np_exp (- a)) * / (1 + np_exp (- a)) = 1) by (apply Rinv_r; lra).
  unfold Rdiv. split; nra.
Qed.

(** X7: on the real numbers, with any [sigmoid] whose values lie in [0, 1]
    ([nn.functional], which defines it, is outside the code embedded here)
    and any [tanh] whose values lie in [-1, 1], both ends included as
    binary64 reaches them, the GRU cell returns for x of shape (batch, n),
    prev_h (batch, u), a kernel (n, 3u) and a recurrent kernel (u, 3u); each
    entry of the new state is the blend [(1 - z) * c + z * prev_h[i,j]] of a
    candidate [c] in [-1, 1] and the previous state, with a gate [z] in
    [0, 1]; so a previous state within [-1, 1] gives a new state within
    [-1, 1]. *)
Theorem gru_state_stays_bounded (T : Transcendental real_scalar)
  (x prev_h kernel recurrent_kernel : @tensor real_scalar) (batch n u : nat) :
  (forall a, 0 <= sigmoid (Transcendental := T) a <= 1) ->
  (forall a, -1 <= s_tanh (Transcendental := T) a <= 1) ->
  shape x = [batch; n] -> shape prev_h = [batch; u] ->
  shape kernel = [n; (3 * u)%nat] -> shape recurrent_kernel = [u; (3 * u)%nat] ->
  exists output,
    operators.gru.forward (T := T) (x, prev_h) kernel recurrent_kernel = Ok output
    /\ shape output = [batch; u]
    /\ forall i j, (i < batch)%nat -> (j < u)%nat ->
         (exists z c, 0 <= z <= 1 /\ -1 <= c <= 1
                      /\ get output [i; j] = (1 - z) * c + z * get prev_h [i; j])
         /\ (-1 <= get prev_h [i; j] <= 1 -> -1 <= get output [i; j] <= 1).
Proof.
  intros Hsig Htanh Hx Hh Hk Hrk.
  destruct (gru_forward_blend (T := T) Hx Hh Hk Hrk)
    as (output & pre_z & pre_h & E & Hs & G).
  exists output. split; [exact E|]. split; [exact Hs|].
  intros i j Hi Hj. specialize (G i j Hi Hj).
  cbn [s_add s_mul s_sub s_one real_scalar] in G.
  pose proof (Hsig (get pre_z [i; j])) as Hz.
  pose proof (Htanh (get pre_h [i; j])) as Hc.
  split.
  - exists (sigmoid (get pre_z [i; j])), (s_tanh (get pre_h [i; j])).
    split; [exact Hz|]. split; [exact Hc|]. exact G.
  - intro Hp. rewrite G.
    set (z := sigmoid (get pre_z [i; j])) in *.
    set (c := s_tanh (get pre_h [i; j])) in *.
    set (p := get prev_h [i; j]) in *.
    split; nra.
Qed.

End CellsOnReals.

Module GruForwardExample.

Lemma gru_state_stays_bounded_witness :
  exists output,
    operators.gru.forward (T := real_transcendental) (GruExample.x, GruExample.prev_h)
      GruExample.kernel GruExample.recurrent_kernel = Ok output
    /\ shape output = [1; 1]
    /\ Rle (-1) (get output [0%nat; 0%nat]) /\ Rle (get output [0%nat; 0%nat]) 1.
Proof.
  destruct (gru_state_stays_bounded (T := real_transcendental)
              (x := GruExample.x) (prev_h := GruExample.prev_h)
              (kernel := GruExample.kernel)
              (recurrent_kernel := GruExample.recurrent_kernel)
              (batch := 1) (n := 2) (u := 1)
              logistic_range np_tanh_range eq_refl eq_refl eq_refl eq_refl)
    as (o & E & Hs & G).
  exists o. split; [exact E|]. split; [exact Hs|].
  destruct (G 0%nat 0%nat ltac:(lia) ltac:(lia)) as [_ Hb].
  apply Hb. cbn. lra.
Defined.

End GruForwardExample.

(* ===================================================================== *)
(** * The GRU cell: the gradients of the two kernels, entry by entry *)
(* ===================================================================== *)

Section Matrices.
Context {S : Scalar}.

(** [t] is an [n] by [m] matrix whose entry [(i, j)] is [F i j]. *)
Definition is_mat (t : tensor) (n m : nat) (F : nat -> nat -> num) : Prop :=
  shape t = [n; m] /\ forall i j, i < n -> j < m -> get t [i; j] = F i j.

Lemma is_mat_self (t : tensor) (n m : nat) :
  shape t = [n; m] -> is_mat t n m (fun i j => get t [i; j]).
Proof. intro Ht. split; [exact Ht|]. intros; reflexivity. Qed.

Lemma is_mat_cols (a : tensor) (n m lo hi : nat) :
  shape a = [n; m] -> lo <= hi -> hi <= m ->
  exists c, operators.gru.cols a lo hi = Ok c
            /\ is_mat c n (hi - lo) (fun i j => get a [i; lo + j]).
Proof.
  intros Ha Hlo Hhi. unfold operators.gru.cols. rewrite Ha.
  eexists. split; [reflexivity|].
  assert (E : slice a [None; Some (Z.of_nat lo, Z.of_nat hi)]
              = build [n; hi - lo]
                  (fun idx => get a (map (fun '(i, (l, _)) => l + i)
                                       (combine idx [(0, n); (lo, hi - lo)])))).
  { unfold slice. rewrite Ha. cbn [combine map slice_range snd].
    rewrite !slice_bound_nat.
    replace (Nat.min lo m) with lo by lia. replace (Nat.min hi m) with hi by lia.
    reflexivity. }
  rewrite E. split; [reflexivity|].
  intros i j Hi Hj. rewrite get_build by (apply in_bounds2; assumption). reflexivity.
Qed.

Lemma is_mat_T (a : tensor) (n m : nat) (F : nat -> nat -> num) :
  is_mat a n m F -> is_mat (T_ a) m n (fun i j => F j i).
Proof.
  intros [Ha Ga]. split; [apply T_shape2; exact Ha|].
  intros i j Hi Hj. rewrite (get_T2 Ha Hj Hi). apply Ga; assumption.
Qed.

Lemma is_mat_map (f : num -> num) (a : tensor) (n m : nat) (F : nat -> nat -> num) :
  wf a -> is_mat a n m F -> is_mat (map_nd f a) n m (fun i j => f (F i j)).
Proof.
  intros Wa [Ha Ga]. split; [rewrite map_nd_shape; exact Ha|].
  intros i j Hi Hj.
  rewrite get_map_nd; [|exact Wa|rewrite Ha; apply in_bounds2; assumption].
  rewrite Ga by assumption. reflexivity.
Qed.

(** [a.dot(b)] returns the matrix of the sums of products. *)
Lemma is_mat_matmul (a b : tensor) (n k m : nat) (Fa Fb : nat -> nat -> num) :
  is_mat a n k Fa -> is_mat b k m Fb ->
  exists c, matmul a b = Ok c /\ wf c
            /\ is_mat c n m
                 (fun i j => sum_list (map (fun l => s_mul (Fa i l) (Fb l j)) (seq 0 k))).
Proof.
  intros [Ha Ga] [Hb Gb].
  destruct (matmul_ok Ha Hb) as (c & E & Hc).
  exists c. split; [exact E|]. split; [exact (matmul_wf E)|]. split; [exact Hc|].
  intros i j Hi Hj. rewrite (get_matmul Ha Hb E Hi Hj).
  f_equal. apply map_ext_in. intros l Hl. apply in_seq in Hl.
  rewrite Ga, Gb by lia. reflexivity.
Qed.

(** An operation on the entries of two matrices of one shape. *)
Lemma is_mat_broadcast2 (f : num -> num -> num) (a b : tensor) (n m : nat)
  (Fa Fb : nat -> nat -> num) :
  is_mat a n m Fa -> is_mat b n m Fb ->
  exists c, broadcast2 f a b = Ok c /\ wf c
            /\ is_mat c n m (fun i j => f (Fa i j) (Fb i j)).
Proof.
  intros [Ha Ga] [Hb Gb].
  destruct (broadcast2_same_get f (a := a) (b := b)) as (c & E & Hc & Wc & Gc);
    [congruence|].
  exists c. split; [exact E|]. split; [exact Wc|]. split; [congruence|].
  intros i j Hi Hj. rewrite Gc by (rewrite Ha; apply in_bounds2; assumption).
  rewrite Ga, Gb by assumption. reflexivity.
Qed.

End Matrices.

Ltac wf_solver :=
  solve [ eassumption | apply map_nd_wf; wf_solver ].

Ltac mat_solver :=
  solve [ eassumption
        | eapply is_mat_map; [wf_solver | mat_solver]
        | eapply is_mat_T; mat_solver ].

(** One statement of the cell, with the entries of its result. *)
Ltac mat_step :=
  lazymatch goal with
  | |- returns_with (bind (matmul ?a ?b) _) _ =>
      let c := fresh "m" in
      let E := fresh "E" in
      let W := fresh "W" in
      let M := fresh "M" in
      edestruct (@is_mat_matmul _ a b) as (c & E & W & M); [mat_solver | mat_solver |];
      cbv beta in M; rewrite E; clear E; cbn [bind]
  | |- returns_with (bind (broadcast2 ?f ?a ?b) _) _ =>
      let c := fresh "e" in
      let E := fresh "E" in
      let W := fresh "W" in
      let M := fresh "M" in
      edestruct (@is_mat_broadcast2 _ f a b) as (c & E & W & M); [mat_solver | mat_solver |];
      cbv beta in M; rewrite E; clear E; cbn [bind]
  end.

Section GruGates.
Context {S : Scalar} {T : Transcendental S}.
Variables (out_grad x prev_h kernel recurrent_kernel : tensor).
Variables (batch in_features n_units : nat).

(** The sum over [l < k] of the products [f l * g l], as [a.dot(b)] adds
    them. *)
Definition dot (k : nat) (f g : nat -> num) : num :=
  sum_list (map (fun l => s_mul (f l) (g l)) (seq 0 k)).

(** The gates of sample [b], unit [j]: the update gate reads the columns
    [[0, units)] of the two kernels, the reset gate the columns
    [[units, 2 units)] and the candidate the columns [[2 units, 3 units)]. *)
Definition gate_z (b j : nat) : num :=
  sigmoid (s_add (dot in_features (fun l => get x [b; l]) (fun l => get kernel [l; j]))
                 (dot n_units (fun l => get prev_h [b; l])
                      (fun l => get recurrent_kernel [l; j]))).

Definition gate_r (b j : nat) : num :=
  sigmoid (s_add (dot in_features (fun l => get x [b; l])
                      (fun l => get kernel [l; n_units + j]))
                 (dot n_units (fun l => get prev_h [b; l])
                      (fun l => get recurrent_kernel [l; n_units + j]))).

Definition gate_h (b j : nat) : num :=
  s_tanh (s_add (dot in_features (fun l => get x [b; l])
                     (fun l => get kernel [l; 2 * n_units + j]))
                (dot n_units (fun l => s_mul (gate_r b l) (get prev_h [b; l]))
                     (fun l => get recurrent_kernel [l; 2 * n_units + j]))).

(** The gradients with respect to what the gates apply [sigmoid] and [tanh]
    to. *)
Definition z_raw_grad (b j : nat) : num :=
  s_mul (s_mul (s_mul (get out_grad [b; j]) (s_sub (get prev_h [b; j]) (gate_h b j)))
               (gate_z b j))
        (s_sub s_one (gate_z b j)).

Definition h_raw_grad (b j : nat) : num :=
  s_mul (s_mul (get out_grad [b; j]) (s_sub s_one (gate_z b j)))
        (s_sub s_one (s_mul (gate_h b j) (gate_h b j))).

Definition r_raw_grad (b j : nat) : num :=
  s_mul (s_mul (s_mul (dot n_units (fun l => h_raw_grad b l)
                           (fun l => get recurrent_kernel [j; 2 * n_units + l]))
                      (get prev_h [b; j]))
               (gate_r b j))
        (s_sub s_one (gate_r b j)).

End GruGates.

Section GruBackwardEntries.
Context {S : Scalar} {T : Transcendental S}.

Lemma gru_backward_body_entries (out_grad x prev_h kernel recurrent_kernel : tensor)
  (batch in_features n_units : nat) :
  shape x = [batch; in_features] ->
  shape prev_h = [batch; n_units] ->
  shape kernel = [in_features; 3 * n_units] ->
  shape recurrent_kernel = [n_units; 3 * n_units] ->
  shape out_grad = [batch; n_units] ->
  let zr := z_raw_grad out_grad x prev_h kernel recurrent_kernel in_features n_units in
  let rr := r_raw_grad out_grad x prev_h kernel recurrent_kernel in_features n_units in
  let hr := h_raw_grad out_grad x prev_h kernel recurrent_kernel in_features n_units in
  let r := gate_r x prev_h kernel recurrent_kernel in_features n_units in
  exists l,
    operators.gru.backward_body out_grad (x, prev_h) kernel recurrent_kernel = Ok l
    /\ is_mat (operators.gru.x_z_raw_grad l) batch n_units zr
    /\ is_mat (operators.gru.x_r_raw_grad l) batch n_units rr
    /\ is_mat (operators.gru.x_h_raw_grad l) batch n_units hr
    /\ is_mat (operators.gru.kernel_z_grad l) in_features n_units
         (fun i j => dot batch (fun b => get x [b; i]) (fun b => zr b j))
    /\ is_mat (operators.gru.kernel_r_grad l) in_features n_units
         (fun i j => dot batch (fun b => get x [b; i]) (fun b => rr b j))
    /\ is_mat (operators.gru.kernel_h_grad l) in_features n_units
         (fun i j => dot batch (fun b => get x [b; i]) (fun b => hr b j))
    /\ is_mat (operators.gru.recurrent_kernel_z_grad l) n_units n_units
         (fun i j => dot batch (fun b => get prev_h [b; i]) (fun b => zr b j))
    /\ is_mat (operators.gru.recurrent_kernel_r_grad l) n_units n_units
         (fun i j => dot batch (fun b => get prev_h [b; i]) (fun b => rr b j))
    /\ is_mat (operators.gru.recurrent_kernel_h_grad l) n_units n_units
         (fun i j => dot batch (fun b => s_mul (get prev_h [b; i]) (r b i))
                        (fun b => hr b j)).
Proof.
  intros Hx Hh Hk Hrk Hog. cbv zeta.
  pose proof (is_mat_self Hx) as Mx. pose proof (is_mat_self Hh) as Mh.
  pose proof (is_mat_self Hog) as Mog.
  unfold operators.gru.backward_body, operators.gru.unpack2. rewrite Hk. cbn [bind].
  replace (3 * n_units / 3) with n_units by (rewrite Nat.mul_comm, Nat.div_mul; lia).
  destruct (is_mat_cols (lo := 0) (hi := n_units) Hk) as (kz & -> & Mkz); [lia | lia |].
  destruct (is_mat_cols (lo := n_units) (hi := 2 * n_units) Hk) as (kr & -> & Mkr);
    [lia | lia |].
  destruct (is_mat_cols (lo := 2 * n_units) (hi := 3 * n_units) Hk) as (kh & -> & Mkh);
    [lia | lia |].
  destruct (is_mat_cols (lo := 0) (hi := n_units) Hrk) as (rz & -> & Mrz); [lia | lia |].
  destruct (is_mat_cols (lo := n_units) (hi := 2 * n_units) Hrk) as (rr & -> & Mrr);
    [lia | lia |].
  destruct (is_mat_cols (lo := 2 * n_units) (hi := 3 * n_units) Hrk) as (rh & -> & Mrh);
    [lia | lia |].
  cbn [bind].
  replace (n_units - 0) with n_units in * by lia.
  replace (2 * n_units - n_units) with n_units in * by lia.
  replace (3 * n_units - 2 * n_units) with n_units in * by lia.
  match goal with |- exists l, ?c = Ok l /\ @?P l => change (returns_with c P) end.
  repeat mat_step.
  eexists. split; [reflexivity|].
  cbn [operators.gru.x_z_raw_grad operators.gru.x_r_raw_grad operators.gru.x_h_raw_grad
       operators.gru.kernel_z_grad operators.gru.kernel_r_grad operators.gru.kernel_h_grad
       operators.gru.recurrent_kernel_z_grad operators.gru.recurrent_kernel_r_grad
       operators.gru.recurrent_kernel_h_grad].
  repeat match goal with |- _ /\ _ => split end; eassumption.
Qed.

(** C8. For x of shape (batch, in_features), prev_h of shape (batch, units),
    kernel of shape (in_features, 3*units), recurrent_kernel of shape
    (units, 3*units) and out_grad of shape (batch, units), [gru.backward]
    returns; its kernel gradient is the concatenation, along the columns, of
    the gradients of the update gate z, the reset gate r and the candidate
    gate h in this order, which is the order in which the kernel is
    unpacked: the block of the columns [[0, units)] is the transposed input
    times the raw gradient of the gate that reads the columns [[0, units)]
    of the two kernels (z), the block [[units, 2 units)] that of the gate
    that reads the columns [[units, 2 units)] (r), and the block
    [[2 units, 3 units)] that of the gate that reads the columns
    [[2 units, 3 units)] (h), each entry being the sum over the batch written
    out from the inputs; the kernel gradient has the shape of the kernel,
    and the recurrent-kernel gradient, packed the same way from the
    transposed previous state (times the reset gate for h), has the shape of
    the recurrent kernel. *)
Theorem gru_backward_kernel_grad (out_grad x prev_h kernel recurrent_kernel : tensor)
  (batch in_features n_units : nat) :
  shape x = [batch; in_features] ->
  shape prev_h = [batch; n_units] ->
  shape kernel = [in_features; 3 * n_units] ->
  shape recurrent_kernel = [n_units; 3 * n_units] ->
  shape out_grad = [batch; n_units] ->
  let zr := z_raw_grad out_grad x prev_h kernel recurrent_kernel in_features n_units in
  let rr := r_raw_grad out_grad x prev_h kernel recurrent_kernel in_features n_units in
  let hr := h_raw_grad out_grad x prev_h kernel recurrent_kernel in_features n_units in
  let r := gate_r x prev_h kernel recurrent_kernel in_features n_units in
  exists l x_grad prev_h_grad kernel_grad r_kernel_grad,
    operators.gru.backward_body out_grad (x, prev_h) kernel recurrent_kernel = Ok l
    /\ operators.gru.backward out_grad (x, prev_h) kernel recurrent_kernel
       = Ok ((x_grad, prev_h_grad), kernel_grad, r_kernel_grad)
    /\ concatenate_last [operators.gru.kernel_z_grad l; operators.gru.kernel_r_grad l;
                         operators.gru.kernel_h_grad l] = Ok kernel_grad
    /\ concatenate_last [operators.gru.recurrent_kernel_z_grad l;
                         operators.gru.recurrent_kernel_r_grad l;
                         operators.gru.recurrent_kernel_h_grad l] = Ok r_kernel_grad
    /\ matmul (T_ x) (operators.gru.x_z_raw_grad l) = Ok (operators.gru.kernel_z_grad l)
    /\ matmul (T_ x) (operators.gru.x_r_raw_grad l) = Ok (operators.gru.kernel_r_grad l)
    /\ matmul (T_ x) (operators.gru.x_h_raw_grad l) = Ok (operators.gru.kernel_h_grad l)
    /\ shape kernel_grad = shape kernel
    /\ shape r_kernel_grad = shape recurrent_kernel
    /\ shape x_grad = shape x
    /\ shape prev_h_grad = shape prev_h
    /\ (forall i j, i < in_features -> j < n_units ->
          get kernel_grad [i; j] = get (operators.gru.kernel_z_grad l) [i; j]
          /\ get kernel_grad [i; n_units + j] = get (operators.gru.kernel_r_grad l) [i; j]
          /\ get kernel_grad [i; 2 * n_units + j]
             = get (operators.gru.kernel_h_grad l) [i; j])
    /\ (forall i j, i < n_units -> j < n_units ->
          get r_kernel_grad [i; j] = get (operators.gru.recurrent_kernel_z_grad l) [i; j]
          /\ get r_kernel_grad [i; n_units + j]
             = get (operators.gru.recurrent_kernel_r_grad l) [i; j]
          /\ get r_kernel_grad [i; 2 * n_units + j]
             = get (operators.gru.recurrent_kernel_h_grad l) [i; j])
    (* the raw gradients of the three gates, from the inputs *)
    /\ (forall b j, b < batch -> j < n_units ->
          get (operators.gru.x_z_raw_grad l) [b; j] = zr b j
          /\ get (operators.gru.x_r_raw_grad l) [b; j] = rr b j
          /\ get (operators.gru.x_h_raw_grad l) [b; j] = hr b j)
    (* the three column blocks of the kernel gradient, from the inputs *)
    /\ (forall i j, i < in_features -> j < n_units ->
          get kernel_grad [i; j]
          = dot batch (fun b => get x [b; i]) (fun b => zr b j)
          /\ get kernel_grad [i; n_units + j]
             = dot batch (fun b => get x [b; i]) (fun b => rr b j)
          /\ get kernel_grad [i; 2 * n_units + j]
             = dot batch (fun b => get x [b; i]) (fun b => hr b j))
    (* and those of the recurrent-kernel gradient *)
    /\ (forall i j, i < n_units -> j < n_units ->
          get r_kernel_grad [i; j]
          = dot batch (fun b => get prev_h [b; i]) (fun b => zr b j)
          /\ get r_kernel_grad [i; n_units + j]
             = dot batch (fun b => get prev_h [b; i]) (fun b => rr b j)
          /\ get r_kernel_grad [i; 2 * n_units + j]
             = dot batch (fun b => s_mul (get prev_h [b; i]) (r b i)) (fun b => hr b j)).
Proof.
  intros Hx Hh Hk Hrk Hog zr rr hr r.
  destruct (gru_backward_body_ok Hx Hh Hk Hrk Hog)
    as (l & El & _ & Hxg & Hhg & Ez & Er & Eh & Hkz & Hkr & Hkh & Hrz & Hrr & Hrh).
  destruct (gru_backward_body_entries Hx Hh Hk Hrk Hog)
    as (l' & El' & Mz & Mr & Mh & Mkz & Mkr & Mkh & Mrz & Mrr & Mrh).
  assert (l' = l) by congruence. subst l'. clear El'.
  fold zr rr hr r in Mz, Mr, Mh, Mkz, Mkr, Mkh, Mrz, Mrr, Mrh.
  destruct (concatenate_last_3 Hkz Hkr Hkh) as (kg & Ekg & Hkg).
  destruct (concatenate_last_3 Hrz Hrr Hrh) as (rkg & Erkg & Hrkg).
  destruct (concatenate_last_3_get Hkz Hkr Hkh Ekg) as [_ Gk].
  destruct (concatenate_last_3_get Hrz Hrr Hrh Erkg) as [_ Gr].
  exists l, (operators.gru.x_grad l), (operators.gru.prev_h_grad l), kg, rkg.
  split; [exact El|]. split.
  { unfold operators.gru.backward. rewrite El. cbn [bind]. rewrite Ekg. cbn [bind].
    rewrite Erkg. reflexivity. }
  repeat (split; [first [assumption | congruence]|]).
  split.
  { intros b j Hb Hj. split; [apply (proj2 Mz); assumption|].
    split; [apply (proj2 Mr) | apply (proj2 Mh)]; assumption. }
  split.
  - intros i j Hi Hj. destruct (Gk i j Hi Hj) as (-> & -> & ->).
    split; [apply (proj2 Mkz); assumption|].
    split; [apply (proj2 Mkr) | apply (proj2 Mkh)]; assumption.
  - intros i j Hi Hj. destruct (Gr i j Hi Hj) as (-> & -> & ->).
    split; [apply (proj2 Mrz); assumption|].
    split; [apply (proj2 Mrr) | apply (proj2 Mrh)]; assumption.
Qed.

End GruBackwardEntries.

Module GruBackwardExample.

Lemma gru_backward_kernel_grad_witness :
  exists x_grad prev_h_grad kernel_grad r_kernel_grad,
    operators.gru.backward (T := real_transcendental) GruExample.out_grad
      (GruExample.x, GruExample.prev_h) GruExample.kernel GruExample.recurrent_kernel
    = Ok ((x_grad, prev_h_grad), kernel_grad, r_kernel_grad)
    /\ shape kernel_grad = [2; 3] /\ shape r_kernel_grad = [1; 3]
    /\ get kernel_grad [1; 1]
       = dot 1 (fun b => get GruExample.x [b; 1])
           (fun b => r_raw_grad (T := real_transcendental) GruExample.out_grad GruExample.x
                       GruExample.prev_h GruExample.kernel GruExample.recurrent_kernel
                       2 1 b 0).
Proof.
  destruct (gru_backward_kernel_grad (S := real_scalar) (T := real_transcendental)
              (out_grad := GruExample.out_grad) (x := GruExample.x)
              (prev_h := GruExample.prev_h) (kernel := GruExample.kernel)
              (recurrent_kernel := GruExample.recurrent_kernel)
              (batch := 1) (in_features := 2) (n_units := 1)
              eq_refl eq_refl eq_refl eq_refl eq_refl)
    as (l & xg & hg & kg & rkg & _ & E & _ & _ & _ & _ & _ & Hk & Hr & _ & _ & _ & _ & _
        & Gk & _).
  exists xg, hg, kg, rkg. split; [exact E|]. split; [exact Hk|]. split; [exact Hr|].
  destruct (Gk 1 0 ltac:(lia) ltac:(lia)) as (_ & G & _). exact G.
Defined.

End GruBackwardExample.

(* ===================================================================== *)
(** * Dropout: the mask of the forward pass in the backward pass *)
(* ===================================================================== *)

Section DropoutMask.
Context {G : Random real_scalar}.

(** Rewrites with an equation whose left side the goal holds up to
    conversion. *)
Ltac rewrite_broadcast E :=
  match type of E with
  | _ = ?r =>
      match goal with
      | |- context [broadcast2 ?f ?a ?b] =>
          replace (broadcast2 f a b) with r by (symmetry; exact E)
      end
  end.

(** An equation between scalars of the real instance, as one of reals. *)
Ltac real_ring :=
  cbn [s_mul s_add s_sub s_div s_of_Z s_one s_zero real_scalar];
  match goal with |- @eq _ ?a ?b => change (@eq R a b) end;
  unfold Rdiv; ring.

Lemma random_sample_length (n : nat) : forall st : rng_state,
  length (fst (random_sample st n)) = n.
Proof.
  induction n as [|n IH]; intro st; [reflexivity|].
  cbn [random_sample]. destruct (next_double st) as [x st'].
  specialize (IH st'). destruct (random_sample st' n) as [xs st''].
  cbn [fst length] in *. rewrite IH. reflexivity.
Qed.

Lemma sample_wf (sh : list nat) (w : world) : wf (fst (np_random_random_sample sh w)).
Proof.
  unfold wf, np_random_random_sample.
  pose proof (random_sample_length (size_of sh) (rng w)) as H.
  destruct (random_sample (rng w) (size_of sh)) as [xs st]. exact H.
Qed.

(** X8: in training mode with rate other than 1 and a seed that
    [np.random.seed] accepts (None, or an integer of [[0, 2**32)]), on the
    real numbers, the
    forward pass draws a 0/1 mask of the input's shape and returns
    [input * mask / (1 - rate)], and the backward pass given that mask
    returns [out_grad * mask / (1 - rate)]: the gradient is zero exactly at
    the entries the forward pass dropped and scaled like the output at the
    others. The function pair and the class (which keeps the scaled mask in
    [self.mask]) compute the same entries from the same generator state. *)
Theorem dropout_backward_uses_forward_mask (input out_grad : @tensor real_scalar)
  (rate : @num real_scalar)
  (seed : option Z) (m0 : option (@tensor real_scalar)) (w : world) :
  rate <> 1%R -> valid_seed seed -> shape out_grad = shape input ->
  exists (keep : ndarray Z) (output in_grad output' in_grad' : @tensor real_scalar)
         (self' : operators.dropout.object) (w' : world),
    operations.dropout_forward input rate true seed w = (Ok (output, Some keep), w')
    /\ operations.dropout_backward out_grad input rate (Some keep) true = Ok in_grad
    /\ operators.dropout.forward (operators.dropout.mk_self rate seed true m0) input w
       = (Ok output', self', w')
    /\ operators.dropout.backward self' out_grad input = Ok in_grad'
    /\ shape keep = shape input /\ shape output = shape input
    /\ shape in_grad = shape input
    /\ shape output' = shape input /\ shape in_grad' = shape input
    /\ forall idx, in_bounds (shape input) idx = true ->
         (get keep idx = 0%Z \/ get keep idx = 1%Z)
         /\ get output idx = (get input idx * IZR (get keep idx) / (1 - rate))%R
         /\ get output' idx = get output idx
         /\ get in_grad idx = (get out_grad idx * IZR (get keep idx) / (1 - rate))%R
         /\ get in_grad' idx = get in_grad idx.
Proof.
  intros Hrate Hseed Hog.
  assert (Hscale : py_div (S := real_scalar) s_one (s_sub s_one rate) = Ok (1 / (1 - rate))%R)
    by (apply py_div_real; cbn; lra).
  set (scale := (1 / (1 - rate))%R : @num real_scalar) in *.
  destruct (np_random_seed_valid w Hseed) as [w1 Es].
  set (s := np_random_random_sample (shape input) w1).
  set (p := fst s).
  assert (Hp : shape p = shape input) by apply sample_shape.
  assert (Wp : wf p) by apply sample_wf.
  set (keep := map_nd (fun x => if s_leb rate x then 1%Z else 0%Z) p).
  assert (Hk : shape keep = shape input) by exact Hp.
  assert (Wk : wf keep) by (apply map_nd_wf; exact Wp).
  set (mask1 := map_nd (fun m => s_mul (s_of_Z m) scale) keep).
  assert (Hm : shape mask1 = shape input) by exact Hk.
  destruct (broadcast2_same_get (fun x (m : Z) => s_mul x (s_of_Z m)) (a := input) (b := keep))
    as (o1 & Eo1 & Ho1 & Wo1 & Go1); [symmetry; exact Hk|].
  destruct (broadcast2_same_get s_mul (a := input) (b := mask1))
    as (o2 & Eo2 & Ho2 & Wo2 & Go2); [symmetry; exact Hm|].
  set (sm := map_nd (fun m => s_mul scale (s_of_Z m)) keep).
  assert (Hsm : shape sm = shape input) by exact Hk.
  destruct (broadcast2_same_get s_mul (a := sm) (b := out_grad))
    as (g1 & Eg1 & Hg1 & Wg1 & Gg1); [rewrite Hsm, Hog; reflexivity|].
  destruct (broadcast2_same_get s_mul (a := out_grad) (b := mask1))
    as (g2 & Eg2 & Hg2 & Wg2 & Gg2); [rewrite Hm, Hog; reflexivity|].
  exists keep, (map_nd (fun x => s_mul x scale) o1), g1, o2, g2,
         (operators.dropout.mk_self (S := real_scalar) rate seed true (Some mask1)), (snd s).
  split.
  { rewrite (dropout_forward_training (S := real_scalar) input Hscale Es).
    cbv zeta. fold s. fold p. fold keep. rewrite Eo1. reflexivity. }
  split.
  { unfold operations.dropout_backward. rewrite Hscale. cbn [bind]. fold sm. exact Eg1. }
  split.
  { rewrite (dropout_class_forward_training (S := real_scalar) input m0 Hscale Es).
    cbv zeta. fold s. fold p. fold keep. fold mask1. rewrite Eo2. reflexivity. }
  split.
  { unfold operators.dropout.backward.
    cbn [operators.dropout.training operators.dropout.mask]. exact Eg2. }
  split; [exact Hk|]. split; [rewrite map_nd_shape; exact Ho1|].
  split; [rewrite Hg1; exact Hsm|].
  split; [exact Ho2|]. split; [rewrite Hg2; exact Hog|].
  intros idx Hb.
  assert (Hkeep : get keep idx = 0%Z \/ get keep idx = 1%Z).
  { unfold keep. rewrite get_map_nd by (try exact Wp; rewrite Hp; exact Hb).
    destruct (s_leb rate (get p idx)); [right | left]; reflexivity. }
  assert (Hm1 : get mask1 idx = s_mul (s_of_Z (get keep idx)) scale)
    by (unfold mask1; rewrite get_map_nd by (try exact Wk; rewrite Hk; exact Hb);
        reflexivity).
  assert (Hsmg : get sm idx = s_mul scale (s_of_Z (get keep idx)))
    by (unfold sm; rewrite get_map_nd by (try exact Wk; rewrite Hk; exact Hb);
        reflexivity).
  assert (E1 : get (map_nd (fun x => s_mul x scale) o1) idx
               = (get input idx * IZR (get keep idx) / (1 - rate))%R).
  { rewrite get_map_nd by (try exact Wo1; rewrite Ho1; exact Hb).
    rewrite Go1 by exact Hb. unfold scale. real_ring. }
  assert (E2 : get g1 idx = (get out_grad idx * IZR (get keep idx) / (1 - rate))%R).
  { rewrite Gg1 by (rewrite Hsm; exact Hb). rewrite Hsmg. unfold scale. real_ring. }
  split; [exact Hkeep|]. split; [exact E1|].
  split.
  { rewrite E1, Go2 by exact Hb. rewrite Hm1. unfold scale. real_ring. }
  split; [exact E2|].
  rewrite E2, Gg2 by (rewrite Hog; exact Hb). rewrite Hm1. unfold scale. real_ring.
Qed.

End DropoutMask.

Module DropoutMaskExample.

Definition input : @tensor real_scalar := mk_ndarray [2] [1%R; 2%R].
Definition out_grad : @tensor real_scalar := mk_ndarray [2] [1%R; 1%R].
Definition world0 : world (G := harmonic_random) := mk_world (G := harmonic_random) 0 0.

Lemma dropout_backward_uses_forward_mask_witness :
  exists keep output in_grad w',
    operations.dropout_forward (G := harmonic_random) input (1 / 2)%R true (Some 1234%Z) world0
    = (Ok (output, Some keep), w')
    /\ operations.dropout_backward out_grad input (1 / 2)%R (Some keep) true = Ok in_grad
    /\ shape in_grad = [2].
Proof.
  assert (Hrate : (1 / 2)%R <> 1%R) by lra.
  assert (Hseed : valid_seed (Some 1234%Z)) by (simpl; lia).
  destruct (dropout_backward_uses_forward_mask (G := harmonic_random)
              (input := input) (out_grad := out_grad) (rate := (1 / 2)%R)
              (seed := Some 1234%Z) None world0 Hrate Hseed eq_refl)
    as (keep & o & g & _ & _ & _ & w' & Ef & Eb & _ & _ & _ & _ & Hg & _).
  exists keep, o, g, w'. split; [exact Ef|]. split; [exact Eb | exact Hg].
Defined.

End DropoutMaskExample.

(* ===================================================================== *)
(** * The sign of the loss and of its gradient *)
(* ===================================================================== *)

Section SoftmaxValues.
Context {S : Scalar} {T : Transcendental S}.

(** What the two passes return, entry by entry. *)
Lemma softmax_values (input : tensor) (labels : list Z) (batch C : nat) :
  shape input = [batch; C] -> length labels = batch -> 1 <= C -> valid_labels C labels ->
  exists loss probs grad,
    operators.softmax_cross_entropy.forward input labels = Ok (loss, probs)
    /\ operators.softmax_cross_entropy.backward input labels = Ok grad
    /\ loss = s_div (s_mul (s_of_Z (-1))
                      (sum_list (map (fun i => log_prob input C i (label_at labels i))
                                     (seq 0 batch))))
                    (s_of_Z (Z.of_nat batch))
    /\ (forall i j, i < batch -> j < C ->
         get grad [i; j]
         = s_div (if j =? label_at labels i
                  then s_sub (s_exp (log_prob input C i j)) s_one
                  else s_exp (log_prob input C i j))
                 (s_of_Z (Z.of_nat batch))).
Proof.
  intros Hs Hl HC Hv.
  destruct (log_probs_ok Hs HC) as (lp & Hlp & Hwf & Hget & Hrun).
  assert (Hp : shape (map_nd s_exp lp) = [batch; C]) by (rewrite map_nd_shape; exact Hlp).
  assert (Hfold : forall cells (a : tensor),
            shape (fold_left (fun acc c => update_at acc c (fun x => s_sub x s_one)) cells a)
            = shape a
            /\ (wf a -> wf (fold_left (fun acc c => update_at acc c (fun x => s_sub x s_one))
                                      cells a))).
  { induction cells as [|c cells IH]; intro a; [split; auto|].
    cbn [fold_left]. destruct (IH (update_at a c (fun x => s_sub x s_one))) as [IH1 IH2].
    split; [rewrite IH1; reflexivity | intro Ha; apply IH2, update_at_wf, Ha]. }
  do 3 eexists. split.
  { unfold operators.softmax_cross_entropy.forward. cbv zeta. rewrite Hrun, Hl.
    rewrite (pair_targets_arange Hlp Hl Hv). reflexivity. }
  split.
  { unfold operators.softmax_cross_entropy.backward. cbv zeta. rewrite Hrun, Hl.
    rewrite (pair_targets_arange Hp Hl Hv). reflexivity. }
  split.
  - do 3 f_equal. rewrite label_cells_seq, map_map, Hl.
    apply map_ext_in. intros i Hi. apply in_seq in Hi.
    apply Hget; [lia|]. apply valid_label_at; [exact Hv|lia].
  - intros i j Hi Hj.
    rewrite get_map_nd;
      [|apply (proj2 (Hfold _ _)), map_nd_wf, Hwf
       |rewrite (proj1 (Hfold _ _)), Hp; apply in_bounds2; assumption].
    f_equal.
    rewrite (get_fold_update (fun x => s_sub x s_one) Hi Hj (s := 0) Hp
               (map_nd_wf s_exp Hwf)); [|lia|exact Hv].
    cbn [Nat.leb andb]. rewrite Nat.sub_0_r.
    replace (i <? 0 + length labels) with true by (symmetry; apply Nat.ltb_lt; lia).
    rewrite get_map_nd; [|exact Hwf|rewrite Hlp; apply in_bounds2; assumption].
    rewrite Hget by assumption. reflexivity.
Qed.

End SoftmaxValues.


(* ===================================================================== *)
(** * Convolution and pooling: arguments that are refused, shapes that are kept *)
(* ===================================================================== *)

Section ConvPoolEdges.
Context {S : Scalar}.

(** X10: a stride of zero is not validated: on any 4-D input the forward
    and backward passes of the convolution and of the pooling, functions
    and methods alike, raise ZeroDivisionError from the computation of the
    output size. *)
Theorem stride_zero_divides_by_zero (cp : conv_params.t) (pp : pool_params.t)
  (out_grad input weights bias : tensor) (b c h w : nat) :
  shape input = [b; c; h; w] ->
  conv_params.stride cp = 0 -> pool_params.stride pp = 0 ->
  operations.conv_forward input weights bias cp = Raise ZeroDivisionError
  /\ operations.conv_backward out_grad input weights bias cp = Raise ZeroDivisionError
  /\ operators.conv.forward cp input weights bias = Raise ZeroDivisionError
  /\ operators.conv.backward cp out_grad input weights bias = Raise ZeroDivisionError
  /\ operations.pool_forward input pp = Raise ZeroDivisionError
  /\ operations.pool_backward out_grad input pp = Raise ZeroDivisionError
  /\ operators.pool.forward pp input = Raise ZeroDivisionError
  /\ operators.pool.backward pp out_grad input = Raise ZeroDivisionError.
Proof.
  intros Hs Hc Hp.
  unfold operations.conv_forward, operations.conv_backward, operators.conv.forward,
    operators.conv.backward, operations.pool_forward, operations.pool_backward,
    operators.pool.forward, operators.pool.backward, operators.conv.img2col,
    operations.out_size, operators.get_output_size, py_floordiv.
  rewrite Hs, Hc, Hp. cbn [Z.of_nat Z.eqb bind]. repeat split; reflexivity.
Qed.

(** X11: an input that is not 4-D is refused by the unpacking of its shape:
    the eight passes raise ValueError. *)
Theorem rank_other_than_four_is_refused (cp : conv_params.t) (pp : pool_params.t)
  (out_grad input weights bias : tensor) :
  length (shape input) <> 4 ->
  exists msg,
    operations.conv_forward input weights bias cp = Raise (ValueError msg)
    /\ operations.conv_backward out_grad input weights bias cp = Raise (ValueError msg)
    /\ operators.conv.forward cp input weights bias = Raise (ValueError msg)
    /\ operators.conv.backward cp out_grad input weights bias = Raise (ValueError msg)
    /\ operations.pool_forward input pp = Raise (ValueError msg)
    /\ operations.pool_backward out_grad input pp = Raise (ValueError msg)
    /\ operators.pool.forward pp input = Raise (ValueError msg)
    /\ operators.pool.backward pp out_grad input = Raise (ValueError msg).
Proof.
  intro Hr. eexists.
  unfold operations.conv_forward, operations.conv_backward, operators.conv.forward,
    operators.conv.backward, operations.pool_forward, operations.pool_backward,
    operators.pool.forward, operators.pool.backward.
  destruct (shape input) as [|? [|? [|? [|? [|? ?]]]]]; cbn [length] in Hr;
    try (exfalso; apply Hr; reflexivity); repeat split; reflexivity.
Qed.

Lemma scatter_patches_shape (buf r patch_grads : tensor) hs ws k_h k_w patch_shape :
  operations.scatter_patches buf patch_grads hs ws k_h k_w patch_shape = Ok r ->
  shape r = shape buf.
Proof.
  unfold operations.scatter_patches. cbv zeta. intro E.
  eapply (foldM_invariant (P := fun t : tensor => shape t = shape buf)); [|reflexivity|exact E].
  intros acc [idx [i j]] acc' Hacc Hstep. cbv beta in Hstep.
  apply bind_ok in Hstep as (g & _ & Hstep). apply bind_ok in Hstep as (g' & _ & Hstep).
  apply add_slice_shape in Hstep. congruence.
Qed.

Lemma np_pad_shape4 (input : tensor) (b c h w : nat) (p q : nat * nat) :
  shape input = [b; c; h; w] ->
  shape (np_pad s_zero input [(0, 0); (0, 0); p; q])
  = [b; c; fst p + h + snd p; fst q + w + snd q].
Proof.
  intro Hs. unfold np_pad. rewrite Hs. destruct p, q. cbn. repeat f_equal; lia.
Qed.

(** X12: whenever the pooling method's backward pass returns, the gradient
    has the shape of the input, with or without padding (the entries are
    another matter when there is padding). *)
Theorem pool_backward_keeps_shape (pp : pool_params.t) (out_grad input in_grad : tensor)
  (b c h w : nat) :
  shape input = [b; c; h; w] ->
  operators.pool.backward pp out_grad input = Ok in_grad ->
  shape in_grad = shape input.
Proof.
  intros Hs E. unfold operators.pool.backward in E. rewrite Hs in E. cbv zeta in E.
  inv_bind.
  match goal with
  | H : operations.scatter_patches _ _ _ _ _ _ _ = Ok _ |- _ =>
      apply scatter_patches_shape in H; rename H into Hbuf
  end.
  rewrite slice_shape, Hbuf. change (shape (np_zeros ?sh)) with sh.
  rewrite (np_pad_shape4 _ _ Hs), Hs. cbn [fst snd combine map slice_range].
  rewrite !slice_bound_nat. repeat f_equal; lia.
Qed.

(** X13: whenever the convolution method's backward pass returns, on an
    input (batch, c, h, w) and a gradient whose second axis has length oc,
    the weight gradient has shape (out_channel, c, kernel_h, kernel_w) and
    the bias gradient has shape (oc,): the parameter gradients have the
    shapes of the parameters, which the input gradient does not when there
    is padding. *)
Theorem conv_backward_parameter_shapes (cp : conv_params.t)
  (out_grad input weights bias in_grad w_grad b_grad : tensor) (b c h w n oc oh ow : nat) :
  shape input = [b; c; h; w] -> shape out_grad = [n; oc; oh; ow] ->
  operators.conv.backward cp out_grad input weights bias = Ok (in_grad, w_grad, b_grad) ->
  shape w_grad = [conv_params.out_channel cp; c;
                  conv_params.kernel_h cp; conv_params.kernel_w cp]
  /\ shape b_grad = [oc].
Proof.
  intros Hs Hg E. unfold operators.conv.backward in E. rewrite Hs in E. cbv zeta in E.
  inv_bind. destruct a as [[X_hat out_height] out_width]. inv_bind.
  split.
  - match goal with
    | H : reshape _ (map Z.of_nat _) = Ok w_grad |- _ =>
        apply reshape_plain in H;
        [destruct H as [H _]; rewrite H; cbn [map]; rewrite !Nat2Z.id; reflexivity|]
    end.
    repeat constructor; lia.
  - match goal with
    | H : np_sum _ false out_grad = Ok b_grad |- _ => apply np_sum_shape in H; rewrite H
    end.
    rewrite Hg. reflexivity.
Qed.

End ConvPoolEdges.

Module ConvPoolEdgeExample.

Definition image : @tensor float_scalar := mk_ndarray [1; 1; 2; 2] [1; 2; 3; 4]%float.
Definition vector : @tensor float_scalar := mk_ndarray [4] [1; 2; 3; 4]%float.
Definition still : conv_params.t := conv_params.mk 1 1 0 0 1 1.
Definition still_pool : pool_params.t := pool_params.mk "max" 1 1 0 0.

Lemma stride_zero_divides_by_zero_witness :
  operators.conv.forward still image image image = Raise ZeroDivisionError
  /\ operators.pool.forward still_pool image = Raise ZeroDivisionError.
Proof.
  destruct (stride_zero_divides_by_zero (cp := still) (pp := still_pool) image
              (input := image) image image eq_refl eq_refl eq_refl)
    as (_ & _ & Hc & _ & _ & _ & Hp & _).
  split; [exact Hc | exact Hp].
Defined.

Lemma rank_other_than_four_is_refused_witness :
  exists msg, operators.pool.forward still_pool vector = Raise (ValueError msg).
Proof.
  destruct (rank_other_than_four_is_refused still still_pool vector (input := vector)
              vector vector ltac:(discriminate))
    as (msg & _ & _ & _ & _ & _ & _ & Hp & _).
  exists msg. exact Hp.
Defined.

Definition pool2x2 : pool_params.t := pool_params.mk "max" 2 2 2 2.
Definition one : @tensor float_scalar := mk_ndarray [1; 1; 1; 1] [1]%float.
Definition ones : @tensor float_scalar := mk_ndarray [1; 1; 2; 2] [1; 1; 1; 1]%float.

Lemma pool_backward_keeps_shape_witness :
  exists in_grad, operators.pool.backward pool2x2 ones image = Ok in_grad
                  /\ shape in_grad = [1; 1; 2; 2].
Proof.
  assert (E : exists r, operators.pool.backward pool2x2 ones image = Ok r)
    by (eexists; vm_compute; reflexivity).
  destruct E as (in_grad & E). exists in_grad. split; [exact E|].
  exact (pool_backward_keeps_shape (pp := pool2x2) (input := image)
           (b := 1) (c := 1) (h := 2) (w := 2) eq_refl E).
Defined.

Definition conv1x1 : conv_params.t := conv_params.mk 1 1 1 0 1 1.

Lemma conv_backward_parameter_shapes_witness :
  exists in_grad w_grad b_grad,
    operators.conv.backward conv1x1 ones image one one = Ok (in_grad, w_grad, b_grad)
    /\ shape w_grad = [1; 1; 1; 1] /\ shape b_grad = [1].
Proof.
  assert (E : exists r, operators.conv.backward conv1x1 ones image one one = Ok r)
    by (eexists; vm_compute; reflexivity).
  destruct E as ([[in_grad w_grad] b_grad] & E). exists in_grad, w_grad, b_grad.
  split; [exact E|].
  exact (conv_backward_parameter_shapes (cp := conv1x1) (input := image) (out_grad := ones)
           (b := 1) (c := 1) (h := 2) (w := 2) (n := 1) (oc := 1) (oh := 2) (ow := 2)
           eq_refl eq_refl E).
Defined.

End ConvPoolEdgeExample.

(* ===================================================================== *)
(** * The rectifier *)
(* ===================================================================== *)

Section ReluOnReals.
Local Open Scope R_scope.

Lemma s_max_zero (x : R) :
  s_max (S := real_scalar) 0 x = Rmax 0 x.
Proof.
  unfold s_max, Rmax. cbn [s_leb real_scalar].
  destruct (Rle_dec 0 x); reflexivity.
Qed.

(** X14: on the real numbers, [relu] returns [max(0, x)] entry by entry, so
    its output is non-negative and applying it twice changes nothing; its
    backward pass lets the gradient through wherever the input is [>= 0],
    zero included, and blocks it elsewhere; the free functions do the
    same. *)
Theorem relu_on_reals (out_grad input : @tensor real_scalar) :
  wf input -> shape out_grad = shape input ->
  operators.relu.forward (operators.relu.forward input) = operators.relu.forward input
  /\ operations.relu_forward input = operators.relu.forward input
  /\ shape (operators.relu.forward input) = shape input
  /\ (forall idx, in_bounds (shape input) idx = true ->
        get (operators.relu.forward input) idx = Rmax 0 (get input idx)
        /\ 0 <= get (operators.relu.forward input) idx)
  /\ exists in_grad,
       operators.relu.backward out_grad input = Ok in_grad
       /\ operations.relu_backward out_grad input = Ok in_grad
       /\ shape in_grad = shape input
       /\ forall idx, in_bounds (shape input) idx = true ->
            (0 <= get input idx -> get in_grad idx = get out_grad idx)
            /\ (get input idx < 0 -> get in_grad idx = 0).
Proof.
  intros Hwf Hog.
  split.
  { unfold operators.relu.forward, map_nd. cbn [shape data]. f_equal.
    rewrite map_map. apply map_ext. intro x.
    change (@s_zero real_scalar) with 0. rewrite !s_max_zero.
    unfold Rmax. destruct (Rle_dec 0 x) as [H|H].
    - destruct (Rle_dec 0 x); [reflexivity | contradiction].
    - destruct (Rle_dec 0 0); [reflexivity | lra]. }
  split; [reflexivity|]. split; [reflexivity|].
  split.
  { intros idx Hb. unfold operators.relu.forward.
    rewrite get_map_nd by assumption.
    change (@s_zero real_scalar) with 0. rewrite s_max_zero.
    split; [reflexivity | apply Rmax_l]. }
  set (active := map_nd (fun x => s_leb (Scalar := real_scalar) s_zero x) input).
  destruct (broadcast2_same_get (fun (b : bool) g => s_mul (of_bool b) g)
              (a := active) (b := out_grad))
    as (g & Eg & Hg & _ & Gg); [symmetry; exact Hog|].
  exists g. split; [exact Eg|]. split; [exact Eg|]. split; [exact Hg|].
  intros idx Hb. rewrite Gg by exact Hb.
  unfold active. rewrite get_map_nd by assumption.
  cbn [s_leb s_zero s_mul real_scalar]. unfold of_bool. cbn [s_one s_zero real_scalar].
  destruct (Rle_dec 0 (get input idx)) as [H|H]; split; intro H'; try lra;
    match goal with |- @eq _ ?a ?b => change (@eq R a b) end; ring.
Qed.

End ReluOnReals.

Module ReluExample.

Definition input : @tensor real_scalar := mk_ndarray [3] [(-1)%R; 0%R; 2%R].
Definition out_grad : @tensor real_scalar := mk_ndarray [3] [5%R; 6%R; 7%R].

Lemma relu_on_reals_witness :
  exists in_grad,
    operators.relu.backward out_grad input = Ok in_grad
    /\ get in_grad [1] = 6%R.
Proof.
  destruct (relu_on_reals (out_grad := out_grad) (input := input) eq_refl eq_refl)
    as (_ & _ & _ & _ & g & E & _ & _ & G).
  exists g. split; [exact E|].
  apply (G [1] eq_refl). apply Rle_refl.
Defined.

End ReluExample.

(* ===================================================================== *)
(** * What the pooling layer computes *)
(* ===================================================================== *)

Ltac ltb_true :=
  repeat match goal with
         | |- context [?a <? ?b] =>
             rewrite (proj2 (Nat.ltb_lt a b)) by lia
         end.

Section WindowLemmas.
Context {A : Type} `{Dflt A}.

Lemma in_bounds4 (b c h w n ch y x : nat) :
  n < b -> ch < c -> y < h -> x < w -> in_bounds [b; c; h; w] [n; ch; y; x] = true.
Proof. intros. cbn [in_bounds]. ltb_true. reflexivity. Qed.

(** An entry of an image padded on its two last axes. *)
Lemma get_np_pad4 (zero : A) (a : ndarray A) (b c h w p n ch y x : nat) :
  shape a = [b; c; h; w] -> n < b -> ch < c -> y < p + h + p -> x < p + w + p ->
  get (np_pad zero a [(0, 0); (0, 0); (p, p); (p, p)]) [n; ch; y; x]
  = if (p <=? y) && (y <? p + h) && ((p <=? x) && (x <? p + w))
    then get a [n; ch; y - p; x - p] else zero.
Proof.
  intros Hsh Hn Hc Hy Hx. unfold np_pad. rewrite Hsh. cbn [combine map].
  rewrite get_build by (apply in_bounds4; lia).
  cbn [combine forallb map]. cbn [Nat.leb Nat.add]. rewrite !Nat.sub_0_r.
  rewrite (proj2 (Nat.ltb_lt n b)) by lia. rewrite (proj2 (Nat.ltb_lt ch c)) by lia.
  cbn [andb]. rewrite andb_true_r. reflexivity.
Qed.

(** A window that lies inside the image. *)
Lemma slice_window (a : ndarray A) (b c h w oy ox k_h k_w : nat) :
  shape a = [b; c; h; w] -> oy + k_h <= h -> ox + k_w <= w ->
  let r := slice a [None; None;
                    Some (Z.of_nat oy, Z.of_nat (oy + k_h));
                    Some (Z.of_nat ox, Z.of_nat (ox + k_w))] in
  shape r = [b; c; k_h; k_w]
  /\ forall n ch dy dx, n < b -> ch < c -> dy < k_h -> dx < k_w ->
       get r [n; ch; dy; dx] = get a [n; ch; oy + dy; ox + dx].
Proof.
  intros Hsh Hy Hx r.
  assert (Er : r = build [b; c; k_h; k_w]
                 (fun idx => get a (map (fun '(i, (lo, _)) => lo + i)
                                      (combine idx [(0, b); (0, c); (oy, k_h); (ox, k_w)])))).
  { unfold r, slice. rewrite Hsh. cbn [combine map slice_range snd].
    rewrite !slice_bound_nat.
    replace (Nat.min oy h) with oy by lia. replace (Nat.min (oy + k_h) h - oy) with k_h by lia.
    replace (Nat.min ox w) with ox by lia. replace (Nat.min (ox + k_w) w - ox) with k_w by lia.
    reflexivity. }
  split; [rewrite Er; reflexivity|].
  intros n ch dy dx Hn Hc Hdy Hdx. rewrite Er, get_build by (apply in_bounds4; lia).
  reflexivity.
Qed.

(** A reduction over the two last axes of a 4-D array reads, for each entry
    of the result, the whole window in row-major order. *)
Lemma get_reduce_window {B : Type} `{Dflt B} (f : list A -> B) (a : ndarray A)
  (b c k_h k_w n ch : nat) :
  shape a = [b; c; k_h; k_w] -> n < b -> ch < c ->
  shape (reduce_axes f [2; 3] false a) = [b; c]
  /\ get (reduce_axes f [2; 3] false a) [n; ch]
     = f (map (fun d => get a [n; ch; nth 0 d 0; nth 1 d 0]) (indices [k_h; k_w])).
Proof.
  intros Hsh Hn Hc. unfold reduce_axes. rewrite Hsh.
  cbn [drop_axes pick_axes existsb Nat.eqb orb]. split; [reflexivity|].
  rewrite get_build by (cbn [in_bounds]; ltb_true; reflexivity).
  f_equal. apply map_ext_in. intros d Hd.
  apply in_map_iff in Hd as (k & <- & _).
  cbn [merge_idx existsb Nat.eqb orb hd tl unravel nth]. reflexivity.
Qed.

(** The transposition that ends the forward pass. *)
Lemma get_transpose_2301 (a : ndarray A) (o_h o_w b c n ch i j : nat) :
  shape a = [o_h; o_w; b; c] -> n < b -> ch < c -> i < o_h -> j < o_w ->
  get (transpose a [2; 3; 0; 1]) [n; ch; i; j] = get a [i; j; n; ch].
Proof.
  intros Hsh Hn Hc Hi Hj. unfold transpose. rewrite Hsh. cbn [map nth length seq].
  rewrite get_build by (apply in_bounds4; lia). reflexivity.
Qed.

End WindowLemmas.

Section AssignmentLoop.
Context {A K : Type} `{Dflt A}.
Variable step : ndarray A -> K -> result (ndarray A).
Variable key : list nat -> K -> bool.
Variable val : K -> list nat -> A.
Variable sh : list nat.
Variable xs : list K.

Hypothesis key_unique : forall idx x y, key idx x = true -> key idx y = true -> x = y.
Hypothesis step_assigns : forall acc x,
  In x xs -> shape acc = sh ->
  exists acc', step acc x = Ok acc' /\ shape acc' = sh
    /\ forall idx, in_bounds sh idx = true ->
         get acc' idx = if key idx x then val x idx else get acc idx.

(** A loop whose every round assigns the entries selected by its own key
    leaves, at each entry, the value of the round that selects it. *)
Lemma foldM_assigns : forall acc,
  shape acc = sh ->
  exists r, foldM step xs acc = Ok r /\ shape r = sh
    /\ forall idx, in_bounds sh idx = true ->
         (forall x, In x xs -> key idx x = true -> get r idx = val x idx)
         /\ ((forall x, In x xs -> key idx x = false) -> get r idx = get acc idx).
Proof using key_unique step_assigns.
  revert step_assigns. generalize xs. clear xs.
  induction xs as [|x xs IH]; intros Hstep acc Hacc.
  - exists acc. split; [reflexivity|]. split; [exact Hacc|].
    intros idx _. split; [intros x []|reflexivity].
  - destruct (Hstep acc x (or_introl eq_refl) Hacc) as (acc' & E & Hsh' & G).
    destruct (IH (fun a y Hy => Hstep a y (or_intror Hy)) acc' Hsh') as (r & Er & Hr & Gr).
    exists r. cbn [foldM]. rewrite E. cbn [bind]. split; [exact Er|]. split; [exact Hr|].
    intros idx Hb. destruct (Gr idx Hb) as [G1 G2]. specialize (G idx Hb).
    assert (Hdec : (exists y, In y xs /\ key idx y = true)
                   \/ (forall y, In y xs -> key idx y = false)).
    { clear. induction xs as [|y ys IHy].
      - right. intros y [].
      - destruct (key idx y) eqn:Ey.
        + left. exists y. split; [left; reflexivity | exact Ey].
        + destruct IHy as [(z & Hz & Ez)|Hn].
          * left. exists z. split; [right; exact Hz | exact Ez].
          * right. intros z [<-|Hz]; [exact Ey | apply Hn, Hz]. }
    split.
    + intros y [<-|Hy] Ey.
      * destruct Hdec as [(z & Hz & Ez)|Hn].
        -- rewrite (key_unique Ey Ez). apply G1; assumption.
        -- rewrite (G2 Hn), G, Ey. reflexivity.
      * apply G1; assumption.
    + intro Hn. rewrite G2 by (intros y Hy; apply Hn; right; exact Hy).
      rewrite G, (Hn x (or_introl eq_refl)). reflexivity.
Qed.

End AssignmentLoop.

(** The window of the output position [(i, j)] in the image [n] and the
    channel [ch] of [X], in row-major order. *)
Definition pool_window {S : Scalar} (X : tensor) (stride k_h k_w n ch i j : nat) : list num :=
  map (fun d => get X [n; ch; i * stride + nth 0 d 0; j * stride + nth 1 d 0])
      (indices [k_h; k_w]).

(** The reduction [pool.forward] applies to a window. *)
Definition pooled {S : Scalar} (pp : pool_params.t) : list num -> num :=
  if String.eqb (pool_params.pool_type pp) "max" then max_list else mean_list.

Lemma bind_returns {A B : Type} (c : result A) (k : A -> result B) (a : A) (b : B) :
  c = Ok a -> k a = Ok b -> bind c k = Ok b.
Proof. intros -> E. exact E. Qed.

Section PoolForward.
Context {S : Scalar}.
Import pool_params.

Lemma in_bounds4_inv (b c h w : nat) (idx : list nat) :
  in_bounds [b; c; h; w] idx = true ->
  exists n ch y x, idx = [n; ch; y; x] /\ n < b /\ ch < c /\ y < h /\ x < w.
Proof.
  destruct idx as [|n [|ch [|y [|x [|? ?]]]]]; cbn [in_bounds]; try discriminate;
    rewrite ?andb_false_r; try discriminate.
  intro Hb. repeat (apply andb_true_iff in Hb as [?%Nat.ltb_lt Hb]).
  exists n, ch, y, x. repeat split; assumption.
Qed.

Lemma set_ij_assigns (output v : tensor) (o_h o_w b c i j : nat) :
  shape output = [o_h; o_w; b; c] -> shape v = [b; c] ->
  exists r, operators.pool.set_ij output i j v = Ok r
    /\ shape r = [o_h; o_w; b; c]
    /\ forall i' j' n ch, i' < o_h -> j' < o_w -> n < b -> ch < c ->
         get r [i'; j'; n; ch]
         = if (i' =? i) && (j' =? j) then get v [n; ch] else get output [i'; j'; n; ch].
Proof.
  intros Ho Hv. unfold operators.pool.set_ij. rewrite Ho, Hv. cbn [skipn].
  rewrite broadcast_shapes_refl.
  destruct (list_eq_dec Nat.eq_dec [b; c] [b; c]) as [_|N]; [|contradiction].
  eexists. split; [reflexivity|]. split; [reflexivity|].
  intros i' j' n ch Hi Hj Hn Hc. rewrite get_build by (apply in_bounds4; lia).
  cbn [nth skipn]. rewrite bcast_idx_in_bounds; [reflexivity|].
  cbn [in_bounds]. ltb_true. reflexivity.
Qed.

Lemma output_size_nat (n k p s : nat) :
  s <> 0 -> k <= n + p ->
  operators.get_output_size n k p s = Ok (Z.of_nat ((n + p - k) / s + 1)).
Proof.
  intros Hs Hk. unfold operators.get_output_size, py_floordiv.
  destruct (Z.eqb_spec (Z.of_nat s) 0) as [E|_]; [lia|]. cbn [bind]. f_equal.
  replace (Z.of_nat n + Z.of_nat p - Z.of_nat k)%Z with (Z.of_nat (n + p - k)) by lia.
  rewrite <- Nat2Z.inj_div. lia.
Qed.

Lemma window_inside (n k p s i : nat) :
  s <> 0 -> k <= n + p -> i < (n + p - k) / s + 1 -> i * s + k <= n + p.
Proof.
  intros Hs Hk Hi. pose proof (Nat.Div0.mul_div_le (n + p - k) s) as Hd.
  assert (i * s <= s * ((n + p - k) / s)); [|lia].
  rewrite (Nat.mul_comm s). apply Nat.mul_le_mono_r. lia.
Qed.

Lemma half_even (p : nat) : Nat.even p = true -> p / 2 + p / 2 = p.
Proof.
  intro He. apply Nat.even_spec in He as [k ->].
  rewrite (Nat.mul_comm 2 k), Nat.div_mul by discriminate. lia.
Qed.

(** Each entry of the output of [pool.forward] is the maximum, or the mean,
    of its window of the padded image; the call returns whenever the stride
    is not zero, the padding is even and the kernel is not empty and fits in
    the padded image. *)
Lemma pool_forward_windows (pp : pool_params.t) (input : tensor) (b c h w : nat) :
  shape input = [b; c; h; w] ->
  stride pp <> 0 -> Nat.even (pad pp) = true ->
  1 <= pool_height pp <= h + pad pp -> 1 <= pool_width pp <= w + pad pp ->
  pool_type pp = "max"%string \/ pool_type pp = "avg"%string ->
  let o_h := (h + pad pp - pool_height pp) / stride pp + 1 in
  let o_w := (w + pad pp - pool_width pp) / stride pp + 1 in
  let X_pad := np_pad s_zero input [(0, 0); (0, 0); (pad pp / 2, pad pp / 2);
                                    (pad pp / 2, pad pp / 2)] in
  exists out,
    operators.pool.forward pp input = Ok out
    /\ shape out = [b; c; o_h; o_w]
    /\ forall n ch i j, n < b -> ch < c -> i < o_h -> j < o_w ->
         get out [n; ch; i; j]
         = pooled pp (pool_window X_pad (stride pp) (pool_height pp) (pool_width pp) n ch i j).
Proof.
  intros Hsh Hs He Hkh Hkw Hty o_h o_w X_pad.
  pose proof (half_even He) as Hp.
  assert (HX : shape X_pad = [b; c; h + pad pp; w + pad pp]).
  { unfold X_pad. rewrite (np_pad_shape4 (pad pp / 2, pad pp / 2) (pad pp / 2, pad pp / 2) Hsh).
    cbn [fst snd].
    replace (pad pp / 2 + h + pad pp / 2) with (h + pad pp) by lia.
    replace (pad pp / 2 + w + pad pp / 2) with (w + pad pp) by lia. reflexivity. }
  unfold operators.pool.forward. rewrite Hsh.
  rewrite (output_size_nat Hs (proj2 Hkh)), (output_size_nat Hs (proj2 Hkw)). cbn [bind].
  fold o_h o_w X_pad.
  rewrite np_zeros_Z_ok by (repeat constructor; lia). cbn [bind map].
  rewrite !Nat2Z.id. unfold range. rewrite !Nat2Z.id.
  set (step := fun (output : tensor) '(i, j) => _).
  set (key := fun (idx : list nat) (x : nat * nat) =>
                (nth 0 idx 0 =? fst x) && (nth 1 idx 0 =? snd x)).
  set (val := fun (x : nat * nat) (idx : list nat) =>
                pooled pp (pool_window X_pad (stride pp) (pool_height pp) (pool_width pp)
                             (nth 2 idx 0) (nth 3 idx 0) (fst x) (snd x))).
  destruct (@foldM_assigns _ _ _ step key val [o_h; o_w; b; c]
              (list_prod (seq 0 o_h) (seq 0 o_w))) with (acc := np_zeros [o_h; o_w; b; c])
    as (r & Er & Hr & Gr).
  - intros idx [i1 j1] [i2 j2] E1 E2. unfold key in *. cbn [fst snd] in *.
    apply andb_true_iff in E1 as [A1 B1]. apply andb_true_iff in E2 as [A2 B2].
    apply Nat.eqb_eq in A1, B1, A2, B2. congruence.
  - intros acc [i j] Hin Hacc. apply in_prod_iff in Hin as [Hi Hj].
    apply in_seq in Hi, Hj.
    pose proof (@window_inside h (pool_height pp) (pad pp) (stride pp) i Hs (proj2 Hkh)
                  ltac:(fold o_h; lia)) as Wi.
    pose proof (@window_inside w (pool_width pp) (pad pp) (stride pp) j Hs (proj2 Hkw)
                  ltac:(fold o_w; lia)) as Wj.
    destruct (slice_window (a := X_pad) (oy := i * stride pp) (ox := j * stride pp)
                (k_h := pool_height pp) (k_w := pool_width pp) HX Wi Wj) as [Hrf Grf].
    set (rf := slice X_pad _) in *.
    assert (Hred : forall f : list num -> num,
               shape (reduce_axes f [2; 3] false rf) = [b; c]
               /\ forall n ch, n < b -> ch < c ->
                    get (reduce_axes f [2; 3] false rf) [n; ch]
                    = f (pool_window X_pad (stride pp) (pool_height pp) (pool_width pp) n ch i j)).
    { intro f. split; [unfold reduce_axes; rewrite Hrf; reflexivity|].
      intros n ch Hn Hc. destruct (get_reduce_window f Hrf Hn Hc) as [_ ->].
      unfold pool_window. f_equal. apply map_ext_in. intros d Hd.
      apply in_map_iff in Hd as (k & <- & Hk). apply in_seq in Hk.
      assert (Hb := @unravel_in_bounds [pool_height pp; pool_width pp] k ltac:(lia)).
      cbn [unravel in_bounds nth] in Hb |- *.
      apply andb_true_iff in Hb as [B1 B2]. apply andb_true_iff in B2 as [B2 _].
      apply Nat.ltb_lt in B1, B2. apply Grf; assumption. }
    assert (Hv : exists v, (if String.eqb (pool_type pp) "max"
                            then v <- np_max [2; 3] false rf ;; operators.pool.set_ij acc i j v
                            else if String.eqb (pool_type pp) "avg"
                            then v <- np_mean [2; 3] rf ;; operators.pool.set_ij acc i j v
                            else Raise (TypeError "Error: pool_type should be 'max' or 'avg'"))
                           = operators.pool.set_ij acc i j v
                         /\ v = reduce_axes (pooled pp) [2; 3] false rf).
    { unfold pooled. destruct Hty as [-> | ->]; cbn [String.eqb Ascii.eqb Bool.eqb].
      - exists (reduce_axes max_list [2; 3] false rf). split; [|reflexivity].
        unfold np_max, axes_ok. rewrite Hrf. cbn [length forallb Nat.ltb Nat.leb andb negb].
        cbn [pick_axes existsb Nat.eqb orb].
        destruct (pool_height pp) as [|kh]; [lia|]. destruct (pool_width pp) as [|kw]; [lia|].
        reflexivity.
      - exists (reduce_axes mean_list [2; 3] false rf). split; [|reflexivity].
        unfold np_mean, axes_ok. rewrite Hrf. reflexivity. }
    destruct Hv as (v & Estep & ->).
    destruct (Hred (pooled pp)) as [Hvs Gv].
    destruct (set_ij_assigns i j Hacc Hvs) as (acc' & Eset & Hacc' & Gset).
    exists acc'. split; [exact (eq_trans Estep Eset)|]. split; [exact Hacc'|].
    intros idx Hb. apply in_bounds4_inv in Hb as (i' & j' & n & ch & -> & Hi' & Hj' & Hn & Hc).
    rewrite Gset by assumption. unfold key, val. cbn [nth fst snd].
    destruct ((i' =? i) && (j' =? j)); [apply Gv; assumption | reflexivity].
  - reflexivity.
  - exists (transpose r [2; 3; 0; 1]).
    split; [apply (bind_returns Er); unfold operators.transpose_axes; rewrite Hr; reflexivity|].
    split; [unfold transpose; rewrite Hr; reflexivity|].
    intros n ch i j Hn Hc Hi Hj. rewrite (get_transpose_2301 Hr) by assumption.
    destruct (Gr [i; j; n; ch] (in_bounds4 Hi Hj Hn Hc)) as [G1 _].
    apply (G1 (i, j)).
    + apply in_prod_iff. split; apply in_seq; lia.
    + unfold key. cbn [nth fst snd]. rewrite !Nat.eqb_refl. reflexivity.
Qed.

End PoolForward.

Section PoolForwardOnReals.
Local Open Scope R_scope.
Import pool_params.

Lemma pool_window_entries {S : Scalar} (X : tensor) (s k_h k_w n ch i j : nat) (v : num) :
  In v (pool_window X s k_h k_w n ch i j)
  <-> exists dy dx, (dy < k_h)%nat /\ (dx < k_w)%nat
        /\ v = get X [n; ch; (i * s + dy)%nat; (j * s + dx)%nat].
Proof.
  unfold pool_window, indices. rewrite in_map_iff. split.
  - intros (d & <- & Hd). apply in_map_iff in Hd as (k & <- & Hk). apply in_seq in Hk.
    assert (Hb := @unravel_in_bounds [k_h; k_w] k ltac:(lia)).
    cbn [unravel in_bounds nth] in Hb |- *.
    apply andb_true_iff in Hb as [B1 B2]. apply andb_true_iff in B2 as [B2 _].
    apply Nat.ltb_lt in B1, B2. eexists _, _. repeat split; eassumption.
  - intros (dy & dx & Hy & Hx & ->). exists [dy; dx]. split; [reflexivity|].
    assert (Hb : in_bounds [k_h; k_w] [dy; dx] = true)
      by (cbn [in_bounds]; ltb_true; reflexivity).
    rewrite <- (unravel_ravel Hb). apply in_map, in_seq.
    pose proof (ravel_lt Hb). lia.
Qed.

Lemma pool_window_length {S : Scalar} (X : tensor) (s k_h k_w n ch i j : nat) :
  length (pool_window X s k_h k_w n ch i j) = (k_h * k_w)%nat.
Proof.
  unfold pool_window, indices. rewrite !length_map, length_seq. cbn [size_of fold_right]. lia.
Qed.

Lemma fold_s_max_in : forall (xs : list R) (x : R),
  In (fold_left (s_max (S := real_scalar)) xs x) (x :: xs).
Proof.
  induction xs as [|z xs IH]; intro x; cbn [fold_left]; [left; reflexivity|].
  destruct (IH (s_max (S := real_scalar) x z)) as [E|Hin].
  - rewrite <- E. unfold s_max. cbn [s_leb real_scalar].
    destruct (Rle_dec x z); [right; left | left]; reflexivity.
  - right; right; exact Hin.
Qed.

(** [np.max] of a row is one of its entries. *)
Lemma max_list_in (xs : list R) :
  xs <> [] -> In (max_list (S := real_scalar) xs) xs.
Proof.
  destruct xs as [|x xs]; [intro N; contradiction N; reflexivity|].
  intros _. cbn [max_list]. apply fold_s_max_in.
Qed.

(** X15: [pool.forward] returns whenever the stride is not zero, the padding
    is even, the pooling type is 'max' or 'avg' and the kernel is not empty
    and fits in the padded image. On the real numbers each output entry
    [(n, ch, i, j)] is then, for 'max', the largest entry of the window of
    the zero-padded image that starts at [(i * stride, j * stride)], and,
    for 'avg', the sum of that window divided by the kernel area. *)
Theorem pool_forward_on_reals (pp : pool_params.t) (input : @tensor real_scalar)
  (b c h w : nat) :
  shape input = [b; c; h; w] ->
  stride pp <> 0%nat -> Nat.even (pad pp) = true ->
  (1 <= pool_height pp <= h + pad pp)%nat -> (1 <= pool_width pp <= w + pad pp)%nat ->
  pool_type pp = "max"%string \/ pool_type pp = "avg"%string ->
  let o_h := ((h + pad pp - pool_height pp) / stride pp + 1)%nat in
  let o_w := ((w + pad pp - pool_width pp) / stride pp + 1)%nat in
  let p := (pad pp / 2)%nat in
  let X_pad := np_pad (0 : @num real_scalar) input [(0, 0); (0, 0); (p, p); (p, p)]%nat in
  exists out,
    operators.pool.forward pp input = Ok out
    /\ shape out = [b; c; o_h; o_w]
    /\ (forall n ch i j, (n < b)%nat -> (ch < c)%nat -> (i < o_h)%nat -> (j < o_w)%nat ->
          (pool_type pp = "max"%string ->
             (exists dy dx, (dy < pool_height pp)%nat /\ (dx < pool_width pp)%nat
                /\ get out [n; ch; i; j]
                   = get X_pad [n; ch; (i * stride pp + dy)%nat; (j * stride pp + dx)%nat])
             /\ forall dy dx, (dy < pool_height pp)%nat -> (dx < pool_width pp)%nat ->
                  get X_pad [n; ch; (i * stride pp + dy)%nat; (j * stride pp + dx)%nat]
                  <= get out [n; ch; i; j])
          /\ (pool_type pp = "avg"%string ->
                get out [n; ch; i; j]
                = sum_list (pool_window X_pad (stride pp) (pool_height pp) (pool_width pp) n ch i j)
                  / INR (pool_height pp * pool_width pp)))
    /\ (forall n ch y x, (n < b)%nat -> (ch < c)%nat ->
          (y < h + pad pp)%nat -> (x < w + pad pp)%nat ->
          get X_pad [n; ch; y; x]
          = if (p <=? y)%nat && (y <? p + h)%nat && ((p <=? x)%nat && (x <? p + w)%nat)
            then get input [n; ch; (y - p)%nat; (x - p)%nat] else 0).
Proof.
  intros Hsh Hs He Hkh Hkw Hty o_h o_w p X_pad.
  destruct (pool_forward_windows Hsh Hs He Hkh Hkw Hty) as (out & E & Ho & G).
  exists out. split; [exact E|]. split; [exact Ho|]. split.
  - intros n ch i j Hn Hc Hi Hj. rewrite (G n ch i j Hn Hc Hi Hj). fold p X_pad.
    set (win := pool_window X_pad (stride pp) (pool_height pp) (pool_width pp) n ch i j).
    unfold pooled. split; intros ->; cbn [String.eqb Ascii.eqb Bool.eqb].
    + split.
      * apply pool_window_entries. fold win. apply max_list_in. intro Ew.
        pose proof (pool_window_length X_pad (stride pp) (pool_height pp) (pool_width pp)
                      n ch i j) as L.
        fold win in L. rewrite Ew in L. cbn [length] in L. nia.
      * intros dy dx Hy Hx. apply max_list_upper. unfold win.
        apply (proj2 (pool_window_entries X_pad (stride pp) (pool_height pp) (pool_width pp)
                        n ch i j _)).
        exists dy, dx. repeat split; assumption.
    + unfold mean_list. cbn [s_div s_of_Z real_scalar]. rewrite <- INR_IZR_INZ.
      unfold Rdiv. do 3 f_equal. apply pool_window_length.
  - intros n ch y x Hn Hc Hy Hx. pose proof (half_even He) as Hp. fold p in Hp.
    apply (get_np_pad4 (0 : @num real_scalar) Hsh); lia.
Qed.

End PoolForwardOnReals.

Module PoolForwardExample.

Definition max2x2 : pool_params.t := pool_params.mk "max" 2 2 1 0.
Definition image : @tensor real_scalar := mk_ndarray [1; 1; 2; 2] [1%R; 4%R; 3%R; 2%R].

Lemma pool_forward_on_reals_witness :
  exists out, operators.pool.forward max2x2 image = Ok out /\ shape out = [1; 1; 1; 1].
Proof.
  destruct (@pool_forward_on_reals max2x2 image 1 1 2 2 eq_refl
              ltac:(discriminate) eq_refl
              ltac:(cbn; lia) ltac:(cbn; lia) (or_introl eq_refl))
    as (out & E & Ho & _).
  exists out. split; [exact E | exact Ho].
Defined.

End PoolForwardExample.

(* ===================================================================== *)
(** * What the convolution layer computes *)
(* ===================================================================== *)

Section RepeatTile.
Context {A : Type}.

Lemma length_flat_map_repeat (xs : list A) (m : nat) :
  length (flat_map (fun x => repeat x m) xs) = length xs * m.
Proof.
  induction xs as [|x xs IH]; [reflexivity|].
  cbn [flat_map length]. rewrite length_app, repeat_length, IH. lia.
Qed.

Lemma nth_repeat_lt (x d : A) (m k : nat) : k < m -> nth k (repeat x m) d = x.
Proof.
  revert k. induction m as [|m IH]; intros k Hk; [lia|].
  destruct k as [|k]; [reflexivity|]. cbn [repeat nth]. apply IH. lia.
Qed.

(** [np.repeat(xs, m)[k] = xs[k // m]]. *)
Lemma nth_flat_map_repeat (xs : list A) (m k : nat) (d : A) :
  k < length xs * m -> nth k (flat_map (fun x => repeat x m) xs) d = nth (k / m) xs d.
Proof.
  revert k. induction xs as [|x xs IH]; intros k Hk; [cbn in Hk; lia|].
  cbn [flat_map length] in *.
  assert (Hm : m <> 0) by (intros ->; lia).
  destruct (Nat.lt_ge_cases k m) as [Hlt|Hge].
  - rewrite app_nth1 by (rewrite repeat_length; exact Hlt).
    rewrite Nat.div_small by exact Hlt. apply nth_repeat_lt. exact Hlt.
  - rewrite app_nth2 by (rewrite repeat_length; exact Hge). rewrite repeat_length.
    rewrite IH by lia.
    replace (k / m) with (S ((k - m) / m)); [reflexivity|].
    replace k with ((k - m) + 1 * m) at 2 by lia.
    rewrite Nat.div_add by exact Hm. lia.
Qed.

Lemma length_concat_repeat (xs : list A) (t : nat) :
  length (concat (repeat xs t)) = t * length xs.
Proof.
  induction t as [|t IH]; [reflexivity|].
  cbn [repeat concat]. rewrite length_app, IH. lia.
Qed.

(** [np.tile(xs, t)[k] = xs[k % len(xs)]]. *)
Lemma nth_concat_repeat (xs : list A) (t k : nat) (d : A) :
  k < t * length xs -> nth k (concat (repeat xs t)) d = nth (k mod length xs) xs d.
Proof.
  revert k. induction t as [|t IH]; intros k Hk; [lia|].
  cbn [repeat concat].
  assert (Hl : length xs <> 0) by (intros E; rewrite E in Hk; lia).
  destruct (Nat.lt_ge_cases k (length xs)) as [Hlt|Hge].
  - rewrite app_nth1 by exact Hlt. rewrite Nat.mod_small by exact Hlt. reflexivity.
  - rewrite app_nth2 by exact Hge. rewrite IH by lia.
    replace k with ((k - length xs) + 1 * length xs) at 2 by lia.
    rewrite Nat.Div0.mod_add. reflexivity.
Qed.

Lemma np_repeat_nat (xs : list A) (m : nat) :
  np_repeat xs (Z.of_nat m) = Ok (flat_map (fun x => repeat x m) xs).
Proof.
  unfold np_repeat. destruct (Z.ltb_spec (Z.of_nat m) 0) as [Hlt|_]; [lia|].
  rewrite Nat2Z.id. reflexivity.
Qed.

Lemma np_tile_nat (xs : list A) (t : nat) :
  np_tile xs (Z.of_nat t) = Ok (concat (repeat xs t)).
Proof.
  unfold np_tile. destruct xs as [|x xs].
  - f_equal. induction t as [|t IH]; [reflexivity | exact IH].
  - destruct (Z.ltb_spec (Z.of_nat t) 0) as [Hlt|_]; [lia|].
    rewrite Nat2Z.id. reflexivity.
Qed.

(** A reshaped array is read at the cell with the same row-major offset. *)
Lemma get_reshape `{Dflt A} (a r : ndarray A) (sh : list Z) (idx idx' : list nat) :
  reshape a sh = Ok r -> ravel (shape r) idx = ravel (shape a) idx' ->
  get r idx = get a idx'.
Proof.
  intros E Hr. unfold get. rewrite (reshape_data E), Hr. reflexivity.
Qed.

Lemma reshape_column (a : ndarray A) :
  reshape a [-1; 1]%Z = Ok (mk_ndarray [length (data a); 1] (data a)).
Proof.
  unfold reshape. cbn. rewrite Nat.mod_1_r. cbn. rewrite Nat.div_1_r. reflexivity.
Qed.

Lemma reshape_one_row (a : ndarray A) :
  reshape a [1; -1]%Z = Ok (mk_ndarray [1; length (data a)] (data a)).
Proof.
  unfold reshape. cbn. rewrite Nat.mod_1_r. cbn. rewrite Nat.div_1_r. reflexivity.
Qed.

End RepeatTile.

Lemma length_np_arange (n : nat) : length (np_arange (Z.of_nat n)) = n.
Proof. unfold np_arange. rewrite length_map, length_seq. apply Nat2Z.id. Qed.

Lemma nth_np_arange (n k : nat) (d : Z) :
  k < n -> nth k (np_arange (Z.of_nat n)) d = Z.of_nat k.
Proof.
  intro Hk. unfold np_arange. rewrite Nat2Z.id.
  rewrite nth_indep with (d' := Z.of_nat 0) by (rewrite length_map, length_seq; exact Hk).
  rewrite map_nth, seq_nth by exact Hk. reflexivity.
Qed.

Section OuterSum.
Context {A B D : Type} `{Dflt A} `{Dflt B} `{Dflt D}.

Lemma broadcast_shapes_outer (n m : nat) : broadcast_shapes [n; 1] [1; m] = Some [n; m].
Proof.
  unfold broadcast_shapes. cbn.
  destruct (n =? 1) eqn:E; [apply Nat.eqb_eq in E; subst|];
    destruct m as [|[|m]]; reflexivity.
Qed.

Lemma broadcast_shapes_col_left (n m : nat) : broadcast_shapes [n; 1] [n; m] = Some [n; m].
Proof.
  unfold broadcast_shapes. cbn. rewrite Nat.eqb_refl.
  destruct m as [|[|m]]; reflexivity.
Qed.

(** An operation of a column and a row, each broadcast along the other. *)
Lemma broadcast2_outer (f : A -> B -> D) (a : ndarray A) (r : ndarray B) (n m : nat) :
  shape a = [n; 1] -> shape r = [1; m] ->
  exists c, broadcast2 f a r = Ok c /\ shape c = [n; m]
            /\ forall i j, i < n -> j < m -> get c [i; j] = f (get a [i; 0]) (get r [0; j]).
Proof.
  intros Ha Hr. unfold broadcast2. rewrite Ha, Hr, broadcast_shapes_outer.
  eexists. split; [reflexivity|]. split; [reflexivity|].
  intros i j Hi Hj. rewrite get_build by (apply in_bounds2; assumption).
  unfold bcast_idx. cbn.
  destruct (Nat.eqb_spec n 1) as [->|_]; destruct (Nat.eqb_spec m 1) as [->|_];
    repeat f_equal; lia.
Qed.

End OuterSum.

Section PatchIndexes.
Context {S : Scalar}.

Lemma get_column {A : Type} `{Dflt A} (xs : list A) (n r : nat) :
  get (mk_ndarray [n; 1] xs) [r; 0] = nth r xs dflt.
Proof. unfold get. cbn. f_equal. lia. Qed.

Lemma get_one_row {A : Type} `{Dflt A} (xs : list A) (n q : nat) :
  get (mk_ndarray [1; n] xs) [0; q] = nth q xs dflt.
Proof. unfold get. cbn. f_equal. lia. Qed.

(** The three index arrays: row [r] of the patch matrix stands for the
    channel [r // (k_h * k_w)] and the kernel cell
    [((r % (k_h * k_w)) // k_w, r % k_w)]; column [q] for the output position
    [(q // o_w, q % o_w)]. *)
Lemma im2col_data_indexes (N c n_h n_w k_h k_w p s o_h o_w : nat) :
  exists ci hi wi,
    operators.conv.get_im2col_data_indexes N c n_h n_w k_h k_w p s
      (Z.of_nat o_h) (Z.of_nat o_w) = Ok (ci, hi, wi)
    /\ shape ci = [c * k_h * k_w; 1]
    /\ shape hi = [c * k_h * k_w; o_h * o_w]
    /\ shape wi = [c * k_h * k_w; o_h * o_w]
    /\ forall r q, r < c * k_h * k_w -> q < o_h * o_w ->
         get ci [r; 0] = Z.of_nat (r / (k_h * k_w))
         /\ get hi [r; q]
            = (Z.of_nat (r mod (k_h * k_w) / k_w) + Z.of_nat (q / o_w) * Z.of_nat s)%Z
         /\ get wi [r; q] = (Z.of_nat (r mod k_w) + Z.of_nat (q mod o_w) * Z.of_nat s)%Z.
Proof.
  unfold operators.conv.get_im2col_data_indexes.
  rewrite !np_repeat_nat. cbn [bind]. rewrite !np_tile_nat. cbn [bind].
  rewrite !reshape_column, !reshape_one_row. cbn [bind array1 data].
  set (chan := flat_map _ (np_arange (Z.of_nat c))).
  set (kh := concat (repeat (flat_map _ (np_arange (Z.of_nat k_h))) c)).
  set (kw := concat (repeat (np_arange (Z.of_nat k_w)) (k_h * c))).
  set (ho := map _ (flat_map _ (np_arange (Z.of_nat o_h)))).
  set (wo := map _ (concat (repeat (np_arange (Z.of_nat o_w)) o_h))).
  assert (Lchan : length chan = c * k_h * k_w).
  { unfold chan. rewrite length_flat_map_repeat, length_np_arange. lia. }
  assert (Lkh : length kh = c * k_h * k_w).
  { unfold kh. rewrite length_concat_repeat, length_flat_map_repeat, length_np_arange. lia. }
  assert (Lkw : length kw = c * k_h * k_w).
  { unfold kw. rewrite length_concat_repeat, length_np_arange. lia. }
  assert (Lho : length ho = o_h * o_w).
  { unfold ho. rewrite length_map, length_flat_map_repeat, length_np_arange. lia. }
  assert (Lwo : length wo = o_h * o_w).
  { unfold wo. rewrite length_map, length_concat_repeat, length_np_arange. lia. }
  rewrite Lchan, Lkh, Lkw, Lho, Lwo.
  destruct (broadcast2_outer Z.add (a := mk_ndarray [c * k_h * k_w; 1] kh)
              (r := mk_ndarray [1; o_h * o_w] ho) eq_refl eq_refl) as (hi & Ehi & Hhi & Ghi).
  destruct (broadcast2_outer Z.add (a := mk_ndarray [c * k_h * k_w; 1] kw)
              (r := mk_ndarray [1; o_h * o_w] wo) eq_refl eq_refl) as (wi & Ewi & Hwi & Gwi).
  rewrite Ehi. cbn [bind]. rewrite Ewi. cbn [bind].
  eexists _, hi, wi. split; [reflexivity|]. split; [reflexivity|].
  split; [exact Hhi|]. split; [exact Hwi|].
  intros r q Hr Hq.
  assert (Hkk : k_h * k_w <> 0) by (intros E; rewrite <- Nat.mul_assoc, E in Hr; lia).
  assert (Hkw : k_w <> 0) by (intros ->; lia).
  assert (Hkh : k_h <> 0) by (intros ->; lia).
  assert (How : o_w <> 0) by (intros ->; lia).
  rewrite Ghi, Gwi by assumption. rewrite !get_column, !get_one_row.
  split; [|split].
  - unfold chan. rewrite nth_flat_map_repeat by (rewrite length_np_arange; lia).
    apply nth_np_arange. apply Nat.Div0.div_lt_upper_bound. lia.
  - f_equal.
    + unfold kh. rewrite nth_concat_repeat
        by (rewrite length_flat_map_repeat, length_np_arange; lia).
      rewrite length_flat_map_repeat, length_np_arange.
      pose proof (Nat.mod_upper_bound r (k_h * k_w) Hkk) as Hm.
      rewrite nth_flat_map_repeat by (rewrite length_np_arange; exact Hm).
      apply nth_np_arange. apply Nat.Div0.div_lt_upper_bound. lia.
    + unfold ho.
      rewrite nth_indep with (d' := (0 * Z.of_nat s)%Z)
        by (rewrite length_map, length_flat_map_repeat, length_np_arange; lia).
      rewrite (map_nth (fun x => (x * Z.of_nat s)%Z)). f_equal.
      rewrite nth_flat_map_repeat by (rewrite length_np_arange; lia).
      apply nth_np_arange. apply Nat.Div0.div_lt_upper_bound. lia.
  - f_equal.
    + unfold kw. rewrite nth_concat_repeat by (rewrite length_np_arange; lia).
      rewrite length_np_arange. apply nth_np_arange. apply Nat.mod_upper_bound. exact Hkw.
    + unfold wo.
      rewrite nth_indep with (d' := (0 * Z.of_nat s)%Z)
        by (rewrite length_map, length_concat_repeat, length_np_arange; lia).
      rewrite (map_nth (fun x => (x * Z.of_nat s)%Z)). f_equal.
      rewrite nth_concat_repeat by (rewrite length_np_arange; lia).
      rewrite length_np_arange. apply nth_np_arange. apply Nat.mod_upper_bound. exact How.
Qed.

End PatchIndexes.

Section FancyIndex.
Context {A : Type} `{Dflt A}.

Lemma norm_index_nat_lt (n i : nat) : i < n -> norm_index n (Z.of_nat i) = Some i.
Proof.
  intro Hi. unfold norm_index.
  destruct (Z.leb_spec 0 (Z.of_nat i)) as [_|]; [|lia].
  destruct (Z.ltb_spec (Z.of_nat i) (Z.of_nat n)) as [_|]; [|lia].
  cbn [andb]. rewrite Nat2Z.id. reflexivity.
Qed.

Lemma in_bounds3 (a b c i j k : nat) :
  i < a -> j < b -> k < c -> in_bounds [a; b; c] [i; j; k] = true.
Proof. intros. cbn [in_bounds]. rewrite !(proj2 (Nat.ltb_lt _ _)) by lia. reflexivity. Qed.

Lemma bcast_idx_column (R r q : nat) : r < R -> bcast_idx [R; 1] [r; q] = [r; 0].
Proof.
  intro Hr. unfold bcast_idx. cbn.
  destruct (Nat.eqb_spec R 1) as [->|_]; repeat f_equal; lia.
Qed.

(** [X[:, ci, hi, wi]] for a column of channels and two matrices of rows and
    columns that stay inside the image. *)
Lemma take4_patches (X : ndarray A) (ci hi wi : ndarray Z) (N C n_h n_w R Q : nat)
  (fc : nat -> nat) (fh fw : nat -> nat -> nat) :
  shape X = [N; C; n_h; n_w] ->
  shape ci = [R; 1] -> shape hi = [R; Q] -> shape wi = [R; Q] ->
  (forall r q, r < R -> q < Q ->
     get ci [r; 0] = Z.of_nat (fc r) /\ get hi [r; q] = Z.of_nat (fh r q)
     /\ get wi [r; q] = Z.of_nat (fw r q)
     /\ fc r < C /\ fh r q < n_h /\ fw r q < n_w) ->
  exists P, take4 X ci hi wi = Ok P /\ shape P = [N; R; Q]
    /\ forall n r q, n < N -> r < R -> q < Q ->
         get P [n; r; q] = get X [n; fc r; fh r q; fw r q].
Proof.
  intros HX Hci Hhi Hwi Hidx.
  assert (Ht : forall n r q, r < R -> q < Q ->
             fancy_target X ci hi wi [n; r; q] = Some [n; fc r; fh r q; fw r q]).
  { intros n r q Hr Hq. unfold fancy_target. rewrite HX, Hci, Hhi, Hwi.
    rewrite bcast_idx_column by exact Hr.
    rewrite bcast_idx_in_bounds by (apply in_bounds2; assumption).
    destruct (Hidx r q Hr Hq) as (-> & -> & -> & Hc & Hh & Hw).
    rewrite !norm_index_nat_lt by assumption. reflexivity. }
  unfold take4. rewrite HX. unfold fancy_shape. rewrite Hci, Hhi, Hwi.
  rewrite broadcast_shapes_col_left, broadcast_shapes_refl.
  replace (fancy_checked X ci hi wi [R; Q]) with true.
  - eexists. split; [reflexivity|]. split; [reflexivity|].
    intros n r q Hn Hr Hq. rewrite get_build by (apply in_bounds3; assumption).
    rewrite Ht by assumption. reflexivity.
  - symmetry. unfold fancy_checked. apply forallb_forall. intros rest Hin.
    apply in_map_iff in Hin as (k & <- & Hk). apply in_seq in Hk.
    assert (Hb := @unravel_in_bounds [R; Q] k ltac:(lia)).
    cbn [unravel in_bounds] in Hb |- *.
    apply andb_true_iff in Hb as [B1 B2]. apply andb_true_iff in B2 as [B2 _].
    apply Nat.ltb_lt in B1, B2. rewrite Ht by assumption. reflexivity.
Qed.

End FancyIndex.

Section PatchMatrix.
Context {S : Scalar}.

Lemma get_transpose_120 {A : Type} `{Dflt A} (a : ndarray A) (N R Q n r q : nat) :
  shape a = [N; R; Q] -> n < N -> r < R -> q < Q ->
  get (transpose a [1; 2; 0]) [r; q; n] = get a [n; r; q].
Proof.
  intros Hsh Hn Hr Hq. unfold transpose. rewrite Hsh. cbn [map nth length seq].
  rewrite get_build by (apply in_bounds3; assumption). reflexivity.
Qed.

(** The patch matrix: its row [r] and its column [q * N + n] hold the entry
    of image [n] that the kernel cell of [r] meets at the output position of
    [q]. *)
Lemma conv_img2col (X : tensor) (N c n_h n_w k_h k_w p s : nat) :
  shape X = [N; c; n_h + p; n_w + p] ->
  s <> 0 -> 1 <= c -> 1 <= k_h <= n_h + p -> 1 <= k_w <= n_w + p ->
  let o_h := (n_h + p - k_h) / s + 1 in
  let o_w := (n_w + p - k_w) / s + 1 in
  exists X_hat,
    operators.conv.img2col X N c n_h n_w k_h k_w p s = Ok (X_hat, Z.of_nat o_h, Z.of_nat o_w)
    /\ shape X_hat = [c * k_h * k_w; o_h * o_w * N]
    /\ forall r q n, r < c * k_h * k_w -> q < o_h * o_w -> n < N ->
         get X_hat [r; q * N + n]
         = get X [n; r / (k_h * k_w);
                  q / o_w * s + r mod (k_h * k_w) / k_w;
                  q mod o_w * s + r mod k_w].
Proof.
  intros HX Hs Hc Hkh Hkw o_h o_w.
  unfold operators.conv.img2col.
  rewrite (output_size_nat Hs (proj2 Hkh)), (output_size_nat Hs (proj2 Hkw)). cbn [bind].
  fold o_h o_w.
  destruct (im2col_data_indexes N c n_h n_w k_h k_w p s o_h o_w)
    as (ci & hi & wi & E & Hci & Hhi & Hwi & G).
  rewrite E. cbn [bind].
  set (R := c * k_h * k_w) in *. set (Q := o_h * o_w) in *.
  assert (Hkk : k_h * k_w <> 0) by nia.
  assert (How : o_w <> 0) by (unfold o_w; lia).
  destruct (take4_patches (X := X) (fc := fun r => r / (k_h * k_w))
              (fh := fun r q => q / o_w * s + r mod (k_h * k_w) / k_w)
              (fw := fun r q => q mod o_w * s + r mod k_w) HX Hci Hhi Hwi)
    as (P & EP & HP & GP).
  { intros r q Hr Hq. destruct (G r q Hr Hq) as (-> & -> & ->).
    split; [reflexivity|]. split; [lia|]. split; [lia|].
    assert (Hdy : r mod (k_h * k_w) / k_w < k_h).
    { pose proof (Nat.mod_upper_bound r (k_h * k_w) Hkk).
      apply Nat.Div0.div_lt_upper_bound. lia. }
    assert (Hdx : r mod k_w < k_w) by (apply Nat.mod_upper_bound; lia).
    assert (Hi : q / o_w < o_h).
    { apply Nat.Div0.div_lt_upper_bound. unfold Q in Hq. lia. }
    assert (Hj : q mod o_w < o_w) by (apply Nat.mod_upper_bound; exact How).
    pose proof (window_inside Hs (proj2 Hkh) Hi) as Wi.
    pose proof (window_inside Hs (proj2 Hkw) Hj) as Wj.
    split; [|lia]. apply Nat.Div0.div_lt_upper_bound. unfold R in Hr. lia. }
  rewrite EP. cbn [bind]. unfold operators.transpose_axes. rewrite HP. cbn [length Nat.eqb bind].
  set (T := transpose P [1; 2; 0]).
  assert (HT : shape T = [R; Q; N]) by (unfold T, transpose; rewrite HP; reflexivity).
  assert (LT : length (data T) = R * (Q * N)).
  { unfold T, transpose, build. cbn [data]. rewrite length_map, length_seq, HP.
    cbn [map nth size_of fold_right]. lia. }
  assert (HR : k_h * k_w * c = R) by (unfold R; lia).
  assert (HR0 : R <> 0) by (unfold R; nia).
  assert (HmodT : length (data T) mod R = 0)
    by (rewrite LT, Nat.mul_comm; apply Nat.Div0.mod_mul).
  rewrite HR, (reshape_rows HR0 HmodT).
  cbn [bind]. eexists. split; [reflexivity|].
  rewrite LT. rewrite (Nat.mul_comm R), Nat.div_mul by exact HR0.
  split; [reflexivity|].
  intros r q n Hr Hq Hn. rewrite <- (GP n r q Hn Hr Hq).
  rewrite <- (get_transpose_120 HP Hn Hr Hq). fold T.
  unfold get. cbn [shape data]. rewrite HT. cbn [ravel size_of fold_right]. f_equal. lia.
Qed.

End PatchMatrix.

Section ConvForward.
Context {S : Scalar}.
Import conv_params.

Lemma get_transpose_3012 {A : Type} `{Dflt A} (a : ndarray A) (o_c o_h o_w N n o i j : nat) :
  shape a = [o_c; o_h; o_w; N] -> n < N -> o < o_c -> i < o_h -> j < o_w ->
  get (transpose a [3; 0; 1; 2]) [n; o; i; j] = get a [o; i; j; n].
Proof.
  intros Hsh Hn Ho Hi Hj. unfold transpose. rewrite Hsh. cbn [map nth length seq].
  rewrite get_build by (apply in_bounds4; lia). reflexivity.
Qed.

Lemma offset_lt (a b i j : nat) : i < a -> j < b -> i * b + j < a * b.
Proof. intros Hi Hj. assert (i * b + b <= a * b); [|lia]. nia. Qed.

Lemma mod_mod_factor (r a b : nat) : r mod (a * b) mod b = r mod b.
Proof.
  rewrite (Nat.mul_comm a b), Nat.Div0.mod_mul_r.
  rewrite (Nat.mul_comm b), Nat.Div0.mod_add. apply Nat.Div0.mod_mod.
Qed.

(** Each entry of the output of [conv.forward] is the bias of its output
    channel plus the sum, over the input channels and the kernel cells, of
    the weight times the entry of the padded image under it. *)
Lemma conv_forward_entries (cp : conv_params.t) (input weights bias : tensor)
  (N c h w : nat) :
  shape input = [N; c; h; w] ->
  shape weights = [out_channel cp; c; kernel_h cp; kernel_w cp] -> wf weights ->
  shape bias = [out_channel cp] -> wf bias ->
  1 <= out_channel cp -> 1 <= c ->
  stride cp <> 0 -> Nat.even (pad cp) = true ->
  1 <= kernel_h cp <= h + pad cp -> 1 <= kernel_w cp <= w + pad cp ->
  let o_h := (h + pad cp - kernel_h cp) / stride cp + 1 in
  let o_w := (w + pad cp - kernel_w cp) / stride cp + 1 in
  let X_pad := np_pad s_zero input [(0, 0); (0, 0); (pad cp / 2, pad cp / 2);
                                    (pad cp / 2, pad cp / 2)] in
  exists out,
    operators.conv.forward cp input weights bias = Ok out
    /\ shape out = [N; out_channel cp; o_h; o_w]
    /\ forall n o i j, n < N -> o < out_channel cp -> i < o_h -> j < o_w ->
         get out [n; o; i; j]
         = s_add (sum_list
                    (map (fun d => s_mul (get weights (o :: d))
                                     (get X_pad [n; nth 0 d 0;
                                                 i * stride cp + nth 1 d 0;
                                                 j * stride cp + nth 2 d 0]))
                         (indices [c; kernel_h cp; kernel_w cp])))
                 (get bias [o]).
Proof.
  intros Hin Hw Wfw Hb Wfb Hoc Hc Hs He Hkh Hkw o_h o_w X_pad.
  unfold operators.conv.forward. rewrite Hin. cbv zeta. fold X_pad.
  set (o_c := out_channel cp) in *. set (k_h := kernel_h cp) in *.
  set (k_w := kernel_w cp) in *. set (s := stride cp) in *.
  pose proof (half_even He) as Hp.
  assert (HX : shape X_pad = [N; c; h + pad cp; w + pad cp]).
  { unfold X_pad. rewrite (np_pad_shape4 (pad cp / 2, pad cp / 2) (pad cp / 2, pad cp / 2) Hin).
    cbn [fst snd].
    replace (pad cp / 2 + h + pad cp / 2) with (h + pad cp) by lia.
    replace (pad cp / 2 + w + pad cp / 2) with (w + pad cp) by lia. reflexivity. }
  destruct (conv_img2col (X := X_pad) (N := N) HX Hs Hc Hkh Hkw) as (X_hat & EX & HXh & GX).
  fold o_h o_w in EX, HXh, GX.
  set (R := c * k_h * k_w) in *.
  rewrite EX. cbn [bind].
  (* the weights *)
  destruct weights as [wsh wdata]. cbn [shape] in Hw. unfold wf in Wfw. cbn [shape data] in Wfw.
  subst wsh. cbn [size_of fold_right] in Wfw.
  change [Z.of_nat o_c; Z.of_nat R] with (map Z.of_nat [o_c; R]).
  rewrite reshape_back by (rewrite Wfw; cbn [size_of fold_right]; unfold R; lia).
  cbn [bind].
  (* the bias *)
  replace (Z.of_nat N * Z.of_nat o_h * Z.of_nat o_w)%Z
    with (Z.of_nat (o_h * o_w * N)) by lia.
  rewrite np_repeat_nat. cbn [bind].
  unfold wf in Wfb. rewrite Hb in Wfb. cbn [size_of fold_right] in Wfb.
  set (bs := flat_map _ (data bias)).
  assert (Lbs : length bs = o_c * (o_h * o_w * N)).
  { unfold bs. rewrite length_flat_map_repeat. lia. }
  assert (Hoc0 : o_c <> 0) by lia.
  assert (Hmod : length (data (array1 bs)) mod o_c = 0).
  { cbn [array1 data]. rewrite Lbs, Nat.mul_comm. apply Nat.Div0.mod_mul. }
  rewrite (reshape_rows Hoc0 Hmod). cbn [bind array1 data].
  rewrite Lbs, (Nat.mul_comm o_c), Nat.div_mul by exact Hoc0.
  (* the product *)
  set (W := mk_ndarray [o_c; R] wdata).
  set (b := mk_ndarray [o_c; o_h * o_w * N] bs).
  destruct (matmul W X_hat) as [Y|e] eqn:EY;
    [|unfold matmul in EY; cbn [shape W] in EY; rewrite HXh in EY; fold R in EY;
      rewrite Nat.eqb_refl in EY; discriminate].
  assert (HY : shape Y = [o_c; o_h * o_w * N]).
  { unfold matmul in EY. cbn [shape W] in EY. rewrite HXh in EY. fold R in EY.
    rewrite Nat.eqb_refl in EY. injection EY as <-. reflexivity. }
  pose proof (@get_matmul _ W X_hat Y o_c R (o_h * o_w * N) ) as GY.
  cbn [bind].
  destruct (broadcast2_same_get s_add (a := Y) (b := b)) as (Yb & EYb & HYb & WfYb & GYb);
    [rewrite HY; reflexivity|].
  rewrite EYb. cbn [bind]. rewrite HY in HYb.
  destruct Yb as [ysh ydata]. cbn [shape] in HYb. subst ysh.
  unfold wf in WfYb. cbn [shape data size_of fold_right] in WfYb.
  change [Z.of_nat o_c; Z.of_nat o_h; Z.of_nat o_w; Z.of_nat N]
    with (map Z.of_nat [o_c; o_h; o_w; N]).
  rewrite reshape_back by (rewrite WfYb; cbn [size_of fold_right]; lia).
  cbn [bind]. unfold operators.transpose_axes. cbn [shape length Nat.eqb].
  eexists. split; [reflexivity|]. split; [reflexivity|].
  intros n o i j Hn Ho Hi Hj.
  rewrite (get_transpose_3012 (a := mk_ndarray [o_c; o_h; o_w; N] ydata) eq_refl Hn Ho Hi Hj).
  assert (Hq : i * o_w + j < o_h * o_w) by (apply offset_lt; assumption).
  assert (Hcol : (i * o_w + j) * N + n < o_h * o_w * N) by (apply offset_lt; assumption).
  transitivity (get (mk_ndarray [o_c; o_h * o_w * N] ydata) [o; (i * o_w + j) * N + n]).
  { unfold get. cbn [shape data ravel size_of fold_right]. f_equal. ring. }
  rewrite GYb by (rewrite HY; apply in_bounds2; assumption).
  rewrite (GY o ((i * o_w + j) * N + n) eq_refl HXh EY Ho Hcol).
  f_equal.
  - unfold indices. rewrite map_map.
    replace (size_of [c; k_h; k_w]) with R by (cbn [size_of fold_right]; unfold R; lia).
    f_equal. apply map_ext_in. intros r Hr. apply in_seq in Hr.
    assert (Hkk : k_h * k_w <> 0) by nia.
    assert (How : o_w <> 0) by (unfold o_w; lia).
    f_equal.
    + unfold W, get. cbn [shape data ravel size_of fold_right]. f_equal.
      pose proof (@ravel_unravel [c; k_h; k_w] r
                    ltac:(cbn [size_of fold_right]; unfold R in Hr; lia)) as Hru.
      cbn [size_of fold_right] in Hru. cbn [unravel size_of fold_right ravel] in Hru |- *.
      unfold R. lia.
    + rewrite (GX r (i * o_w + j) n ltac:(lia) Hq Hn).
      cbn [unravel size_of fold_right nth]. rewrite !Nat.mul_1_r, Nat.div_1_r.
      rewrite mod_mod_factor.
      rewrite Nat.div_add_l by exact How. rewrite (Nat.div_small j o_w) by exact Hj.
      rewrite Nat.add_0_r.
      rewrite (Nat.add_comm (i * o_w) j), Nat.Div0.mod_add, (Nat.mod_small j o_w) by exact Hj.
      reflexivity.
  - unfold b, get. cbn [shape data ravel size_of fold_right]. rewrite Hb.
    cbn [ravel size_of fold_right]. unfold bs.
    rewrite nth_flat_map_repeat by (rewrite Wfb; nia).
    f_equal.
    replace (o * ((o_h * o_w * N) * 1) + (((i * o_w + j) * N + n) * 1 + 0))
      with ((i * o_w + j) * N + n + o * (o_h * o_w * N)) by lia.
    rewrite Nat.div_add by lia. rewrite Nat.div_small by exact Hcol. lia.
Qed.

End ConvForward.

Section ConvForwardOnReals.
Local Open Scope R_scope.
Import conv_params.

(** X16: [conv.forward] returns on an input of shape [(N, c, h, w)] with
    weights of shape [(out_channel, c, kernel_h, kernel_w)] and one bias per
    output channel, whenever the stride is not zero, the padding is even and
    the kernel is not empty and fits in the padded image. On the real
    numbers the output entry [(n, o, i, j)] is then the bias of channel [o]
    plus the sum, over the input channels [d0] and the kernel cells
    [(d1, d2)], of the weight [(o, d0, d1, d2)] times the entry
    [(n, d0, i * stride + d1, j * stride + d2)] of the zero-padded image:
    a cross-correlation, with the padding split evenly on both sides. *)
Theorem conv_forward_on_reals (cp : conv_params.t)
  (input weights bias : @tensor real_scalar) (N c h w : nat) :
  shape input = [N; c; h; w] ->
  shape weights = [out_channel cp; c; kernel_h cp; kernel_w cp] -> wf weights ->
  shape bias = [out_channel cp] -> wf bias ->
  (1 <= out_channel cp)%nat -> (1 <= c)%nat ->
  stride cp <> 0%nat -> Nat.even (pad cp) = true ->
  (1 <= kernel_h cp <= h + pad cp)%nat -> (1 <= kernel_w cp <= w + pad cp)%nat ->
  let o_h := ((h + pad cp - kernel_h cp) / stride cp + 1)%nat in
  let o_w := ((w + pad cp - kernel_w cp) / stride cp + 1)%nat in
  let p := (pad cp / 2)%nat in
  let X_pad := np_pad (0 : @num real_scalar) input [(0, 0); (0, 0); (p, p); (p, p)]%nat in
  exists out,
    operators.conv.forward cp input weights bias = Ok out
    /\ shape out = [N; out_channel cp; o_h; o_w]
    /\ (forall n o i j, (n < N)%nat -> (o < out_channel cp)%nat ->
          (i < o_h)%nat -> (j < o_w)%nat ->
          get out [n; o; i; j]
          = sum_list
              (map (fun d => get weights (o :: d)
                             * get X_pad [n; nth 0 d 0%nat;
                                          (i * stride cp + nth 1 d 0)%nat;
                                          (j * stride cp + nth 2 d 0)%nat])
                   (indices [c; kernel_h cp; kernel_w cp]))
            + get bias [o])
    /\ (forall n ch y x, (n < N)%nat -> (ch < c)%nat ->
          (y < h + pad cp)%nat -> (x < w + pad cp)%nat ->
          get X_pad [n; ch; y; x]
          = if (p <=? y)%nat && (y <? p + h)%nat && ((p <=? x)%nat && (x <? p + w)%nat)
            then get input [n; ch; (y - p)%nat; (x - p)%nat] else 0).
Proof.
  intros Hin Hw Wfw Hb Wfb Hoc Hc Hs He Hkh Hkw o_h o_w p X_pad.
  destruct (conv_forward_entries Hin Hw Wfw Hb Wfb Hoc Hc Hs He Hkh Hkw)
    as (out & E & Ho & G).
  exists out. split; [exact E|]. split; [exact Ho|]. split.
  - intros n o i j Hn Hoo Hi Hj. rewrite (G n o i j Hn Hoo Hi Hj). reflexivity.
  - intros n ch y x Hn Hch Hy Hx. pose proof (half_even He) as Hp. fold p in Hp.
    apply (get_np_pad4 (0 : @num real_scalar) Hin); lia.
Qed.

End ConvForwardOnReals.

Module ConvForwardExample.

Definition conv1x2 : conv_params.t := conv_params.mk 1 2 1 0 1 1.
Definition image : @tensor real_scalar := mk_ndarray [1; 1; 1; 2] [3%R; 4%R].
Definition kernel : @tensor real_scalar := mk_ndarray [1; 1; 1; 2] [10%R; 100%R].
Definition bias : @tensor real_scalar := mk_ndarray [1] [1%R].

Lemma conv_forward_on_reals_witness :
  exists out, operators.conv.forward conv1x2 image kernel bias = Ok out
              /\ shape out = [1; 1; 1; 1].
Proof.
  destruct (@conv_forward_on_reals conv1x2 image kernel bias 1 1 1 2
              eq_refl eq_refl eq_refl eq_refl eq_refl
              ltac:(cbn; lia) ltac:(lia) ltac:(discriminate) eq_refl
              ltac:(cbn; lia) ltac:(cbn; lia))
    as (out & E & Ho & _).
  exists out. split; [exact E | exact Ho].
Defined.

End ConvForwardExample.

(* ===================================================================== *)
(** * The probabilities, the loss and the gradient: their ranges *)
(* ===================================================================== *)

Section SoftmaxBounds.
Local Open Scope R_scope.

(** The shifted row has a zero entry, so its exponentials sum to at least 1. *)
Lemma row_Z_at_least_one (input : @tensor real_scalar) (C i : nat) :
  (1 <= C)%nat -> 1 <= row_Z (T := real_transcendental) input C i.
Proof.
  intro HC.
  assert (Hin : In (max_list (S := real_scalar) (row input C i)) (row input C i)).
  { apply max_list_in. unfold row. destruct C; [lia|]. discriminate. }
  unfold row in Hin at 2. apply in_map_iff in Hin as (j & Ej & Hj). apply in_seq in Hj.
  pose proof (row_Z_bounds input i (j := j) (C := C) ltac:(lia)) as Hb.
  unfold shifted in Hb. cbn [s_sub real_scalar] in Hb. rewrite Ej in Hb.
  rewrite Rminus_diag, np_exp_zero in Hb. exact Hb.
Qed.

(** [log(Z + eps)] is taken of a number above 1. *)
Lemma log_Z_nonneg (input : @tensor real_scalar) (C i : nat) :
  (1 <= C)%nat -> 0 <= ln (row_Z (T := real_transcendental) input C i + 1 / 1000000000000).
Proof.
  intro HC. pose proof (row_Z_at_least_one input i HC) as HZ.
  rewrite <- ln_1. left. apply ln_increasing; lra.
Qed.

Lemma log_prob_nonpos (input : @tensor real_scalar) (C i j : nat) :
  (j < C)%nat -> log_prob (T := real_transcendental) input C i j <= 0.
Proof.
  intro Hj. unfold log_prob. cbn [s_sub s_log s_add s_eps real_scalar real_transcendental].
  pose proof (shifted_nonpos input i Hj) as Hs.
  pose proof (log_Z_nonneg input i (C := C) ltac:(lia)) as Hl.
  lra.
Qed.

Lemma sum_list_nonpos (xs : list R) :
  (forall y, In y xs -> y <= 0) -> sum_list (S := real_scalar) xs <= 0.
Proof.
  intro Hneg. unfold sum_list. cbn [s_add s_zero real_scalar].
  assert (G : forall (l : list R) (a : R),
            (forall y, In y l -> y <= 0) -> fold_left Rplus l a <= a).
  { induction l as [|z l IH]; intros a Hl; cbn [fold_left]; [lra|].
    assert (Hz : z <= 0) by (apply Hl; left; reflexivity).
    pose proof (IH (a + z) (fun y Hy => Hl y (or_intror Hy))). lra. }
  apply G, Hneg.
Qed.

(** X2: for logits of shape (batch, C) with C >= 1 and labels that are
    class indices, on the real numbers with an exponential that underflows
    to 0 as [np.exp] does, the forward pass returns probabilities of the
    logits' shape, and the one of class [j] in row [i] is
    [np.exp(x - m - log(Z + eps))], where [m] is the maximum of the row,
    which bounds every logit of it, and [Z >= 1] is the sum of the
    exponentials of the row shifted by [m]. It lies in [[0, 1]], both ends
    included: it is exactly 0 where the exponent is under -746, and from
    -745 up, where [np.exp] does not underflow, it is the softmax quotient
    [exp(x - m) / (Z + eps)]. *)
Theorem softmax_probs_in_unit_interval (input : @tensor real_scalar) (labels : list Z)
  (batch C : nat) :
  shape input = [batch; C] -> length labels = batch -> (1 <= C)%nat ->
  valid_labels C labels ->
  exists loss probs,
    operators.softmax_cross_entropy.forward (T := real_transcendental) input labels
    = Ok (loss, probs)
    /\ shape probs = [batch; C]
    /\ forall i j, (i < batch)%nat -> (j < C)%nat ->
         let m := max_list (S := real_scalar) (row input C i) in
         let Z := sum_list (S := real_scalar)
                    (map (fun k => np_exp (get input [i; k] - m)) (seq 0 C)) in
         let a := get input [i; j] - m - ln (Z + 1 / 1000000000000) in
         get input [i; j] <= m
         /\ 1 <= Z
         /\ get probs [i; j] = np_exp a
         /\ 0 <= get probs [i; j] <= 1
         /\ (a < -746 -> get probs [i; j] = 0)
         /\ (-745 <= a ->
             get probs [i; j] = exp (get input [i; j] - m) / (Z + 1 / 1000000000000)).
Proof.
  intros Hs Hl HC Hv.
  destruct (log_probs_ok (T := real_transcendental) Hs HC) as (lp & Hlp & Hwf & Hget & Hrun).
  set (probs := map_nd (@s_exp real_scalar real_transcendental) lp : @tensor real_scalar).
  eexists _, probs. split.
  { unfold operators.softmax_cross_entropy.forward. cbv zeta. rewrite Hrun, Hl.
    rewrite (pair_targets_arange Hlp Hl Hv). reflexivity. }
  split; [unfold probs; rewrite map_nd_shape; exact Hlp|].
  intros i j Hi Hj m Z a.
  assert (Hsh : get input [i; j] - m <= 0) by exact (shifted_nonpos input i Hj).
  assert (HZ : 1 <= Z) by exact (row_Z_at_least_one input i HC).
  assert (HlZ : 0 <= ln (Z + 1 / 1000000000000)) by exact (log_Z_nonneg input i HC).
  assert (Hp : get probs [i; j] = np_exp a).
  { unfold probs. rewrite get_map_nd; [|exact Hwf|rewrite Hlp; apply in_bounds2; lia].
    rewrite Hget by lia. reflexivity. }
  assert (Ha : a <= 0) by (unfold a; lra).
  split; [lra|].
  split; [exact HZ|]. split; [exact Hp|]. rewrite Hp.
  split; [split; [apply np_exp_nonneg | apply np_exp_at_most_one; exact Ha]|].
  split; [apply np_exp_underflow|].
  intro Hlow. rewrite np_exp_exact by lra. unfold a.
  apply exp_minus_ln. lra.
Qed.

(** X9: for logits of shape (batch, C) with batch >= 1 and labels that are
    class indices, on the real numbers with an exponential that underflows
    to 0 as [np.exp] does, the loss is never negative, and the gradient lies
    in [[-1/batch, 0]] at the true class of each row and in [[0, 1/batch]]
    at every other class: a step against the gradient never lowers the true
    logit and never raises another. *)
Theorem softmax_loss_nonnegative (input : @tensor real_scalar) (labels : list Z)
  (batch C : nat) :
  shape input = [batch; C] -> length labels = batch -> (1 <= batch)%nat ->
  valid_labels C labels ->
  exists loss probs grad,
    operators.softmax_cross_entropy.forward (T := real_transcendental) input labels
    = Ok (loss, probs)
    /\ operators.softmax_cross_entropy.backward (T := real_transcendental) input labels
       = Ok grad
    /\ 0 <= loss
    /\ forall i j, (i < batch)%nat -> (j < C)%nat ->
         if (j =? label_at labels i)%nat
         then - (1 / INR batch) <= get grad [i; j] <= 0
         else 0 <= get grad [i; j] <= 1 / INR batch.
Proof.
  intros Hs Hl Hb Hv.
  assert (HC : (1 <= C)%nat).
  { destruct labels as [|l ls]; [cbn in Hl; lia|].
    apply Forall_inv in Hv. lia. }
  destruct (softmax_values (T := real_transcendental) Hs Hl HC Hv)
    as (loss & probs & grad & Ef & Eb & Hloss & Hgrad).
  exists loss, probs, grad. split; [exact Ef|]. split; [exact Eb|].
  assert (Hn : 0 < IZR (Z.of_nat batch)) by (apply IZR_lt; lia).
  assert (Hinv : 0 < / IZR (Z.of_nat batch)) by (apply Rinv_0_lt_compat; exact Hn).
  split.
  - rewrite Hloss. cbn [s_div s_mul s_of_Z real_scalar].
    assert (Hsum : sum_list (S := real_scalar)
                     (map (fun i => log_prob (T := real_transcendental) input C i
                                      (label_at labels i)) (seq 0 batch)) <= 0).
    { apply sum_list_nonpos.
      intros y Hy. apply in_map_iff in Hy as (i & <- & Hi). apply in_seq in Hi.
      apply log_prob_nonpos. apply valid_label_at; [exact Hv|lia]. }
    unfold Rdiv. nra.
  - intros i j Hi Hj. rewrite (Hgrad i j Hi Hj).
    pose proof (log_prob_nonpos input i Hj) as Hlp.
    pose proof (np_exp_nonneg (log_prob (T := real_transcendental) input C i j)) as Hpos.
    pose proof (np_exp_at_most_one Hlp) as Hle1.
    rewrite INR_IZR_INZ.
    cbn [s_div s_sub s_exp s_one s_of_Z real_scalar real_transcendental].
    destruct (j =? label_at labels i)%nat; unfold Rdiv; split; nra.
Qed.

End SoftmaxBounds.

Module SoftmaxBoundsExample.

Lemma softmax_probs_in_unit_interval_witness :
  exists loss probs,
    operators.softmax_cross_entropy.forward (T := real_transcendental)
      SoftmaxExample.logits SoftmaxExample.labels = Ok (loss, probs)
    /\ Rle 0 (get probs [0%nat; 2%nat]) /\ Rle (get probs [0%nat; 2%nat]) 1.
Proof.
  destruct (softmax_probs_in_unit_interval (input := SoftmaxExample.logits)
              (labels := SoftmaxExample.labels) (batch := 2) (C := 3)
              eq_refl eq_refl ltac:(lia) ltac:(repeat constructor; lia))
    as (loss & probs & Ef & _ & G).
  exists loss, probs. split; [exact Ef|].
  destruct (G 0%nat 2%nat ltac:(lia) ltac:(lia)) as (_ & _ & _ & Hr & _). exact Hr.
Defined.

Lemma softmax_loss_nonnegative_witness :
  exists loss probs grad,
    operators.softmax_cross_entropy.forward (T := real_transcendental)
      SoftmaxExample.logits SoftmaxExample.labels = Ok (loss, probs)
    /\ operators.softmax_cross_entropy.backward (T := real_transcendental)
         SoftmaxExample.logits SoftmaxExample.labels = Ok grad
    /\ Rle 0 loss.
Proof.
  destruct (softmax_loss_nonnegative (input := SoftmaxExample.logits)
              (labels := SoftmaxExample.labels) (batch := 2) (C := 3)
              eq_refl eq_refl ltac:(lia) ltac:(repeat constructor; lia))
    as (loss & probs & grad & Ef & Eb & Hpos & _).
  exists loss, probs, grad. split; [exact Ef|]. split; [exact Eb | exact Hpos].
Defined.

End SoftmaxBoundsExample.

(* ===================================================================== *)
(** * The gradients of the convolution layer with respect to its parameters *)
(* ===================================================================== *)

Section ScatterReturns.
Context {S : Scalar}.

Lemma reshape_middle {A : Type} (a : ndarray A) (n m : nat) :
  n * m <> 0 -> length (data a) mod (n * m) = 0 ->
  reshape a [Z.of_nat n; -1; Z.of_nat m]%Z
  = Ok (mk_ndarray [n; length (data a) / (n * m); m] (data a)).
Proof.
  intros Hnm Hm. unfold reshape.
  assert (E1 : (Z.of_nat n <? -1)%Z = false) by (apply Z.ltb_ge; lia).
  assert (E2 : (Z.of_nat n =? -1)%Z = false) by (apply Z.eqb_neq; lia).
  assert (E3 : (Z.of_nat m <? -1)%Z = false) by (apply Z.ltb_ge; lia).
  assert (E4 : (Z.of_nat m =? -1)%Z = false) by (apply Z.eqb_neq; lia).
  cbn [existsb filter]. rewrite E1, E2, E3, E4.
  change ((-1 <? -1)%Z) with false. change ((-1 =? -1)%Z) with true.
  cbn [orb negb filter length map fold_right]. rewrite E2, E4.
  rewrite !Nat2Z.id, Nat.mul_1_r.
  destruct (Nat.eqb_spec (n * m) 0); [contradiction|].
  rewrite Hm. cbn [Nat.eqb negb orb]. reflexivity.
Qed.

(** [np.add.at(a, (slice(None), ci, hi, wi), vals)] returns when the indexes
    stay inside [a] and [vals] has the shape of the indexed cells. *)
Lemma np_add_at_patches (a vals : tensor) (ci hi wi : ndarray Z) (N C n_h n_w R Q : nat)
  (fc : nat -> nat) (fh fw : nat -> nat -> nat) :
  shape a = [N; C; n_h; n_w] ->
  shape ci = [R; 1] -> shape hi = [R; Q] -> shape wi = [R; Q] ->
  (forall r q, r < R -> q < Q ->
     get ci [r; 0] = Z.of_nat (fc r) /\ get hi [r; q] = Z.of_nat (fh r q)
     /\ get wi [r; q] = Z.of_nat (fw r q)
     /\ fc r < C /\ fh r q < n_h /\ fw r q < n_w) ->
  shape vals = [N; R; Q] ->
  exists r, np_add_at a ci hi wi vals = Ok r /\ shape r = [N; C; n_h; n_w].
Proof.
  intros Ha Hci Hhi Hwi Hidx Hv.
  assert (Hck : fancy_checked a ci hi wi [R; Q] = true).
  { unfold fancy_checked. apply forallb_forall. intros rest Hin.
    apply in_map_iff in Hin as (k & <- & Hk). apply in_seq in Hk.
    assert (Hb := @unravel_in_bounds [R; Q] k ltac:(lia)).
    cbn [unravel in_bounds] in Hb |- *.
    apply andb_true_iff in Hb as [B1 B2]. apply andb_true_iff in B2 as [B2 _].
    apply Nat.ltb_lt in B1, B2.
    unfold fancy_target. rewrite Ha, Hci, Hhi, Hwi.
    rewrite bcast_idx_column by exact B1.
    rewrite bcast_idx_in_bounds by (apply in_bounds2; assumption).
    destruct (Hidx _ _ B1 B2) as (-> & -> & -> & Hc & Hh & Hw).
    rewrite !norm_index_nat_lt by assumption. reflexivity. }
  destruct (np_add_at a ci hi wi vals) as [r|e] eqn:E.
  - exists r. split; [reflexivity|]. rewrite (np_add_at_shape E). exact Ha.
  - exfalso. unfold np_add_at in E. rewrite Ha in E. unfold fancy_shape in E.
    rewrite Hci, Hhi, Hwi, broadcast_shapes_col_left, broadcast_shapes_refl in E.
    rewrite Hck, Hv, broadcast_shapes_refl in E. cbn [negb] in E.
    destruct (list_eq_dec Nat.eq_dec [N; R; Q] [N; R; Q]) as [_|Hne];
      [discriminate | apply Hne; reflexivity].
Qed.

End ScatterReturns.

Section ConvBackwardParameters.
Context {S : Scalar}.
Import conv_params.

Lemma patch_row_arith (k_h k_w ch dy dx : nat) :
  dy < k_h -> dx < k_w ->
  let r := (ch * k_h + dy) * k_w + dx in
  r / (k_h * k_w) = ch /\ r mod (k_h * k_w) / k_w = dy /\ r mod k_w = dx.
Proof.
  intros Hy Hx r.
  pose proof (offset_lt Hy Hx) as Hlt.
  assert (Er : r = k_h * k_w * ch + (dy * k_w + dx)) by (unfold r; ring).
  assert (Em : r mod (k_h * k_w) = dy * k_w + dx)
    by (symmetry; apply (Nat.mod_unique _ _ ch); assumption).
  split; [symmetry; apply (Nat.div_unique _ _ _ (dy * k_w + dx)); assumption|].
  split.
  - rewrite Em. symmetry. apply (Nat.div_unique _ _ _ dx); [exact Hx | ring].
  - symmetry. apply (Nat.mod_unique _ _ (ch * k_h + dy)); [exact Hx | unfold r; ring].
Qed.

Lemma patch_column_arith (o_w i j : nat) :
  j < o_w -> (i * o_w + j) / o_w = i /\ (i * o_w + j) mod o_w = j.
Proof.
  intro Hj. split; symmetry.
  - apply (Nat.div_unique _ _ _ j); [exact Hj | ring].
  - apply (Nat.mod_unique _ _ i); [exact Hj | ring].
Qed.

Lemma get_transpose_1230 {A : Type} `{Dflt A} (a : ndarray A) (N o_c o_h o_w n o i j : nat) :
  shape a = [N; o_c; o_h; o_w] -> n < N -> o < o_c -> i < o_h -> j < o_w ->
  get (transpose a [1; 2; 3; 0]) [o; i; j; n] = get a [n; o; i; j].
Proof.
  intros Hsh Hn Ho Hi Hj. unfold transpose. rewrite Hsh. cbn [map nth length seq].
  rewrite get_build by (apply in_bounds4; lia). reflexivity.
Qed.

Lemma in_bounds3_inv (a b c : nat) (idx : list nat) :
  in_bounds [a; b; c] idx = true ->
  exists i j k, idx = [i; j; k] /\ i < a /\ j < b /\ k < c.
Proof.
  destruct idx as [|i [|j [|k [|? ?]]]]; cbn [in_bounds]; try discriminate;
    rewrite ?andb_false_r; try discriminate.
  intro Hb. repeat (apply andb_true_iff in Hb as [?%Nat.ltb_lt Hb]).
  exists i, j, k. repeat split; assumption.
Qed.

(** The parameter gradients of [conv.backward], entry by entry. *)
Lemma conv_backward_parameter_entries (cp : conv_params.t)
  (out_grad input weights bias : tensor) (N c h w : nat) :
  shape input = [N; c; h; w] ->
  shape weights = [out_channel cp; c; kernel_h cp; kernel_w cp] -> wf weights ->
  1 <= N -> 1 <= c ->
  stride cp <> 0 -> Nat.even (pad cp) = true ->
  1 <= kernel_h cp <= h + pad cp -> 1 <= kernel_w cp <= w + pad cp ->
  let o_h := (h + pad cp - kernel_h cp) / stride cp + 1 in
  let o_w := (w + pad cp - kernel_w cp) / stride cp + 1 in
  let X_pad := np_pad s_zero input [(0, 0); (0, 0); (pad cp / 2, pad cp / 2);
                                    (pad cp / 2, pad cp / 2)] in
  shape out_grad = [N; out_channel cp; o_h; o_w] ->
  exists in_grad w_grad b_grad,
    operators.conv.backward cp out_grad input weights bias = Ok (in_grad, w_grad, b_grad)
    /\ shape w_grad = [out_channel cp; c; kernel_h cp; kernel_w cp]
    /\ shape b_grad = [out_channel cp]
    /\ (forall o ch dy dx, o < out_channel cp -> ch < c ->
          dy < kernel_h cp -> dx < kernel_w cp ->
          get w_grad [o; ch; dy; dx]
          = sum_list
              (map (fun d => s_mul (get out_grad [nth 2 d 0; o; nth 0 d 0; nth 1 d 0])
                                   (get X_pad [nth 2 d 0; ch;
                                               nth 0 d 0 * stride cp + dy;
                                               nth 1 d 0 * stride cp + dx]))
                   (indices [o_h; o_w; N])))
    /\ (forall o, o < out_channel cp ->
          get b_grad [o]
          = sum_list (map (fun d => get out_grad [nth 0 d 0; o; nth 1 d 0; nth 2 d 0])
                          (indices [N; o_h; o_w]))).
Proof.
  intros Hin Hw Wfw HN Hc Hs He Hkh Hkw o_h o_w X_pad Hog.
  unfold operators.conv.backward. rewrite Hin. cbv zeta. fold X_pad.
  set (o_c := out_channel cp) in *. set (k_h := kernel_h cp) in *.
  set (k_w := kernel_w cp) in *. set (s := stride cp) in *.
  pose proof (half_even He) as Hp.
  assert (HX : shape X_pad = [N; c; h + pad cp; w + pad cp]).
  { unfold X_pad. rewrite (np_pad_shape4 (pad cp / 2, pad cp / 2) (pad cp / 2, pad cp / 2) Hin).
    cbn [fst snd].
    replace (pad cp / 2 + h + pad cp / 2) with (h + pad cp) by lia.
    replace (pad cp / 2 + w + pad cp / 2) with (w + pad cp) by lia. reflexivity. }
  destruct (conv_img2col (X := X_pad) (N := N) HX Hs Hc Hkh Hkw) as (X_hat & EX & HXh & GX).
  fold o_h o_w in EX, HXh, GX.
  set (R := c * k_h * k_w) in *. set (L := o_h * o_w * N) in *.
  rewrite EX. cbn [bind].
  (* the weights *)
  destruct weights as [wsh wdata]. cbn [shape] in Hw. unfold wf in Wfw. cbn [shape data] in Wfw.
  subst wsh. cbn [size_of fold_right] in Wfw.
  change [Z.of_nat o_c; Z.of_nat R] with (map Z.of_nat [o_c; R]).
  rewrite reshape_back by (rewrite Wfw; cbn [size_of fold_right]; unfold R; lia).
  cbn [bind]. set (W := mk_ndarray [o_c; R] wdata).
  (* the gradient of the output, as a matrix *)
  unfold operators.transpose_axes at 1. rewrite Hog. cbn [length Nat.eqb bind].
  set (ogT := transpose out_grad [1; 2; 3; 0]).
  assert (HogT : shape ogT = [o_c; o_h; o_w; N])
    by (unfold ogT, transpose; rewrite Hog; reflexivity).
  assert (LogT : length (data ogT) = o_c * L).
  { unfold ogT, transpose, build. cbn [data]. rewrite length_map, length_seq, Hog.
    cbn [map nth size_of fold_right]. unfold L. lia. }
  replace [Z.of_nat o_c; (Z.of_nat N * Z.of_nat o_h * Z.of_nat o_w)%Z]
    with (map Z.of_nat [o_c; L]) by (cbn [map]; unfold L; repeat f_equal; lia).
  destruct ogT as [tsh tdata] eqn:EogT. cbn [shape data] in HogT, LogT.
  rewrite reshape_back by (rewrite LogT; cbn [size_of fold_right]; lia).
  cbn [bind]. set (ogc := mk_ndarray [o_c; L] tdata).
  (* the gradient of the patch matrix, scattered back *)
  assert (HTW : shape (T_ W) = [R; o_c]) by reflexivity.
  destruct (matmul (T_ W) ogc) as [dX_hat|e] eqn:EdX;
    [|unfold matmul in EdX; rewrite HTW in EdX; cbn [shape ogc] in EdX;
      rewrite Nat.eqb_refl in EdX; discriminate].
  assert (HdX : shape dX_hat = [R; L]).
  { unfold matmul in EdX. rewrite HTW in EdX. cbn [shape ogc] in EdX.
    rewrite Nat.eqb_refl in EdX. injection EdX as <-. reflexivity. }
  pose proof (matmul_wf EdX) as WfdX. unfold wf in WfdX. rewrite HdX in WfdX.
  cbn [size_of fold_right] in WfdX.
  cbn [bind].
  assert (Ecol : exists in_grad,
            operators.conv.col2img dX_hat N c h w k_h k_w (pad cp) s = Ok in_grad).
  { unfold operators.conv.col2img.
    rewrite (output_size_nat Hs (proj2 Hkh)), (output_size_nat Hs (proj2 Hkw)). cbn [bind].
    fold o_h o_w.
    destruct (im2col_data_indexes N c h w k_h k_w (pad cp) s o_h o_w)
      as (ci & hi & wi & E & Hci & Hhi & Hwi & G).
    rewrite E. cbn [bind]. fold R in Hci, Hhi, Hwi, G |- *.
    assert (HRN : R * N <> 0) by (unfold R; nia).
    assert (Hmod : length (data dX_hat) mod (R * N) = 0).
    { rewrite WfdX. unfold L.
      replace (R * (o_h * o_w * N * 1)) with (o_h * o_w * (R * N)) by ring.
      apply Nat.Div0.mod_mul. }
    rewrite (reshape_middle HRN Hmod). cbn [bind].
    unfold operators.transpose_axes. cbn [shape length Nat.eqb bind].
    assert (Hdiv : length (data dX_hat) / (R * N) = o_h * o_w).
    { rewrite WfdX. unfold L.
      replace (R * (o_h * o_w * N * 1)) with (o_h * o_w * (R * N)) by ring.
      apply Nat.div_mul. exact HRN. }
    rewrite Hdiv.
    set (vals := transpose _ [2; 0; 1]).
    assert (Hvals : shape vals = [N; R; o_h * o_w]) by reflexivity.
    assert (Hkk : k_h * k_w <> 0) by nia.
    assert (How : o_w <> 0) by (unfold o_w; lia).
    destruct (np_add_at_patches (a := np_zeros [N; c; h + pad cp; w + pad cp])
                (vals := vals) (ci := ci) (hi := hi) (wi := wi)
                (fc := fun r => r / (k_h * k_w))
                (fh := fun r q => q / o_w * s + r mod (k_h * k_w) / k_w)
                (fw := fun r q => q mod o_w * s + r mod k_w)
                eq_refl Hci Hhi Hwi) as (r & Er & Hr); [|exact Hvals|].
    { intros r q Hr Hq. destruct (G r q Hr Hq) as (-> & -> & ->).
      split; [reflexivity|]. split; [lia|]. split; [lia|].
      assert (Hdy : r mod (k_h * k_w) / k_w < k_h).
      { pose proof (Nat.mod_upper_bound r (k_h * k_w) Hkk).
        apply Nat.Div0.div_lt_upper_bound. lia. }
      assert (Hdx : r mod k_w < k_w) by (apply Nat.mod_upper_bound; lia).
      assert (Hi : q / o_w < o_h) by (apply Nat.Div0.div_lt_upper_bound; lia).
      assert (Hj : q mod o_w < o_w) by (apply Nat.mod_upper_bound; exact How).
      pose proof (window_inside Hs (proj2 Hkh) Hi) as Wi.
      pose proof (window_inside Hs (proj2 Hkw) Hj) as Wj.
      split; [|lia]. apply Nat.Div0.div_lt_upper_bound. unfold R in Hr. lia. }
    rewrite Er. cbn [bind]. destruct (negb (pad cp =? 0)); eexists; reflexivity. }
  destruct Ecol as (in_grad & Ecol). rewrite Ecol. cbn [bind].
  (* the gradient of the weights *)
  assert (HTX : shape (T_ X_hat) = [L; R]) by (unfold T_, transpose; rewrite HXh; reflexivity).
  destruct (matmul ogc (T_ X_hat)) as [w2|e] eqn:Ew2;
    [|unfold matmul in Ew2; rewrite HTX in Ew2; cbn [shape ogc] in Ew2;
      rewrite Nat.eqb_refl in Ew2; discriminate].
  pose proof (@get_matmul _ ogc (T_ X_hat) w2 o_c L R) as Gw2.
  assert (Hw2 : shape w2 = [o_c; R]).
  { unfold matmul in Ew2. rewrite HTX in Ew2. cbn [shape ogc] in Ew2.
    rewrite Nat.eqb_refl in Ew2. injection Ew2 as <-. reflexivity. }
  pose proof (matmul_wf Ew2) as Wfw2. unfold wf in Wfw2. rewrite Hw2 in Wfw2.
  cbn [size_of fold_right] in Wfw2.
  cbn [bind]. destruct w2 as [w2sh w2data]. cbn [shape data] in Hw2, Wfw2. subst w2sh.
  rewrite reshape_back by (rewrite Wfw2; cbn [size_of fold_right]; unfold R; lia).
  cbn [bind].
  (* the gradient of the bias *)
  unfold np_sum, axes_ok. rewrite Hog. cbn [length forallb Nat.ltb Nat.leb andb bind].
  do 3 eexists. split; [reflexivity|]. split; [reflexivity|].
  split; [unfold reduce_axes; rewrite Hog; reflexivity|]. split.
  - intros o ch dy dx Ho Hch Hdy Hdx.
    destruct (patch_row_arith ch (k_h := k_h) Hdy Hdx) as (A1 & A2 & A3).
    set (r := (ch * k_h + dy) * k_w + dx) in *.
    assert (Hr : r < R).
    { unfold r, R. apply offset_lt; [apply offset_lt; assumption | exact Hdx]. }
    transitivity (get (mk_ndarray [o_c; R] w2data) [o; r]).
    { unfold get. cbn [shape data ravel size_of fold_right]. f_equal. unfold r, R. ring. }
    rewrite (Gw2 o r eq_refl HTX Ew2 Ho Hr).
    unfold indices. rewrite map_map.
    replace (size_of [o_h; o_w; N]) with L by (cbn [size_of fold_right]; unfold L; lia).
    f_equal. apply map_ext_in. intros l Hl. apply in_seq in Hl.
    assert (Hsz : l < size_of [o_h; o_w; N]) by (cbn [size_of fold_right]; unfold L in Hl; lia).
    pose proof (unravel_in_bounds Hsz) as Hb. pose proof (ravel_unravel Hsz) as Hrav.
    apply in_bounds3_inv in Hb as (i & j & n & Ed & Hi & Hj & Hn).
    rewrite Ed in Hrav |- *. cbn [ravel size_of fold_right] in Hrav. cbn [nth].
    assert (El : l = (i * o_w + j) * N + n) by (rewrite <- Hrav; ring).
    destruct (patch_column_arith i Hj) as (B1 & B2).
    f_equal.
    + rewrite <- (get_transpose_1230 Hog Hn Ho Hi Hj). fold ogT. rewrite EogT.
      unfold ogc, get. cbn [shape data]. rewrite HogT.
      cbn [ravel size_of fold_right]. f_equal. rewrite El. unfold L. ring.
    + assert (HlL : l < L) by lia.
      rewrite (get_T2 HXh Hr HlL). rewrite El.
      rewrite (GX r (i * o_w + j) n Hr (offset_lt Hi Hj) Hn).
      rewrite A1, A2, A3, B1, B2. reflexivity.
  - intros o Ho. unfold reduce_axes. rewrite Hog.
    cbn [drop_axes pick_axes existsb Nat.eqb orb].
    rewrite get_build by (cbn [in_bounds]; rewrite (proj2 (Nat.ltb_lt _ _)) by lia; reflexivity).
    f_equal. apply map_ext_in. intros d Hd.
    apply in_map_iff in Hd as (k & <- & _).
    cbn [merge_idx existsb Nat.eqb orb hd tl unravel nth]. reflexivity.
Qed.

End ConvBackwardParameters.

Section ConvBackwardOnReals.
Local Open Scope R_scope.
Import conv_params.

(** X18: [conv.backward] returns on a batch of at least one image of shape
    [(N, c, h, w)], weights of shape [(out_channel, c, kernel_h, kernel_w)]
    and an output gradient of the shape of the forward output, whenever the
    stride is not zero, the padding is even and the kernel is not empty and
    fits in the padded image. On the real numbers the gradient of the weight
    [(o, ch, dy, dx)] is the sum, over the output positions [(i, j)] and the
    images [n], of the output gradient [(n, o, i, j)] times the entry
    [(n, ch, i * stride + dy, j * stride + dx)] of the zero-padded image,
    and the gradient of the bias of [o] is the sum of the output gradient
    over images and positions; both have the shapes of their parameters,
    with or without padding. *)
Theorem conv_backward_parameter_gradients (cp : conv_params.t)
  (out_grad input weights bias : @tensor real_scalar) (N c h w : nat) :
  shape input = [N; c; h; w] ->
  shape weights = [out_channel cp; c; kernel_h cp; kernel_w cp] -> wf weights ->
  (1 <= N)%nat -> (1 <= c)%nat ->
  stride cp <> 0%nat -> Nat.even (pad cp) = true ->
  (1 <= kernel_h cp <= h + pad cp)%nat -> (1 <= kernel_w cp <= w + pad cp)%nat ->
  let o_h := ((h + pad cp - kernel_h cp) / stride cp + 1)%nat in
  let o_w := ((w + pad cp - kernel_w cp) / stride cp + 1)%nat in
  let p := (pad cp / 2)%nat in
  let X_pad := np_pad (0 : @num real_scalar) input [(0, 0); (0, 0); (p, p); (p, p)]%nat in
  shape out_grad = [N; out_channel cp; o_h; o_w] ->
  exists in_grad w_grad b_grad,
    operators.conv.backward cp out_grad input weights bias = Ok (in_grad, w_grad, b_grad)
    /\ shape w_grad = shape weights
    /\ shape b_grad = [out_channel cp]
    /\ (forall o ch dy dx, (o < out_channel cp)%nat -> (ch < c)%nat ->
          (dy < kernel_h cp)%nat -> (dx < kernel_w cp)%nat ->
          get w_grad [o; ch; dy; dx]
          = sum_list
              (map (fun d => get out_grad [nth 2 d 0%nat; o; nth 0 d 0%nat; nth 1 d 0%nat]
                             * get X_pad [nth 2 d 0%nat; ch;
                                          (nth 0 d 0 * stride cp + dy)%nat;
                                          (nth 1 d 0 * stride cp + dx)%nat])
                   (indices [o_h; o_w; N])))
    /\ (forall o, (o < out_channel cp)%nat ->
          get b_grad [o]
          = sum_list (map (fun d => get out_grad [nth 0 d 0%nat; o; nth 1 d 0%nat;
                                                  nth 2 d 0%nat])
                          (indices [N; o_h; o_w]))).
Proof.
  intros Hin Hw Wfw HN Hc Hs He Hkh Hkw o_h o_w p X_pad Hog.
  destruct (@conv_backward_parameter_entries _ cp out_grad input weights bias N c h w
              Hin Hw Wfw HN Hc Hs He Hkh Hkw Hog)
    as (in_grad & w_grad & b_grad & E & Hwg & Hbg & Gw & Gb).
  exists in_grad, w_grad, b_grad. split; [exact E|]. split; [congruence|].
  split; [exact Hbg|]. split.
  - intros o ch dy dx Ho Hch Hdy Hdx. rewrite (Gw o ch dy dx Ho Hch Hdy Hdx). reflexivity.
  - intros o Ho. rewrite (Gb o Ho). reflexivity.
Qed.

End ConvBackwardOnReals.

Module ConvBackwardParameterExample.

Definition out_grad : @tensor real_scalar := mk_ndarray [1; 1; 1; 1] [2%R].

Lemma conv_backward_parameter_gradients_witness :
  exists in_grad w_grad b_grad,
    operators.conv.backward ConvForwardExample.conv1x2 out_grad ConvForwardExample.image
      ConvForwardExample.kernel ConvForwardExample.bias = Ok (in_grad, w_grad, b_grad)
    /\ shape w_grad = [1; 1; 1; 2].
Proof.
  destruct (@conv_backward_parameter_gradients ConvForwardExample.conv1x2 out_grad
              ConvForwardExample.image ConvForwardExample.kernel ConvForwardExample.bias
              1 1 1 2 eq_refl eq_refl eq_refl
              ltac:(lia) ltac:(lia) ltac:(discriminate) eq_refl
              ltac:(cbn; lia) ltac:(cbn; lia) eq_refl)
    as (in_grad & w_grad & b_grad & E & Hw & _).
  exists in_grad, w_grad, b_grad. split; [exact E | exact Hw].
Defined.

End ConvBackwardParameterExample.

(* ===================================================================== *)
(** * The gradient of the convolution layer with respect to its input *)
(* ===================================================================== *)

(** [sum_upto n f] is [f 0 + ... + f (n - 1)], added in index order like
    [sum_list]. *)
Definition sum_upto {S : Scalar} (n : nat) (f : nat -> num) : num :=
  sum_list (map f (seq 0 n)).

Ltac ring_on_reals :=
  cbn [s_mul s_add s_sub s_div s_of_Z s_one s_zero real_scalar];
  match goal with |- @eq _ ?a ?b => change (@eq R a b) end;
  unfold Rdiv; ring.

Section RealSums.
Local Open Scope R_scope.

Lemma fold_Rplus_acc : forall (xs : list R) (a : R),
  fold_left Rplus xs a = a + fold_left Rplus xs 0.
Proof.
  induction xs as [|x xs IH]; intro a; cbn [fold_left]; [ring|].
  rewrite (IH (a + x)), (IH (0 + x)). ring.
Qed.

Lemma sum_list_cons (x : R) (xs : list R) :
  sum_list (S := real_scalar) (x :: xs) = x + sum_list (S := real_scalar) xs.
Proof.
  unfold sum_list. change (fold_left Rplus xs (0 + x) = x + fold_left Rplus xs 0).
  rewrite fold_Rplus_acc. ring.
Qed.

Lemma sum_list_app (xs ys : list R) :
  sum_list (S := real_scalar) (xs ++ ys)
  = sum_list (S := real_scalar) xs + sum_list (S := real_scalar) ys.
Proof.
  induction xs as [|x xs IH]; cbn [app].
  - change (sum_list (S := real_scalar) ys = 0 + sum_list (S := real_scalar) ys).
    symmetry. apply Rplus_0_l.
  - rewrite !sum_list_cons, IH. symmetry. apply Rplus_assoc.
Qed.

Lemma sum_upto_S (n : nat) (f : nat -> R) :
  sum_upto (S := real_scalar) (Datatypes.S n) f = sum_upto (S := real_scalar) n f + f n.
Proof.
  unfold sum_upto. rewrite seq_S, map_app, sum_list_app. cbn [map Nat.add].
  rewrite sum_list_cons. f_equal.
  change (f n + 0 = f n). apply Rplus_0_r.
Qed.

Lemma sum_upto_ext (n : nat) (f g : nat -> R) :
  (forall i, (i < n)%nat -> f i = g i) ->
  sum_upto (S := real_scalar) n f = sum_upto (S := real_scalar) n g.
Proof.
  intro Hfg. unfold sum_upto. f_equal. apply map_ext_in.
  intros i Hi. apply in_seq in Hi. apply Hfg. lia.
Qed.

Lemma sum_upto_zero (n : nat) (f : nat -> R) :
  (forall i, (i < n)%nat -> f i = 0) -> sum_upto (S := real_scalar) n f = 0.
Proof.
  induction n as [|n IH]; intro Hf; [reflexivity|].
  rewrite sum_upto_S, IH by (intros; apply Hf; lia).
  rewrite Hf by lia. apply Rplus_0_l.
Qed.

(** A sum whose terms vanish away from [k] is its term at [k]. *)
Lemma sum_upto_only (n k : nat) (f : nat -> R) :
  (k < n)%nat -> (forall i, (i < n)%nat -> i <> k -> f i = 0) ->
  sum_upto (S := real_scalar) n f = f k.
Proof.
  induction n as [|n IH]; intros Hk Hf; [lia|].
  rewrite sum_upto_S. destruct (Nat.eq_dec k n) as [->|Hne].
  - rewrite sum_upto_zero by (intros i Hi; apply Hf; lia). apply Rplus_0_l.
  - rewrite IH by (try lia; intros; apply Hf; lia).
    rewrite (Hf n) by lia. apply Rplus_0_r.
Qed.

Lemma map_seq_offset {B : Type} : forall (n s : nat) (g : nat -> B),
  map g (seq s n) = map (fun j => g (s + j)%nat) (seq 0 n).
Proof.
  induction n as [|n IH]; intros s g; [reflexivity|].
  cbn [seq map]. rewrite Nat.add_0_r. f_equal.
  rewrite (IH (Datatypes.S s) g), (IH 1%nat (fun j => g (s + j)%nat)).
  apply map_ext. intro j. f_equal. lia.
Qed.

(** A sum over [a * b] consecutive indexes, by blocks of [b]. *)
Lemma sum_upto_mul (a b : nat) (f : nat -> R) :
  sum_upto (S := real_scalar) (a * b) f
  = sum_upto (S := real_scalar) a
      (fun i => sum_upto (S := real_scalar) b (fun j => f (i * b + j)%nat)).
Proof.
  induction a as [|a IH]; [reflexivity|].
  rewrite sum_upto_S, <- IH.
  replace (Datatypes.S a * b)%nat with (a * b + b)%nat by lia.
  unfold sum_upto. rewrite seq_app, map_app, sum_list_app. f_equal.
  cbn [Nat.add]. rewrite map_seq_offset. reflexivity.
Qed.

End RealSums.

Section UpdateCell.
Context {A : Type} `{Dflt A}.

Lemma ravel_inj (sh i j : list nat) :
  in_bounds sh i = true -> in_bounds sh j = true -> ravel sh i = ravel sh j -> i = j.
Proof.
  intros Hi Hj E. rewrite <- (unravel_ravel Hi), <- (unravel_ravel Hj), E. reflexivity.
Qed.

(** Writing a cell of an array changes that cell only. *)
Lemma get_update_at (a : ndarray A) (t cell : list nat) (f : A -> A) :
  wf a -> in_bounds (shape a) t = true -> in_bounds (shape a) cell = true ->
  get (update_at a t f) cell
  = if list_eq_dec Nat.eq_dec cell t then f (get a cell) else get a cell.
Proof.
  intros Hwf Ht Hc. unfold get, update_at. cbn [shape data].
  rewrite nth_update_nth. unfold wf in Hwf. rewrite Hwf.
  rewrite (proj2 (Nat.ltb_lt _ _) (ravel_lt Hc)), andb_true_r.
  destruct (list_eq_dec Nat.eq_dec cell t) as [->|Hne].
  - rewrite Nat.eqb_refl. reflexivity.
  - destruct (Nat.eqb_spec (ravel (shape a) cell) (ravel (shape a) t)) as [E|_];
      [|reflexivity].
    contradiction Hne. exact (ravel_inj Hc Ht E).
Qed.

End UpdateCell.

Section ScatterSum.
Local Open Scope R_scope.

(** An unbuffered scatter-add leaves in each cell what it held plus the
    values sent to it. *)
Lemma scatter_sum (step : @tensor real_scalar -> list nat -> @tensor real_scalar)
  (tgt : list nat -> list nat) (v : list nat -> R) (sh : list nat) :
  forall (idxs : list (list nat)) (a : @tensor real_scalar),
  shape a = sh -> wf a ->
  (forall idx, In idx idxs -> in_bounds sh (tgt idx) = true) ->
  (forall acc idx, In idx idxs -> shape acc = sh ->
     step acc idx = update_at acc (tgt idx) (fun x => x + v idx)) ->
  forall cell, in_bounds sh cell = true ->
    get (fold_left step idxs a) cell
    = get a cell
      + sum_list (S := real_scalar)
          (map (fun idx => if list_eq_dec Nat.eq_dec cell (tgt idx) then v idx else 0) idxs).
Proof.
  induction idxs as [|idx idxs IH]; intros a Ha Hwf Hb Hstep cell Hc.
  - cbn [fold_left map]. symmetry. apply Rplus_0_r.
  - cbn [fold_left map]. rewrite sum_list_cons.
    rewrite (Hstep a idx (or_introl eq_refl) Ha).
    rewrite IH; try assumption.
    + rewrite get_update_at;
        [|exact Hwf|rewrite Ha; apply Hb; left; reflexivity|rewrite Ha; exact Hc].
      destruct (list_eq_dec Nat.eq_dec cell (tgt idx)); ring_on_reals.
    + apply update_at_wf. exact Hwf.
    + intros i Hi. apply Hb. right. exact Hi.
    + intros acc i Hi. apply Hstep. right. exact Hi.
Qed.

End ScatterSum.

Section IndexSums.
Local Open Scope R_scope.

Lemma unravel_cons (a : nat) (sh : list nat) (i m : nat) :
  (m < size_of sh)%nat ->
  unravel (a :: sh) (i * size_of sh + m) = i :: unravel sh m.
Proof.
  intro Hm. cbn [unravel].
  change (fold_right Nat.mul 1%nat sh) with (size_of sh).
  assert (Hs : size_of sh <> 0%nat) by lia.
  f_equal.
  - rewrite Nat.div_add_l by exact Hs. rewrite Nat.div_small by exact Hm. lia.
  - f_equal. rewrite Nat.add_comm, Nat.Div0.mod_add. apply Nat.mod_small. exact Hm.
Qed.

(** A sum over the indexes of a shape, axis by axis. *)
Lemma sum_indices_cons (F : list nat -> R) (a : nat) (sh : list nat) :
  sum_list (S := real_scalar) (map F (indices (a :: sh)))
  = sum_upto (S := real_scalar) a
      (fun i => sum_list (S := real_scalar) (map (fun d => F (i :: d)) (indices sh))).
Proof.
  unfold indices. rewrite map_map.
  change (size_of (a :: sh)) with (a * size_of sh)%nat.
  change (sum_list (S := real_scalar)
            (map (fun n => F (unravel (a :: sh) n)) (seq 0 (a * size_of sh))))
    with (sum_upto (S := real_scalar) (a * size_of sh) (fun n => F (unravel (a :: sh) n))).
  rewrite sum_upto_mul. apply sum_upto_ext. intros i Hi.
  unfold sum_upto. rewrite map_map. f_equal. apply map_ext_in. intros m Hm.
  apply in_seq in Hm. rewrite unravel_cons by lia. reflexivity.
Qed.

Lemma sum_indices3 (F : list nat -> R) (a b c : nat) :
  sum_list (S := real_scalar) (map F (indices [a; b; c]))
  = sum_upto (S := real_scalar) a (fun i =>
      sum_upto (S := real_scalar) b (fun j =>
        sum_upto (S := real_scalar) c (fun k => F [i; j; k]))).
Proof.
  rewrite sum_indices_cons. apply sum_upto_ext. intros i _.
  rewrite sum_indices_cons. apply sum_upto_ext. intros j _.
  rewrite sum_indices_cons. apply sum_upto_ext. intros k _.
  change (indices []) with [@nil nat]. cbn [map]. rewrite sum_list_cons.
  apply Rplus_0_r.
Qed.

End IndexSums.

Section Col2Img.

Lemma eq_dec_cell4 (T : Type) (a b c d a' b' c' d' : nat) (u v : T) :
  (if list_eq_dec Nat.eq_dec [a; b; c; d] [a'; b'; c'; d'] then u else v)
  = if ((a =? a') && (b =? b') && ((c =? c') && (d =? d')))%nat then u else v.
Proof.
  destruct (list_eq_dec Nat.eq_dec [a; b; c; d] [a'; b'; c'; d']) as [E|N].
  - injection E as -> -> -> ->. rewrite !Nat.eqb_refl. reflexivity.
  - destruct (Nat.eqb_spec a a') as [->|]; [|reflexivity].
    destruct (Nat.eqb_spec b b') as [->|]; [|reflexivity].
    destruct (Nat.eqb_spec c c') as [->|]; [|reflexivity].
    destruct (Nat.eqb_spec d d') as [->|]; [|reflexivity].
    contradiction N. reflexivity.
Qed.

Lemma get_transpose_201 {A : Type} `{Dflt A} (a : ndarray A) (n_r n_q N n r q : nat) :
  shape a = [n_r; n_q; N] -> (n < N)%nat -> (r < n_r)%nat -> (q < n_q)%nat ->
  get (transpose a [2; 0; 1]) [n; r; q] = get a [r; q; n].
Proof.
  intros Hsh Hn Hr Hq. unfold transpose. rewrite Hsh. cbn [map nth length seq].
  rewrite get_build by (apply in_bounds3; assumption). reflexivity.
Qed.

(** [col2img] without padding: the cell [(n, ch, y, x)] of the image
    collects, from the row of each kernel cell [(dy, dx)] of its channel and
    the column of each output position [(i, j)] of its image, the entries
    whose window cell falls on [(y, x)]. *)
Lemma col2img_entries (dX_hat : @tensor real_scalar) (N c h w k_h k_w s : nat) :
  let o_h := ((h + 0 - k_h) / s + 1)%nat in
  let o_w := ((w + 0 - k_w) / s + 1)%nat in
  shape dX_hat = [c * k_h * k_w; o_h * o_w * N]%nat -> wf dX_hat ->
  (1 <= N)%nat -> (1 <= c)%nat -> s <> 0%nat ->
  (1 <= k_h <= h + 0)%nat -> (1 <= k_w <= w + 0)%nat ->
  exists dX,
    operators.conv.col2img dX_hat N c h w k_h k_w 0 s = Ok dX
    /\ shape dX = [N; c; h + 0; w + 0]%nat
    /\ forall n ch y x, (n < N)%nat -> (ch < c)%nat -> (y < h + 0)%nat -> (x < w + 0)%nat ->
         get dX [n; ch; y; x]
         = sum_upto (S := real_scalar) k_h (fun dy =>
             sum_upto (S := real_scalar) k_w (fun dx =>
               sum_upto (S := real_scalar) o_h (fun i =>
                 sum_upto (S := real_scalar) o_w (fun j =>
                   if ((i * s + dy =? y) && (j * s + dx =? x))%nat
                   then get dX_hat [((ch * k_h + dy) * k_w + dx)%nat;
                                    ((i * o_w + j) * N + n)%nat]
                   else 0%R)))).
Proof.
  intros o_h o_w HdX WfdX HN Hc Hs Hkh Hkw.
  unfold wf in WfdX. rewrite HdX in WfdX. cbn [size_of fold_right] in WfdX.
  set (n_r := (c * k_h * k_w)%nat) in *. set (n_q := (o_h * o_w)%nat) in *.
  unfold operators.conv.col2img.
  rewrite (output_size_nat Hs (proj2 Hkh)), (output_size_nat Hs (proj2 Hkw)). cbn [bind].
  fold o_h o_w.
  destruct (im2col_data_indexes N c h w k_h k_w 0 s o_h o_w)
    as (ci & hi & wi & E & Hci & Hhi & Hwi & G).
  rewrite E. cbn [bind]. fold n_r n_q in Hci, Hhi, Hwi, G |- *.
  assert (HRN : (n_r * N)%nat <> 0%nat) by (unfold n_r; nia).
  assert (Hlen : length (data dX_hat) = (n_q * (n_r * N))%nat) by (rewrite WfdX; ring).
  assert (Hmod : (length (data dX_hat) mod (n_r * N))%nat = 0%nat)
    by (rewrite Hlen; apply Nat.Div0.mod_mul).
  rewrite (reshape_middle HRN Hmod). cbn [bind].
  unfold operators.transpose_axes. cbn [shape length Nat.eqb bind].
  rewrite Hlen, Nat.div_mul by exact HRN.
  set (resh := mk_ndarray [n_r; n_q; N] (data dX_hat)).
  set (vals := transpose resh [2; 0; 1]).
  assert (Hvals : shape vals = [N; n_r; n_q]) by reflexivity.
  assert (Hkk : (k_h * k_w)%nat <> 0%nat) by nia.
  assert (How : o_w <> 0%nat) by (unfold o_w; lia).
  set (fc := fun r : nat => (r / (k_h * k_w))%nat).
  set (fh := fun r q : nat => (q / o_w * s + r mod (k_h * k_w) / k_w)%nat).
  set (fw := fun r q : nat => (q mod o_w * s + r mod k_w)%nat).
  assert (Hidx : forall r q, (r < n_r)%nat -> (q < n_q)%nat ->
             get ci [r; 0%nat] = Z.of_nat (fc r) /\ get hi [r; q] = Z.of_nat (fh r q)
             /\ get wi [r; q] = Z.of_nat (fw r q)
             /\ (fc r < c)%nat /\ (fh r q < h + 0)%nat /\ (fw r q < w + 0)%nat).
  { intros r q Hr Hq. destruct (G r q Hr Hq) as (-> & -> & ->). unfold fc, fh, fw.
    split; [reflexivity|]. split; [lia|]. split; [lia|].
    assert (Hdy : (r mod (k_h * k_w) / k_w < k_h)%nat).
    { pose proof (Nat.mod_upper_bound r (k_h * k_w) Hkk).
      apply Nat.Div0.div_lt_upper_bound. lia. }
    assert (Hdx : (r mod k_w < k_w)%nat) by (apply Nat.mod_upper_bound; lia).
    assert (Hi : (q / o_w < o_h)%nat) by (apply Nat.Div0.div_lt_upper_bound; unfold n_q in Hq; lia).
    assert (Hj : (q mod o_w < o_w)%nat) by (apply Nat.mod_upper_bound; exact How).
    pose proof (window_inside Hs (proj2 Hkh) Hi) as Wi.
    pose proof (window_inside Hs (proj2 Hkw) Hj) as Wj.
    split; [|lia]. apply Nat.Div0.div_lt_upper_bound. unfold n_r in Hr. lia. }
  set (zeros := np_zeros [N; c; (h + 0)%nat; (w + 0)%nat]).
  assert (Ht : forall (acc : @tensor real_scalar) n r q,
             shape acc = [N; c; (h + 0)%nat; (w + 0)%nat] -> (r < n_r)%nat -> (q < n_q)%nat ->
             fancy_target acc ci hi wi [n; r; q] = Some [n; fc r; fh r q; fw r q]).
  { intros acc n r q Hacc Hr Hq. unfold fancy_target. rewrite Hacc, Hci, Hhi, Hwi.
    rewrite bcast_idx_column by exact Hr.
    rewrite bcast_idx_in_bounds by (apply in_bounds2; assumption).
    destruct (Hidx r q Hr Hq) as (-> & -> & -> & Hc' & Hh' & Hw').
    rewrite !norm_index_nat_lt by assumption. reflexivity. }
  assert (Hck : fancy_checked zeros ci hi wi [n_r; n_q] = true).
  { unfold fancy_checked. apply forallb_forall. intros rest Hin.
    apply in_map_iff in Hin as (k & <- & Hk). apply in_seq in Hk.
    assert (Hb := @unravel_in_bounds [n_r; n_q] k ltac:(lia)).
    cbn [unravel in_bounds] in Hb |- *.
    apply andb_true_iff in Hb as [B1 B2]. apply andb_true_iff in B2 as [B2 _].
    apply Nat.ltb_lt in B1, B2. rewrite (Ht zeros) by (reflexivity || assumption).
    reflexivity. }
  unfold np_add_at. change (shape zeros) with [N; c; (h + 0)%nat; (w + 0)%nat].
  unfold fancy_shape. rewrite Hci, Hhi, Hwi, broadcast_shapes_col_left, broadcast_shapes_refl.
  rewrite Hck, Hvals, broadcast_shapes_refl. cbn [negb].
  destruct (list_eq_dec Nat.eq_dec [N; n_r; n_q] [N; n_r; n_q]) as [_|Hne];
    [|contradiction Hne; reflexivity].
  cbn [bind Nat.eqb negb].
  eexists. split; [reflexivity|].
  match goal with |- context [fold_left ?f _ zeros] => set (step := f) end.
  set (tgt := fun d : list nat =>
                [nth 0 d 0%nat; fc (nth 1 d 0%nat); fh (nth 1 d 0%nat) (nth 2 d 0%nat);
                 fw (nth 1 d 0%nat) (nth 2 d 0%nat)]).
  assert (Hin3 : forall idx, In idx (indices [N; n_r; n_q]) ->
             exists n r q, idx = [n; r; q] /\ (n < N)%nat /\ (r < n_r)%nat /\ (q < n_q)%nat).
  { intros idx Hin. apply in_map_iff in Hin as (k & <- & Hk). apply in_seq in Hk.
    apply in_bounds3_inv. apply unravel_in_bounds. lia. }
  assert (Hshape : shape (fold_left step (indices [N; n_r; n_q]) zeros)
                   = [N; c; (h + 0)%nat; (w + 0)%nat]).
  { rewrite fold_left_shape; [reflexivity|].
    intros acc x. unfold step. destruct (fancy_target acc ci hi wi x); reflexivity. }
  split; [exact Hshape|].
  intros n ch y x Hn Hch Hy Hx.
  rewrite (@scatter_sum step tgt (fun d => get vals d) [N; c; (h + 0)%nat; (w + 0)%nat]);
    [|reflexivity|apply build_wf| | |apply in_bounds4; assumption].
  3:{ intros acc idx Hin Hacc. destruct (Hin3 idx Hin) as (n' & r & q & -> & Hn' & Hr & Hq).
      unfold step. rewrite (Ht acc n' r q Hacc Hr Hq). unfold tgt. cbn [nth].
      rewrite bcast_idx_in_bounds by (apply in_bounds3; assumption). reflexivity. }
  2:{ intros idx Hin. destruct (Hin3 idx Hin) as (n' & r & q & -> & Hn' & Hr & Hq).
      unfold tgt. cbn [nth]. destruct (Hidx r q Hr Hq) as (_ & _ & _ & B1 & B2 & B3).
      apply in_bounds4; assumption. }
  unfold zeros, np_zeros. rewrite get_build by (apply in_bounds4; assumption).
  cbn [s_zero real_scalar]. rewrite Rplus_0_l.
  rewrite sum_indices3. unfold tgt. cbn [nth].
  (* the image *)
  rewrite (@sum_upto_only N n); [|exact Hn|].
  2:{ intros n' _ Hne. apply sum_upto_zero. intros r _.
      apply sum_upto_zero. intros q _. rewrite eq_dec_cell4.
      destruct (Nat.eqb_spec n n') as [->|_]; [contradiction Hne|]; reflexivity. }
  (* the rows of the patch matrix, by channel and kernel cell *)
  unfold n_r at 1. rewrite sum_upto_mul.
  rewrite (sum_upto_mul c k_h).
  assert (Hrow : forall ch' dy dx, (dy < k_h)%nat -> (dx < k_w)%nat ->
             let r := ((ch' * k_h + dy) * k_w + dx)%nat in
             fc r = ch' /\ (forall q, fh r q = (q / o_w * s + dy)%nat)
             /\ (forall q, fw r q = (q mod o_w * s + dx)%nat)).
  { intros ch' dy dx Hdy Hdx r.
    destruct (patch_row_arith ch' (k_h := k_h) Hdy Hdx) as (A1 & A2 & A3). fold r in A1, A2, A3.
    unfold fc, fh, fw. rewrite A1, A2, A3. repeat split; reflexivity. }
  rewrite (@sum_upto_only c ch); [|exact Hch|].
  2:{ intros ch' _ Hne. apply sum_upto_zero. intros dy Hdy.
      apply sum_upto_zero. intros dx Hdx. apply sum_upto_zero. intros q _.
      rewrite eq_dec_cell4, (proj1 (Hrow ch' dy dx Hdy Hdx)), Nat.eqb_refl.
      destruct (Nat.eqb_spec ch ch') as [->|_]; [contradiction Hne|]; reflexivity. }
  apply sum_upto_ext. intros dy Hdy. apply sum_upto_ext. intros dx Hdx.
  destruct (Hrow ch dy dx Hdy Hdx) as (A1 & A2 & A3).
  set (r := ((ch * k_h + dy) * k_w + dx)%nat) in *.
  assert (Hr : (r < n_r)%nat).
  { unfold r, n_r. apply offset_lt; [apply offset_lt; assumption | exact Hdx]. }
  unfold n_q at 1. rewrite sum_upto_mul.
  apply sum_upto_ext. intros i Hi. apply sum_upto_ext. intros j Hj.
  destruct (patch_column_arith i Hj) as (B1 & B2).
  rewrite eq_dec_cell4, A1, A2, A3, B1, B2, !Nat.eqb_refl. cbn [andb].
  rewrite (Nat.eqb_sym y), (Nat.eqb_sym x).
  destruct ((i * s + dy =? y) && (j * s + dx =? x))%nat; [|reflexivity].
  unfold vals. rewrite (get_transpose_201 (a := resh) eq_refl Hn Hr (offset_lt Hi Hj)).
  unfold resh, get. rewrite HdX. cbn [shape data ravel size_of fold_right]. f_equal.
  unfold n_q. ring.
Qed.

End Col2Img.

Section ConvBackwardInput.
Import conv_params.

(** The input gradient of [conv.backward] without padding, entry by entry. *)
Lemma conv_backward_input_entries (cp : conv_params.t)
  (out_grad input weights bias : @tensor real_scalar) (N c h w : nat) :
  shape input = [N; c; h; w] ->
  shape weights = [out_channel cp; c; kernel_h cp; kernel_w cp] -> wf weights ->
  1 <= N -> 1 <= c -> stride cp <> 0 -> pad cp = 0 ->
  1 <= kernel_h cp <= h -> 1 <= kernel_w cp <= w ->
  let o_h := (h - kernel_h cp) / stride cp + 1 in
  let o_w := (w - kernel_w cp) / stride cp + 1 in
  shape out_grad = [N; out_channel cp; o_h; o_w] ->
  exists in_grad w_grad b_grad,
    operators.conv.backward cp out_grad input weights bias = Ok (in_grad, w_grad, b_grad)
    /\ shape in_grad = shape input
    /\ forall n ch y x, n < N -> ch < c -> y < h -> x < w ->
         get in_grad [n; ch; y; x]
         = sum_upto (S := real_scalar) (kernel_h cp) (fun dy =>
             sum_upto (S := real_scalar) (kernel_w cp) (fun dx =>
               sum_upto (S := real_scalar) o_h (fun i =>
                 sum_upto (S := real_scalar) o_w (fun j =>
                   if (i * stride cp + dy =? y) && (j * stride cp + dx =? x)
                   then sum_upto (S := real_scalar) (out_channel cp) (fun o =>
                          Rmult (get weights [o; ch; dy; dx]) (get out_grad [n; o; i; j]))
                   else 0%R)))).
Proof.
  intros Hin Hw Wfw HN Hc Hs Hpad Hkh Hkw o_h o_w Hog.
  assert (He : Nat.even (pad cp) = true) by (rewrite Hpad; reflexivity).
  assert (Hkh' : 1 <= kernel_h cp <= h + pad cp) by lia.
  assert (Hkw' : 1 <= kernel_w cp <= w + pad cp) by lia.
  assert (Hoh : (h + pad cp - kernel_h cp) / stride cp + 1 = o_h)
    by (unfold o_h; rewrite Hpad, Nat.add_0_r; reflexivity).
  assert (How : (w + pad cp - kernel_w cp) / stride cp + 1 = o_w)
    by (unfold o_w; rewrite Hpad, Nat.add_0_r; reflexivity).
  destruct (@conv_backward_parameter_entries _ cp out_grad input weights bias N c h w
              Hin Hw Wfw HN Hc Hs He Hkh' Hkw' ltac:(rewrite Hoh, How; exact Hog))
    as (in_grad & w_grad & b_grad & E & _).
  exists in_grad, w_grad, b_grad. split; [exact E|].
  (* the statements of [backward], one by one *)
  unfold operators.conv.backward in E. rewrite Hin in E. cbv zeta in E.
  set (X_pad := np_pad s_zero input _) in E.
  set (o_c := out_channel cp) in *. set (k_h := kernel_h cp) in *.
  set (k_w := kernel_w cp) in *. set (s := stride cp) in *.
  assert (HX : shape X_pad = [N; c; h + pad cp; w + pad cp]).
  { unfold X_pad. rewrite (np_pad_shape4 (pad cp / 2, pad cp / 2) (pad cp / 2, pad cp / 2) Hin).
    rewrite Hpad. cbn [fst snd Nat.div Nat.divmod]. cbn. rewrite !Nat.add_0_r. reflexivity. }
  destruct (conv_img2col (X := X_pad) (N := N) HX Hs Hc Hkh' Hkw') as (X_hat & EX & HXh & _).
  rewrite Hoh, How in EX, HXh.
  set (n_r := c * k_h * k_w) in *. set (L := o_h * o_w * N) in *.
  rewrite EX in E. cbn [bind] in E.
  destruct weights as [wsh wdata]. cbn [shape] in Hw. unfold wf in Wfw. cbn [shape data] in Wfw.
  subst wsh. cbn [size_of fold_right] in Wfw.
  change [Z.of_nat o_c; Z.of_nat n_r] with (map Z.of_nat [o_c; n_r]) in E.
  rewrite reshape_back in E by (rewrite Wfw; cbn [size_of fold_right]; unfold n_r; lia).
  cbn [bind] in E. set (W := mk_ndarray [o_c; n_r] wdata) in *.
  unfold operators.transpose_axes at 1 in E. rewrite Hog in E. cbn [length Nat.eqb bind] in E.
  set (ogT := transpose out_grad [1; 2; 3; 0]) in *.
  assert (HogT : shape ogT = [o_c; o_h; o_w; N])
    by (unfold ogT, transpose; rewrite Hog; reflexivity).
  assert (LogT : length (data ogT) = o_c * L).
  { unfold ogT, transpose, build. cbn [data]. rewrite length_map, length_seq, Hog.
    cbn [map nth size_of fold_right]. unfold L. lia. }
  replace [Z.of_nat o_c; (Z.of_nat N * Z.of_nat o_h * Z.of_nat o_w)%Z]
    with (map Z.of_nat [o_c; L]) in E by (cbn [map]; unfold L; repeat f_equal; lia).
  destruct ogT as [tsh tdata] eqn:EogT. cbn [shape data] in HogT, LogT.
  rewrite reshape_back in E by (rewrite LogT; cbn [size_of fold_right]; lia).
  cbn [bind] in E. set (ogc := mk_ndarray [o_c; L] tdata) in *.
  apply bind_ok in E as (dX_hat & EdX & E).
  apply bind_ok in E as (ig & Ecol & E).
  apply bind_ok in E as (w2 & _ & E). apply bind_ok in E as (w4 & _ & E).
  apply bind_ok in E as (bg & _ & E).
  assert (Eig : ig = in_grad) by congruence. subst ig. clear E.
  (* the gradient of the patch matrix *)
  assert (HTW : shape (T_ W) = [n_r; o_c]) by reflexivity.
  assert (HdX : shape dX_hat = [n_r; L]).
  { unfold matmul in EdX. rewrite HTW in EdX. cbn [shape ogc] in EdX.
    rewrite Nat.eqb_refl in EdX. injection EdX as <-. reflexivity. }
  pose proof (matmul_wf EdX) as WfdX.
  pose proof (fun i j => @get_matmul _ (T_ W) ogc dX_hat n_r o_c L i j HTW eq_refl EdX)
    as GdX.
  rewrite Hpad in Ecol.
  assert (Hoh0 : (h + 0 - k_h) / s + 1 = o_h) by (unfold o_h; rewrite Nat.add_0_r; reflexivity).
  assert (How0 : (w + 0 - k_w) / s + 1 = o_w) by (unfold o_w; rewrite Nat.add_0_r; reflexivity).
  destruct (@col2img_entries dX_hat N c h w k_h k_w s) as (dX & EdX' & HdX' & GdX');
    try lia; try assumption.
  { rewrite Hoh0, How0. exact HdX. }
  rewrite Hoh0, How0 in GdX'.
  assert (dX = in_grad) by congruence. subst dX.
  rewrite !Nat.add_0_r in HdX'. split; [rewrite Hin; exact HdX'|].
  intros n ch y x Hn Hch Hy Hx.
  rewrite (GdX' n ch y x Hn Hch ltac:(lia) ltac:(lia)).
  apply sum_upto_ext. intros dy Hdy. apply sum_upto_ext. intros dx Hdx.
  apply sum_upto_ext. intros i Hi. apply sum_upto_ext. intros j Hj.
  destruct ((i * s + dy =? y) && (j * s + dx =? x)); [|reflexivity].
  assert (Hr : (ch * k_h + dy) * k_w + dx < n_r).
  { unfold n_r. apply offset_lt; [apply offset_lt; assumption | exact Hdx]. }
  assert (Hl : (i * o_w + j) * N + n < L).
  { unfold L. apply offset_lt; [apply offset_lt; assumption | exact Hn]. }
  rewrite (GdX _ _ Hr Hl). unfold sum_upto. f_equal. apply map_ext_in.
  intros o Ho. apply in_seq in Ho.
  assert (Ho' : o < o_c) by lia.
  change (@s_mul real_scalar) with Rmult. f_equal.
  - rewrite (get_T2 (a := W) eq_refl Ho' Hr).
    unfold W, get. cbn [shape data ravel size_of fold_right]. f_equal. unfold n_r. ring.
  - rewrite <- (get_transpose_1230 Hog Hn Ho' Hi Hj). fold ogT. rewrite EogT.
    unfold ogc, get. cbn [shape data]. rewrite HogT.
    cbn [ravel size_of fold_right]. f_equal. unfold L. ring.
Qed.

(** X19: without padding, the gradient that [conv.backward] returns for the
    input has the shape of the input and, on the real numbers, its entry
    [(n, ch, y, x)] is the sum, over the kernel cells [(dy, dx)] and the
    output positions [(i, j)] whose window cell [(i * stride + dy,
    j * stride + dx)] is [(y, x)], of the sum over the output channels [o]
    of the weight [(o, ch, dy, dx)] times the output gradient
    [(n, o, i, j)]: each input entry receives the gradient of every output
    entry it contributed to, with the weight it contributed through. *)
Theorem conv_backward_input_gradient (cp : conv_params.t)
  (out_grad input weights bias : @tensor real_scalar) (N c h w : nat) :
  shape input = [N; c; h; w] ->
  shape weights = [out_channel cp; c; kernel_h cp; kernel_w cp] -> wf weights ->
  1 <= N -> 1 <= c -> stride cp <> 0 -> pad cp = 0 ->
  1 <= kernel_h cp <= h -> 1 <= kernel_w cp <= w ->
  let o_h := (h - kernel_h cp) / stride cp + 1 in
  let o_w := (w - kernel_w cp) / stride cp + 1 in
  shape out_grad = [N; out_channel cp; o_h; o_w] ->
  exists in_grad w_grad b_grad,
    operators.conv.backward cp out_grad input weights bias = Ok (in_grad, w_grad, b_grad)
    /\ shape in_grad = shape input
    /\ forall n ch y x, n < N -> ch < c -> y < h -> x < w ->
         get in_grad [n; ch; y; x]
         = sum_upto (S := real_scalar) (kernel_h cp) (fun dy =>
             sum_upto (S := real_scalar) (kernel_w cp) (fun dx =>
               sum_upto (S := real_scalar) o_h (fun i =>
                 sum_upto (S := real_scalar) o_w (fun j =>
                   if (i * stride cp + dy =? y) && (j * stride cp + dx =? x)
                   then sum_upto (S := real_scalar) (out_channel cp) (fun o =>
                          Rmult (get weights [o; ch; dy; dx]) (get out_grad [n; o; i; j]))
                   else 0%R)))).
Proof.
  intros Hin Hw Wfw HN Hc Hs Hpad Hkh Hkw o_h o_w Hog.
  exact (@conv_backward_input_entries cp out_grad input weights bias N c h w
           Hin Hw Wfw HN Hc Hs Hpad Hkh Hkw Hog).
Qed.

End ConvBackwardInput.

Module ConvBackwardInputExample.

Lemma conv_backward_input_gradient_witness :
  exists in_grad w_grad b_grad,
    operators.conv.backward ConvForwardExample.conv1x2 ConvBackwardParameterExample.out_grad
      ConvForwardExample.image ConvForwardExample.kernel ConvForwardExample.bias
    = Ok (in_grad, w_grad, b_grad)
    /\ shape in_grad = [1; 1; 1; 2].
Proof.
  destruct (@conv_backward_input_gradient ConvForwardExample.conv1x2
              ConvBackwardParameterExample.out_grad
              ConvForwardExample.image ConvForwardExample.kernel ConvForwardExample.bias
              1 1 1 2 eq_refl eq_refl eq_refl
              ltac:(lia) ltac:(lia) ltac:(discriminate) eq_refl
              ltac:(cbn; lia) ltac:(cbn; lia) eq_refl)
    as (in_grad & w_grad & b_grad & E & Hs & _).
  exists in_grad, w_grad, b_grad. split; [exact E | exact Hs].
Defined.

End ConvBackwardInputExample.

(* ===================================================================== *)
(** * The two implementations of pooling and convolution *)
(* ===================================================================== *)

Section Patches.
Context {A : Type} `{Dflt A}.

Lemma mapM_ok {B C : Type} (f : B -> result C) (g : B -> C) (xs : list B) :
  (forall x, In x xs -> f x = Ok (g x)) -> mapM f xs = Ok (map g xs).
Proof.
  induction xs as [|x xs IH]; intro Hf; [reflexivity|].
  cbn [mapM map]. rewrite (Hf x (or_introl eq_refl)). cbn [bind].
  rewrite IH by (intros y Hy; apply Hf; right; exact Hy). reflexivity.
Qed.

(** Two arrays of the same shape with the same entries are the same array. *)
Lemma tensor_ext (a b : ndarray A) :
  wf a -> wf b -> shape a = shape b ->
  (forall idx, in_bounds (shape a) idx = true -> get a idx = get b idx) ->
  a = b.
Proof.
  intros Ha Hb Hs Hg. destruct a as [sa da], b as [sb db].
  unfold wf in Ha, Hb. cbn [shape data] in *. subst sb. f_equal.
  apply (nth_ext _ _ dflt dflt); [congruence|].
  intros k Hk. rewrite Ha in Hk.
  specialize (Hg (unravel sa k) (unravel_in_bounds Hk)). unfold get in Hg.
  cbn [shape data] in Hg. rewrite ravel_unravel in Hg by exact Hk. exact Hg.
Qed.

Lemma length_list_prod {B C : Type} (xs : list B) (ys : list C) :
  length (list_prod xs ys) = length xs * length ys.
Proof. apply length_prod. Qed.

(** The [p]-th pair of a Cartesian product listed second-component-fastest. *)
Lemma nth_list_prod {B C : Type} (xs : list B) (ys : list C) (i j : nat) (d : B * C) :
  i < length xs -> j < length ys ->
  nth (i * length ys + j) (list_prod xs ys) d = (nth i xs (fst d), nth j ys (snd d)).
Proof.
  revert i. induction xs as [|x xs IH]; intros i Hi Hj; [cbn in Hi; lia|].
  cbn [list_prod]. destruct i as [|i].
  - cbn [Nat.mul Nat.add nth]. rewrite app_nth1 by (rewrite length_map; exact Hj).
    rewrite nth_indep with (d' := (x, snd d)) by (rewrite length_map; exact Hj).
    rewrite (map_nth (fun y => (x, y))). reflexivity.
  - rewrite app_nth2 by (rewrite length_map; lia). rewrite length_map.
    replace (Datatypes.S i * length ys + j - length ys) with (i * length ys + j) by lia.
    cbn [nth length] in *. apply IH; lia.
Qed.

Lemma reshape_5_middle (a : ndarray A) (n c h w : nat) :
  n * c * h * w <> 0 -> length (data a) mod (n * c * h * w) = 0 ->
  reshape a [Z.of_nat n; Z.of_nat c; -1; Z.of_nat h; Z.of_nat w]%Z
  = Ok (mk_ndarray [n; c; length (data a) / (n * c * h * w); h; w] (data a)).
Proof.
  intros Hnz Hm. unfold reshape.
  assert (E1 : forall k, (Z.of_nat k <? -1)%Z = false) by (intro; apply Z.ltb_ge; lia).
  assert (E2 : forall k, (Z.of_nat k =? -1)%Z = false) by (intro; apply Z.eqb_neq; lia).
  cbn [existsb filter]. rewrite !E1, !E2.
  change ((-1 <? -1)%Z) with false. change ((-1 =? -1)%Z) with true.
  cbn [orb negb filter length map fold_right]. rewrite !E2.
  rewrite !Nat2Z.id, Nat.mul_1_r, !Nat.mul_assoc.
  destruct (Nat.eqb_spec (n * c * h * w) 0); [contradiction|].
  rewrite Hm. cbn [Nat.eqb negb orb]. reflexivity.
Qed.

End Patches.

Section FreeImg2col.
Context {S : Scalar}.

(** The patches of the free functions: entry [(n, m, p)] is the cell [m] of
    the window [p] of image [n], windows listed row by row and cells listed
    by channel, then row, then column. *)
Lemma free_img2col_entries (X : tensor) (N c n_h n_w s k_h k_w o_h o_w : nat) :
  shape X = [N; c; n_h; n_w] -> 1 <= N -> 1 <= o_h -> 1 <= o_w ->
  (forall i, i < o_h -> s * i + k_h <= n_h) ->
  (forall j, j < o_w -> s * j + k_w <= n_w) ->
  exists P,
    operations.img2col X (map (fun i => s * i) (seq 0 o_h)) (map (fun j => s * j) (seq 0 o_w))
      k_h k_w = Ok P
    /\ shape P = [N; c * k_h * k_w; o_h * o_w] /\ wf P
    /\ forall n ch dy dx i j, n < N -> ch < c -> dy < k_h -> dx < k_w -> i < o_h -> j < o_w ->
         get P [n; (ch * k_h + dy) * k_w + dx; i * o_w + j]
         = get X [n; ch; s * i + dy; s * j + dx].
Proof.
  intros HX HN Hoh How Hh Hw.
  set (hs := map (fun i => s * i) (seq 0 o_h)). set (ws := map (fun j => s * j) (seq 0 o_w)).
  set (win := fun x : nat * nat =>
                slice X [None; None;
                         Some (Z.of_nat (fst x), Z.of_nat (fst x + k_h));
                         Some (Z.of_nat (snd x), Z.of_nat (snd x + k_w))]).
  set (g := fun x : nat * nat =>
              mk_ndarray [N; length (data (win x)) / N] (data (win x))).
  assert (Hcorner : forall x, In x (list_prod hs ws) ->
             exists i j, x = (s * i, s * j) /\ i < o_h /\ j < o_w).
  { intros [y z] Hx. apply in_prod_iff in Hx as [Hy Hz].
    apply in_map_iff in Hy as (i & <- & Hi). apply in_map_iff in Hz as (j & <- & Hj).
    apply in_seq in Hi, Hj. exists i, j. repeat split; lia. }
  assert (Hwin : forall i j, i < o_h -> j < o_w ->
             shape (win (s * i, s * j)) = [N; c; k_h; k_w]
             /\ length (data (win (s * i, s * j))) = N * (c * k_h * k_w)
             /\ forall n ch dy dx, n < N -> ch < c -> dy < k_h -> dx < k_w ->
                  get (win (s * i, s * j)) [n; ch; dy; dx]
                  = get X [n; ch; s * i + dy; s * j + dx]).
  { intros i j Hi Hj.
    destruct (slice_window (a := X) (oy := s * i) (ox := s * j) (k_h := k_h) (k_w := k_w)
                HX (Hh i Hi) (Hw j Hj)) as [Hsw Gsw].
    split; [exact Hsw|]. split; [|exact Gsw].
    assert (Wf : wf (win (s * i, s * j))) by (unfold win, slice; apply build_wf).
    unfold wf in Wf. rewrite Wf. change (shape (win (s * i, s * j))) with (shape (slice X
      [None; None; Some (Z.of_nat (s * i), Z.of_nat (s * i + k_h));
       Some (Z.of_nat (s * j), Z.of_nat (s * j + k_w))])).
    rewrite Hsw. cbn [size_of fold_right]. lia. }
  assert (Hg : forall i j, i < o_h -> j < o_w ->
             g (s * i, s * j) = mk_ndarray [N; c * k_h * k_w] (data (win (s * i, s * j)))).
  { intros i j Hi Hj. unfold g. destruct (Hwin i j Hi Hj) as (_ & -> & _).
    rewrite Nat.mul_comm, Nat.div_mul by lia. reflexivity. }
  unfold operations.img2col. rewrite HX. fold hs ws.
  rewrite (@mapM_ok _ _ _ g).
  2:{ intros x Hx. destruct (Hcorner x Hx) as (i & j & -> & Hi & Hj).
      destruct (Hwin i j Hi Hj) as (_ & Hlen & _).
      change (slice X _) with (win (s * i, s * j)).
      apply reshape_rows; [lia|]. rewrite Hlen, Nat.mul_comm. apply Nat.Div0.mod_mul. }
  cbn [bind].
  assert (Lhs : length hs = o_h) by (unfold hs; rewrite length_map, length_seq; reflexivity).
  assert (Lws : length ws = o_w) by (unfold ws; rewrite length_map, length_seq; reflexivity).
  assert (Hnth : forall i j, i < o_h -> j < o_w ->
             nth (i * o_w + j) (list_prod hs ws) (0, 0) = (s * i, s * j)).
  { intros i j Hi Hj. rewrite <- Lws at 1. rewrite nth_list_prod by lia. cbn [fst snd].
    unfold hs, ws.
    rewrite (nth_indep _ 0 (s * 0)), (map_nth (fun i => s * i)), seq_nth
      by (rewrite ?length_map, ?length_seq; lia).
    rewrite (nth_indep _ 0 (s * 0)), (map_nth (fun i => s * i)), seq_nth
      by (rewrite ?length_map, ?length_seq; lia).
    reflexivity. }
  assert (Lc : length (list_prod hs ws) = o_h * o_w) by (rewrite length_prod; lia).
  assert (Hshapes : forall x, In x (list_prod hs ws) -> shape (g x) = [N; c * k_h * k_w]).
  { intros x Hx. destruct (Hcorner x Hx) as (i & j & -> & Hi & Hj).
    rewrite (Hg i j Hi Hj). reflexivity. }
  unfold stack_last.
  destruct (list_prod hs ws) as [|x0 rest] eqn:Ecorners.
  { cbn [length] in Lc. nia. }
  cbn [map]. rewrite <- Ecorners in *.
  replace (all_equal_shapes (g x0 :: map g rest)) with true.
  2:{ symmetry. unfold all_equal_shapes. apply forallb_forall. intros b Hb.
      apply in_map_iff in Hb as (x & <- & Hx).
      rewrite (Hshapes x) by (rewrite Ecorners; right; exact Hx).
      rewrite (Hshapes x0) by (rewrite Ecorners; left; reflexivity).
      destruct (list_eq_dec Nat.eq_dec _ _) as [_|Hne]; [reflexivity | contradiction Hne;
        reflexivity]. }
  rewrite (Hshapes x0) by (rewrite Ecorners; left; reflexivity).
  cbn [app length]. rewrite length_map.
  replace (Datatypes.S (length rest)) with (o_h * o_w)
    by (rewrite <- Lc, Ecorners; reflexivity).
  eexists. split; [reflexivity|]. split; [reflexivity|]. split; [apply build_wf|].
  intros n ch dy dx i j Hn Hch Hdy Hdx Hi Hj.
  assert (Hm : (ch * k_h + dy) * k_w + dx < c * k_h * k_w)
    by (apply offset_lt; [apply offset_lt; assumption | exact Hdx]).
  assert (Hp : i * o_w + j < o_h * o_w) by (apply offset_lt; assumption).
  rewrite get_build by (apply in_bounds3; assumption).
  cbn [last removelast].
  change (g x0 :: map g rest) with (map g (x0 :: rest)). rewrite <- Ecorners.
  rewrite (nth_indep _ (g x0) (g (0, 0))) by (rewrite length_map; lia).
  rewrite (map_nth g), (Hnth i j Hi Hj), (Hg i j Hi Hj).
  destruct (Hwin i j Hi Hj) as (Hsw & _ & Gsw).
  rewrite <- (Gsw n ch dy dx Hn Hch Hdy Hdx).
  unfold get at 1 2. cbn [shape data]. rewrite Hsw.
  cbn [ravel size_of fold_right]. f_equal. ring.
Qed.

End FreeImg2col.

Section FreePooling.
Context {S : Scalar}.
Import pool_params.

Lemma out_size_nat (n k s : nat) :
  s <> 0 -> k <= n -> operations.out_size n k 0 s = Ok (Z.of_nat ((n - k) / s + 1)).
Proof.
  intros Hs Hk. unfold operations.out_size, py_floordiv.
  destruct (Z.eqb_spec (Z.of_nat s) 0) as [E|_]; [lia|]. cbn [bind]. f_equal.
  replace (Z.of_nat n - Z.of_nat k + 2 * Z.of_nat 0)%Z with (Z.of_nat (n - k)) by lia.
  rewrite <- Nat2Z.inj_div. lia.
Qed.

Lemma pool_forward_wf (pp : pool_params.t) (input out : tensor) :
  operators.pool.forward pp input = Ok out -> wf out.
Proof.
  unfold operators.pool.forward.
  destruct (shape input) as [|b [|c [|h [|w [|? ?]]]]]; try discriminate.
  intro E. apply bind_ok in E as (oh & _ & E). apply bind_ok in E as (ow & _ & E).
  apply bind_ok in E as (buf & _ & E). apply bind_ok in E as (buf' & _ & E).
  unfold operators.transpose_axes in E.
  destruct (length _ =? length _); [|discriminate].
  injection E as <-. apply build_wf.
Qed.

(** The free function without padding: the same windows, reduced the same
    way. *)
Lemma free_pool_forward_windows (pp : pool_params.t) (input : tensor) (N c h w : nat) :
  shape input = [N; c; h; w] -> 1 <= N -> 1 <= c ->
  stride pp <> 0 -> pad pp = 0 ->
  1 <= pool_height pp <= h -> 1 <= pool_width pp <= w ->
  pool_type pp = "max"%string \/ pool_type pp = "avg"%string ->
  let o_h := (h - pool_height pp) / stride pp + 1 in
  let o_w := (w - pool_width pp) / stride pp + 1 in
  let X_pad := np_pad s_zero input [(0, 0); (0, 0); (0, 0); (0, 0)] in
  exists out,
    operations.pool_forward input pp = Ok out
    /\ shape out = [N; c; o_h; o_w] /\ wf out
    /\ forall n ch i j, n < N -> ch < c -> i < o_h -> j < o_w ->
         get out [n; ch; i; j]
         = pooled pp (pool_window X_pad (stride pp) (pool_height pp) (pool_width pp) n ch i j).
Proof.
  intros Hin HN Hc Hs Hpad Hkh Hkw Hty o_h o_w X_pad.
  unfold operations.pool_forward. rewrite Hin, Hpad.
  rewrite (out_size_nat Hs (proj2 Hkh)), (out_size_nat Hs (proj2 Hkw)). cbn [bind].
  fold o_h o_w. change (repeat (0, 0) 4) with [(0, 0); (0, 0); (0, 0); (0, 0)].
  fold X_pad. unfold range. rewrite !Nat2Z.id.
  set (k_h := pool_height pp) in *. set (k_w := pool_width pp) in *.
  set (s := stride pp) in *.
  assert (HX : shape X_pad = [N; c; h; w]).
  { unfold X_pad. rewrite (np_pad_shape4 (0, 0) (0, 0) Hin). cbn [fst snd].
    rewrite !Nat.add_0_r. reflexivity. }
  assert (Hwin : forall (n k i : nat), k <= n -> i < (n - k) / s + 1 -> s * i + k <= n).
  { intros n k i Hk Hi.
    pose proof (@window_inside n k 0 s i Hs ltac:(lia)
                  ltac:(rewrite Nat.add_0_r; exact Hi)) as Hw'. lia. }
  destruct (free_img2col_entries (X := X_pad) (s := s) (k_h := k_h) (k_w := k_w)
              (o_h := o_h) (o_w := o_w) HX HN)
    as (P & EP & HP & WfP & GP);
    [unfold o_h; lia | unfold o_w; lia
     | intros i Hi; apply Hwin; [lia | exact Hi]
     | intros j Hj; apply Hwin; [lia | exact Hj] |].
  rewrite EP. cbn [bind].
  unfold wf in WfP. rewrite HP in WfP. cbn [size_of fold_right] in WfP.
  assert (Hnz : N * c * o_h * o_w <> 0) by (unfold o_h, o_w; nia).
  assert (Hlen : length (data P) = k_h * k_w * (N * c * o_h * o_w)) by (rewrite WfP; ring).
  assert (Hmod : length (data P) mod (N * c * o_h * o_w) = 0)
    by (rewrite Hlen; apply Nat.Div0.mod_mul).
  rewrite (reshape_5_middle Hnz Hmod). cbn [bind].
  rewrite Hlen, Nat.div_mul by exact Hnz.
  set (ip := mk_ndarray [N; c; k_h * k_w; o_h; o_w] (data P)).
  assert (Gip : forall n ch t i j, n < N -> ch < c -> t < k_h * k_w -> i < o_h -> j < o_w ->
             get ip [n; ch; t; i; j]
             = get X_pad [n; ch; i * s + t / k_w; j * s + t mod k_w]).
  { intros n ch t i j Hn Hch Ht Hi Hj.
    assert (Hkw0 : k_w <> 0) by lia.
    assert (Hdy : t / k_w < k_h) by (apply Nat.Div0.div_lt_upper_bound; lia).
    assert (Hdx : t mod k_w < k_w) by (apply Nat.mod_upper_bound; exact Hkw0).
    rewrite (Nat.mul_comm i s), (Nat.mul_comm j s).
    rewrite <- (GP n ch (t / k_w) (t mod k_w) i j Hn Hch Hdy Hdx Hi Hj).
    unfold ip, get. cbn [shape data]. rewrite HP. cbn [ravel size_of fold_right]. f_equal.
    pose proof (Nat.div_mod_eq t k_w) as Et.
    replace ((ch * k_h + t / k_w) * k_w + t mod k_w)
      with (ch * (k_h * k_w) + (k_w * (t / k_w) + t mod k_w)) by ring.
    rewrite <- Et. ring. }
  assert (Hred : forall f : list num -> num,
             shape (reduce_axes f [2] false ip) = [N; c; o_h; o_w]
             /\ wf (reduce_axes f [2] false ip)
             /\ forall n ch i j, n < N -> ch < c -> i < o_h -> j < o_w ->
                  get (reduce_axes f [2] false ip) [n; ch; i; j]
                  = f (pool_window X_pad s k_h k_w n ch i j)).
  { intro f. split; [reflexivity|]. split; [apply build_wf|].
    intros n ch i j Hn Hch Hi Hj. unfold reduce_axes. cbn [shape ip].
    cbn [drop_axes pick_axes existsb Nat.eqb orb].
    rewrite get_build by (apply in_bounds4; assumption).
    unfold pool_window, indices. rewrite !map_map.
    replace (size_of [k_h; k_w]) with (size_of [k_h * k_w])
      by (cbn [size_of fold_right]; ring).
    f_equal. apply map_ext_in. intros t Ht. apply in_seq in Ht.
    cbn [size_of fold_right] in Ht.
    cbn [merge_idx existsb Nat.eqb orb hd tl unravel nth size_of fold_right].
    rewrite !Nat.mul_1_r, !Nat.div_1_r. apply Gip; try assumption. lia. }
  unfold pooled. destruct Hty as [Ety | Ety]; rewrite Ety; cbn [String.eqb Ascii.eqb Bool.eqb].
  - unfold np_max, axes_ok. cbn [shape ip length forallb Nat.ltb Nat.leb andb negb].
    cbn [pick_axes existsb Nat.eqb orb].
    change (match k_h * k_w with 0 => true | Datatypes.S _ => false end)
      with (0 =? k_h * k_w).
    rewrite (proj2 (Nat.eqb_neq 0 (k_h * k_w))) by nia. cbn [orb].
    eexists. split; [reflexivity|]. apply (Hred max_list).
  - unfold np_mean, axes_ok. cbn [shape ip length forallb Nat.ltb Nat.leb andb].
    eexists. split; [reflexivity|]. apply (Hred mean_list).
Qed.

End FreePooling.

Section PoolingAgreement.
Import pool_params.

(** X20: without padding, on a batch of at least one image with at least
    one channel, the method [pool.forward] and the free function
    [pool_forward] return the same array on the real numbers, for 'max' and
    for 'avg', whenever the stride is not zero and the kernel is not empty
    and fits in the image. *)
Theorem pool_forward_implementations_agree (pp : pool_params.t)
  (input : @tensor real_scalar) (N c h w : nat) :
  shape input = [N; c; h; w] -> 1 <= N -> 1 <= c ->
  stride pp <> 0 -> pad pp = 0 ->
  1 <= pool_height pp <= h -> 1 <= pool_width pp <= w ->
  pool_type pp = "max"%string \/ pool_type pp = "avg"%string ->
  exists out,
    operators.pool.forward pp input = Ok out
    /\ operations.pool_forward input pp = Ok out
    /\ shape out = [N; c; (h - pool_height pp) / stride pp + 1;
                    (w - pool_width pp) / stride pp + 1].
Proof.
  intros Hin HN Hc Hs Hpad Hkh Hkw Hty.
  assert (He : Nat.even (pad pp) = true) by (rewrite Hpad; reflexivity).
  destruct (pool_forward_windows (pp := pp) Hin Hs He ltac:(lia) ltac:(lia) Hty)
    as (out & E & Ho & G).
  destruct (free_pool_forward_windows Hin HN Hc Hs Hpad Hkh Hkw Hty)
    as (out' & E' & Ho' & Wf' & G').
  rewrite Hpad in Ho, G. rewrite !Nat.add_0_r in Ho, G.
  change (0 / 2) with 0 in G.
  assert (out' = out).
  { apply tensor_ext; [exact Wf' | exact (pool_forward_wf E) | congruence |].
    intros idx Hb. rewrite Ho' in Hb.
    apply in_bounds4_inv in Hb as (n & ch & i & j & -> & Hn & Hch & Hi & Hj).
    rewrite (G' n ch i j Hn Hch Hi Hj), (G n ch i j Hn Hch Hi Hj). reflexivity. }
  subst out'. exists out. split; [exact E|]. split; [exact E' | exact Ho].
Qed.

End PoolingAgreement.

Module PoolAgreementExample.

Lemma pool_forward_implementations_agree_witness :
  exists out,
    operators.pool.forward PoolForwardExample.max2x2 PoolForwardExample.image = Ok out
    /\ operations.pool_forward PoolForwardExample.image PoolForwardExample.max2x2 = Ok out.
Proof.
  destruct (@pool_forward_implementations_agree PoolForwardExample.max2x2
              PoolForwardExample.image 1 1 2 2 eq_refl
              ltac:(lia) ltac:(lia) ltac:(discriminate) eq_refl
              ltac:(cbn; lia) ltac:(cbn; lia) (or_introl eq_refl))
    as (out & E & E' & _).
  exists out. split; [exact E | exact E'].
Defined.

End PoolAgreementExample.

(* ===================================================================== *)
(** * The free convolution *)
(* ===================================================================== *)

Section MapResults.
Context {B C : Type}.

(** A [map] whose every call returns, with what is known of each result. *)
Lemma mapM_exists (f : B -> result C) (P : B -> C -> Prop) (xs : list B) :
  (forall x, In x xs -> exists y, f x = Ok y /\ P x y) ->
  exists ys, mapM f xs = Ok ys /\ length ys = length xs
             /\ forall k dx dy, k < length xs -> P (nth k xs dx) (nth k ys dy).
Proof.
  induction xs as [|x xs IH]; intro Hf.
  - exists []. split; [reflexivity|]. split; [reflexivity|]. intros k dx dy Hk. cbn in Hk. lia.
  - destruct (Hf x (or_introl eq_refl)) as (y & Ey & Py).
    destruct IH as (ys & Eys & Lys & Pys); [intros z Hz; apply Hf; right; exact Hz|].
    exists (y :: ys). cbn [mapM]. rewrite Ey. cbn [bind]. rewrite Eys. cbn [bind].
    split; [reflexivity|]. split; [cbn [length]; lia|].
    intros [|k] dx dy Hk; cbn [nth]; [exact Py|]. apply Pys. cbn [length] in Hk. lia.
Qed.

End MapResults.

Section FreeConvolution.
Context {S : Scalar}.
Import conv_params.

Lemma conv_forward_wf (cp : conv_params.t) (input weights bias out : tensor) :
  operators.conv.forward cp input weights bias = Ok out -> wf out.
Proof.
  unfold operators.conv.forward.
  destruct (shape input) as [|b [|c [|h [|w [|? ?]]]]]; try discriminate.
  intro E. apply bind_ok in E as ([[X_hat oh] ow] & _ & E).
  apply bind_ok in E as (W & _ & E). apply bind_ok in E as (b1 & _ & E).
  apply bind_ok in E as (b2 & _ & E). apply bind_ok in E as (Y & _ & E).
  apply bind_ok in E as (Y' & _ & E). apply bind_ok in E as (o & _ & E).
  unfold operators.transpose_axes in E.
  destruct (length _ =? length _); [|discriminate].
  injection E as <-. apply build_wf.
Qed.

(** The free function without padding: the same sums, in the same order. *)
Lemma free_conv_forward_entries (cp : conv_params.t) (input weights bias : tensor)
  (N c h w : nat) :
  shape input = [N; c; h; w] ->
  shape weights = [out_channel cp; c; kernel_h cp; kernel_w cp] -> wf weights ->
  shape bias = [out_channel cp] -> wf bias ->
  1 <= N -> 1 <= out_channel cp -> 1 <= c ->
  stride cp <> 0 -> pad cp = 0 ->
  1 <= kernel_h cp <= h -> 1 <= kernel_w cp <= w ->
  let o_h := (h - kernel_h cp) / stride cp + 1 in
  let o_w := (w - kernel_w cp) / stride cp + 1 in
  let X_pad := np_pad s_zero input [(0, 0); (0, 0); (0, 0); (0, 0)] in
  exists out,
    operations.conv_forward input weights bias cp = Ok out
    /\ shape out = [N; out_channel cp; o_h; o_w] /\ wf out
    /\ forall n o i j, n < N -> o < out_channel cp -> i < o_h -> j < o_w ->
         get out [n; o; i; j]
         = s_add (sum_list
                    (map (fun d => s_mul (get weights (o :: d))
                                     (get X_pad [n; nth 0 d 0;
                                                 i * stride cp + nth 1 d 0;
                                                 j * stride cp + nth 2 d 0]))
                         (indices [c; kernel_h cp; kernel_w cp])))
                 (get bias [o]).
Proof.
  intros Hin Hw Wfw Hb Wfb HN Hoc Hc Hs Hpad Hkh Hkw o_h o_w X_pad.
  unfold operations.conv_forward. rewrite Hin, Hpad.
  rewrite (out_size_nat Hs (proj2 Hkh)), (out_size_nat Hs (proj2 Hkw)). cbn [bind].
  fold o_h o_w. change (repeat (0, 0) 4) with [(0, 0); (0, 0); (0, 0); (0, 0)].
  fold X_pad. unfold range. rewrite !Nat2Z.id.
  rewrite np_zeros_Z_ok by (repeat constructor; lia). cbn [bind].
  set (o_c := out_channel cp) in *. set (k_h := kernel_h cp) in *.
  set (k_w := kernel_w cp) in *. set (s := stride cp) in *.
  set (n_r := c * k_h * k_w). set (n_q := o_h * o_w).
  assert (HX : shape X_pad = [N; c; h; w]).
  { unfold X_pad. rewrite (np_pad_shape4 (0, 0) (0, 0) Hin). cbn [fst snd].
    rewrite !Nat.add_0_r. reflexivity. }
  assert (Hwin : forall (n k i : nat), k <= n -> i < (n - k) / s + 1 -> s * i + k <= n).
  { intros n k i Hk Hi.
    pose proof (@window_inside n k 0 s i Hs ltac:(lia)
                  ltac:(rewrite Nat.add_0_r; exact Hi)) as Hw'. lia. }
  destruct (free_img2col_entries (X := X_pad) (s := s) (k_h := k_h) (k_w := k_w)
              (o_h := o_h) (o_w := o_w) HX HN)
    as (P & EP & HP & WfP & GP);
    [unfold o_h; lia | unfold o_w; lia
     | intros i Hi; apply Hwin; [lia | exact Hi]
     | intros j Hj; apply Hwin; [lia | exact Hj] |].
  fold n_r n_q in HP. rewrite EP. cbn [bind].
  (* the weights and the bias, as the loop reshapes them *)
  unfold wf in Wfw, Wfb. rewrite Hw in Wfw. rewrite Hb in Wfb.
  cbn [size_of fold_right] in Wfw, Wfb.
  assert (Hoc0 : o_c <> 0) by lia.
  assert (Lw : length (data weights) = n_r * o_c) by (rewrite Wfw; unfold n_r; ring).
  assert (Ew : reshape weights [Z.of_nat o_c; -1]%Z = Ok (mk_ndarray [o_c; n_r] (data weights))).
  { rewrite reshape_rows; [|exact Hoc0|rewrite Lw; apply Nat.Div0.mod_mul].
    rewrite Lw, Nat.div_mul by exact Hoc0. reflexivity. }
  assert (Eb : reshape bias [-1; 1]%Z = Ok (mk_ndarray [o_c; 1] (data bias))).
  { rewrite reshape_column. rewrite Wfb, Nat.mul_1_r. reflexivity. }
  set (W := mk_ndarray [o_c; n_r] (data weights)) in *.
  set (bcol := mk_ndarray [o_c; 1] (data bias)) in *.
  (* one product per image *)
  unfold rows_of. rewrite HP.
  set (image := fun n : nat => build [n_r; n_q] (fun idx => get P (n :: idx))).
  match goal with |- context [mapM ?f _] => set (body := f) end.
  destruct (@mapM_exists _ _ body
              (fun (x y : tensor) =>
                 shape y = [o_c; n_q]
                 /\ forall o q, o < o_c -> q < n_q ->
                      get y [o; q]
                      = s_add (sum_list (map (fun r => s_mul (get W [o; r]) (get x [r; q]))
                                             (seq 0 n_r)))
                              (get bias [o]))
              (map image (seq 0 N)))
    as (outs & Eouts & Louts & Gouts).
  { intros x Hx. apply in_map_iff in Hx as (n & <- & _).
    unfold body. rewrite Ew. cbn [bind].
    destruct (matmul W (image n)) as [m|e] eqn:Em;
      [|unfold matmul in Em; cbn [shape W image build] in Em;
        rewrite Nat.eqb_refl in Em; discriminate].
    assert (Hm : shape m = [o_c; n_q]).
    { unfold matmul in Em. cbn [shape W image build] in Em.
      rewrite Nat.eqb_refl in Em. injection Em as <-. reflexivity. }
    cbn [bind]. rewrite Eb. cbn [bind].
    destruct (broadcast2_col s_add (a := m) (m := bcol) Hm eq_refl)
      as (y & Ey & Hy & _ & Gy).
    exists y. split; [exact Ey|]. split; [exact Hy|].
    intros o q Ho Hq. rewrite (Gy o q Ho Hq).
    rewrite (@get_matmul _ W (image n) m o_c n_r n_q o q eq_refl eq_refl Em Ho Hq).
    f_equal. unfold bcol, get. cbn [shape data ravel size_of fold_right]. rewrite Hb.
    cbn [ravel size_of fold_right]. f_equal; lia. }
  rewrite Eouts. cbn [bind]. rewrite length_map, length_seq in Louts, Gouts.
  (* the stack *)
  assert (Hshape : forall y, In y outs -> shape y = [o_c; n_q]).
  { intros y Hy. apply (In_nth _ _ y) in Hy as (k & Hk & <-).
    apply (Gouts k (image 0) y). lia. }
  unfold stack_first. destruct outs as [|y0 rest] eqn:Eo; [cbn in Louts; lia|].
  rewrite <- Eo in *.
  replace (all_equal_shapes outs) with true.
  2:{ symmetry. rewrite Eo. unfold all_equal_shapes. apply forallb_forall. intros y Hy.
      rewrite (Hshape y) by (rewrite Eo; right; exact Hy).
      rewrite (Hshape y0) by (rewrite Eo; left; reflexivity).
      destruct (list_eq_dec Nat.eq_dec _ _) as [_|Hne]; [reflexivity | contradiction Hne;
        reflexivity]. }
  rewrite (Hshape y0) by (rewrite Eo; left; reflexivity). rewrite Louts. cbn [bind].
  unfold build at 1.
  change [Z.of_nat N; Z.of_nat o_c; Z.of_nat o_h; Z.of_nat o_w]
    with (map Z.of_nat [N; o_c; o_h; o_w]).
  rewrite reshape_back
    by (rewrite length_map, length_seq; cbn [size_of fold_right]; unfold n_q; ring).
  eexists. split; [reflexivity|]. split; [reflexivity|].
  split; [unfold wf; cbn [shape data]; rewrite length_map, length_seq;
          cbn [size_of fold_right]; unfold n_q; ring|].
  intros n o i j Hn Ho Hi Hj.
  assert (Hq : i * o_w + j < n_q) by (apply offset_lt; assumption).
  set (stacked := fun idx : list nat => get (nth (hd 0 idx) outs y0) (tl idx)).
  transitivity (get (build [N; o_c; n_q] stacked) [n; o; i * o_w + j]).
  { unfold get, build. cbn [shape data ravel size_of fold_right]. f_equal. unfold n_q. ring. }
  rewrite get_build by (apply in_bounds3; assumption).
  unfold stacked. cbn [hd tl].
  destruct (Gouts n (image 0) y0 Hn) as [_ Gy].
  rewrite (Gy o (i * o_w + j) Ho Hq). f_equal.
  unfold indices. rewrite map_map.
  replace (size_of [c; k_h; k_w]) with n_r by (cbn [size_of fold_right]; unfold n_r; ring).
  f_equal. apply map_ext_in. intros r Hr. apply in_seq in Hr.
  assert (Hsz : r < size_of [c; k_h; k_w]) by (cbn [size_of fold_right]; unfold n_r in Hr; lia).
  pose proof (unravel_in_bounds Hsz) as Hbd. pose proof (ravel_unravel Hsz) as Hrav.
  apply in_bounds3_inv in Hbd as (ch & dy & dx & Ed & Hch & Hdy & Hdx).
  rewrite Ed in Hrav |- *. cbn [ravel size_of fold_right] in Hrav. cbn [nth].
  assert (Er : r = (ch * k_h + dy) * k_w + dx) by (rewrite <- Hrav; ring).
  f_equal.
  - unfold W, get. cbn [shape data]. rewrite Hw. cbn [ravel size_of fold_right]. f_equal.
    rewrite Er. unfold n_r. ring.
  - rewrite (nth_indep _ (image 0) (image 0)) by (rewrite length_map, length_seq; exact Hn).
    rewrite (map_nth image), seq_nth by exact Hn. cbn [Nat.add].
    unfold image. rewrite get_build by (apply in_bounds2; [lia | exact Hq]).
    rewrite Er, (GP n ch dy dx i j Hn Hch Hdy Hdx Hi Hj).
    rewrite (Nat.mul_comm s i), (Nat.mul_comm s j). reflexivity.
Qed.

End FreeConvolution.

Section ConvolutionAgreement.
Import conv_params.

(** X21: without padding, on a batch of at least one image, the method
    [conv.forward] and the free function [conv_forward] return the same
    array on the real numbers, for weights of shape
    [(out_channel, c, kernel_h, kernel_w)] and one bias per output channel,
    whenever the stride is not zero and the kernel is not empty and fits in
    the image. *)
Theorem conv_forward_implementations_agree (cp : conv_params.t)
  (input weights bias : @tensor real_scalar) (N c h w : nat) :
  shape input = [N; c; h; w] ->
  shape weights = [out_channel cp; c; kernel_h cp; kernel_w cp] -> wf weights ->
  shape bias = [out_channel cp] -> wf bias ->
  1 <= N -> 1 <= out_channel cp -> 1 <= c ->
  stride cp <> 0 -> pad cp = 0 ->
  1 <= kernel_h cp <= h -> 1 <= kernel_w cp <= w ->
  exists out,
    operators.conv.forward cp input weights bias = Ok out
    /\ operations.conv_forward input weights bias cp = Ok out
    /\ shape out = [N; out_channel cp; (h - kernel_h cp) / stride cp + 1;
                    (w - kernel_w cp) / stride cp + 1].
Proof.
  intros Hin Hw Wfw Hb Wfb HN Hoc Hc Hs Hpad Hkh Hkw.
  assert (He : Nat.even (pad cp) = true) by (rewrite Hpad; reflexivity).
  destruct (conv_forward_entries (cp := cp) Hin Hw Wfw Hb Wfb Hoc Hc Hs He
              ltac:(lia) ltac:(lia))
    as (out & E & Ho & G).
  destruct (free_conv_forward_entries Hin Hw Wfw Hb Wfb HN Hoc Hc Hs Hpad Hkh Hkw)
    as (out' & E' & Ho' & Wf' & G').
  rewrite Hpad in Ho, G. rewrite !Nat.add_0_r in Ho, G.
  change (0 / 2) with 0 in G.
  assert (out' = out).
  { apply tensor_ext; [exact Wf' | exact (conv_forward_wf E) | congruence |].
    intros idx Hbd. rewrite Ho' in Hbd.
    apply in_bounds4_inv in Hbd as (n & o & i & j & -> & Hn & Hoo & Hi & Hj).
    rewrite (G' n o i j Hn Hoo Hi Hj), (G n o i j Hn Hoo Hi Hj). reflexivity. }
  subst out'. exists out. split; [exact E|]. split; [exact E' | exact Ho].
Qed.

End ConvolutionAgreement.

Module ConvAgreementExample.

Lemma conv_forward_implementations_agree_witness :
  exists out,
    operators.conv.forward ConvForwardExample.conv1x2 ConvForwardExample.image
      ConvForwardExample.kernel ConvForwardExample.bias = Ok out
    /\ operations.conv_forward ConvForwardExample.image ConvForwardExample.kernel
         ConvForwardExample.bias ConvForwardExample.conv1x2 = Ok out.
Proof.
  destruct (@conv_forward_implementations_agree ConvForwardExample.conv1x2
              ConvForwardExample.image ConvForwardExample.kernel ConvForwardExample.bias
              1 1 1 2 eq_refl eq_refl eq_refl eq_refl eq_refl
              ltac:(lia) ltac:(cbn; lia) ltac:(lia) ltac:(discriminate) eq_refl
              ltac:(cbn; lia) ltac:(cbn; lia))
    as (out & E & E' & _).
  exists out. split; [exact E | exact E'].
Defined.

End ConvAgreementExample.

(* ===================================================================== *)
(** * The gradient of the pooling layer *)
(* ===================================================================== *)

Section FiveAxes.
Context {A : Type} `{Dflt A}.

Lemma in_bounds5 (a b c d e i j k l m : nat) :
  i < a -> j < b -> k < c -> l < d -> m < e ->
  in_bounds [a; b; c; d; e] [i; j; k; l; m] = true.
Proof. intros. cbn [in_bounds]. rewrite !(proj2 (Nat.ltb_lt _ _)) by lia. reflexivity. Qed.

Lemma broadcast_shapes_axis2 (n c k h w : nat) :
  broadcast_shapes [n; c; k; h; w] [n; c; 1; h; w] = Some [n; c; k; h; w].
Proof.
  unfold broadcast_shapes. cbn. rewrite !Nat.eqb_refl.
  destruct (k =? 1) eqn:E; [apply Nat.eqb_eq in E; subst|]; reflexivity.
Qed.

Lemma bcast_idx_axis2 (n c h w i j t y x : nat) :
  i < n -> j < c -> y < h -> x < w ->
  bcast_idx [n; c; 1; h; w] [i; j; t; y; x] = [i; j; 0; y; x].
Proof.
  intros Hi Hj Hy Hx. unfold bcast_idx. cbn.
  destruct (Nat.eqb_spec n 1) as [->|_]; destruct (Nat.eqb_spec c 1) as [->|_];
    destruct (Nat.eqb_spec h 1) as [->|_]; destruct (Nat.eqb_spec w 1) as [->|_];
    repeat f_equal; lia.
Qed.

(** An operation of a 5-D array and one whose third axis has length 1. *)
Lemma broadcast2_axis2 {B D : Type} `{Dflt B} `{Dflt D} (f : A -> B -> D)
  (a : ndarray A) (b : ndarray B) (n c k h w : nat) :
  shape a = [n; c; k; h; w] -> shape b = [n; c; 1; h; w] ->
  exists r, broadcast2 f a b = Ok r /\ shape r = [n; c; k; h; w] /\ wf r
    /\ forall i j t y x, i < n -> j < c -> t < k -> y < h -> x < w ->
         get r [i; j; t; y; x] = f (get a [i; j; t; y; x]) (get b [i; j; 0; y; x]).
Proof.
  intros Ha Hb. unfold broadcast2. rewrite Ha, Hb, broadcast_shapes_axis2.
  eexists. split; [reflexivity|]. split; [reflexivity|]. split; [apply build_wf|].
  intros i j t y x Hi Hj Ht Hy Hx. rewrite get_build by (apply in_bounds5; assumption).
  rewrite bcast_idx_in_bounds by (apply in_bounds5; assumption).
  rewrite bcast_idx_axis2 by assumption. reflexivity.
Qed.

(** A reduction over the third axis that keeps it with length 1. *)
Lemma get_reduce_axis2 {B : Type} `{Dflt B} (f : list A -> B) (a : ndarray A)
  (n c k h w i j y x : nat) :
  shape a = [n; c; k; h; w] -> i < n -> j < c -> y < h -> x < w ->
  shape (reduce_axes f [2] true a) = [n; c; 1; h; w]
  /\ get (reduce_axes f [2] true a) [i; j; 0; y; x]
     = f (map (fun t => get a [i; j; t; y; x]) (seq 0 k)).
Proof.
  intros Ha Hi Hj Hy Hx. unfold reduce_axes. rewrite Ha.
  cbn [keep_axes pick_axes drop_axes existsb Nat.eqb orb]. split; [reflexivity|].
  rewrite get_build by (apply in_bounds5; lia).
  unfold indices. rewrite map_map. replace (size_of [k]) with k by (cbn; lia).
  f_equal. apply map_ext. intro t.
  cbn [drop_axes merge_idx existsb Nat.eqb orb hd tl unravel size_of fold_right].
  rewrite Nat.div_1_r. reflexivity.
Qed.

Lemma reshape_4_axis2 (a : ndarray A) (n c q : nat) :
  n * c * q <> 0 -> length (data a) mod (n * c * q) = 0 ->
  reshape a [Z.of_nat n; Z.of_nat c; -1; Z.of_nat q]%Z
  = Ok (mk_ndarray [n; c; length (data a) / (n * c * q); q] (data a)).
Proof.
  intros Hnz Hm. unfold reshape.
  assert (E1 : forall k, (Z.of_nat k <? -1)%Z = false) by (intro; apply Z.ltb_ge; lia).
  assert (E2 : forall k, (Z.of_nat k =? -1)%Z = false) by (intro; apply Z.eqb_neq; lia).
  cbn [existsb filter]. rewrite !E1, !E2.
  change ((-1 <? -1)%Z) with false. change ((-1 =? -1)%Z) with true.
  cbn [orb negb filter length map fold_right]. rewrite !E2.
  rewrite !Nat2Z.id, Nat.mul_1_r, !Nat.mul_assoc.
  destruct (Nat.eqb_spec (n * c * q) 0); [contradiction|].
  rewrite Hm. cbn [Nat.eqb negb orb]. reflexivity.
Qed.

End FiveAxes.

Section AddWindow.
Context {S : Scalar}.

(** [a[:, :, oy:oy+k_h, ox:ox+k_w] += v] for a window inside the image. *)
Lemma add_slice_window (a v : tensor) (b c h w oy ox k_h k_w : nat) :
  shape a = [b; c; h; w] -> shape v = [b; c; k_h; k_w] ->
  oy + k_h <= h -> ox + k_w <= w ->
  exists r,
    add_slice a [None; None;
                 Some (Z.of_nat oy, Z.of_nat (oy + k_h));
                 Some (Z.of_nat ox, Z.of_nat (ox + k_w))] v = Ok r
    /\ shape r = [b; c; h; w]
    /\ forall n ch y x, n < b -> ch < c -> y < h -> x < w ->
         get r [n; ch; y; x]
         = if (oy <=? y) && (y <? oy + k_h) && ((ox <=? x) && (x <? ox + k_w))
           then s_add (get a [n; ch; y; x]) (get v [n; ch; y - oy; x - ox])
           else get a [n; ch; y; x].
Proof.
  intros Ha Hv Hy Hx. unfold add_slice. rewrite Ha, Hv.
  cbn [combine map slice_range snd]. rewrite !slice_bound_nat.
  replace (Nat.min oy h) with oy by lia. replace (Nat.min (oy + k_h) h - oy) with k_h by lia.
  replace (Nat.min ox w) with ox by lia. replace (Nat.min (ox + k_w) w - ox) with k_w by lia.
  rewrite broadcast_shapes_refl.
  destruct (list_eq_dec Nat.eq_dec [b; c; k_h; k_w] [b; c; k_h; k_w]) as [_|Hne];
    [|contradiction Hne; reflexivity].
  eexists. split; [reflexivity|]. split; [reflexivity|].
  intros n ch y x Hn Hch Hyy Hxx. rewrite get_build by (apply in_bounds4; assumption).
  cbn [combine forallb map]. cbn [Nat.leb Nat.add]. rewrite !Nat.sub_0_r.
  rewrite (proj2 (Nat.ltb_lt n b)) by lia. rewrite (proj2 (Nat.ltb_lt ch c)) by lia.
  cbn [andb]. rewrite andb_true_r.
  destruct ((oy <=? y) && (y <? oy + k_h) && ((ox <=? x) && (x <? ox + k_w))) eqn:E;
    [|reflexivity].
  apply andb_true_iff in E as [E1 E2]. apply andb_true_iff in E1 as [E1 E1'].
  apply andb_true_iff in E2 as [E2 E2'].
  apply Nat.leb_le in E1, E2. apply Nat.ltb_lt in E1', E2'.
  rewrite bcast_idx_in_bounds by (apply in_bounds4; lia). reflexivity.
Qed.

End AddWindow.

Section AccumulatingLoop.
Local Open Scope R_scope.
Context {X : Type}.
Variable step : @tensor real_scalar -> X -> result (@tensor real_scalar).
Variable contrib : X -> list nat -> R.
Variable sh : list nat.

(** A loop whose every round adds its own contribution to each cell leaves
    in each cell what it held plus the contributions of all rounds. *)
Lemma foldM_adds : forall (xs : list X),
  (forall acc x, In x xs -> shape acc = sh ->
     exists acc', step acc x = Ok acc' /\ shape acc' = sh
       /\ forall cell, in_bounds sh cell = true ->
            get acc' cell = get acc cell + contrib x cell) ->
  forall acc, shape acc = sh ->
  exists r, foldM step xs acc = Ok r /\ shape r = sh
    /\ forall cell, in_bounds sh cell = true ->
         get r cell
         = get acc cell + sum_list (S := real_scalar) (map (fun x => contrib x cell) xs).
Proof.
  induction xs as [|x xs IH]; intros Hstep acc Hacc.
  - exists acc. split; [reflexivity|]. split; [exact Hacc|].
    intros cell _. cbn [map]. symmetry. apply Rplus_0_r.
  - destruct (Hstep acc x (or_introl eq_refl) Hacc) as (acc' & E & Hsh' & G).
    destruct (IH (fun a y Hy => Hstep a y (or_intror Hy)) acc' Hsh') as (r & Er & Hr & Gr).
    exists r. cbn [foldM]. rewrite E. cbn [bind]. split; [exact Er|]. split; [exact Hr|].
    intros cell Hc. rewrite (Gr cell Hc), (G cell Hc). cbn [map]. rewrite sum_list_cons.
    apply Rplus_assoc.
Qed.

End AccumulatingLoop.

Section ScatterPatches.

Lemma sum_list_combine_seq {B : Type} (F : nat * B -> R) (l : list B) (d : B) :
  sum_list (S := real_scalar) (map F (combine (seq 0 (length l)) l))
  = sum_upto (S := real_scalar) (length l) (fun p => F (p, nth p l d)).
Proof.
  rewrite (combine_seq_nth d), map_map. unfold sum_upto. f_equal.
  apply map_ext. intro p. rewrite Nat.sub_0_r. reflexivity.
Qed.

(** The loop that adds the patch gradients back: a cell of the image
    collects, from every window that contains it, the entry of the patch of
    that window at the cell's place in the window. *)
Lemma scatter_patches_entries (buf pg : @tensor real_scalar)
  (N c h w s k_h k_w o_h o_w : nat) :
  shape buf = [N; c; h; w] -> shape pg = [N; c; k_h * k_w; o_h * o_w] ->
  (forall i, i < o_h -> s * i + k_h <= h) ->
  (forall j, j < o_w -> s * j + k_w <= w) ->
  exists r,
    operations.scatter_patches buf pg
      (map (fun i => s * i) (seq 0 o_h)) (map (fun j => s * j) (seq 0 o_w)) k_h k_w
      (map Z.of_nat [N; c; k_h; k_w]) = Ok r
    /\ shape r = [N; c; h; w]
    /\ forall n ch y x, n < N -> ch < c -> y < h -> x < w ->
         get r [n; ch; y; x]
         = Rplus (get buf [n; ch; y; x])
             (sum_upto (S := real_scalar) o_h (fun i =>
                sum_upto (S := real_scalar) o_w (fun j =>
                  if (s * i <=? y) && (y <? s * i + k_h) && ((s * j <=? x) && (x <? s * j + k_w))
                  then get pg [n; ch; (y - s * i) * k_w + (x - s * j); i * o_w + j]
                  else 0%R))).
Proof.
  intros Hbuf Hpg Hh Hw.
  set (hs := map (fun i => s * i) (seq 0 o_h)). set (ws := map (fun j => s * j) (seq 0 o_w)).
  assert (Lhs : length hs = o_h) by (unfold hs; rewrite length_map, length_seq; reflexivity).
  assert (Lws : length ws = o_w) by (unfold ws; rewrite length_map, length_seq; reflexivity).
  assert (Lc : length (list_prod hs ws) = o_h * o_w) by (rewrite length_prod; lia).
  assert (Hnth : forall i j, i < o_h -> j < o_w ->
             nth (i * o_w + j) (list_prod hs ws) (0, 0) = (s * i, s * j)).
  { intros i j Hi Hj. rewrite <- Lws at 1. rewrite nth_list_prod by lia. cbn [fst snd].
    unfold hs, ws.
    rewrite (nth_indep _ 0 (s * 0)), (map_nth (fun i => s * i)), seq_nth
      by (rewrite ?length_map, ?length_seq; lia).
    rewrite (nth_indep _ 0 (s * 0)), (map_nth (fun i => s * i)), seq_nth
      by (rewrite ?length_map, ?length_seq; lia).
    reflexivity. }
  set (contrib := fun (x : nat * (nat * nat)) (cell : list nat) =>
         let p := fst x in let oy := fst (snd x) in let ox := snd (snd x) in
         let y := nth 2 cell 0 in let x' := nth 3 cell 0 in
         if (oy <=? y) && (y <? oy + k_h) && ((ox <=? x') && (x' <? ox + k_w))
         then get pg [nth 0 cell 0; nth 1 cell 0; (y - oy) * k_w + (x' - ox); p]
         else 0%R).
  unfold operations.scatter_patches. cbv zeta. fold hs ws.
  match goal with |- context [foldM ?f _ buf] => set (step := f) end.
  destruct (@foldM_adds _ step contrib [N; c; h; w]
              (combine (seq 0 (length (list_prod hs ws))) (list_prod hs ws)))
    with (acc := buf) as (r & Er & Hr & Gr); [|exact Hbuf|].
  { intros acc [p [oy ox]] Hin Hacc.
    rewrite (combine_seq_nth (0, 0)) in Hin.
    apply in_map_iff in Hin as (p' & Ep & Hp). apply in_seq in Hp.
    rewrite Nat.sub_0_r in Ep. injection Ep as <- Ec.
    rewrite Lc in Hp.
    assert (How : o_w <> 0) by (intros ->; lia).
    assert (Hi : p' / o_w < o_h) by (apply Nat.Div0.div_lt_upper_bound; lia).
    assert (Hj : p' mod o_w < o_w) by (apply Nat.mod_upper_bound; exact How).
    pose proof (Hnth _ _ Hi Hj) as Hc.
    replace (p' / o_w * o_w + p' mod o_w) with p' in Hc
      by (rewrite (Nat.div_mod_eq p' o_w) at 1; ring).
    rewrite Ec in Hc. injection Hc as -> ->.
    unfold step. rewrite Hpg. cbn [length Nat.sub].
    unfold index_axis. rewrite Hpg. cbn [nth].
    rewrite (proj2 (Nat.ltb_lt p' (o_h * o_w))) by lia. cbn [bind].
    cbn [drop_axes existsb Nat.eqb orb]. unfold build at 1.
    rewrite reshape_back
      by (rewrite length_map, length_seq; cbn [size_of fold_right]; ring).
    cbn [bind].
    set (g := fun d : list nat => get pg (firstn 3 d ++ p' :: skipn 3 d)).
    set (g' := mk_ndarray [N; c; k_h; k_w] _).
    destruct (add_slice_window (a := acc) (v := g') (oy := s * (p' / o_w))
                (ox := s * (p' mod o_w)) Hacc eq_refl (Hh _ Hi) (Hw _ Hj))
      as (acc' & Eacc & Hacc' & Gacc).
    exists acc'. split; [exact Eacc|]. split; [exact Hacc'|].
    intros cell Hb. apply in_bounds4_inv in Hb as (n & ch & y & x & -> & Hn & Hch & Hy & Hx).
    rewrite (Gacc n ch y x Hn Hch Hy Hx). unfold contrib. cbn [fst snd nth].
    destruct ((s * (p' / o_w) <=? y) && (y <? s * (p' / o_w) + k_h)
              && ((s * (p' mod o_w) <=? x) && (x <? s * (p' mod o_w) + k_w))) eqn:E;
      [|symmetry; apply Rplus_0_r].
    apply andb_true_iff in E as [E1 E2]. apply andb_true_iff in E1 as [E1 E1'].
    apply andb_true_iff in E2 as [E2 E2'].
    apply Nat.leb_le in E1, E2. apply Nat.ltb_lt in E1', E2'.
    change (@s_add real_scalar) with Rplus. f_equal.
    set (dy := y - s * (p' / o_w)). set (dx := x - s * (p' mod o_w)).
    assert (Ht : dy * k_w + dx < k_h * k_w) by (apply offset_lt; unfold dy, dx; lia).
    transitivity (get (build [N; c; k_h * k_w] g) [n; ch; dy * k_w + dx]).
    { unfold g', get, build. cbn [shape data ravel size_of fold_right]. f_equal. ring. }
    rewrite get_build by (apply in_bounds3; assumption). reflexivity. }
  exists r. split; [exact Er|]. split; [exact Hr|].
  intros n ch y x Hn Hch Hy Hx.
  rewrite (Gr [n; ch; y; x] (in_bounds4 Hn Hch Hy Hx)). f_equal.
  rewrite (sum_list_combine_seq (fun x0 => contrib x0 [n; ch; y; x]) (list_prod hs ws) (0, 0)).
  rewrite Lc, sum_upto_mul.
  apply sum_upto_ext. intros i Hi. apply sum_upto_ext. intros j Hj.
  rewrite (Hnth i j Hi Hj). unfold contrib. cbn [fst snd nth]. reflexivity.
Qed.

End ScatterPatches.

Section PoolBackward.
Import pool_params.

Lemma get_np_pad_none {S : Scalar} (a : tensor) (b c h w n ch y x : nat) :
  shape a = [b; c; h; w] -> n < b -> ch < c -> y < h -> x < w ->
  get (np_pad s_zero a [(0, 0); (0, 0); (0, 0); (0, 0)]) [n; ch; y; x] = get a [n; ch; y; x].
Proof.
  intros Ha Hn Hch Hy Hx.
  rewrite (get_np_pad4 s_zero (p := 0) Ha) by lia.
  cbn [Nat.leb Nat.add andb]. rewrite !(proj2 (Nat.ltb_lt _ _)) by lia.
  rewrite !Nat.sub_0_r. reflexivity.
Qed.

Lemma floordiv_nat (n k s : nat) :
  s <> 0 -> k <= n ->
  py_floordiv (Z.of_nat n - Z.of_nat k + Z.of_nat 0) (Z.of_nat s) = Ok (Z.of_nat ((n - k) / s)).
Proof.
  intros Hs Hk. unfold py_floordiv.
  destruct (Z.eqb_spec (Z.of_nat s) 0) as [E|_]; [lia|]. f_equal.
  replace (Z.of_nat n - Z.of_nat k + Z.of_nat 0)%Z with (Z.of_nat (n - k)) by lia.
  rewrite <- Nat2Z.inj_div. reflexivity.
Qed.

(** The gradient a patch cell sends back: for 'max', the output gradient of
    its window if the cell attains the maximum of the window, and 0
    otherwise; for 'avg', the output gradient divided by the kernel area. *)
Definition pool_share (pp : pool_params.t) (input out_grad : @tensor real_scalar)
  (n ch y x i j : nat) : R :=
  if String.eqb (pool_type pp) "max"
  then if s_eqb (get input [n; ch; y; x])
                (max_list (pool_window input (stride pp) (pool_height pp) (pool_width pp)
                             n ch i j))
       then get out_grad [n; ch; i; j] else 0%R
  else Rmult (Rdiv 1 (IZR (Z.of_nat (pool_height pp * pool_width pp))))
             (get out_grad [n; ch; i; j]).

Lemma pool_backward_entries (pp : pool_params.t) (out_grad input : @tensor real_scalar)
  (N c h w : nat) :
  shape input = [N; c; h; w] -> 1 <= N -> 1 <= c ->
  stride pp <> 0 -> pad pp = 0 ->
  1 <= pool_height pp <= h -> 1 <= pool_width pp <= w ->
  pool_type pp = "max"%string \/ pool_type pp = "avg"%string ->
  let o_h := (h - pool_height pp) / stride pp + 1 in
  let o_w := (w - pool_width pp) / stride pp + 1 in
  shape out_grad = [N; c; o_h; o_w] ->
  exists in_grad,
    operators.pool.backward pp out_grad input = Ok in_grad
    /\ shape in_grad = [N; c; h; w]
    /\ forall n ch y x, n < N -> ch < c -> y < h -> x < w ->
         get in_grad [n; ch; y; x]
         = sum_upto (S := real_scalar) o_h (fun i =>
             sum_upto (S := real_scalar) o_w (fun j =>
               if (stride pp * i <=? y) && (y <? stride pp * i + pool_height pp)
                  && ((stride pp * j <=? x) && (x <? stride pp * j + pool_width pp))
               then pool_share pp input out_grad n ch y x i j
               else 0%R)).
Proof.
  intros Hin HN Hc Hs Hpad Hkh Hkw Hty o_h o_w Hog.
  unfold operators.pool.backward. rewrite Hin, Hpad.
  rewrite (floordiv_nat Hs (proj2 Hkh)), (floordiv_nat Hs (proj2 Hkw)). cbn [bind]. cbv zeta.
  replace (1 + Z.of_nat ((h - pool_height pp) / stride pp))%Z with (Z.of_nat o_h)
    by (unfold o_h; lia).
  replace (1 + Z.of_nat ((w - pool_width pp) / stride pp))%Z with (Z.of_nat o_w)
    by (unfold o_w; lia).
  change (0 / 2) with 0. change (0 - 0) with 0.
  set (X_pad := np_pad s_zero input [(0, 0); (0, 0); (0, 0); (0, 0)]).
  unfold range. rewrite !Nat2Z.id. unfold operators.functional_img2col.
  set (k_h := pool_height pp) in *. set (k_w := pool_width pp) in *.
  set (s := stride pp) in *.
  assert (HX : shape X_pad = [N; c; h; w]).
  { unfold X_pad. rewrite (np_pad_shape4 (0, 0) (0, 0) Hin). cbn [fst snd].
    rewrite !Nat.add_0_r. reflexivity. }
  assert (Hwin : forall (n k i : nat), k <= n -> i < (n - k) / s + 1 -> s * i + k <= n).
  { intros n k i Hk Hi.
    pose proof (@window_inside n k 0 s i Hs ltac:(lia)
                  ltac:(rewrite Nat.add_0_r; exact Hi)) as Hw'. lia. }
  assert (Hwh : forall i, i < o_h -> s * i + k_h <= h)
    by (intros i Hi; apply Hwin; [lia | exact Hi]).
  assert (Hww : forall j, j < o_w -> s * j + k_w <= w)
    by (intros j Hj; apply Hwin; [lia | exact Hj]).
  destruct (free_img2col_entries (X := X_pad) (s := s) (k_h := k_h) (k_w := k_w)
              (o_h := o_h) (o_w := o_w) HX HN)
    as (P & EP & HP & WfP & GP); [unfold o_h; lia | unfold o_w; lia | exact Hwh | exact Hww |].
  rewrite EP. cbn [bind].
  unfold wf in WfP. rewrite HP in WfP. cbn [size_of fold_right] in WfP.
  assert (Hnz : N * c * o_h * o_w <> 0) by (unfold o_h, o_w; nia).
  assert (Hlen : length (data P) = k_h * k_w * (N * c * o_h * o_w)) by (rewrite WfP; ring).
  assert (Hmod : length (data P) mod (N * c * o_h * o_w) = 0)
    by (rewrite Hlen; apply Nat.Div0.mod_mul).
  rewrite (reshape_5_middle Hnz Hmod). cbn [bind].
  rewrite Hlen, Nat.div_mul by exact Hnz.
  set (ip := mk_ndarray [N; c; k_h * k_w; o_h; o_w] (data P)).
  assert (Hkw0 : k_w <> 0) by lia.
  assert (Gip : forall n ch t i j, n < N -> ch < c -> t < k_h * k_w -> i < o_h -> j < o_w ->
             get ip [n; ch; t; i; j]
             = get input [n; ch; i * s + t / k_w; j * s + t mod k_w]).
  { intros n ch t i j Hn Hch Ht Hi Hj.
    assert (Hdy : t / k_w < k_h) by (apply Nat.Div0.div_lt_upper_bound; lia).
    assert (Hdx : t mod k_w < k_w) by (apply Nat.mod_upper_bound; exact Hkw0).
    pose proof (Hwh i Hi). pose proof (Hww j Hj).
    rewrite <- (get_np_pad_none Hin Hn Hch (y := i * s + t / k_w) (x := j * s + t mod k_w))
      by lia.
    fold X_pad. rewrite (Nat.mul_comm i s), (Nat.mul_comm j s).
    rewrite <- (GP n ch (t / k_w) (t mod k_w) i j Hn Hch Hdy Hdx Hi Hj).
    unfold ip, get. cbn [shape data]. rewrite HP. cbn [ravel size_of fold_right]. f_equal.
    pose proof (Nat.div_mod_eq t k_w) as Et.
    replace ((ch * k_h + t / k_w) * k_w + t mod k_w)
      with (ch * (k_h * k_w) + (k_w * (t / k_w) + t mod k_w)) by ring.
    rewrite <- Et. ring. }
  (* the gradient of each patch cell *)
  set (og5 := mk_ndarray [N; c; 1; o_h; o_w] (data out_grad)).
  assert (Eog : operations.newaxis2 out_grad = Ok og5)
    by (unfold operations.newaxis2; rewrite Hog; reflexivity).
  assert (Gog : forall n ch i j, get og5 [n; ch; 0; i; j] = get out_grad [n; ch; i; j]).
  { intros n ch i j. unfold og5, get. cbn [shape data]. rewrite Hog.
    cbn [ravel size_of fold_right]. f_equal. ring. }
  assert (Hgrad : exists ipg : @tensor real_scalar,
             (if String.eqb (pool_type pp) "max" then
                m <- np_max [2] true ip ;;
                mask <- broadcast2 s_eqb ip m ;;
                og <- operations.newaxis2 out_grad ;;
                broadcast2 (fun (b : bool) g => s_mul (of_bool b) g) mask og
              else if String.eqb (pool_type pp) "avg" then
                scale <- (if k_h * k_w =? 0 then Raise ZeroDivisionError
                          else Ok (s_div s_one (s_of_Z (Z.of_nat (k_h * k_w))))) ;;
                og <- operations.newaxis2 out_grad ;;
                r <- operations.repeat_axis2 og (k_h * k_w) ;;
                Ok (map_nd (s_mul scale) r)
              else Raise UnboundLocalError) = Ok ipg
             /\ shape ipg = [N; c; k_h * k_w; o_h; o_w] /\ wf ipg
             /\ forall n ch t i j, n < N -> ch < c -> t < k_h * k_w -> i < o_h -> j < o_w ->
                  get ipg [n; ch; t; i; j]
                  = pool_share pp input out_grad n ch (i * s + t / k_w) (j * s + t mod k_w) i j).
  { unfold pool_share. fold k_h k_w s.
    destruct Hty as [Ety | Ety]; rewrite Ety; cbn [String.eqb Ascii.eqb Bool.eqb].
    - unfold np_max, axes_ok. cbn [shape ip length forallb Nat.ltb Nat.leb andb negb].
      cbn [pick_axes existsb Nat.eqb orb].
      change (match k_h * k_w with 0 => true | Datatypes.S _ => false end)
        with (0 =? k_h * k_w).
      rewrite (proj2 (Nat.eqb_neq 0 (k_h * k_w))) by nia. cbn [orb bind].
      set (m := reduce_axes max_list [2] true ip).
      assert (Hm : shape m = [N; c; 1; o_h; o_w]) by reflexivity.
      destruct (broadcast2_axis2 s_eqb (a := ip) (b := m) eq_refl Hm)
        as (mask & Emask & Hmask & _ & Gmask).
      rewrite Emask. cbn [bind]. rewrite Eog. cbn [bind].
      destruct (broadcast2_axis2 (fun (b : bool) g => s_mul (of_bool b) g)
                  (a := mask) (b := og5) Hmask eq_refl)
        as (ipg & Eipg & Hipg & Wfipg & Gipg).
      exists ipg. split; [exact Eipg|]. split; [exact Hipg|]. split; [exact Wfipg|].
      intros n ch t i j Hn Hch Ht Hi Hj.
      rewrite (Gipg n ch t i j Hn Hch Ht Hi Hj), (Gmask n ch t i j Hn Hch Ht Hi Hj), Gog.
      destruct (get_reduce_axis2 max_list (a := ip) eq_refl Hn Hch Hi Hj) as [_ Gm].
      fold m in Gm. rewrite Gm, (Gip n ch t i j Hn Hch Ht Hi Hj).
      replace (map (fun t0 => get ip [n; ch; t0; i; j]) (seq 0 (k_h * k_w)))
        with (pool_window input s k_h k_w n ch i j).
      2:{ unfold pool_window, indices. rewrite map_map.
          replace (size_of [k_h; k_w]) with (k_h * k_w) by (cbn [size_of fold_right]; ring).
          apply map_ext_in. intros t0 Ht0. apply in_seq in Ht0.
          cbn [unravel nth size_of fold_right]. rewrite !Nat.mul_1_r, !Nat.div_1_r.
          symmetry. apply Gip; try assumption. lia. }
      unfold of_bool.
      destruct (s_eqb _ _); cbn [s_mul s_one s_zero real_scalar];
        [apply Rmult_1_l | apply Rmult_0_l].
    - rewrite (proj2 (Nat.eqb_neq (k_h * k_w) 0)) by nia. cbn [bind].
      rewrite Eog. cbn [bind]. unfold operations.repeat_axis2. cbn [shape og5 bind].
      eexists. split; [reflexivity|]. split; [reflexivity|].
      split; [apply map_nd_wf, build_wf|].
      intros n ch t i j Hn Hch Ht Hi Hj.
      rewrite get_map_nd; [|apply build_wf|apply in_bounds5; assumption].
      rewrite get_build by (apply in_bounds5; assumption). cbn [nth]. rewrite Gog.
      reflexivity. }
  destruct Hgrad as (ipg & Eipg & Hipg & Wfipg & Gipg).
  rewrite Eipg. cbn [bind].
  (* the patches, one column per window *)
  replace (Z.of_nat o_h * Z.of_nat o_w)%Z with (Z.of_nat (o_h * o_w)) by lia.
  unfold wf in Wfipg. rewrite Hipg in Wfipg. cbn [size_of fold_right] in Wfipg.
  assert (Hnz' : N * c * (o_h * o_w) <> 0) by (unfold o_h, o_w; nia).
  assert (Hlen' : length (data ipg) = k_h * k_w * (N * c * (o_h * o_w)))
    by (rewrite Wfipg; ring).
  assert (Hmod' : length (data ipg) mod (N * c * (o_h * o_w)) = 0)
    by (rewrite Hlen'; apply Nat.Div0.mod_mul).
  rewrite (reshape_4_axis2 Hnz' Hmod'). cbn [bind].
  rewrite Hlen', Nat.div_mul by exact Hnz'.
  set (pg := mk_ndarray [N; c; k_h * k_w; o_h * o_w] (data ipg)).
  assert (Gpg : forall n ch t i j, get pg [n; ch; t; i * o_w + j] = get ipg [n; ch; t; i; j]).
  { intros n ch t i j. unfold pg, get. cbn [shape data]. rewrite Hipg.
    cbn [ravel size_of fold_right]. f_equal. ring. }
  rewrite HX.
  destruct (scatter_patches_entries (buf := np_zeros [N; c; h; w]) (pg := pg)
              (s := s) (k_h := k_h) (k_w := k_w) (o_h := o_h) (o_w := o_w)
              eq_refl eq_refl Hwh Hww) as (r & Er & Hr & Gr).
  rewrite Er. cbn [bind].
  destruct (slice_window (a := r) (oy := 0) (ox := 0) (k_h := h) (k_w := w) Hr
              (le_n _) (le_n _)) as [Hsl Gsl].
  eexists. split; [reflexivity|]. split; [exact Hsl|].
  intros n ch y x Hn Hch Hy Hx.
  rewrite (Gsl n ch y x Hn Hch Hy Hx). cbn [Nat.add].
  rewrite (Gr n ch y x Hn Hch Hy Hx).
  unfold np_zeros. rewrite get_build by (apply in_bounds4; assumption).
  cbn [s_zero real_scalar]. rewrite Rplus_0_l.
  apply sum_upto_ext. intros i Hi. apply sum_upto_ext. intros j Hj.
  destruct ((s * i <=? y) && (y <? s * i + k_h) && ((s * j <=? x) && (x <? s * j + k_w)))
    eqn:E; [|reflexivity].
  apply andb_true_iff in E as [E1 E2]. apply andb_true_iff in E1 as [E1 E1'].
  apply andb_true_iff in E2 as [E2 E2'].
  apply Nat.leb_le in E1, E2. apply Nat.ltb_lt in E1', E2'.
  set (dy := y - s * i). set (dx := x - s * j).
  assert (Ht : dy * k_w + dx < k_h * k_w) by (apply offset_lt; unfold dy, dx; lia).
  rewrite Gpg, (Gipg n ch _ i j Hn Hch Ht Hi Hj).
  replace ((dy * k_w + dx) / k_w) with dy
    by (apply (Nat.div_unique _ _ _ dx); [unfold dx; lia | ring]).
  replace ((dy * k_w + dx) mod k_w) with dx
    by (apply (Nat.mod_unique _ _ dy); [unfold dx; lia | ring]).
  f_equal; unfold dy, dx; lia.
Qed.

End PoolBackward.

Section PoolBackwardTheorem.
Import pool_params.

Lemma pool_backward_same_body {S : Scalar} (pp : pool_params.t) (out_grad input : tensor)
  (N c h w : nat) :
  shape input = [N; c; h; w] -> stride pp <> 0 -> pad pp = 0 ->
  pool_height pp <= h -> pool_width pp <= w ->
  operations.pool_backward out_grad input pp = operators.pool.backward pp out_grad input.
Proof.
  intros Hin Hs Hpad Hkh Hkw.
  unfold operations.pool_backward, operators.pool.backward. rewrite Hin, Hpad.
  rewrite (out_size_nat Hs Hkh), (out_size_nat Hs Hkw).
  rewrite (floordiv_nat Hs Hkh), (floordiv_nat Hs Hkw). cbn [bind]. cbv zeta.
  replace (1 + Z.of_nat ((h - pool_height pp) / stride pp))%Z
    with (Z.of_nat ((h - pool_height pp) / stride pp + 1)) by lia.
  replace (1 + Z.of_nat ((w - pool_width pp) / stride pp))%Z
    with (Z.of_nat ((w - pool_width pp) / stride pp + 1)) by lia.
  reflexivity.
Qed.

(** X22: without padding, the backward pass of pooling (the method and the
    free function alike) returns a gradient of the shape of the input; on
    the real numbers its entry [(n, ch, y, x)] is the sum, over the windows
    [(i, j)] that contain [(y, x)], of the share of the window: for 'max',
    the output gradient [(n, ch, i, j)] if the input entry equals the
    maximum of the window and 0 otherwise, every entry that ties at the
    maximum receiving the whole gradient; for 'avg', the output gradient
    divided by the kernel area. *)
Theorem pool_backward_routes_gradient (pp : pool_params.t)
  (out_grad input : @tensor real_scalar) (N c h w : nat) :
  shape input = [N; c; h; w] -> 1 <= N -> 1 <= c ->
  stride pp <> 0 -> pad pp = 0 ->
  1 <= pool_height pp <= h -> 1 <= pool_width pp <= w ->
  pool_type pp = "max"%string \/ pool_type pp = "avg"%string ->
  let o_h := (h - pool_height pp) / stride pp + 1 in
  let o_w := (w - pool_width pp) / stride pp + 1 in
  shape out_grad = [N; c; o_h; o_w] ->
  exists in_grad,
    operators.pool.backward pp out_grad input = Ok in_grad
    /\ operations.pool_backward out_grad input pp = Ok in_grad
    /\ shape in_grad = shape input
    /\ forall n ch y x, n < N -> ch < c -> y < h -> x < w ->
         get in_grad [n; ch; y; x]
         = sum_upto (S := real_scalar) o_h (fun i =>
             sum_upto (S := real_scalar) o_w (fun j =>
               if (stride pp * i <=? y) && (y <? stride pp * i + pool_height pp)
                  && ((stride pp * j <=? x) && (x <? stride pp * j + pool_width pp))
               then pool_share pp input out_grad n ch y x i j
               else 0%R)).
Proof.
  intros Hin HN Hc Hs Hpad Hkh Hkw Hty o_h o_w Hog.
  destruct (pool_backward_entries Hin HN Hc Hs Hpad Hkh Hkw Hty Hog)
    as (in_grad & E & Hsh & G).
  exists in_grad. split; [exact E|]. split.
  - rewrite (pool_backward_same_body out_grad Hin Hs Hpad (proj2 Hkh) (proj2 Hkw)). exact E.
  - split; [rewrite Hin; exact Hsh | exact G].
Qed.

End PoolBackwardTheorem.

Module PoolBackwardExample.

Definition out_grad : @tensor real_scalar := mk_ndarray [1; 1; 1; 1] [5%R].

Lemma pool_backward_routes_gradient_witness :
  exists in_grad,
    operators.pool.backward PoolForwardExample.max2x2 out_grad PoolForwardExample.image
    = Ok in_grad
    /\ operations.pool_backward out_grad PoolForwardExample.image PoolForwardExample.max2x2
       = Ok in_grad
    /\ shape in_grad = [1; 1; 2; 2].
Proof.
  destruct (@pool_backward_routes_gradient PoolForwardExample.max2x2 out_grad
              PoolForwardExample.image 1 1 2 2 eq_refl
              ltac:(lia) ltac:(lia) ltac:(discriminate) eq_refl
              ltac:(cbn; lia) ltac:(cbn; lia) (or_introl eq_refl) eq_refl)
    as (in_grad & E & E' & Hs & _).
  exists in_grad. split; [exact E|]. split; [exact E' | exact Hs].
Defined.

End PoolBackwardExample.
